(** * BusTub storage core: clock replacer, buffer pool manager and
      linear-probe hash table, embedded from the C++ sources

    - [src/buffer/clock_replacer.cpp]
    - [src/buffer/buffer_pool_manager.cpp]
    - [src/container/hash/linear_probe_hash_table.cpp]

    Loops that the C++ code writes as [while] are embedded as fuelled
    fixpoints returning an [outcome]; a result that is produced is always
    stated as [Done _] for enough fuel, and a loop that never exits is
    stated as [OutOfFuel] for every fuel.

    The hash table is embedded twice.  Module [Hash] is the table as the
    list of its block pages: what the functions compute while every page
    of the table keeps a frame of its own.  Module [Paged] threads the
    BufferPoolManager through the same functions, call by call; a
    [Page *] is a frame index, read again at every access, so that two
    page ids in one frame alias as they do in the C++ code.  Module
    [HostingFacts] proves that the two agree on a pool that hosts the
    table and, where pages are allocated, has room in its free list. *)

From Stdlib Require Import ZArith Lia Permutation.
From stdpp Require Import gmap list.

Open Scope Z_scope.

(** ** Machine integers *)

(** [size_t] is 64 bits wide: arithmetic on it wraps modulo [2^64]. *)
Definition wrap_size_t (z : Z) : Z := z mod 2 ^ 64.

(** [frame_id_t] and [page_id_t] are [int32_t]; a [size_t] stored into one
    is truncated to its low 32 bits, read as two's complement. *)
Definition to_int32 (z : Z) : Z := (z + 2 ^ 31) mod 2 ^ 32 - 2 ^ 31.

(** Result of running a loop with a fuel bound: the value it returns, or
    the fuel ran out first, or the C++ code left defined behaviour (an
    index out of range, a remainder by zero). *)
Inductive outcome (A : Type) : Type :=
| Done (a : A)
| OutOfFuel
| Undefined.
Arguments Done {A} a.
Arguments OutOfFuel {A}.
Arguments Undefined {A}.

(** ** ClockReplacer (clock_replacer.cpp) *)

Module Replacer.

(** Modelled from the spec: the declaration of [Meta] lives in
    clock_replacer.h, which is not among the sources; section 4.1 gives the
    entry as the pair (pinned, referenced), initialised by
    [Meta meta = {true, false}]. *)
Record Meta : Type := { pin_ : bool; ref_ : bool }.

Record ClockReplacer : Type := {
  frames_ : list Meta;
  clock_hand_ : Z;   (* size_t *)
  clock_size_ : Z    (* size_t *)
}.

(** Constructor: [num_pages] entries [{true, false}], hand and size 0. *)
Definition new (num_pages : nat) : ClockReplacer :=
  {| frames_ := replicate num_pages {| pin_ := true; ref_ := false |};
     clock_hand_ := 0;
     clock_size_ := 0 |}.

(** The [while (clock_size_ > 0)] loop of [Victim].  [Done (r, Some f)] is
    [return true] with [*frame_id = f]; [Done (r, None)] is
    [return false]. *)
Fixpoint Victim_loop (fuel : nat) (r : ClockReplacer)
  : outcome (ClockReplacer * option Z) :=
  match fuel with
  | O => OutOfFuel
  | S fuel' =>
    if 0 <? clock_size_ r then
      if Z.of_nat (length (frames_ r)) =? 0 then Undefined
      else
        let hand := clock_hand_ r mod Z.of_nat (length (frames_ r)) in
        match frames_ r !! Z.to_nat hand with
        | None => Undefined
        | Some m =>
          if pin_ m then
            Victim_loop fuel'
              {| frames_ := frames_ r;
                 clock_hand_ := wrap_size_t (hand + 1);
                 clock_size_ := clock_size_ r |}
          else if ref_ m then
            Victim_loop fuel'
              {| frames_ := <[Z.to_nat hand := {| pin_ := pin_ m; ref_ := false |}]> (frames_ r);
                 clock_hand_ := wrap_size_t (hand + 1);
                 clock_size_ := clock_size_ r |}
          else
            Done ({| frames_ := <[Z.to_nat hand := {| pin_ := true; ref_ := ref_ m |}]> (frames_ r);
                     clock_hand_ := wrap_size_t (hand + 1);
                     clock_size_ := wrap_size_t (clock_size_ r - 1) |},
                  Some (to_int32 hand))
        end
    else Done (r, None)
  end.

(** Two sweeps of the clock are enough whenever the loop exits at all
    (lemma [Victim_loop_terminates] below); [Victim] runs the loop with
    that bound. *)
Definition Victim_fuel (r : ClockReplacer) : nat := S (2 * length (frames_ r)).

Definition Victim (r : ClockReplacer) : outcome (ClockReplacer * option Z) :=
  Victim_loop (Victim_fuel r) r.

(** [frame_id] is an [int32_t]; the range test casts it to [size_t]. *)
Definition Pin (frame_id : Z) (r : ClockReplacer) : ClockReplacer :=
  if Z.of_nat (length (frames_ r)) <=? wrap_size_t frame_id then r
  else
    match frames_ r !! Z.to_nat frame_id with
    | None => r
    | Some m =>
      if negb (pin_ m) then
        {| frames_ := <[Z.to_nat frame_id := {| pin_ := true; ref_ := ref_ m |}]> (frames_ r);
           clock_hand_ := clock_hand_ r;
           clock_size_ := wrap_size_t (clock_size_ r - 1) |}
      else r
    end.

Definition Unpin (frame_id : Z) (r : ClockReplacer) : ClockReplacer :=
  if Z.of_nat (length (frames_ r)) <=? wrap_size_t frame_id then r
  else
    match frames_ r !! Z.to_nat frame_id with
    | None => r
    | Some m =>
      {| frames_ := <[Z.to_nat frame_id := {| pin_ := false; ref_ := true |}]> (frames_ r);
         clock_hand_ := clock_hand_ r;
         clock_size_ := if pin_ m then wrap_size_t (clock_size_ r + 1) else clock_size_ r |}
    end.

Definition Size (r : ClockReplacer) : Z := clock_size_ r.

(** Number of entries whose pinned bit is false. *)
Definition unpinned (m : Meta) : bool := negb (pin_ m).

Definition count_unpinned (fs : list Meta) : nat :=
  length (filter (fun m => unpinned m = true) fs).

(** States a client can bring the replacer to: construction with
    [num_pages] entries followed by any calls of [Pin], [Unpin] and
    [Victim] (a call of [Victim] that returns). *)
Inductive reachable (num_pages : nat) : ClockReplacer -> Prop :=
| reach_new : reachable num_pages (new num_pages)
| reach_Pin r f : reachable num_pages r -> reachable num_pages (Pin f r)
| reach_Unpin r f : reachable num_pages r -> reachable num_pages (Unpin f r)
| reach_Victim r fuel r' out :
    reachable num_pages r ->
    Victim_loop fuel r = Done (r', out) ->
    reachable num_pages r'.

Definition b2z (b : bool) : Z := if b then 1 else 0.

(** The invariant: [num_pages] entries, and the counter is the number of
    unpinned ones. *)
Definition consistent (n : nat) (r : ClockReplacer) : Prop :=
  length (frames_ r) = n /\
  clock_size_ r = Z.of_nat (count_unpinned (frames_ r)).

End Replacer.

(** ** Disk manager (external collaborator) *)

Module Disk.

(** Modelled from the spec: PAGE_SIZE is declared in common/config.h, which
    is not among the sources; section 3 gives the page image as a
    fixed-size byte buffer, conventionally 4096 bytes. *)
Definition PAGE_SIZE : nat := 4096.

Definition image : Type := list Byte.byte.

(** What [Page::ResetMemory] leaves behind. *)
Definition zero_image : image := replicate PAGE_SIZE Byte.x00.

(** The calls the pool makes on the disk manager. *)
Inductive call : Type :=
| ReadPage (page_id : Z)
| WritePage (page_id : Z) (data : image)
| AllocatePage (page_id : Z)
| DeallocatePage (page_id : Z).

(** Modelled from the spec: the disk manager is out of the core's scope
    (disk/disk_manager.cpp is not among the sources); section 6 gives its
    four operations: [ReadPage] fills the buffer with the page's bytes,
    [WritePage] persists them, [AllocatePage] reserves and returns a fresh
    page id, [DeallocatePage] releases one.  [calls] records every call in
    the order made, so that "calls DeallocatePage(p)" can be stated. *)
Record DiskManager : Type := {
  stored : gmap Z image;
  next_page_id_ : Z;
  calls : list call
}.

Definition new : DiskManager :=
  {| stored := ∅; next_page_id_ := 0; calls := [] |}.

Definition read (page_id : Z) (d : DiskManager) : DiskManager * image :=
  ({| stored := stored d; next_page_id_ := next_page_id_ d;
      calls := calls d ++ [ReadPage page_id] |},
   default zero_image (stored d !! page_id)).

Definition write (page_id : Z) (data : image) (d : DiskManager) : DiskManager :=
  {| stored := <[page_id := data]> (stored d); next_page_id_ := next_page_id_ d;
     calls := calls d ++ [WritePage page_id data] |}.

Definition allocate (d : DiskManager) : DiskManager * Z :=
  ({| stored := stored d; next_page_id_ := next_page_id_ d + 1;
      calls := calls d ++ [AllocatePage (next_page_id_ d)] |},
   next_page_id_ d).

Definition deallocate (page_id : Z) (d : DiskManager) : DiskManager :=
  {| stored := stored d; next_page_id_ := next_page_id_ d;
     calls := calls d ++ [DeallocatePage page_id] |}.

End Disk.

(** ** BufferPoolManager (buffer_pool_manager.cpp) *)

Module Pool.

(** Modelled from the spec: INVALID_PAGE_ID is declared in common/config.h,
    which is not among the sources; section 3 calls it the page id of an
    empty frame.  Any id the disk manager never allocates would do. *)
Definition INVALID_PAGE_ID : Z := -1.

(** Modelled from the spec: the declaration of [Page] lives in
    storage/page/page.h, which is not among the sources; section 3 gives a
    frame as the page image, the resident page id, a dirty flag and a pin
    count (the latch is left out: every operation below runs under the
    pool mutex). *)
Record Page : Type := {
  data_ : Disk.image;
  page_id_ : Z;      (* page_id_t *)
  pin_count_ : Z;    (* int *)
  is_dirty_ : bool
}.

Definition new_Page : Page :=
  {| data_ := Disk.zero_image; page_id_ := INVALID_PAGE_ID;
     pin_count_ := 0; is_dirty_ := false |}.

Record BufferPoolManager : Type := {
  pool_size_ : nat;
  pages_ : list Page;
  replacer_ : Replacer.ClockReplacer;
  free_list_ : list Z;          (* std::list<frame_id_t> *)
  page_table_ : gmap Z Z;       (* std::unordered_map<page_id_t, frame_id_t> *)
  disk_manager_ : Disk.DiskManager
}.

(** Constructor: every frame starts in the free list, in index order. *)
Definition new (pool_size : nat) (disk : Disk.DiskManager) : BufferPoolManager :=
  {| pool_size_ := pool_size;
     pages_ := replicate pool_size new_Page;
     replacer_ := Replacer.new pool_size;
     free_list_ := (fun i => to_int32 (Z.of_nat i)) <$> seq 0 pool_size;
     page_table_ := ∅;
     disk_manager_ := disk |}.

(** Field updates, written [b.field = v] in the C++ code. *)
Definition with_pages (ps : list Page) (b : BufferPoolManager) : BufferPoolManager :=
  {| pool_size_ := pool_size_ b; pages_ := ps; replacer_ := replacer_ b;
     free_list_ := free_list_ b; page_table_ := page_table_ b;
     disk_manager_ := disk_manager_ b |}.

Definition with_replacer (r : Replacer.ClockReplacer) (b : BufferPoolManager) : BufferPoolManager :=
  {| pool_size_ := pool_size_ b; pages_ := pages_ b; replacer_ := r;
     free_list_ := free_list_ b; page_table_ := page_table_ b;
     disk_manager_ := disk_manager_ b |}.

Definition with_free_list (fl : list Z) (b : BufferPoolManager) : BufferPoolManager :=
  {| pool_size_ := pool_size_ b; pages_ := pages_ b; replacer_ := replacer_ b;
     free_list_ := fl; page_table_ := page_table_ b;
     disk_manager_ := disk_manager_ b |}.

Definition with_page_table (pt : gmap Z Z) (b : BufferPoolManager) : BufferPoolManager :=
  {| pool_size_ := pool_size_ b; pages_ := pages_ b; replacer_ := replacer_ b;
     free_list_ := free_list_ b; page_table_ := pt;
     disk_manager_ := disk_manager_ b |}.

Definition with_disk (d : Disk.DiskManager) (b : BufferPoolManager) : BufferPoolManager :=
  {| pool_size_ := pool_size_ b; pages_ := pages_ b; replacer_ := replacer_ b;
     free_list_ := free_list_ b; page_table_ := page_table_ b;
     disk_manager_ := d |}.

(** [pages_ + frame_id]: the frame the pointer designates, when the index
    is inside the array (outside it the C++ behaviour is undefined). *)
Definition page_at (frame_id : Z) (b : BufferPoolManager) : option Page :=
  if frame_id <? 0 then None else pages_ b !! Z.to_nat frame_id.

Definition set_page (frame_id : Z) (p : Page) (b : BufferPoolManager) : BufferPoolManager :=
  with_pages (<[Z.to_nat frame_id := p]> (pages_ b)) b.

(** The victim branch shared by [FetchPageImpl] and [NewPageImpl]: write
    the frame back if dirty, then [ResetMemory], clear dirty, zero the pin
    count.  The page table is not touched. *)
Definition evict (frame_id : Z) (page : Page) (b : BufferPoolManager) : BufferPoolManager :=
  let b1 := if is_dirty_ page
            then with_disk (Disk.write (page_id_ page) (data_ page) (disk_manager_ b)) b
            else b in
  set_page frame_id
    {| data_ := Disk.zero_image; page_id_ := page_id_ page;
       pin_count_ := 0; is_dirty_ := false |} b1.

(** Lines 52-69 and 114-131: pick the frame, from the free list first,
    else from the replacer.  [Done (b, None)] is the [return nullptr]
    branch. *)
Definition take_frame (b : BufferPoolManager) : outcome (BufferPoolManager * option Z) :=
  match free_list_ b with
  | frame_id :: rest =>
    Done (with_free_list rest
            (with_replacer (Replacer.Unpin frame_id (replacer_ b)) b),
          Some frame_id)
  | [] =>
    match Replacer.Victim (replacer_ b) with
    | Done (r, Some frame_id) =>
      let b1 := with_replacer r b in
      match page_at frame_id b1 with
      | None => Undefined
      | Some page => Done (evict frame_id page b1, Some frame_id)
      end
    | Done (r, None) => Done (with_replacer r b, None)
    | OutOfFuel => OutOfFuel
    | Undefined => Undefined
    end
  end.

(** A returned [Page *] is rendered as the index of its frame;
    [nullptr] as [None]. *)
Definition FetchPageImpl (page_id : Z) (b : BufferPoolManager)
  : outcome (BufferPoolManager * option Z) :=
  match page_table_ b !! page_id with
  | Some f =>
    match page_at f b with
    | None => Undefined
    | Some page =>
      let b1 := set_page f
                  {| data_ := data_ page; page_id_ := page_id_ page;
                     pin_count_ := pin_count_ page + 1; is_dirty_ := is_dirty_ page |} b in
      Done (with_replacer (Replacer.Pin f (replacer_ b1)) b1, Some f)
    end
  | None =>
    match take_frame b with
    | Done (b1, Some frame_id) =>
      match page_at frame_id b1 with
      | None => Undefined
      | Some page =>
        let (d, bytes) := Disk.read page_id (disk_manager_ b1) in
        let b2 := with_disk d b1 in
        let b3 := set_page frame_id
                    {| data_ := bytes; page_id_ := page_id;
                       pin_count_ := pin_count_ page + 1; is_dirty_ := is_dirty_ page |} b2 in
        let b4 := with_replacer (Replacer.Pin page_id (replacer_ b3)) b3 in
        Done (with_page_table (<[page_id := frame_id]> (page_table_ b4)) b4, Some frame_id)
      end
    | Done (b1, None) => Done (b1, None)
    | OutOfFuel => OutOfFuel
    | Undefined => Undefined
    end
  end.

Definition UnpinPageImpl (page_id : Z) (is_dirty : bool) (b : BufferPoolManager)
  : outcome (BufferPoolManager * bool) :=
  match page_table_ b !! page_id with
  | None => Done (b, false)
  | Some frame_id =>
    match page_at frame_id b with
    | None => Undefined
    | Some page =>
      if 0 <? pin_count_ page then
        let b1 := set_page frame_id
                    {| data_ := data_ page; page_id_ := page_id_ page;
                       pin_count_ := pin_count_ page - 1;
                       is_dirty_ := is_dirty_ page || is_dirty |} b in
        if pin_count_ page - 1 =? 0
        then Done (with_replacer (Replacer.Unpin frame_id (replacer_ b1)) b1, true)
        else Done (b1, true)
      else Done (b, true)
    end
  end.

Definition FlushPageImpl (page_id : Z) (b : BufferPoolManager)
  : outcome (BufferPoolManager * bool) :=
  match page_table_ b !! page_id with
  | Some f =>
    match page_at f b with
    | None => Undefined
    | Some page =>
      if is_dirty_ page then
        let b1 := with_disk (Disk.write page_id (data_ page) (disk_manager_ b)) b in
        Done (set_page f
                {| data_ := data_ page; page_id_ := page_id_ page;
                   pin_count_ := pin_count_ page; is_dirty_ := false |} b1, true)
      else Done (b, true)
    end
  | None => Done (b, false)
  end.

(** [*page_id] is returned next to the frame. *)
Definition NewPageImpl (b : BufferPoolManager)
  : outcome (BufferPoolManager * option (Z * Z)) :=
  match take_frame b with
  | Done (b1, Some frame_id) =>
    match page_at frame_id b1 with
    | None => Undefined
    | Some page =>
      let (d, page_id) := Disk.allocate (disk_manager_ b1) in
      let b2 := with_disk d b1 in
      let b3 := with_page_table (<[page_id := frame_id]> (page_table_ b2)) b2 in
      let b4 := set_page frame_id
                  {| data_ := data_ page; page_id_ := page_id;
                     pin_count_ := pin_count_ page + 1; is_dirty_ := is_dirty_ page |} b3 in
      Done (with_replacer (Replacer.Pin page_id (replacer_ b4)) b4, Some (page_id, frame_id))
    end
  | Done (b1, None) => Done (b1, None)
  | OutOfFuel => OutOfFuel
  | Undefined => Undefined
  end.

Definition DeletePageImpl (page_id : Z) (b : BufferPoolManager)
  : outcome (BufferPoolManager * bool) :=
  match page_table_ b !! page_id with
  | Some f =>
    match page_at f b with
    | None => Undefined
    | Some page =>
      if 0 <? pin_count_ page then Done (b, false)
      else
        let b1 := with_page_table (delete page_id (page_table_ b)) b in
        let b2 := with_disk (Disk.deallocate page_id (disk_manager_ b1)) b1 in
        Done (set_page f
                {| data_ := Disk.zero_image; page_id_ := INVALID_PAGE_ID;
                   pin_count_ := 0; is_dirty_ := false |} b2, true)
    end
  | None => Done (b, true)
  end.

(** The [for] loop of [FlushAllPagesImpl], frame by frame. *)
Definition flush_frame (b : BufferPoolManager) (i : nat) : BufferPoolManager :=
  match pages_ b !! i with
  | None => b
  | Some page =>
    if negb (page_id_ page =? INVALID_PAGE_ID) && is_dirty_ page then
      with_pages
        (<[i := {| data_ := data_ page; page_id_ := page_id_ page;
                   pin_count_ := pin_count_ page; is_dirty_ := false |}]> (pages_ b))
        (with_disk (Disk.write (page_id_ page) (data_ page) (disk_manager_ b)) b)
    else b
  end.

Definition FlushAllPagesImpl (b : BufferPoolManager) : BufferPoolManager :=
  foldl flush_frame b (seq 0 (pool_size_ b)).

(** *** Sequencing of calls *)

Definition bind {A B : Type} (x : outcome A) (k : A -> outcome B) : outcome B :=
  match x with
  | Done a => k a
  | OutOfFuel => OutOfFuel
  | Undefined => Undefined
  end.

(** Run a call on the pool and forget what it returned. *)
Definition then_ {A : Type} (x : outcome BufferPoolManager)
    (f : BufferPoolManager -> outcome (BufferPoolManager * A)) : outcome BufferPoolManager :=
  bind x (fun b => bind (f b) (fun r => Done (fst r))).

End Pool.

(** ** Hash table block page *)

Module Block.

Section BlockPage.
Context {K V : Type}.

(** Modelled from the spec: HashTableBlockPage (hash_table_block_page.cpp)
    is not among the sources; section 3 gives each slot two bits,
    [occupied] (ever written) and [readable] (holds a live entry), plus the
    key and the value, and section 4.3 has [Insert] claim a slot (set both
    bits, write key and value) iff the slot is currently not readable, and
    [Remove] clear the readable bit and leave the occupied bit set. *)
Record slot : Type := {
  occupied_ : bool;
  readable_ : bool;
  key_ : K;
  value_ : V
}.

Definition IsOccupied (s : slot) : bool := occupied_ s.
Definition IsReadable (s : slot) : bool := readable_ s.
Definition KeyAt (s : slot) : K := key_ s.
Definition ValueAt (s : slot) : V := value_ s.

(** [bucket->Insert(offset, key, value)] on the slot at [offset]: the slot
    afterwards and the returned flag. *)
Definition Insert (key : K) (value : V) (s : slot) : slot * bool :=
  if readable_ s then (s, false)
  else ({| occupied_ := true; readable_ := true; key_ := key; value_ := value |}, true).

(** [bucket->Remove(offset)]: leaves a tombstone. *)
Definition Remove (s : slot) : slot :=
  {| occupied_ := occupied_ s; readable_ := false; key_ := key_ s; value_ := value_ s |}.

End BlockPage.
Arguments slot : clear implicits.

End Block.

(** ** LinearProbeHashTable (linear_probe_hash_table.cpp) *)

Module Hash.

(** A block page is its BLOCK_ARRAY_SIZE slots; the table is the block
    pages in the order of the header's block-id array, so
    [header->GetBlockPageId(i)] fetched through the pool is the [i]-th
    element and [header->NumBlocks()] the length.  The pool is taken at its
    contract here: a fetched page comes back as it was last left, and
    [NewPage] hands out a zeroed page.  That is what the
    BufferPoolManager of buffer_pool_manager.cpp does as long as every
    page of the table sits in a frame of its own and [NewPage] finds a
    frame in the free list.  Module [Paged] below embeds the same
    functions with every call on the BufferPoolManager spelled out;
    module [HostingFacts] proves that the two agree on such a pool, and
    the examples that close module [PagedMore] show that they differ on
    smaller ones.  Latches are left out: the operations are run one at a
    time. *)
Abbreviation block K V := (list (Block.slot K V)).
Abbreviation table K V := (list (list (Block.slot K V))).

Section Table.
Context {K V : Type}.
(** The template parameters and constructor arguments: the key comparator
    ([comparator_(a, b) == 0] means equal keys), [operator==] of the value
    type, and the hash function (a [uint64_t]). *)
Variable comparator_ : K -> K -> Z.
Variable value_eqb : V -> V -> bool.
Variable hash_fn_ : K -> Z.
(** BLOCK_ARRAY_SIZE is a macro of hash_table_page_defs.h, which is not
    among the sources: it is a parameter here. *)
Variable BLOCK_ARRAY_SIZE : Z.
(** The key and the value that an all-zero page image decodes to. *)
Variable zero_key : K.
Variable zero_value : V.

Definition NumBlocks (t : table K V) : Z := Z.of_nat (length t).

Definition empty_slot : Block.slot K V :=
  {| Block.occupied_ := false; Block.readable_ := false;
     Block.key_ := zero_key; Block.value_ := zero_value |}.

(** A block page as [NewPage] hands it out: all zero. *)
Definition empty_block : block K V := replicate (Z.to_nat BLOCK_ARRAY_SIZE) empty_slot.

(** Constructor: [num_buckets] fresh block pages. *)
Definition new (num_buckets : nat) : table K V := replicate num_buckets empty_block.

(** The slot [offset] of block [block_ind], when both are in range. *)
Definition fetch_slot (t : table K V) (block_ind offset : Z) : option (Block.slot K V) :=
  if (block_ind <? 0) || (offset <? 0) then None
  else
    match t !! Z.to_nat block_ind with
    | None => None
    | Some bucket => bucket !! Z.to_nat offset
    end.

(** A store into slot [offset] of block [block_ind], each block page
    being in a frame of its own ([Paged.SetData] is the store into the
    frame that [FetchPage] returned for the block's page id). *)
Definition store_slot (t : table K V) (block_ind offset : Z) (s : Block.slot K V) : table K V :=
  match t !! Z.to_nat block_ind with
  | None => t
  | Some bucket => <[Z.to_nat block_ind := <[Z.to_nat offset := s]> bucket]> t
  end.

(** [hash_fn_.GetHash(key) % (header->NumBlocks() * BLOCK_ARRAY_SIZE)] *)
Definition slot_of_key (t : table K V) (key : K) : Z :=
  wrap_size_t (hash_fn_ key) mod wrap_size_t (NumBlocks t * BLOCK_ARRAY_SIZE).

Definition same_pair (s : Block.slot K V) (key : K) (value : V) : bool :=
  (comparator_ (Block.KeyAt s) key =? 0) && value_eqb (Block.ValueAt s) value.

(** The probe loop of [GetValue] (lines 70-90). *)
Fixpoint GetValue_loop (fuel : nat) (t : table K V) (key : K)
    (hash_val block_ind offset : Z) (result : list V) : outcome (list V) :=
  match fuel with
  | O => OutOfFuel
  | S fuel' =>
    match fetch_slot t block_ind offset with
    | None => Undefined
    | Some s =>
      if Block.IsOccupied s then
        let result' :=
          if Block.IsReadable s && (comparator_ (Block.KeyAt s) key =? 0)
          then result ++ [Block.ValueAt s] else result in
        let offset' := wrap_size_t (offset + 1) in
        if wrap_size_t (block_ind * BLOCK_ARRAY_SIZE + offset') =? hash_val then
          Done result'
        else if BLOCK_ARRAY_SIZE <=? offset' then
          GetValue_loop fuel' t key hash_val ((block_ind + 1) mod NumBlocks t) 0 result'
        else
          GetValue_loop fuel' t key hash_val block_ind offset' result'
      else Done result
    end
  end.

(** [GetValue]: the flag returned and the values appended to [result]. *)
Definition GetValue (fuel : nat) (t : table K V) (key : K) : outcome (bool * list V) :=
  if wrap_size_t (NumBlocks t * BLOCK_ARRAY_SIZE) =? 0 then Undefined
  else if BLOCK_ARRAY_SIZE =? 0 then Undefined
  else
    let hash_val := slot_of_key t key in
    match GetValue_loop fuel t key hash_val
            (hash_val / BLOCK_ARRAY_SIZE) (hash_val mod BLOCK_ARRAY_SIZE) [] with
    | Done result => Done (negb (bool_decide (result = [])) , result)
    | OutOfFuel => OutOfFuel
    | Undefined => Undefined
    end.

(** The probe loop of [InternalInsert] (lines 267-296).  The result is the
    table, the returned flag, and whether the loop reached the place where
    [*full] is set. *)
Fixpoint InternalInsert_loop (fuel : nat) (t : table K V) (key : K) (value : V)
    (hash_val block_ind offset : Z) : outcome (table K V * bool * bool) :=
  match fuel with
  | O => OutOfFuel
  | S fuel' =>
    match fetch_slot t block_ind offset with
    | None => Undefined
    | Some s =>
      let (s', inserted) := Block.Insert key value s in
      if inserted then Done (store_slot t block_ind offset s', true, false)
      else if same_pair s key value then Done (t, false, false)
      else
        let offset' := wrap_size_t (offset + 1) in
        if wrap_size_t (block_ind * BLOCK_ARRAY_SIZE + offset') =? hash_val then
          Done (t, false, true)
        else if BLOCK_ARRAY_SIZE <=? offset' then
          InternalInsert_loop fuel' t key value hash_val ((block_ind + 1) mod NumBlocks t) 0
        else
          InternalInsert_loop fuel' t key value hash_val block_ind offset'
    end
  end.

Definition InternalInsert (fuel : nat) (t : table K V) (key : K) (value : V)
  : outcome (table K V * bool * bool) :=
  if wrap_size_t (NumBlocks t * BLOCK_ARRAY_SIZE) =? 0 then Undefined
  else if BLOCK_ARRAY_SIZE =? 0 then Undefined
  else
    let hash_val := slot_of_key t key in
    InternalInsert_loop fuel t key value hash_val
      (hash_val / BLOCK_ARRAY_SIZE) (hash_val mod BLOCK_ARRAY_SIZE).

(** The probe loop of [Remove] (lines 136-170). *)
Fixpoint Remove_loop (fuel : nat) (t : table K V) (key : K) (value : V)
    (hash_val block_ind offset : Z) : outcome (table K V * bool) :=
  match fuel with
  | O => OutOfFuel
  | S fuel' =>
    match fetch_slot t block_ind offset with
    | None => Undefined
    | Some s =>
      if Block.IsOccupied s then
        if same_pair s key value then
          if negb (Block.IsReadable s) then Done (t, false)
          else Done (store_slot t block_ind offset (Block.Remove s), true)
        else
          let offset' := wrap_size_t (offset + 1) in
          if wrap_size_t (block_ind * BLOCK_ARRAY_SIZE + offset') =? hash_val then
            Done (t, false)
          else if BLOCK_ARRAY_SIZE <=? offset' then
            Remove_loop fuel' t key value hash_val ((block_ind + 1) mod NumBlocks t) 0
          else
            Remove_loop fuel' t key value hash_val block_ind offset'
      else Done (t, false)
    end
  end.

Definition Remove (fuel : nat) (t : table K V) (key : K) (value : V) : outcome (table K V * bool) :=
  if wrap_size_t (NumBlocks t * BLOCK_ARRAY_SIZE) =? 0 then Undefined
  else if BLOCK_ARRAY_SIZE =? 0 then Undefined
  else
    let hash_val := slot_of_key t key in
    Remove_loop fuel t key value hash_val
      (hash_val / BLOCK_ARRAY_SIZE) (hash_val mod BLOCK_ARRAY_SIZE).

Definition GetSize (t : table K V) : Z := wrap_size_t (NumBlocks t * BLOCK_ARRAY_SIZE).

(** The inner [for] loop of [Resize] (lines 220-226) over the offsets of
    one old block page; [InternalInsert] runs against the new table and
    its result is dropped. *)
Fixpoint move_slots (fuel : nat) (bucket : block K V) (offsets : list nat) (new_t : table K V)
  : outcome (table K V) :=
  match offsets with
  | [] => Done new_t
  | offset :: rest =>
    match bucket !! offset with
    | None => Undefined
    | Some s =>
      if Block.IsReadable s then
        match InternalInsert fuel new_t (Block.KeyAt s) (Block.ValueAt s) with
        | Done r => move_slots fuel bucket rest (fst (fst r))
        | OutOfFuel => OutOfFuel
        | Undefined => Undefined
        end
      else move_slots fuel bucket rest new_t
    end
  end.

(** The outer [for] loop (lines 215-230) over the old block pages. *)
Fixpoint move_blocks (fuel : nat) (old : list (block K V)) (new_t : table K V) : outcome (table K V) :=
  match old with
  | [] => Done new_t
  | bucket :: rest =>
    match move_slots fuel bucket (seq 0 (Z.to_nat BLOCK_ARRAY_SIZE)) new_t with
    | Done new_t' => move_blocks fuel rest new_t'
    | OutOfFuel => OutOfFuel
    | Undefined => Undefined
    end
  end.

(** [Resize(initial_size)]: a new header with
    [2 * initial_size / BLOCK_ARRAY_SIZE + ((2 * initial_size) % BLOCK_ARRAY_SIZE > 0)]
    fresh block pages, then every readable entry of the old table is
    inserted into the new one.  The new pages are as [NewPage] hands them
    out of the free list and the old block pages as they were left:
    [Paged.Resize] is the function with its calls of [FetchPage],
    [NewPage], [UnpinPage] and [DeletePage], and
    [HostingFacts.Resize_refines] relates the two when the free list has
    a frame for every new page. *)
Definition Resize (fuel : nat) (initial_size : Z) (t : table K V) : outcome (table K V) :=
  if BLOCK_ARRAY_SIZE =? 0 then Undefined
  else
    let size := wrap_size_t
                  (wrap_size_t (2 * initial_size) / BLOCK_ARRAY_SIZE
                   + (if 0 <? wrap_size_t (2 * initial_size) mod BLOCK_ARRAY_SIZE then 1 else 0)) in
    move_blocks fuel t (new (Z.to_nat size)).

(** The [while (!InternalInsert(key, value, &full))] loop of [Insert];
    [full] is a local of [Insert] and is never cleared. *)
Fixpoint Insert_loop (fuel inner : nat) (t : table K V) (key : K) (value : V) (full : bool)
  : outcome (table K V * bool) :=
  match fuel with
  | O => OutOfFuel
  | S fuel' =>
    match InternalInsert inner t key value with
    | Done (t', true, _) => Done (t', true)
    | Done (t', false, signalled) =>
      if full || signalled then
        match Resize inner (GetSize t') t' with
        | Done t'' => Insert_loop fuel' inner t'' key value true
        | OutOfFuel => OutOfFuel
        | Undefined => Undefined
        end
      else Done (t', false)
    | OutOfFuel => OutOfFuel
    | Undefined => Undefined
    end
  end.

Definition Insert (fuel : nat) (t : table K V) (key : K) (value : V) : outcome (table K V * bool) :=
  Insert_loop fuel fuel t key value false.

(** The live contents: the (key, value) pairs of the readable slots, block
    by block, in slot order. *)
Definition readable_pairs (t : table K V) : list (K * V) :=
  concat ((fun bucket : block K V =>
             (fun s => (Block.key_ s, Block.value_ s))
               <$> filter (fun s => Block.readable_ s = true) bucket) <$> t).

(** Every block page has its BLOCK_ARRAY_SIZE slots. *)
Definition well_formed (t : table K V) : Prop :=
  Forall (fun bucket : block K V => Z.of_nat (length bucket) = BLOCK_ARRAY_SIZE) t.

(** The probe space, [num_blocks * BLOCK_ARRAY_SIZE] slots. *)
Definition capacity (t : table K V) : Z := NumBlocks t * BLOCK_ARRAY_SIZE.

(** Calls of [InternalInsert(key, value)] one after the other, results
    dropped: what the two [for] loops of [Resize] come to on the readable
    pairs of the old table (lemma [move_blocks_insert_all]). *)
Fixpoint insert_all (fuel : nat) (l : list (K * V)) (new_t : table K V) : outcome (table K V) :=
  match l with
  | [] => Done new_t
  | (key, value) :: rest =>
    match InternalInsert fuel new_t key value with
    | Done r => insert_all fuel rest (fst (fst r))
    | OutOfFuel => OutOfFuel
    | Undefined => Undefined
    end
  end.

End Table.

(** *** The instance of the end-to-end scenarios: [int] keys and values,
    [hash(k) = k]. *)

(** Modelled from the spec: IntComparator (hash_comparator.h) is not among
    the sources; section 6 gives a comparator as returning less, equal or
    greater. *)
Definition IntComparator (a b : Z) : Z :=
  if a <? b then -1 else if b <? a then 1 else 0.

Definition int_new (bas : Z) (num_buckets : nat) : table Z Z :=
  new bas 0 0 num_buckets.

Definition int_Insert (bas : Z) (fuel : nat) (t : table Z Z) (k v : Z) :=
  Insert IntComparator Z.eqb (fun k => k) bas 0 0 fuel t k v.

Definition int_InternalInsert (bas : Z) (fuel : nat) (t : table Z Z) (k v : Z) :=
  InternalInsert IntComparator Z.eqb (fun k => k) bas fuel t k v.

Definition int_Remove (bas : Z) (fuel : nat) (t : table Z Z) (k v : Z) :=
  Remove IntComparator Z.eqb (fun k => k) bas fuel t k v.

Definition int_GetValue (bas : Z) (fuel : nat) (t : table Z Z) (k : Z) :=
  GetValue IntComparator (fun k => k) bas fuel t k.

Definition int_Resize (bas : Z) (fuel : nat) (t : table Z Z) :=
  Resize IntComparator Z.eqb (fun k => k) bas 0 0 fuel (GetSize bas t) t.

End Hash.

(** ** Scenarios *)

Module Scenario.
Import Pool.

(** A pool of one frame over an empty disk, and of two frames. *)
Definition pool1 : BufferPoolManager := Pool.new 1 Disk.new.
Definition pool2 : BufferPoolManager := Pool.new 2 Disk.new.

(** [FetchPage(5)] on the one-frame pool. *)
Definition fetch5 : outcome BufferPoolManager :=
  then_ (Done pool1) (FetchPageImpl 5).

(** [FetchPage(0); UnpinPage(0, false)] on the one-frame pool: page 0 is
    resident in frame 0 with pin count 0. *)
Definition fetch0_unpin : outcome BufferPoolManager :=
  then_ (then_ (Done pool1) (FetchPageImpl 0)) (UnpinPageImpl 0 false).

(** [FetchPage(0); UnpinPage(0, false); FetchPage(1)]: page 1 takes the
    frame of page 0. *)
Definition fetch0_unpin_fetch1 : outcome BufferPoolManager :=
  then_ fetch0_unpin (FetchPageImpl 1).

(** [NewPage(); UnpinPage(0, false)] on the one-frame pool: the new page
    has id 0 and sits in frame 0, unpinned. *)
Definition new_unpin : outcome BufferPoolManager :=
  then_ (then_ (Done pool1) NewPageImpl) (UnpinPageImpl 0 false).

(** The one-frame pool after [FetchPage(0)]: page 0 sits in frame 0 with
    pin count 1. *)
Definition page0 : Page :=
  {| data_ := Disk.zero_image; page_id_ := 0; pin_count_ := 1; is_dirty_ := false |}.

Definition resident1 : BufferPoolManager :=
  {| pool_size_ := 1;
     pages_ := [page0];
     replacer_ := {| Replacer.frames_ := [{| Replacer.pin_ := true; Replacer.ref_ := true |}];
                     Replacer.clock_hand_ := 0; Replacer.clock_size_ := 0 |};
     free_list_ := [];
     page_table_ := {[ 0 := 0 ]};
     disk_manager_ := {| Disk.stored := ∅; Disk.next_page_id_ := 0;
                         Disk.calls := [Disk.ReadPage 0] |} |}.

(** The one-frame pool after [FetchPage(0); UnpinPage(0, true)]: page 0
    sits in frame 0, dirty, with pin count 0, and the replacer may choose
    the frame. *)
Definition dirty_page0 : Page :=
  {| data_ := Disk.zero_image; page_id_ := 0; pin_count_ := 0; is_dirty_ := true |}.

Definition dirty1 : BufferPoolManager :=
  {| pool_size_ := 1;
     pages_ := [dirty_page0];
     replacer_ := {| Replacer.frames_ := [{| Replacer.pin_ := false; Replacer.ref_ := true |}];
                     Replacer.clock_hand_ := 0; Replacer.clock_size_ := 1 |};
     free_list_ := [];
     page_table_ := {[ 0 := 0 ]};
     disk_manager_ := {| Disk.stored := ∅; Disk.next_page_id_ := 0;
                         Disk.calls := [Disk.ReadPage 0] |} |}.

(** The replacer of [dirty1] after [Victim] has chosen frame 0. *)
Definition chosen0 : Replacer.ClockReplacer :=
  {| Replacer.frames_ := [{| Replacer.pin_ := true; Replacer.ref_ := false |}];
     Replacer.clock_hand_ := 1; Replacer.clock_size_ := 0 |}.

Definition live (k v : Z) : Block.slot Z Z :=
  {| Block.occupied_ := true; Block.readable_ := true; Block.key_ := k; Block.value_ := v |}.
Definition tombstone (k v : Z) : Block.slot Z Z :=
  {| Block.occupied_ := true; Block.readable_ := false; Block.key_ := k; Block.value_ := v |}.
Definition fresh : Block.slot Z Z :=
  {| Block.occupied_ := false; Block.readable_ := false; Block.key_ := 0; Block.value_ := 0 |}.

(** Scenario 6 of the spec: one block page of two slots, [hash(k) = k].
    After [Insert(2, 20); Insert(1, 10)] both slots are live. *)
Definition full2 : Hash.table Z Z := [[live 2 20; live 1 10]].

(** One block page of four slots after
    [Insert(1, 10); Insert(5, 50); Remove(1, 10)]: keys 1 and 5 both hash
    to slot 1, so (5, 50) sits in slot 2 behind the tombstone of (1, 10). *)
Definition behind_tombstone : Hash.table Z Z :=
  [[fresh; tombstone 1 10; live 5 50; fresh]].

(** The same table after one more [Insert(5, 50)]. *)
Definition twice : Hash.table Z Z :=
  [[fresh; live 5 50; live 5 50; fresh]].

End Scenario.

(** ** Clients of the pool *)

Module Client.
Import Pool.

(** The public operations of the pool ([FetchPage] and the like forward
    to the [...Impl] functions). *)
Inductive call : Type :=
| FetchPage (page_id : Z)
| UnpinPage (page_id : Z) (is_dirty : bool)
| FlushPage (page_id : Z)
| NewPage
| DeletePage (page_id : Z)
| FlushAllPages.

(** One call, the returned value dropped. *)
Definition run (c : call) (b : BufferPoolManager) : outcome BufferPoolManager :=
  match c with
  | FetchPage page_id => then_ (Done b) (FetchPageImpl page_id)
  | UnpinPage page_id is_dirty => then_ (Done b) (UnpinPageImpl page_id is_dirty)
  | FlushPage page_id => then_ (Done b) (FlushPageImpl page_id)
  | NewPage => then_ (Done b) NewPageImpl
  | DeletePage page_id => then_ (Done b) (DeletePageImpl page_id)
  | FlushAllPages => Done (FlushAllPagesImpl b)
  end.

(** The pools a client can get: the constructor, then calls that return. *)
Inductive reachable (pool_size : nat) (disk : Disk.DiskManager) : BufferPoolManager -> Prop :=
| reach_new : reachable pool_size disk (Pool.new pool_size disk)
| reach_run b c b' :
    reachable pool_size disk b -> run c b = Done b' -> reachable pool_size disk b'.

Definition in_pool (b : BufferPoolManager) (frame_id : Z) : Prop :=
  0 <= frame_id < Z.of_nat (pool_size_ b).

(** What keeps the pool inside its arrays: [pool_size_] frames, a replacer
    whose counter is right, frame ids of the page table and of the free
    list inside the pool, pin counts not negative. *)
Definition safe (b : BufferPoolManager) : Prop :=
  length (pages_ b) = pool_size_ b /\
  Replacer.consistent (pool_size_ b) (replacer_ b) /\
  (forall page_id frame_id, page_table_ b !! page_id = Some frame_id -> in_pool b frame_id) /\
  Forall (in_pool b) (free_list_ b) /\
  Forall (fun page => 0 <= pin_count_ page) (pages_ b).

End Client.

(** ** Page layouts of the hash table *)

Module Layout.

(** Modelled from the spec: HashTableHeaderPage and HashTableBlockPage
    (storage/page/hash_table_header_page.h, hash_table_block_page.h) are not
    among the sources.  The table reaches a page through
    [reinterpret_cast] of the frame's image; a layout says how an image
    reads as a header (section 3: own page id, configured size, append-only
    array of block page ids) and as a block page (section 3: per slot the
    [occupied] and [readable] bits, the key and the value). *)
Record PageLayout (K V : Type) : Type := {
  NumBlocks : Disk.image -> Z;
  GetSize : Disk.image -> Z;
  GetBlockPageId : Disk.image -> Z -> Z;
  SetSize : Z -> Disk.image -> Disk.image;
  SetPageId : Z -> Disk.image -> Disk.image;
  AddBlockPageId : Z -> Disk.image -> Disk.image;
  slot_at : Disk.image -> Z -> Block.slot K V;
  put_slot : Z -> Block.slot K V -> Disk.image -> Disk.image;
  (** what a key slot and a value slot can hold, and how many block page
      ids fit into the header *)
  key_fits : K -> Prop;
  value_fits : V -> Prop;
  max_blocks : Z
}.
Arguments NumBlocks {K V} _ _.
Arguments GetSize {K V} _ _.
Arguments GetBlockPageId {K V} _ _ _.
Arguments SetSize {K V} _ _ _.
Arguments SetPageId {K V} _ _ _.
Arguments AddBlockPageId {K V} _ _ _.
Arguments slot_at {K V} _ _ _.
Arguments put_slot {K V} _ _ _ _.
Arguments key_fits {K V} _ _.
Arguments value_fits {K V} _ _.
Arguments max_blocks {K V} _.

(** [page_id_t] is [int32_t]. *)
Definition int32 (z : Z) : Prop := - 2 ^ 31 <= z < 2 ^ 31.

(** What the table relies on in a layout of [N]-slot block pages: a
    zeroed page reads as a header without blocks and as a block page of
    slots that were never written; a slot or header field that is written
    reads back, and the other slots and fields stay as they were. *)
Record lawful {K V : Type} (N : Z) (zero_key : K) (zero_value : V)
    (L : PageLayout K V) : Prop := {
  slot_at_zero : forall o, 0 <= o < N ->
    slot_at L Disk.zero_image o
    = {| Block.occupied_ := false; Block.readable_ := false;
         Block.key_ := zero_key; Block.value_ := zero_value |};
  slot_at_put_eq : forall img o s,
    length img = Disk.PAGE_SIZE -> 0 <= o < N ->
    key_fits L (Block.key_ s) -> value_fits L (Block.value_ s) ->
    slot_at L (put_slot L o s img) o = s;
  slot_at_put_ne : forall img o o' s,
    length img = Disk.PAGE_SIZE -> 0 <= o < N -> 0 <= o' < N -> o' <> o ->
    slot_at L (put_slot L o s img) o' = slot_at L img o';
  put_slot_length : forall img o s, length (put_slot L o s img) = length img;
  slot_at_fits : forall img o,
    key_fits L (Block.key_ (slot_at L img o)) /\
    value_fits L (Block.value_ (slot_at L img o));
  NumBlocks_zero : NumBlocks L Disk.zero_image = 0;
  NumBlocks_nonneg : forall img, 0 <= NumBlocks L img;
  SetSize_spec : forall img n,
    length img = Disk.PAGE_SIZE -> 0 <= n <= max_blocks L ->
    GetSize L (SetSize L n img) = n /\
    NumBlocks L (SetSize L n img) = NumBlocks L img /\
    length (SetSize L n img) = length img;
  SetPageId_spec : forall img page_id,
    length img = Disk.PAGE_SIZE ->
    GetSize L (SetPageId L page_id img) = GetSize L img /\
    NumBlocks L (SetPageId L page_id img) = NumBlocks L img /\
    length (SetPageId L page_id img) = length img;
  AddBlockPageId_spec : forall img page_id,
    length img = Disk.PAGE_SIZE -> NumBlocks L img < max_blocks L -> int32 page_id ->
    NumBlocks L (AddBlockPageId L page_id img) = NumBlocks L img + 1 /\
    GetSize L (AddBlockPageId L page_id img) = GetSize L img /\
    GetBlockPageId L (AddBlockPageId L page_id img) (NumBlocks L img) = page_id /\
    (forall i, 0 <= i < NumBlocks L img ->
       GetBlockPageId L (AddBlockPageId L page_id img) i = GetBlockPageId L img i) /\
    length (AddBlockPageId L page_id img) = length img
}.

(** *** The layout of section 6 for [int] keys and values *)

Definition byte_at (img : list Byte.byte) (pos : Z) : Z :=
  if pos <? 0 then 0
  else match img !! Z.to_nat pos with
       | Some x => Z.of_N (Byte.to_N x)
       | None => 0
       end.

Definition byte_of (z : Z) : Byte.byte :=
  default Byte.x00 (Byte.of_N (Z.to_N (z mod 256))).

Definition set_byte (pos : Z) (z : Z) (img : list Byte.byte) : list Byte.byte :=
  if pos <? 0 then img else <[Z.to_nat pos := byte_of z]> img.

(** Four bytes, least significant first. *)
Definition get_u32 (img : list Byte.byte) (pos : Z) : Z :=
  byte_at img pos + 2 ^ 8 * byte_at img (pos + 1)
  + 2 ^ 16 * byte_at img (pos + 2) + 2 ^ 24 * byte_at img (pos + 3).

Definition get_i32 (img : list Byte.byte) (pos : Z) : Z := to_int32 (get_u32 img pos).

Definition set_32 (pos : Z) (z : Z) (img : list Byte.byte) : list Byte.byte :=
  set_byte (pos + 3) (z / 2 ^ 24)
    (set_byte (pos + 2) (z / 2 ^ 16)
       (set_byte (pos + 1) (z / 2 ^ 8)
          (set_byte pos z img))).

Definition get_bit (img : list Byte.byte) (base i : Z) : bool :=
  Z.testbit (byte_at img (base + i / 8)) (i mod 8).

Definition set_bit (base i : Z) (v : bool) (img : list Byte.byte) : list Byte.byte :=
  let old := byte_at img (base + i / 8) in
  set_byte (base + i / 8)
    (if v then Z.setbit old (i mod 8) else Z.clearbit old (i mod 8)) img.

(** Header: page id, size, number of blocks, block page ids, four bytes
    each. *)
Definition header_ids : Z := 12.

(** Block page of [N] slots: the [occupied] bitmap, the [readable]
    bitmap, [N] keys, [N] values. *)
Definition bitmap_bytes (N : Z) : Z := (N + 7) / 8.
Definition keys_at (N : Z) : Z := 2 * bitmap_bytes N.
Definition values_at (N : Z) : Z := 2 * bitmap_bytes N + 4 * N.

(** Modelled from the spec: section 6 gives the header page as page id,
    size and number of blocks, four bytes each, then the block page ids,
    four bytes each; and the block page of [N] slots as two bitmaps of
    [N / 8] bytes, rounded up ([occupied], then [readable]), then [N] key
    slots, then [N] value slots.  Keys and values are [int], four bytes. *)
Definition IntLayout (N : Z) : PageLayout Z Z :=
  {| NumBlocks := fun img => get_u32 img 8;
     GetSize := fun img => get_u32 img 4;
     GetBlockPageId := fun img i => get_i32 img (header_ids + 4 * i);
     SetSize := fun size img => set_32 4 size img;
     SetPageId := fun page_id img => set_32 0 page_id img;
     AddBlockPageId := fun page_id img =>
       let n := get_u32 img 8 in
       set_32 8 (n + 1) (set_32 (header_ids + 4 * n) page_id img);
     slot_at := fun img i =>
       {| Block.occupied_ := get_bit img 0 i;
          Block.readable_ := get_bit img (bitmap_bytes N) i;
          Block.key_ := get_i32 img (keys_at N + 4 * i);
          Block.value_ := get_i32 img (values_at N + 4 * i) |};
     put_slot := fun i s img =>
       set_32 (values_at N + 4 * i) (Block.value_ s)
         (set_32 (keys_at N + 4 * i) (Block.key_ s)
            (set_bit (bitmap_bytes N) i (Block.readable_ s)
               (set_bit 0 i (Block.occupied_ s) img)));
     key_fits := int32;
     value_fits := int32;
     max_blocks := (Z.of_nat Disk.PAGE_SIZE - header_ids) / 4 |}.

(** A block page of [N] slots fits into the page. *)
Definition block_fits (N : Z) : Prop :=
  0 < N /\ values_at N + 4 * N <= Z.of_nat Disk.PAGE_SIZE.

End Layout.

(** ** LinearProbeHashTable over the buffer pool *)

Module Paged.
Import Pool.

Notation "'let*' x := e 'in' k" := (bind e (fun x => k))
  (at level 10, x pattern, e at level 200, k at level 200, only parsing).

(** A [Page *] is the index of its frame.  [GetData] through it reads the
    image the frame holds at that moment, whatever page the pool has put
    there since. *)
Definition GetData (f : Z) (b : BufferPoolManager) : outcome Disk.image :=
  match page_at f b with
  | Some page => Done (data_ page)
  | None => Undefined
  end.

(** A store through the pointer. *)
Definition SetData (f : Z) (img : Disk.image) (b : BufferPoolManager) : BufferPoolManager :=
  match page_at f b with
  | Some page =>
    set_page f {| data_ := img; page_id_ := page_id_ page;
                  pin_count_ := pin_count_ page; is_dirty_ := is_dirty_ page |} b
  | None => b
  end.

(** [FetchPage] whose result is dereferenced at once: [nullptr] leaves
    defined behaviour. *)
Definition FetchPage (page_id : Z) (b : BufferPoolManager) : outcome (BufferPoolManager * Z) :=
  let* r := FetchPageImpl page_id b in
  match r with
  | (b', Some f) => Done (b', f)
  | (_, None) => Undefined
  end.

Definition UnpinPage (page_id : Z) (is_dirty : bool) (b : BufferPoolManager)
  : outcome BufferPoolManager :=
  let* r := UnpinPageImpl page_id is_dirty b in Done (fst r).

Definition DeletePage (page_id : Z) (b : BufferPoolManager) : outcome BufferPoolManager :=
  let* r := DeletePageImpl page_id b in Done (fst r).

Section Table.
Context {K V : Type}.
Variable comparator_ : K -> K -> Z.
Variable value_eqb : V -> V -> bool.
Variable hash_fn_ : K -> Z.
Variable BLOCK_ARRAY_SIZE : Z.
Variable L : Layout.PageLayout K V.

(** [while (page_id == INVALID_PAGE_ID) page = NewPage(&page_id)]
    (lines 33-35 and 195-197). *)
Fixpoint NewPage_until_valid (fuel : nat) (b : BufferPoolManager)
  : outcome (BufferPoolManager * Z * Z) :=
  match fuel with
  | O => OutOfFuel
  | S fuel' =>
    let* r := NewPageImpl b in
    match r with
    | (b1, Some (page_id, f)) =>
      if page_id =? INVALID_PAGE_ID then NewPage_until_valid fuel' b1
      else Done (b1, page_id, f)
    | (b1, None) => NewPage_until_valid fuel' b1
    end
  end.

(** [while (header->NumBlocks() < header->GetSize())] (lines 41-48 and
    205-212); [fh] is the frame the header pointer designates. *)
Fixpoint add_blocks (fuel : nat) (fh : Z) (b : BufferPoolManager)
  : outcome BufferPoolManager :=
  match fuel with
  | O => OutOfFuel
  | S fuel' =>
    let* header := GetData fh b in
    if Layout.NumBlocks L header <? Layout.GetSize L header then
      let* r := NewPageImpl b in
      match r with
      | (b1, Some (tmp, _)) =>
        if tmp =? INVALID_PAGE_ID then add_blocks fuel' fh b1
        else
          let* header1 := GetData fh b1 in
          let b2 := SetData fh (Layout.AddBlockPageId L tmp header1) b1 in
          let* b3 := UnpinPage tmp false b2 in
          add_blocks fuel' fh b3
      | (b1, None) => add_blocks fuel' fh b1
      end
    else Done b
  end.

(** Lines 31-48 and 193-212: a header page for [size] block pages, then
    the block pages.  The result is the pool, the header's page id and
    the header's frame. *)
Definition allocate (fuel : nat) (size : Z) (b : BufferPoolManager)
  : outcome (BufferPoolManager * Z * Z) :=
  let* (b1, header_page_id, fh) := NewPage_until_valid fuel b in
  let* header := GetData fh b1 in
  let b2 := SetData fh (Layout.SetSize L size header) b1 in
  let* header2 := GetData fh b2 in
  let b3 := SetData fh (Layout.SetPageId L header_page_id header2) b2 in
  let* b4 := add_blocks fuel fh b3 in
  Done (b4, header_page_id, fh).

(** Constructor (lines 27-51): the new pool and [header_page_id_]. *)
Definition new (fuel : nat) (num_buckets : Z) (b : BufferPoolManager)
  : outcome (BufferPoolManager * Z) :=
  let* (b1, header_page_id, fh) := allocate fuel num_buckets b in
  let* b2 := UnpinPage header_page_id true b1 in
  Done (b2, header_page_id).

(** Lines 59-69, 124-134 and 257-266: fetch the header, hash the key,
    fetch the first block page.  The result is the pool, the header's
    frame, [hash_val] and the block page's frame. *)
Definition probe_start (header_page_id_ : Z) (key : K) (b : BufferPoolManager)
  : outcome (BufferPoolManager * Z * Z * Z) :=
  let* (b1, fh) := FetchPage header_page_id_ b in
  let* header := GetData fh b1 in
  if wrap_size_t (Layout.NumBlocks L header * BLOCK_ARRAY_SIZE) =? 0 then Undefined
  else if BLOCK_ARRAY_SIZE =? 0 then Undefined
  else
    let hash_val := wrap_size_t (hash_fn_ key)
                    mod wrap_size_t (Layout.NumBlocks L header * BLOCK_ARRAY_SIZE) in
    let* (b2, fb) := FetchPage (Layout.GetBlockPageId L header (hash_val / BLOCK_ARRAY_SIZE)) b1 in
    Done (b2, fh, hash_val, fb).

(** The [// next bucket] step (lines 80-89, 160-169 and 286-295): unpin
    the current block page, fetch the next one. *)
Definition next_bucket (fh block_ind : Z) (b : BufferPoolManager)
  : outcome (BufferPoolManager * Z * Z) :=
  let* header := GetData fh b in
  let* b1 := UnpinPage (Layout.GetBlockPageId L header block_ind) false b in
  let* header1 := GetData fh b1 in
  if Layout.NumBlocks L header1 =? 0 then Undefined
  else
    let block_ind' := (block_ind + 1) mod Layout.NumBlocks L header1 in
    let* (b2, fb) := FetchPage (Layout.GetBlockPageId L header1 block_ind') b1 in
    Done (b2, block_ind', fb).

(** Unpin the block page, then the header page (lines 269-272, 277-280,
    297-300, 139-142, 147-150 and 171-174). *)
Definition leave (header_page_id_ fh block_ind : Z) (is_dirty : bool) (b : BufferPoolManager)
  : outcome BufferPoolManager :=
  let* header := GetData fh b in
  let* b1 := UnpinPage (Layout.GetBlockPageId L header block_ind) is_dirty b in
  UnpinPage header_page_id_ false b1.

(** The probe loop of [GetValue] (lines 70-90). *)
Fixpoint GetValue_loop (fuel : nat) (b : BufferPoolManager) (fh fb : Z) (key : K)
    (hash_val block_ind offset : Z) (result : list V)
  : outcome (BufferPoolManager * list V) :=
  match fuel with
  | O => OutOfFuel
  | S fuel' =>
    let* bucket := GetData fb b in
    let s := Layout.slot_at L bucket offset in
    if Block.IsOccupied s then
      let result' :=
        if Block.IsReadable s && (comparator_ (Block.KeyAt s) key =? 0)
        then result ++ [Block.ValueAt s] else result in
      let offset' := wrap_size_t (offset + 1) in
      if wrap_size_t (block_ind * BLOCK_ARRAY_SIZE + offset') =? hash_val then
        Done (b, result')
      else if BLOCK_ARRAY_SIZE <=? offset' then
        let* (b1, block_ind', fb') := next_bucket fh block_ind b in
        GetValue_loop fuel' b1 fh fb' key hash_val block_ind' 0 result'
      else
        GetValue_loop fuel' b fh fb key hash_val block_ind offset' result'
    else Done (b, result)
  end.

(** [GetValue] (lines 57-96).  Neither the header page nor the last block
    page is unpinned on the way out. *)
Definition GetValue (fuel : nat) (header_page_id_ : Z) (key : K) (b : BufferPoolManager)
  : outcome (BufferPoolManager * bool * list V) :=
  let* (b1, fh, hash_val, fb) := probe_start header_page_id_ key b in
  let* (b2, result) := GetValue_loop fuel b1 fh fb key hash_val
                     (hash_val / BLOCK_ARRAY_SIZE) (hash_val mod BLOCK_ARRAY_SIZE) [] in
  Done (b2, negb (bool_decide (result = [])), result).

(** The probe loop of [InternalInsert] with its three ways out (lines
    267-301).  The result is the pool, the returned flag, and whether
    [*full] was set. *)
Fixpoint InternalInsert_loop (fuel : nat) (b : BufferPoolManager)
    (header_page_id_ fh fb : Z) (key : K) (value : V) (hash_val block_ind offset : Z)
  : outcome (BufferPoolManager * bool * bool) :=
  match fuel with
  | O => OutOfFuel
  | S fuel' =>
    let* bucket := GetData fb b in
    let (s', inserted) := Block.Insert key value (Layout.slot_at L bucket offset) in
    if inserted then
      let* b1 := leave header_page_id_ fh block_ind true
              (SetData fb (Layout.put_slot L offset s' bucket) b) in
      Done (b1, true, false)
    else if Hash.same_pair comparator_ value_eqb (Layout.slot_at L bucket offset) key value then
      let* b1 := leave header_page_id_ fh block_ind false b in
      Done (b1, false, false)
    else
      let offset' := wrap_size_t (offset + 1) in
      if wrap_size_t (block_ind * BLOCK_ARRAY_SIZE + offset') =? hash_val then
        let* b1 := leave header_page_id_ fh block_ind false b in
        Done (b1, false, true)
      else if BLOCK_ARRAY_SIZE <=? offset' then
        let* (b1, block_ind', fb') := next_bucket fh block_ind b in
        InternalInsert_loop fuel' b1 header_page_id_ fh fb' key value hash_val block_ind' 0
      else
        InternalInsert_loop fuel' b header_page_id_ fh fb key value hash_val block_ind offset'
  end.

Definition InternalInsert (fuel : nat) (header_page_id_ : Z) (key : K) (value : V)
    (b : BufferPoolManager) : outcome (BufferPoolManager * bool * bool) :=
  let* (b1, fh, hash_val, fb) := probe_start header_page_id_ key b in
  InternalInsert_loop fuel b1 header_page_id_ fh fb key value hash_val
    (hash_val / BLOCK_ARRAY_SIZE) (hash_val mod BLOCK_ARRAY_SIZE).

(** The probe loop of [Remove] with its ways out (lines 136-176). *)
Fixpoint Remove_loop (fuel : nat) (b : BufferPoolManager)
    (header_page_id_ fh fb : Z) (key : K) (value : V) (hash_val block_ind offset : Z)
  : outcome (BufferPoolManager * bool) :=
  match fuel with
  | O => OutOfFuel
  | S fuel' =>
    let* bucket := GetData fb b in
    let s := Layout.slot_at L bucket offset in
    if Block.IsOccupied s then
      if Hash.same_pair comparator_ value_eqb s key value then
        if negb (Block.IsReadable s) then
          let* b1 := leave header_page_id_ fh block_ind false b in
          Done (b1, false)
        else
          let* b1 := leave header_page_id_ fh block_ind true
                  (SetData fb (Layout.put_slot L offset (Block.Remove s) bucket) b) in
          Done (b1, true)
      else
        let offset' := wrap_size_t (offset + 1) in
        if wrap_size_t (block_ind * BLOCK_ARRAY_SIZE + offset') =? hash_val then
          let* b1 := leave header_page_id_ fh block_ind false b in
          Done (b1, false)
        else if BLOCK_ARRAY_SIZE <=? offset' then
          let* (b1, block_ind', fb') := next_bucket fh block_ind b in
          Remove_loop fuel' b1 header_page_id_ fh fb' key value hash_val block_ind' 0
        else
          Remove_loop fuel' b header_page_id_ fh fb key value hash_val block_ind offset'
    else
      let* b1 := leave header_page_id_ fh block_ind false b in
      Done (b1, false)
  end.

Definition Remove (fuel : nat) (header_page_id_ : Z) (key : K) (value : V)
    (b : BufferPoolManager) : outcome (BufferPoolManager * bool) :=
  let* (b1, fh, hash_val, fb) := probe_start header_page_id_ key b in
  Remove_loop fuel b1 header_page_id_ fh fb key value hash_val
    (hash_val / BLOCK_ARRAY_SIZE) (hash_val mod BLOCK_ARRAY_SIZE).

(** [GetSize] (lines 243-253). *)
Definition GetSize (header_page_id_ : Z) (b : BufferPoolManager)
  : outcome (BufferPoolManager * Z) :=
  let* (b1, fh) := FetchPage header_page_id_ b in
  let* header := GetData fh b1 in
  let bucket_num := Layout.NumBlocks L header in
  let* b2 := UnpinPage header_page_id_ false b1 in
  Done (b2, wrap_size_t (bucket_num * BLOCK_ARRAY_SIZE)).

(** The inner [for] loop of [Resize] (lines 220-226); [InternalInsert]
    runs against the new header. *)
Fixpoint move_slots (fuel : nat) (fb new_header_page_id : Z) (offsets : list nat)
    (b : BufferPoolManager) : outcome BufferPoolManager :=
  match offsets with
  | [] => Done b
  | offset :: rest =>
    let* bucket := GetData fb b in
    let s := Layout.slot_at L bucket (Z.of_nat offset) in
    if Block.IsReadable s then
      let* r := InternalInsert fuel new_header_page_id (Block.KeyAt s) (Block.ValueAt s) b in
      move_slots fuel fb new_header_page_id rest (fst (fst r))
    else move_slots fuel fb new_header_page_id rest b
  end.

(** The outer [for] loop of [Resize] (lines 215-230); [foh] is the frame
    the original header pointer designates. *)
Fixpoint move_blocks (fuel inner : nat) (foh new_header_page_id block_ind : Z)
    (b : BufferPoolManager) : outcome BufferPoolManager :=
  match fuel with
  | O => OutOfFuel
  | S fuel' =>
    let* original_header := GetData foh b in
    if block_ind <? Layout.NumBlocks L original_header then
      let bucket_page_id := Layout.GetBlockPageId L original_header block_ind in
      let* (b1, fb) := FetchPage bucket_page_id b in
      let* b2 := move_slots inner fb new_header_page_id
              (seq 0 (Z.to_nat BLOCK_ARRAY_SIZE)) b1 in
      let* b3 := UnpinPage bucket_page_id false b2 in
      let* b4 := DeletePage bucket_page_id b3 in
      move_blocks fuel' inner foh new_header_page_id (block_ind + 1) b4
    else Done b
  end.

(** [Resize] (lines 183-237): the new pool and the new
    [header_page_id_]. *)
Definition Resize (fuel : nat) (initial_size : Z) (header_page_id_ : Z)
    (b : BufferPoolManager) : outcome (BufferPoolManager * Z) :=
  if BLOCK_ARRAY_SIZE =? 0 then Undefined
  else
    let original_header_page_id := header_page_id_ in
    let* (b1, foh) := FetchPage original_header_page_id b in
    let size := wrap_size_t
                  (wrap_size_t (2 * initial_size) / BLOCK_ARRAY_SIZE
                   + (if 0 <? wrap_size_t (2 * initial_size) mod BLOCK_ARRAY_SIZE
                      then 1 else 0)) in
    let* (b2, new_header_page_id, fnh) := allocate fuel size b1 in
    let* b3 := move_blocks fuel fuel foh new_header_page_id 0 b2 in
    let* b4 := UnpinPage original_header_page_id false b3 in
    let* b5 := DeletePage original_header_page_id b4 in
    let* b6 := UnpinPage new_header_page_id false b5 in
    Done (b6, new_header_page_id).

(** The [while (!InternalInsert(key, value, &full))] loop of [Insert]
    (lines 105-113); [full] is never cleared. *)
Fixpoint Insert_loop (fuel inner : nat) (header_page_id_ : Z) (key : K) (value : V)
    (full : bool) (b : BufferPoolManager) : outcome (BufferPoolManager * Z * bool) :=
  match fuel with
  | O => OutOfFuel
  | S fuel' =>
    let* r := InternalInsert inner header_page_id_ key value b in
    match r with
    | (b1, true, _) => Done (b1, header_page_id_, true)
    | (b1, false, signalled) =>
      if full || signalled then
        let* (b2, size) := GetSize header_page_id_ b1 in
        let* (b3, header_page_id') := Resize inner size header_page_id_ b2 in
        Insert_loop fuel' inner header_page_id' key value true b3
      else Done (b1, header_page_id_, false)
    end
  end.

(** [Insert] (lines 101-116): the pool, [header_page_id_] (which a
    [Resize] replaces) and the returned flag. *)
Definition Insert (fuel : nat) (header_page_id_ : Z) (key : K) (value : V)
    (b : BufferPoolManager) : outcome (BufferPoolManager * Z * bool) :=
  Insert_loop fuel fuel header_page_id_ key value false b.

End Table.
End Paged.


(** ** The table a pool hosts *)

Module Hosting.
Import Pool.

(** The image in frame [f]. *)
Definition image_at (f : Z) (b : BufferPoolManager) : option Disk.image :=
  data_ <$> page_at f b.

(** [b'] has the page table, the images, the free list and the disk of
    [b]: pin counts, dirty flags and the replacer may differ. *)
Definition same_content (b b' : BufferPoolManager) : Prop :=
  page_table_ b' = page_table_ b /\
  (forall g, image_at g b' = image_at g b) /\
  free_list_ b' = free_list_ b /\
  disk_manager_ b' = disk_manager_ b.

(** As [same_content], except for the images of the frames in [frames]. *)
Definition touches_only (frames : list Z) (b b' : BufferPoolManager) : Prop :=
  page_table_ b' = page_table_ b /\
  (forall g, g ∉ frames -> image_at g b' = image_at g b) /\
  free_list_ b' = free_list_ b /\
  disk_manager_ b' = disk_manager_ b.

(** The frames of the free list are pairwise different, are none of
    [used], and hold zeroed images (as the constructor of the pool leaves
    them). *)
Definition fresh_frames (b : BufferPoolManager) (used : list Z) : Prop :=
  NoDup (free_list_ b) /\
  forall f, f ∈ free_list_ b -> (f ∉ used) /\ image_at f b = Some Disk.zero_image.

(** The page table holds no page id that the disk manager has yet to
    hand out. *)
Definition fresh_ids (b : BufferPoolManager) : Prop :=
  0 <= Disk.next_page_id_ (disk_manager_ b) /\
  forall page_id, Disk.next_page_id_ (disk_manager_ b) <= page_id ->
    page_table_ b !! page_id = None.

Section Hosted.
Context {K V : Type}.
Variable BLOCK_ARRAY_SIZE : Z.
Variable L : Layout.PageLayout K V.

(** An image read as a block page: its BLOCK_ARRAY_SIZE slots. *)
Definition block_of (img : Disk.image) : Hash.block K V :=
  (fun offset : nat => Layout.slot_at L img (Z.of_nat offset))
    <$> seq 0 (Z.to_nat BLOCK_ARRAY_SIZE).

(** The pool hosts the table [t] under [header_page_id_]: the header page
    is in the page table, in frame [fh]; the header names as many block
    pages as [t] has blocks; block page [i] is in the page table, in
    frame [frames !! i], whose image reads as block [i] of [t]; and all
    these frames are different. *)
Definition hosted (b : BufferPoolManager) (header_page_id_ fh : Z) (frames : list Z)
    (t : Hash.table K V) : Prop :=
  page_table_ b !! header_page_id_ = Some fh /\
  (exists header,
     image_at fh b = Some header /\
     Layout.NumBlocks L header = Z.of_nat (length t) /\
     forall (i : nat) f, frames !! i = Some f ->
       page_table_ b !! Layout.GetBlockPageId L header (Z.of_nat i) = Some f) /\
  length frames = length t /\
  NoDup (fh :: frames) /\
  forall (i : nat) f, frames !! i = Some f ->
    exists img,
      image_at f b = Some img /\ length img = Disk.PAGE_SIZE /\
      t !! i = Some (block_of img).

(** [Resize] at work on block [i] of the old table: the pool hosts the
    new table [new_t]; the old header is still in frame [foh], and the
    old block pages from [i] on are still in the page table, in their
    frames, holding the blocks of [t]. *)
Definition moving (b : BufferPoolManager) (header_page_id_ foh : Z) (old_frames : list Z)
    (original_header : Disk.image) (t : Hash.table K V) (i : nat)
    (new_header_page_id fnh : Z) (new_frames : list Z) (new_t : Hash.table K V) : Prop :=
  hosted b new_header_page_id fnh new_frames new_t /\
  image_at foh b = Some original_header /\
  page_table_ b !! header_page_id_ = Some foh /\
  forall (j : nat) f, (i <= j)%nat -> old_frames !! j = Some f ->
    page_table_ b !! Layout.GetBlockPageId L original_header (Z.of_nat j) = Some f /\
    exists img, image_at f b = Some img /\ t !! j = Some (block_of img).

Definition hosts (b : BufferPoolManager) (header_page_id_ : Z) (t : Hash.table K V) : Prop :=
  exists fh frames, hosted b header_page_id_ fh frames t.

(** [hosts], with [n] fresh frames in the free list and [n] page ids left
    to allocate: room for [n] calls of [NewPage] that evict nothing. *)
Definition hosts_with_room (b : BufferPoolManager) (header_page_id_ : Z)
    (t : Hash.table K V) (n : Z) : Prop :=
  exists fh frames,
    hosted b header_page_id_ fh frames t /\
    fresh_frames b (fh :: frames) /\ fresh_ids b /\
    n <= Z.of_nat (length (free_list_ b)) /\
    Disk.next_page_id_ (disk_manager_ b) + n <= 2 ^ 31.

(** The table read out of the pool the way the code reaches it: the
    header page through the page table, then each block page the header
    names, through the page table again. *)
Definition contents (b : BufferPoolManager) (header_page_id_ : Z)
  : option (Hash.table K V) :=
  fh ← page_table_ b !! header_page_id_;
  header ← image_at fh b;
  mapM (fun i : nat =>
          f ← page_table_ b !! Layout.GetBlockPageId L header (Z.of_nat i);
          block_of <$> image_at f b)
       (seq 0 (Z.to_nat (Layout.NumBlocks L header))).

End Hosted.
End Hosting.

(** ** Scenarios of the hash table on a pool *)

Module PagedScenario.
Import Pool Paged.

(** The table of the end-to-end scenarios ([int] keys and values,
    [hash(k) = k]) as the pool and [header_page_id_]. *)
Definition state : Type := outcome (BufferPoolManager * Z).

(** The constructor on a pool of [pool_size] frames over an empty disk. *)
Definition int_new (bas : Z) (pool_size : nat) (num_buckets : Z) : state :=
  Paged.new (Layout.IntLayout bas) (S pool_size) num_buckets (Pool.new pool_size Disk.new).

Definition int_Insert (bas : Z) (fuel : nat) (st : state) (k v : Z) : state :=
  let* (b, h) := st in
  let* (b', h', _) := Paged.Insert Hash.IntComparator Z.eqb (fun k => k) bas
                      (Layout.IntLayout bas) fuel h k v b in
  Done (b', h').

Definition int_Remove (bas : Z) (fuel : nat) (st : state) (k v : Z) : state :=
  let* (b, h) := st in
  let* (b', _) := Paged.Remove Hash.IntComparator Z.eqb (fun k => k) bas
                   (Layout.IntLayout bas) fuel h k v b in
  Done (b', h).

(** [Resize(GetSize())]. *)
Definition int_Resize (bas : Z) (fuel : nat) (st : state) : state :=
  let* (b, h) := st in
  let* (b1, size) := Paged.GetSize bas (Layout.IntLayout bas) h b in
  Paged.Resize Hash.IntComparator Z.eqb (fun k => k) bas (Layout.IntLayout bas) fuel size h b1.

Definition int_GetValue (bas : Z) (fuel : nat) (st : state) (k : Z)
  : outcome (bool * list Z) :=
  let* (b, h) := st in
  let* (_, found, result) := Paged.GetValue Hash.IntComparator (fun k => k) bas
                           (Layout.IntLayout bas) fuel h k b in
  Done (found, result).

Definition int_contents (bas : Z) (st : state) : option (Hash.table Z Z) :=
  match st with
  | Done (b, h) => Hosting.contents bas (Layout.IntLayout bas) b h
  | _ => None
  end.

Definition pool_of (st : state) : BufferPoolManager :=
  match st with
  | Done (b, _) => b
  | _ => Pool.new 0 Disk.new
  end.

Definition header_of (st : state) : Z :=
  match st with
  | Done (_, h) => h
  | _ => INVALID_PAGE_ID
  end.

(** Scenario 6 of the spec on a pool of eight frames: one block page of
    two slots, then [Insert(2, 20); Insert(1, 10)]. *)
Definition full2 : state :=
  int_Insert 2 4 (int_Insert 2 4 (int_new 2 8 1) 2 20) 1 10.

(** One block page of four slots on a pool of eight frames, after
    [Insert(1, 10)]. *)
Definition one_pair : state := int_Insert 4 8 (int_new 4 8 1) 1 10.

(** The same table after [Insert(5, 50); Remove(1, 10); Insert(5, 50)]. *)
Definition twice : state :=
  int_Insert 4 8 (int_Remove 4 8 (int_Insert 4 8 one_pair 5 50) 1 10) 5 50.

(** The constructor with two block pages on a pool of two frames, then
    [Insert(1, 11); Insert(0, 10)] with block pages of two slots. *)
Definition crowded : state :=
  int_Insert 2 8 (int_Insert 2 8 (int_new 2 2 2) 1 11) 0 10.

End PagedScenario.

(** * Properties *)

Lemma wrap_size_t_small (z : Z) : 0 <= z < 2 ^ 64 -> wrap_size_t z = z.
Proof. intros H. unfold wrap_size_t. apply Z.mod_small. exact H. Qed.

Lemma to_int32_small (z : Z) : 0 <= z < 2 ^ 31 -> to_int32 z = z.
Proof. intros H. unfold to_int32. rewrite Z.mod_small; lia. Qed.

Module ReplacerFacts.
Import Replacer.

Lemma count_unpinned_cons (m : Meta) (fs : list Meta) :
  Z.of_nat (count_unpinned (m :: fs)) = b2z (unpinned m) + Z.of_nat (count_unpinned fs).
Proof.
  unfold count_unpinned. rewrite filter_cons.
  destruct (unpinned m) eqn:E; case_decide; try congruence; simpl; lia.
Qed.

Lemma count_unpinned_insert (fs : list Meta) (i : nat) (m m' : Meta) :
  fs !! i = Some m ->
  Z.of_nat (count_unpinned (<[i := m']> fs))
  = Z.of_nat (count_unpinned fs) - b2z (unpinned m) + b2z (unpinned m').
Proof.
  revert i. induction fs as [|x fs IH]; intros i Hi.
  - discriminate.
  - destruct i as [|i]; simpl in *.
    + inversion Hi; subst. rewrite !count_unpinned_cons. lia.
    + rewrite !count_unpinned_cons. rewrite (IH i Hi). lia.
Qed.

Lemma count_unpinned_le (fs : list Meta) : (count_unpinned fs <= length fs)%nat.
Proof. unfold count_unpinned. apply length_filter. Qed.

Lemma count_unpinned_lookup (fs : list Meta) (i : nat) (m : Meta) :
  fs !! i = Some m -> pin_ m = false -> (0 < count_unpinned fs)%nat.
Proof.
  revert i. induction fs as [|x fs IH]; intros i Hi Hp; [discriminate|].
  pose proof (count_unpinned_cons x fs) as Hc.
  destruct i as [|i]; simpl in Hi.
  - inversion Hi; subst. unfold unpinned in Hc. rewrite Hp in Hc. simpl in Hc. lia.
  - specialize (IH i Hi Hp). unfold b2z in Hc. destruct (unpinned x); lia.
Qed.

Lemma count_unpinned_pos (fs : list Meta) :
  (0 < count_unpinned fs)%nat ->
  exists i m, fs !! i = Some m /\ pin_ m = false.
Proof.
  induction fs as [|x fs IH]; intros H.
  - unfold count_unpinned in H. simpl in H. lia.
  - destruct (pin_ x) eqn:E.
    + pose proof (count_unpinned_cons x fs) as Hc. unfold unpinned in Hc.
      rewrite E in Hc. simpl in Hc.
      destruct IH as (i & m & Hi & Hm); [lia|].
      exists (S i), m. split; assumption.
    + exists 0%nat, x. split; [reflexivity | assumption].
Qed.

Lemma count_unpinned_replicate_pinned (n : nat) (b : bool) :
  count_unpinned (replicate n {| pin_ := true; ref_ := b |}) = 0%nat.
Proof.
  induction n as [|n IH]; [reflexivity|].
  simpl. apply Nat2Z.inj. rewrite count_unpinned_cons. rewrite IH. reflexivity.
Qed.

Lemma consistent_new (n : nat) : consistent n (new n).
Proof.
  split; simpl.
  - apply length_replicate.
  - rewrite count_unpinned_replicate_pinned. reflexivity.
Qed.

Lemma consistent_Pin (n : nat) (f : Z) (r : ClockReplacer) :
  Z.of_nat n < 2 ^ 64 -> consistent n r -> consistent n (Pin f r).
Proof.
  intros Hn [Hlen Hcs]. unfold Pin.
  destruct (Z.of_nat (length (frames_ r)) <=? wrap_size_t f); [split; assumption|].
  destruct (frames_ r !! Z.to_nat f) as [m|] eqn:Hm; [|split; assumption].
  destruct (pin_ m) eqn:Hp; simpl; [split; assumption|].
  split; simpl.
  - rewrite length_insert. assumption.
  - rewrite (count_unpinned_insert _ _ m _ Hm). unfold unpinned. rewrite Hp. simpl.
    pose proof (count_unpinned_lookup _ _ _ Hm Hp).
    pose proof (count_unpinned_le (frames_ r)).
    rewrite wrap_size_t_small; lia.
Qed.

Lemma consistent_Unpin (n : nat) (f : Z) (r : ClockReplacer) :
  Z.of_nat n < 2 ^ 64 -> consistent n r -> consistent n (Unpin f r).
Proof.
  intros Hn [Hlen Hcs]. unfold Unpin.
  destruct (Z.of_nat (length (frames_ r)) <=? wrap_size_t f); [split; assumption|].
  destruct (frames_ r !! Z.to_nat f) as [m|] eqn:Hm; [|split; assumption].
  split; simpl.
  - rewrite length_insert. assumption.
  - rewrite (count_unpinned_insert _ _ m _ Hm). unfold unpinned. simpl.
    pose proof (count_unpinned_le (frames_ r)).
    pose proof (count_unpinned_insert _ _ m {| pin_ := false; ref_ := true |} Hm) as Hc.
    pose proof (count_unpinned_le (<[Z.to_nat f := {| pin_ := false; ref_ := true |}]> (frames_ r))) as Hle.
    rewrite length_insert in Hle. unfold unpinned in Hc. simpl in Hc.
    destruct (pin_ m); simpl in *.
    + rewrite wrap_size_t_small; lia.
    + lia.
Qed.

(** One call of [Victim] that returns keeps the invariant, and it returns
    false exactly when the counter was 0. *)
Lemma consistent_Victim_loop (n : nat) (fuel : nat) :
  Z.of_nat n < 2 ^ 64 ->
  forall r r' out,
    consistent n r ->
    Victim_loop fuel r = Done (r', out) ->
    consistent n r' /\ (out = None <-> count_unpinned (frames_ r) = 0%nat).
Proof.
  intros Hn. induction fuel as [|fuel IH]; intros r r' out [Hlen Hcs] Hrun.
  - discriminate.
  - simpl in Hrun.
    destruct (0 <? clock_size_ r) eqn:Hpos.
    2:{ inversion Hrun; subst. split; [split; reflexivity || assumption|].
        apply Z.ltb_ge in Hpos. split; [intros _; lia | reflexivity]. }
    apply Z.ltb_lt in Hpos.
    destruct (Z.of_nat (length (frames_ r)) =? 0) eqn:Hz; [discriminate|].
    apply Z.eqb_neq in Hz.
    set (hand := clock_hand_ r mod Z.of_nat (length (frames_ r))) in *.
    destruct (frames_ r !! Z.to_nat hand) as [m|] eqn:Hm; [|discriminate].
    destruct (pin_ m) eqn:Hp.
    + apply IH in Hrun; [exact Hrun | split; simpl; assumption].
    + destruct (ref_ m) eqn:Hr.
      * apply IH in Hrun.
        -- destruct Hrun as [Hc Hout]. split; [exact Hc|].
           simpl in Hout. rewrite Hout.
           pose proof (count_unpinned_insert _ _ m {| pin_ := false; ref_ := false |} Hm) as Hs.
           unfold unpinned in Hs. rewrite Hp in Hs. simpl in Hs. lia.
        -- split; simpl.
           ++ rewrite length_insert. assumption.
           ++ rewrite (count_unpinned_insert _ _ m _ Hm). unfold unpinned.
              rewrite Hp. simpl. lia.
      * inversion Hrun; subst. split.
        -- split; simpl.
           ++ rewrite length_insert. reflexivity.
           ++ rewrite (count_unpinned_insert _ _ m _ Hm). unfold unpinned.
              rewrite Hp. simpl.
              pose proof (count_unpinned_le (frames_ r)).
              rewrite wrap_size_t_small; lia.
        -- split; [discriminate | intros; lia].
Qed.

Lemma reachable_consistent (n : nat) (r : ClockReplacer) :
  Z.of_nat n < 2 ^ 64 -> reachable n r -> consistent n r.
Proof.
  intros Hn Hr. induction Hr.
  - apply consistent_new.
  - apply consistent_Pin; assumption.
  - apply consistent_Unpin; assumption.
  - eapply consistent_Victim_loop; eassumption.
Qed.

Lemma Victim_loop_fuel_mono (fuel : nat) :
  forall r x, Victim_loop fuel r = Done x ->
  forall fuel', (fuel <= fuel')%nat -> Victim_loop fuel' r = Done x.
Proof.
  induction fuel as [|fuel IH]; intros r x Hrun fuel' Hle; [discriminate|].
  destruct fuel' as [|fuel']; [lia|].
  simpl in *.
  destruct (0 <? clock_size_ r); [|assumption].
  destruct (Z.of_nat (length (frames_ r)) =? 0); [discriminate|].
  destruct (frames_ r !! _) as [m|]; [|discriminate].
  destruct (pin_ m); [apply IH; [assumption | lia]|].
  destruct (ref_ m); [apply IH; [assumption | lia] | assumption].
Qed.

Lemma Victim_loop_S (fuel : nat) (r : ClockReplacer) :
  Victim_loop (S fuel) r =
    if 0 <? clock_size_ r then
      if Z.of_nat (length (frames_ r)) =? 0 then Undefined
      else
        let hand := clock_hand_ r mod Z.of_nat (length (frames_ r)) in
        match frames_ r !! Z.to_nat hand with
        | None => Undefined
        | Some m =>
          if pin_ m then
            Victim_loop fuel
              {| frames_ := frames_ r;
                 clock_hand_ := wrap_size_t (hand + 1);
                 clock_size_ := clock_size_ r |}
          else if ref_ m then
            Victim_loop fuel
              {| frames_ := <[Z.to_nat hand := {| pin_ := pin_ m; ref_ := false |}]> (frames_ r);
                 clock_hand_ := wrap_size_t (hand + 1);
                 clock_size_ := clock_size_ r |}
          else
            Done ({| frames_ := <[Z.to_nat hand := {| pin_ := true; ref_ := ref_ m |}]> (frames_ r);
                     clock_hand_ := wrap_size_t (hand + 1);
                     clock_size_ := wrap_size_t (clock_size_ r - 1) |},
                  Some (to_int32 hand))
        end
    else Done (r, None).
Proof. reflexivity. Qed.

(** Cyclic distances on the clock face. *)
Lemma clock_next (n h d : Z) :
  0 < n -> ((h mod n + 1) mod n + d) mod n = (h mod n + (d + 1)) mod n.
Proof.
  intros Hn. rewrite Zplus_mod_idemp_l. f_equal. lia.
Qed.

Lemma clock_ahead_ne (n h d : Z) :
  0 < n -> 0 < d < n -> (h mod n + d) mod n <> h mod n.
Proof.
  intros Hn Hd Heq.
  pose proof (Z.mod_pos_bound h n Hn) as Hh.
  destruct (Z_lt_ge_dec (h mod n + d) n) as [Hlt|Hge].
  - rewrite Z.mod_small in Heq; lia.
  - replace (h mod n + d) with ((h mod n + d - n) + 1 * n) in Heq by lia.
    rewrite Z.mod_add in Heq by lia.
    rewrite Z.mod_small in Heq; lia.
Qed.

Lemma clock_reach (n h i : Z) :
  0 < n -> 0 <= i < n -> (h mod n + (i - h mod n) mod n) mod n = i.
Proof.
  intros Hn Hi. rewrite Zplus_mod_idemp_r.
  replace (h mod n + (i - h mod n)) with i by lia.
  apply Z.mod_small. exact Hi.
Qed.

(** The hand reaches an unpinned entry whose reference bit is clear after
    at most [d] advances, [d] being its distance ahead of the hand. *)
Lemma Victim_loop_finds_clear (d : nat) :
  forall fs hand cs m n,
    n = Z.of_nat (length fs) ->
    0 < n < 2 ^ 64 -> 0 < cs -> (Z.of_nat d < n) ->
    fs !! Z.to_nat ((hand mod n + Z.of_nat d) mod n) = Some m ->
    pin_ m = false -> ref_ m = false ->
    exists x, Victim_loop (S d)
                {| frames_ := fs; clock_hand_ := hand; clock_size_ := cs |} = Done x.
Proof.
  induction d as [|d IH]; intros fs hand cs m n En Hn Hcs Hd Hm Hp Hr.
  - replace (hand mod n + Z.of_nat 0) with (hand mod n) in Hm by lia.
    rewrite Z.mod_mod in Hm by lia.
    simpl. rewrite <- En.
    assert ((0 <? cs) = true) as -> by (apply Z.ltb_lt; lia).
    assert ((n =? 0) = false) as -> by (apply Z.eqb_neq; lia).
    rewrite Hm, Hp, Hr. eexists. reflexivity.
  - pose proof (Z.mod_pos_bound hand n ltac:(lia)) as Hh.
    assert (Hlook : is_Some (fs !! Z.to_nat (hand mod n))).
    { apply lookup_lt_is_Some. lia. }
    destruct Hlook as [m0 Hm0].
    rewrite Victim_loop_S. cbn [frames_ clock_hand_ clock_size_]. rewrite <- En.
    assert ((0 <? cs) = true) as -> by (apply Z.ltb_lt; lia).
    assert ((n =? 0) = false) as -> by (apply Z.eqb_neq; lia).
    rewrite Hm0.
    rewrite wrap_size_t_small by lia.
    assert (Htgt : (((hand mod n + 1) mod n + Z.of_nat d) mod n)
                   = (hand mod n + Z.of_nat (S d)) mod n).
    { rewrite clock_next by lia. f_equal. lia. }
    assert (Hne : Z.to_nat (hand mod n)
                  <> Z.to_nat ((hand mod n + Z.of_nat (S d)) mod n)).
    { pose proof (Z.mod_pos_bound (hand mod n + Z.of_nat (S d)) n ltac:(lia)) as Hb.
      intros Heq. apply (clock_ahead_ne n hand (Z.of_nat (S d))); lia. }
    destruct (pin_ m0) eqn:Hp0.
    + apply (IH fs (hand mod n + 1) cs m n); try lia; try assumption.
      rewrite Htgt. assumption.
    + destruct (ref_ m0) eqn:Hr0; [|eexists; reflexivity].
      apply (IH _ (hand mod n + 1) cs m n); rewrite ?length_insert;
        try lia; try assumption.
      rewrite Htgt. rewrite list_lookup_insert_ne; assumption.
Qed.

(** Any unpinned entry ahead of the hand is enough: at worst its reference
    bit is cleared on the first visit and it is chosen one sweep later. *)
Lemma Victim_loop_finds (d : nat) :
  forall fs hand cs m n,
    n = Z.of_nat (length fs) ->
    0 < n < 2 ^ 64 -> 0 < cs -> (Z.of_nat d < n) ->
    fs !! Z.to_nat ((hand mod n + Z.of_nat d) mod n) = Some m ->
    pin_ m = false ->
    exists x, Victim_loop (S d + length fs)
                {| frames_ := fs; clock_hand_ := hand; clock_size_ := cs |} = Done x.
Proof.
  induction d as [|d IH]; intros fs hand cs m n En Hn Hcs Hd Hm Hp.
  - replace (hand mod n + Z.of_nat 0) with (hand mod n) in Hm by lia.
    rewrite Z.mod_mod in Hm by lia.
    pose proof (Z.mod_pos_bound hand n ltac:(lia)) as Hh.
    cbn [Nat.add]. rewrite Victim_loop_S. cbn [frames_ clock_hand_ clock_size_]. rewrite <- En.
    assert ((0 <? cs) = true) as -> by (apply Z.ltb_lt; lia).
    assert ((n =? 0) = false) as -> by (apply Z.eqb_neq; lia).
    rewrite Hm, Hp. rewrite wrap_size_t_small by lia.
    destruct (ref_ m) eqn:Hr; [|eexists; reflexivity].
    assert (Hlen : length fs = S (Z.to_nat (n - 1))) by lia.
    rewrite Hlen.
    apply (Victim_loop_finds_clear _ _ _ _ {| pin_ := false; ref_ := false |} n);
      rewrite ?length_insert; try lia; try reflexivity.
    rewrite Z2Nat.id by lia.
    replace ((hand mod n + 1) mod n + (n - 1)) with ((hand mod n + 1) mod n + -1 + 1 * n) by lia.
    rewrite Z.mod_add by lia. rewrite Zplus_mod_idemp_l.
    replace (hand mod n + 1 + -1) with (hand mod n) by lia.
    rewrite Z.mod_mod by lia.
    apply list_lookup_insert_eq. lia.
  - pose proof (Z.mod_pos_bound hand n ltac:(lia)) as Hh.
    assert (Hlook : is_Some (fs !! Z.to_nat (hand mod n))).
    { apply lookup_lt_is_Some. lia. }
    destruct Hlook as [m0 Hm0].
    cbn [Nat.add]. rewrite Victim_loop_S. cbn [frames_ clock_hand_ clock_size_]. rewrite <- En.
    assert ((0 <? cs) = true) as -> by (apply Z.ltb_lt; lia).
    assert ((n =? 0) = false) as -> by (apply Z.eqb_neq; lia).
    rewrite Hm0.
    rewrite wrap_size_t_small by lia.
    assert (Htgt : (((hand mod n + 1) mod n + Z.of_nat d) mod n)
                   = (hand mod n + Z.of_nat (S d)) mod n).
    { rewrite clock_next by lia. f_equal. lia. }
    assert (Hne : Z.to_nat (hand mod n)
                  <> Z.to_nat ((hand mod n + Z.of_nat (S d)) mod n)).
    { pose proof (Z.mod_pos_bound (hand mod n + Z.of_nat (S d)) n ltac:(lia)) as Hb.
      intros Heq. apply (clock_ahead_ne n hand (Z.of_nat (S d))); lia. }
    destruct (pin_ m0) eqn:Hp0.
    + apply (IH fs (hand mod n + 1) cs m n); try lia; try assumption.
      rewrite Htgt. assumption.
    + destruct (ref_ m0) eqn:Hr0; [|eexists; reflexivity].
      pose proof (IH (<[Z.to_nat (hand mod n) := {| pin_ := false; ref_ := false |}]> fs)
                     (hand mod n + 1) cs m n) as IH'.
      rewrite length_insert in IH'. apply IH'; try lia; try assumption.
      rewrite Htgt. rewrite list_lookup_insert_ne; assumption.
Qed.

(** On a consistent replacer [Victim] returns within two sweeps. *)
Lemma Victim_loop_terminates (n : nat) (r : ClockReplacer) :
  Z.of_nat n < 2 ^ 64 -> consistent n r ->
  exists x, forall fuel, (Victim_fuel r <= fuel)%nat -> Victim_loop fuel r = Done x.
Proof.
  destruct r as [fs h cs]. unfold consistent, Victim_fuel.
  cbn [frames_ clock_hand_ clock_size_]. intros Hn [Hlen Hcs].
  destruct (count_unpinned fs) as [|c] eqn:Hc.
  - eexists. intros fuel Hf.
    destruct fuel as [|fuel]; [lia|]. rewrite Victim_loop_S.
    cbn [frames_ clock_hand_ clock_size_]. rewrite Hcs. reflexivity.
  - destruct (count_unpinned_pos fs) as (i & m & Hi & Hp); [lia|].
    pose proof (lookup_lt_Some _ _ _ Hi) as Hilt.
    remember (Z.of_nat (length fs)) as len eqn:El.
    set (d := Z.to_nat ((Z.of_nat i - h mod len) mod len)).
    assert (Hlen0 : 0 < len < 2 ^ 64) by lia.
    pose proof (Z.mod_pos_bound (Z.of_nat i - h mod len) len ltac:(lia)) as Hd.
    destruct (Victim_loop_finds d fs h cs m len) as [x Hx];
      try lia; try assumption.
    + unfold d. rewrite Z2Nat.id by lia.
      rewrite clock_reach by lia. rewrite Nat2Z.id. assumption.
    + exists x. intros fuel Hf.
      eapply Victim_loop_fuel_mono; [exact Hx|]. lia.
Qed.

End ReplacerFacts.

Module ReplacerClaims.
Import Replacer ReplacerFacts.

(** C10: from the initial all-pinned state, after any sequence of [Pin],
    [Unpin] and [Victim] calls, [Size] (the counter [clock_size_]) equals
    the number of entries whose pinned bit is false; and [Victim] returns
    (within two sweeps of the hand), with [false] exactly when that number
    is 0. *)
Theorem clock_size_counts_unpinned (num_pages : nat) (r : ClockReplacer) :
  Z.of_nat num_pages < 2 ^ 64 ->
  reachable num_pages r ->
  Size r = Z.of_nat (count_unpinned (frames_ r)) /\
  exists r' out,
    Victim r = Done (r', out) /\
    (forall fuel, (Victim_fuel r <= fuel)%nat -> Victim_loop fuel r = Done (r', out)) /\
    (out = None <-> count_unpinned (frames_ r) = 0%nat).
Proof.
  intros Hn Hr.
  pose proof (reachable_consistent _ _ Hn Hr) as Hc.
  split; [exact (proj2 Hc)|].
  destruct (Victim_loop_terminates _ _ Hn Hc) as [[r' out] Hx].
  exists r', out. split; [|split].
  - apply Hx. unfold Victim_fuel. lia.
  - exact Hx.
  - eapply consistent_Victim_loop; [exact Hn | exact Hc |].
    apply (Hx (Victim_fuel r)). lia.
Qed.

Lemma clock_size_counts_unpinned_witness :
  Size (Unpin 1 (Pin 0 (Unpin 0 (new 3))))
  = Z.of_nat (count_unpinned (frames_ (Unpin 1 (Pin 0 (Unpin 0 (new 3)))))) /\
  exists r' out,
    Victim (Unpin 1 (Pin 0 (Unpin 0 (new 3)))) = Done (r', out) /\
    (forall fuel, (Victim_fuel (Unpin 1 (Pin 0 (Unpin 0 (new 3)))) <= fuel)%nat ->
       Victim_loop fuel (Unpin 1 (Pin 0 (Unpin 0 (new 3)))) = Done (r', out)) /\
    (out = None <-> count_unpinned (frames_ (Unpin 1 (Pin 0 (Unpin 0 (new 3))))) = 0%nat).
Proof.
  apply (clock_size_counts_unpinned 3).
  - reflexivity.
  - apply reach_Unpin, reach_Pin, reach_Unpin, reach_new.
Defined.

End ReplacerClaims.

Module PoolFacts.
Import Pool.

Lemma page_at_set_page (f : Z) (p page : Page) (b : BufferPoolManager) :
  page_at f b = Some page -> page_at f (set_page f p b) = Some p.
Proof.
  unfold page_at, set_page. simpl.
  destruct (f <? 0); [discriminate|]. intros H.
  apply list_lookup_insert_eq. eapply lookup_lt_Some. exact H.
Qed.

Lemma page_at_with_replacer (f : Z) (r : Replacer.ClockReplacer) (b : BufferPoolManager) :
  page_at f (with_replacer r b) = page_at f b.
Proof. reflexivity. Qed.

(** What [DeletePageImpl] does to a resident page with pin count 0:
    everything the comment above the function lists, except that the
    free list is left as it was. *)
Lemma DeletePageImpl_unpinned (b : BufferPoolManager) (page_id f : Z) (page : Page) :
  page_table_ b !! page_id = Some f ->
  page_at f b = Some page ->
  pin_count_ page <= 0 ->
  exists b',
    DeletePageImpl page_id b = Done (b', true) /\
    page_table_ b' = delete page_id (page_table_ b) /\
    Disk.calls (disk_manager_ b')
      = Disk.calls (disk_manager_ b) ++ [Disk.DeallocatePage page_id] /\
    page_at f b' = Some {| data_ := Disk.zero_image; page_id_ := INVALID_PAGE_ID;
                           pin_count_ := 0; is_dirty_ := false |} /\
    replacer_ b' = replacer_ b /\
    free_list_ b' = free_list_ b.
Proof.
  intros Hpt Hpage Hpin. unfold DeletePageImpl. rewrite Hpt, Hpage.
  assert ((0 <? pin_count_ page) = false) as -> by (apply Z.ltb_ge; lia).
  eexists. split; [reflexivity|].
  repeat split.
  apply (page_at_set_page f _ page). exact Hpage.
Qed.

End PoolFacts.

Module PoolClaims.
Import Pool PoolFacts.

(** C1 (fails on the code): a frame whose pin count is greater than 0 is
    never returned by [Victim] nor reused for another page.  On the
    one-frame pool, after [FetchPage(5)] frame 0 holds page 5 with pin
    count 1, yet [Victim] returns frame 0 and [FetchPage(6)] hands the
    frame over to page 6. *)
Theorem pinned_frame_is_victimized :
  exists b1 r b2,
    Scenario.fetch5 = Done b1 /\
    page_id_ <$> page_at 0 b1 = Some 5 /\
    pin_count_ <$> page_at 0 b1 = Some 1 /\
    Replacer.Victim (replacer_ b1) = Done (r, Some 0) /\
    FetchPageImpl 6 b1 = Done (b2, Some 0) /\
    page_id_ <$> page_at 0 b2 = Some 6.
Proof.
  do 3 eexists.
  split; [vm_compute; reflexivity|].
  split; [vm_compute; reflexivity|].
  split; [vm_compute; reflexivity|].
  split; [vm_compute; reflexivity|].
  split; vm_compute; reflexivity.
Qed.

(** C2 (fails on the code): no two page-table entries name the same frame,
    the victim's old mapping being removed on eviction.  After
    [FetchPage(0); UnpinPage(0, false); FetchPage(1)] on the one-frame
    pool, page 1 has taken frame 0 and the page table still maps page 0 to
    frame 0 as well. *)
Theorem victim_mapping_is_kept :
  exists b,
    Scenario.fetch0_unpin_fetch1 = Done b /\
    page_table_ b !! 0 = Some 0 /\
    page_table_ b !! 1 = Some 0 /\
    page_id_ <$> page_at 0 b = Some 1.
Proof.
  eexists.
  split; [vm_compute; reflexivity|].
  split; [vm_compute; reflexivity|].
  split; vm_compute; reflexivity.
Qed.

(** C3 (fails on the code): after a successful [FetchPage] or [NewPage]
    returning frame f, the replacer's entry for f is pinned.  On the
    free-list path [Replacer::Pin] is given the page id: [FetchPage(5)] on
    the one-frame pool returns frame 0 and leaves entry 0 unpinned, and
    [NewPage] after [FetchPage(7)] on the two-frame pool returns frame 1
    for page 0, pins entry 0 and leaves entry 1 unpinned. *)
Theorem Pin_is_given_the_page_id :
  (exists b,
     FetchPageImpl 5 Scenario.pool1 = Done (b, Some 0) /\
     Replacer.frames_ (replacer_ b) !! 0%nat
       = Some {| Replacer.pin_ := false; Replacer.ref_ := true |}) /\
  (exists b1 b2,
     then_ (Done Scenario.pool2) (FetchPageImpl 7) = Done b1 /\
     Replacer.frames_ (replacer_ b1) !! 0%nat
       = Some {| Replacer.pin_ := false; Replacer.ref_ := true |} /\
     NewPageImpl b1 = Done (b2, Some (0, 1)) /\
     Replacer.frames_ (replacer_ b2) !! 0%nat
       = Some {| Replacer.pin_ := true; Replacer.ref_ := true |} /\
     Replacer.frames_ (replacer_ b2) !! 1%nat
       = Some {| Replacer.pin_ := false; Replacer.ref_ := true |}).
Proof.
  split.
  - eexists. split; vm_compute; reflexivity.
  - do 2 eexists.
    split; [vm_compute; reflexivity|].
    split; [vm_compute; reflexivity|].
    split; [vm_compute; reflexivity|].
    split; vm_compute; reflexivity.
Qed.

(** C7 as stated fails: [DeletePage(7)] on a pool where page 7 is not
    resident returns true without any call of [DeallocatePage]. *)
Lemma DeletePage_absent_deallocates_counterexample :
  ~ (exists b, DeletePageImpl 7 Scenario.pool1 = Done (b, true) /\
               In (Disk.DeallocatePage 7) (Disk.calls (disk_manager_ b))).
Proof.
  intros (b & Hrun & Hin).
  assert (Hd : DeletePageImpl 7 Scenario.pool1 = Done (Scenario.pool1, true))
    by (vm_compute; reflexivity).
  rewrite Hd in Hrun. inversion Hrun; subst b.
  vm_compute in Hin. exact Hin.
Qed.

(** C7, amended: for every page id that is not resident, [DeletePage]
    returns true and leaves the pool and the disk manager as they were (no
    call of [DeallocatePage]). *)
Theorem DeletePage_absent (b : BufferPoolManager) (page_id : Z) :
  page_table_ b !! page_id = None ->
  DeletePageImpl page_id b = Done (b, true).
Proof.
  intros H. unfold DeletePageImpl. rewrite H. reflexivity.
Qed.

Lemma DeletePage_absent_witness :
  DeletePageImpl 7 Scenario.pool1 = Done (Scenario.pool1, true).
Proof.
  apply (DeletePage_absent Scenario.pool1 7). reflexivity.
Defined.

(** C8 (fails on the code): deleting a resident page with pin count 0
    returns its frame to the free list.  [NewPage(); UnpinPage(0, false);
    DeletePage(0)] on the one-frame pool removes page 0 from the page
    table, deallocates it, resets frame 0 and returns true, but the free
    list stays empty. *)
Theorem DeletePage_skips_free_list :
  exists b0 b,
    Scenario.new_unpin = Done b0 /\
    page_table_ b0 !! 0 = Some 0 /\
    pin_count_ <$> page_at 0 b0 = Some 0 /\
    free_list_ b0 = [] /\
    DeletePageImpl 0 b0 = Done (b, true) /\
    page_table_ b !! 0 = None /\
    last (Disk.calls (disk_manager_ b)) = Some (Disk.DeallocatePage 0) /\
    page_at 0 b = Some new_Page /\
    free_list_ b = [].
Proof.
  do 2 eexists.
  split; [vm_compute; reflexivity|].
  split; [vm_compute; reflexivity|].
  split; [vm_compute; reflexivity|].
  split; [vm_compute; reflexivity|].
  split; [vm_compute; reflexivity|].
  split; [vm_compute; reflexivity|].
  split; [vm_compute; reflexivity|].
  split; vm_compute; reflexivity.
Qed.

(** C9 as stated fails: page 0 is resident with pin count 0 and a clean
    frame; [UnpinPage(0, true)] returns true but the dirty flag stays
    false. *)
Lemma UnpinPage_dirty_at_zero_counterexample :
  exists b0,
    Scenario.fetch0_unpin = Done b0 /\
    page_table_ b0 !! 0 = Some 0 /\
    pin_count_ <$> page_at 0 b0 = Some 0 /\
    is_dirty_ <$> page_at 0 b0 = Some false /\
    ~ (exists b, UnpinPageImpl 0 true b0 = Done (b, true) /\
                 is_dirty_ <$> page_at 0 b = Some (false || true)).
Proof.
  eexists.
  split; [vm_compute; reflexivity|].
  split; [vm_compute; reflexivity|].
  split; [vm_compute; reflexivity|].
  split; [vm_compute; reflexivity|].
  intros (b & Hrun & Hd).
  vm_compute in Hrun. inversion Hrun; subst b. vm_compute in Hd. discriminate.
Qed.

(** C9, amended: for a non-resident page id [UnpinPage] returns false and
    changes nothing.  For a page id resident in frame f it returns true;
    if the pin count is greater than 0 it ORs [is_dirty] into the frame's
    dirty flag, decrements the pin count, and calls [Replacer::Unpin] on f
    when the count reaches 0; if the pin count is 0 it changes nothing,
    the dirty flag included. *)
Theorem UnpinPage_guarded (b : BufferPoolManager) (page_id : Z) (is_dirty : bool) :
  (page_table_ b !! page_id = None ->
   UnpinPageImpl page_id is_dirty b = Done (b, false)) /\
  (forall f page,
     page_table_ b !! page_id = Some f ->
     page_at f b = Some page ->
     exists b',
       UnpinPageImpl page_id is_dirty b = Done (b', true) /\
       (pin_count_ page <= 0 -> b' = b) /\
       (0 < pin_count_ page ->
        page_at f b' = Some {| data_ := data_ page; page_id_ := page_id_ page;
                               pin_count_ := pin_count_ page - 1;
                               is_dirty_ := is_dirty_ page || is_dirty |} /\
        replacer_ b' = (if pin_count_ page =? 1
                        then Replacer.Unpin f (replacer_ b) else replacer_ b) /\
        page_table_ b' = page_table_ b /\
        free_list_ b' = free_list_ b /\
        disk_manager_ b' = disk_manager_ b)).
Proof.
  split.
  - intros H. unfold UnpinPageImpl. rewrite H. reflexivity.
  - intros f page Hpt Hpage. unfold UnpinPageImpl. rewrite Hpt, Hpage.
    destruct (0 <? pin_count_ page) eqn:Hpos.
    + apply Z.ltb_lt in Hpos.
      destruct (pin_count_ page - 1 =? 0) eqn:Hz.
      * apply Z.eqb_eq in Hz. eexists. split; [reflexivity|].
        split; [lia|]. intros _.
        assert ((pin_count_ page =? 1) = true) as -> by (apply Z.eqb_eq; lia).
        split; [|repeat split].
        rewrite page_at_with_replacer. apply (page_at_set_page f _ page). exact Hpage.
      * apply Z.eqb_neq in Hz. eexists. split; [reflexivity|].
        split; [lia|]. intros _.
        assert ((pin_count_ page =? 1) = false) as -> by (apply Z.eqb_neq; lia).
        split; [|repeat split].
        apply (page_at_set_page f _ page). exact Hpage.
    + apply Z.ltb_ge in Hpos. exists b. split; [reflexivity|].
      split; [reflexivity|]. lia.
Qed.

Lemma UnpinPage_guarded_witness :
  then_ (Done Scenario.pool1) (FetchPageImpl 0) = Done Scenario.resident1 /\
  UnpinPageImpl 0 true Scenario.pool1 = Done (Scenario.pool1, false) /\
  exists b',
    UnpinPageImpl 0 true Scenario.resident1 = Done (b', true) /\
    (pin_count_ Scenario.page0 <= 0 -> b' = Scenario.resident1) /\
    (0 < pin_count_ Scenario.page0 ->
     page_at 0 b' = Some {| data_ := data_ Scenario.page0; page_id_ := page_id_ Scenario.page0;
                            pin_count_ := pin_count_ Scenario.page0 - 1;
                            is_dirty_ := is_dirty_ Scenario.page0 || true |} /\
     replacer_ b' = (if pin_count_ Scenario.page0 =? 1
                     then Replacer.Unpin 0 (replacer_ Scenario.resident1)
                     else replacer_ Scenario.resident1) /\
     page_table_ b' = page_table_ Scenario.resident1 /\
     free_list_ b' = free_list_ Scenario.resident1 /\
     disk_manager_ b' = disk_manager_ Scenario.resident1).
Proof.
  split; [vm_compute; reflexivity|]. split.
  - apply (proj1 (UnpinPage_guarded Scenario.pool1 0 true)). reflexivity.
  - apply (proj2 (UnpinPage_guarded Scenario.resident1 0 true) 0 Scenario.page0); reflexivity.
Defined.

End PoolClaims.

(** ** Arithmetic of the probe sequence *)

(** Slot [p] of the probe space sits at block [p / B], offset [p mod B];
    the step the loops take from there (offset + 1, then on to the next
    block, modulo the number of blocks) leads to slot [(p + 1) mod (N * B)]. *)
Lemma probe_next (B N p : Z) :
  0 < B -> 0 < N -> 0 <= p < N * B ->
  (p mod B + 1 < B ->
   ((p + 1) mod (N * B)) / B = p / B /\ ((p + 1) mod (N * B)) mod B = p mod B + 1) /\
  (B <= p mod B + 1 ->
   ((p + 1) mod (N * B)) / B = (p / B + 1) mod N /\ ((p + 1) mod (N * B)) mod B = 0).
Proof.
  intros HB HN Hp.
  pose proof (Z.div_mod p B ltac:(lia)) as Hdm.
  pose proof (Z.mod_pos_bound p B HB) as Ho.
  assert (Hb : 0 <= p / B < N).
  { split; [apply Z.div_pos; lia|]. apply Z.div_lt_upper_bound; lia. }
  set (b := p / B) in *. set (o := p mod B) in *.
  split; intros Hcase.
  - assert (Hlt : p + 1 < N * B) by nia.
    rewrite (Z.mod_small (p + 1)) by lia.
    split.
    + symmetry. apply (Z.div_unique (p + 1) B b (o + 1)); lia.
    + symmetry. apply (Z.mod_unique (p + 1) B b (o + 1)); lia.
  - assert (Heq : p + 1 = (b + 1) * B) by lia.
    destruct (Z.eq_dec (b + 1) N) as [HbN|HbN].
    + rewrite Heq, HbN. rewrite !Z_mod_same_full.
      rewrite Z.div_0_l, Z.mod_0_l by lia. split; reflexivity.
    + rewrite (Z.mod_small (p + 1)) by nia.
      rewrite Heq. rewrite Z.div_mul, Z.mod_mul by lia.
      rewrite (Z.mod_small (b + 1)) by lia. split; reflexivity.
Qed.

(** Within one cycle the test [block_ind * BLOCK_ARRAY_SIZE + offset ==
    hash_val] made after [offset++] does not fire early. *)
Lemma probe_no_early_stop (C h j : Z) :
  0 <= h < C -> 0 <= j -> j + 1 < C -> (h + j) mod C + 1 <> h.
Proof.
  intros Hh Hj HjC.
  destruct (Z_lt_ge_dec (h + j) C) as [Hlt|Hge].
  - rewrite Z.mod_small by lia. lia.
  - replace (h + j) with ((h + j - C) + 1 * C) by lia.
    rewrite Z.mod_add by lia. rewrite Z.mod_small by lia. lia.
Qed.

Lemma probe_reach (C h q : Z) :
  0 < C -> 0 <= q < C -> (h + (q - h) mod C) mod C = q.
Proof.
  intros HC Hq. rewrite Zplus_mod_idemp_r.
  replace (h + (q - h)) with q by lia.
  apply Z.mod_small. exact Hq.
Qed.

Lemma probe_coordinates (B N p : Z) :
  0 < B -> 0 <= p < N * B ->
  0 <= p / B < N /\ 0 <= p mod B < B /\ p / B * B + p mod B = p.
Proof.
  intros HB Hp.
  pose proof (Z.div_mod p B ltac:(lia)).
  pose proof (Z.mod_pos_bound p B HB).
  split; [|split; [assumption | lia]].
  split; [apply Z.div_pos; lia|]. apply Z.div_lt_upper_bound; lia.
Qed.

Module HashFacts.
Import Hash.

Section Facts.
Context {K V : Type}.
Variable comparator_ : K -> K -> Z.
Variable value_eqb : V -> V -> bool.
Variable hash_fn_ : K -> Z.
Variable BLOCK_ARRAY_SIZE : Z.
Variable zero_key : K.
Variable zero_value : V.
Hypothesis BLOCK_ARRAY_SIZE_pos : 0 < BLOCK_ARRAY_SIZE.

Local Abbreviation wf := (well_formed BLOCK_ARRAY_SIZE).
Local Abbreviation cap := (capacity BLOCK_ARRAY_SIZE).
Local Abbreviation pair_of := (fun s : Block.slot K V => (Block.key_ s, Block.value_ s)).
Local Abbreviation live_slots := (filter (fun s : Block.slot K V => Block.readable_ s = true)).

Implicit Types (t : table K V) (bucket : block K V) (s : Block.slot K V).

Lemma readable_pairs_cons bucket t :
  readable_pairs (bucket :: t) = (pair_of <$> live_slots bucket) ++ readable_pairs t.
Proof. reflexivity. Qed.

Lemma fetch_slot_cons bucket t (b o : Z) :
  0 <= b -> fetch_slot (bucket :: t) (b + 1) o = fetch_slot t b o.
Proof.
  intros Hb. unfold fetch_slot.
  assert ((b + 1 <? 0) = false) as -> by (apply Z.ltb_ge; lia).
  assert ((b <? 0) = false) as -> by (apply Z.ltb_ge; lia).
  replace (Z.to_nat (b + 1)) with (S (Z.to_nat b)) by lia. reflexivity.
Qed.

Lemma fetch_slot_lookup t (b o : Z) s :
  fetch_slot t b o = Some s ->
  0 <= b /\ 0 <= o /\
  exists bucket, t !! Z.to_nat b = Some bucket /\ bucket !! Z.to_nat o = Some s.
Proof.
  unfold fetch_slot.
  destruct (b <? 0) eqn:Hb; [discriminate|].
  destruct (o <? 0) eqn:Ho; [discriminate|]. cbn [orb].
  apply Z.ltb_ge in Hb, Ho.
  destruct (t !! Z.to_nat b) as [bucket|] eqn:Hl; [|discriminate].
  intros Hs. split; [assumption|]. split; [assumption|]. exists bucket. split; [reflexivity | assumption].
Qed.

Lemma fetch_slot_in_range t (b o : Z) :
  wf t -> 0 <= b < NumBlocks t -> 0 <= o < BLOCK_ARRAY_SIZE ->
  is_Some (fetch_slot t b o).
Proof.
  intros Hwf Hb Ho. unfold fetch_slot, NumBlocks in *.
  assert ((b <? 0) = false) as -> by (apply Z.ltb_ge; lia).
  assert ((o <? 0) = false) as -> by (apply Z.ltb_ge; lia). cbn [orb].
  destruct (t !! Z.to_nat b) as [bucket|] eqn:Hl.
  - pose proof (proj1 (Forall_lookup _ _) Hwf _ _ Hl) as Hlen. simpl in Hlen.
    apply lookup_lt_is_Some_2. lia.
  - apply lookup_ge_None in Hl. lia.
Qed.

Lemma NumBlocks_store_slot t (b o : Z) s :
  NumBlocks (store_slot t b o s) = NumBlocks t.
Proof.
  unfold store_slot, NumBlocks. destruct (t !! Z.to_nat b); [|reflexivity].
  rewrite length_insert. reflexivity.
Qed.

Lemma well_formed_store_slot t (b o : Z) s :
  wf t -> wf (store_slot t b o s).
Proof.
  intros Hwf. unfold store_slot.
  destruct (t !! Z.to_nat b) as [bucket|] eqn:Hl; [|assumption].
  apply Forall_insert; [assumption|].
  rewrite length_insert.
  exact (proj1 (Forall_lookup _ _) Hwf _ _ Hl).
Qed.

Lemma capacity_store_slot t (b o : Z) s :
  cap (store_slot t b o s) = cap t.
Proof. unfold capacity. rewrite NumBlocks_store_slot. reflexivity. Qed.

(** Claiming a slot that was not readable adds exactly its pair to the
    live contents. *)
Lemma live_slots_claim bucket (i : nat) s s' :
  bucket !! i = Some s ->
  Block.readable_ s = false ->
  Block.readable_ s' = true ->
  pair_of <$> live_slots (<[i := s']> bucket)
  ≡ₚ pair_of s' :: (pair_of <$> live_slots bucket).
Proof.
  revert i. induction bucket as [|x bucket IH]; intros i Hi Hs Hs'; [discriminate|].
  destruct i as [|i]; simpl in Hi.
  - inversion Hi; subst x. simpl. rewrite !filter_cons.
    destruct (decide (Block.readable_ s' = true)); [|congruence].
    destruct (decide (Block.readable_ s = true)); [congruence|]. reflexivity.
  - simpl. rewrite !filter_cons.
    destruct (decide (Block.readable_ x = true)).
    + rewrite !fmap_cons. rewrite (IH i Hi Hs Hs'). apply perm_swap.
    + apply (IH i Hi Hs Hs').
Qed.

Lemma readable_pairs_claim t (b o : Z) s s' :
  fetch_slot t b o = Some s ->
  Block.readable_ s = false ->
  Block.readable_ s' = true ->
  readable_pairs (store_slot t b o s') ≡ₚ pair_of s' :: readable_pairs t.
Proof.
  intros Hf Hs Hs'.
  destruct (fetch_slot_lookup _ _ _ _ Hf) as (_ & _ & bucket & Hl & Hls).
  unfold store_slot. rewrite Hl.
  generalize dependent (Z.to_nat b). clear Hf.
  induction t as [|x t IH]; intros n Hl; [discriminate|].
  destruct n as [|n]; simpl in Hl.
  - inversion Hl; subst x. simpl. rewrite !readable_pairs_cons.
    rewrite (live_slots_claim _ _ _ _ Hls Hs Hs'). reflexivity.
  - simpl. rewrite !readable_pairs_cons. rewrite (IH n Hl).
    symmetry. apply Permutation_middle.
Qed.

Lemma readable_pairs_elem t (b o : Z) s :
  fetch_slot t b o = Some s ->
  Block.readable_ s = true ->
  pair_of s ∈ readable_pairs t.
Proof.
  intros Hf Hs.
  destruct (fetch_slot_lookup _ _ _ _ Hf) as (_ & _ & bucket & Hl & Hls).
  generalize dependent (Z.to_nat b). clear Hf.
  induction t as [|x t IH]; intros n Hl; [discriminate|].
  rewrite readable_pairs_cons. apply elem_of_app.
  destruct n as [|n]; simpl in Hl.
  - inversion Hl; subst x. left.
    apply list_elem_of_fmap. exists s. split; [reflexivity|].
    apply list_elem_of_filter. split; [assumption|].
    apply list_elem_of_lookup. exists (Z.to_nat o). assumption.
  - right. apply (IH n Hl).
Qed.

(** A table with fewer live pairs than slots has a slot that is not
    readable. *)
Lemma live_slots_short bucket :
  (length (live_slots bucket) <= length bucket)%nat /\
  ((length (live_slots bucket) < length bucket)%nat ->
   exists i s, bucket !! i = Some s /\ Block.readable_ s = false).
Proof.
  induction bucket as [|x bucket [IHle IHex]]; [split; [reflexivity | simpl; lia]|].
  rewrite filter_cons.
  destruct (decide (Block.readable_ x = true)) as [Hx|Hx]; simpl.
  - split; [lia|]. intros Hlt.
    destruct IHex as (i & s & Hi & Hs); [lia|].
    exists (S i), s. split; assumption.
  - split; [lia|]. intros _. exists 0%nat, x. split; [reflexivity|].
    destruct (Block.readable_ x); congruence.
Qed.

Lemma readable_pairs_length t :
  wf t -> Z.of_nat (length (readable_pairs t)) <= cap t.
Proof.
  unfold capacity, NumBlocks.
  induction 1 as [|bucket t Hb _ IH]; [simpl; lia|].
  rewrite readable_pairs_cons, length_app, length_fmap.
  pose proof (proj1 (live_slots_short bucket)). simpl length. nia.
Qed.

Lemma free_slot_exists t :
  wf t ->
  Z.of_nat (length (readable_pairs t)) < cap t ->
  exists b o s,
    0 <= b < NumBlocks t /\ 0 <= o < BLOCK_ARRAY_SIZE /\
    fetch_slot t b o = Some s /\ Block.readable_ s = false.
Proof.
  unfold capacity, NumBlocks.
  induction 1 as [|bucket t Hb Hwf IH]; intros Hlt; [simpl in Hlt; lia|].
  rewrite readable_pairs_cons, length_app, length_fmap in Hlt.
  destruct (live_slots_short bucket) as [Hle Hex].
  destruct (decide (length (live_slots bucket) < length bucket)%nat) as [Hc|Hc].
  - destruct (Hex Hc) as (i & s & Hi & Hs).
    exists 0, (Z.of_nat i), s.
    pose proof (lookup_lt_Some _ _ _ Hi).
    split; [simpl length; lia|]. split; [lia|]. split; [|assumption].
    unfold fetch_slot.
    assert ((Z.of_nat i <? 0) = false) as -> by (apply Z.ltb_ge; lia).
    simpl. rewrite Nat2Z.id. assumption.
  - destruct IH as (b & o & s & Hbr & Hor & Hf & Hs).
    { pose proof (readable_pairs_length t Hwf) as Hrl.
      unfold capacity, NumBlocks in Hrl. simpl length in Hlt. nia. }
    exists (b + 1), o, s.
    split; [simpl length; lia|]. split; [assumption|]. split; [|assumption].
    rewrite fetch_slot_cons by lia. assumption.
Qed.

(** *** One turn of the insert probe *)

Lemma InternalInsert_loop_S (fuel : nat) t (key : K) (value : V) (hash_val block_ind offset : Z) :
  InternalInsert_loop comparator_ value_eqb BLOCK_ARRAY_SIZE (S fuel) t key value
    hash_val block_ind offset =
  match fetch_slot t block_ind offset with
  | None => Undefined
  | Some s =>
    let (s', inserted) := Block.Insert key value s in
    if inserted then Done (store_slot t block_ind offset s', true, false)
    else if same_pair comparator_ value_eqb s key value then Done (t, false, false)
    else
      let offset' := wrap_size_t (offset + 1) in
      if wrap_size_t (block_ind * BLOCK_ARRAY_SIZE + offset') =? hash_val then
        Done (t, false, true)
      else if BLOCK_ARRAY_SIZE <=? offset' then
        InternalInsert_loop comparator_ value_eqb BLOCK_ARRAY_SIZE fuel t key value
          hash_val ((block_ind + 1) mod NumBlocks t) 0
      else
        InternalInsert_loop comparator_ value_eqb BLOCK_ARRAY_SIZE fuel t key value
          hash_val block_ind offset'
  end.
Proof. reflexivity. Qed.

(** A readable slot holding another pair sends the probe on to the next
    slot of the probe space, unless the next slot is [hash_val]. *)
Lemma InternalInsert_loop_advance (fuel : nat) t (key : K) (value : V) (h p : Z) s :
  0 < NumBlocks t -> cap t < 2 ^ 64 -> 0 <= p < cap t ->
  fetch_slot t (p / BLOCK_ARRAY_SIZE) (p mod BLOCK_ARRAY_SIZE) = Some s ->
  Block.readable_ s = true ->
  same_pair comparator_ value_eqb s key value = false ->
  p + 1 <> h ->
  InternalInsert_loop comparator_ value_eqb BLOCK_ARRAY_SIZE (S fuel) t key value h
    (p / BLOCK_ARRAY_SIZE) (p mod BLOCK_ARRAY_SIZE)
  = InternalInsert_loop comparator_ value_eqb BLOCK_ARRAY_SIZE fuel t key value h
      (((p + 1) mod cap t) / BLOCK_ARRAY_SIZE) (((p + 1) mod cap t) mod BLOCK_ARRAY_SIZE).
Proof.
  intros HN Hcap Hp Hs Hr Hsp Hne. unfold capacity in *.
  destruct (probe_coordinates BLOCK_ARRAY_SIZE (NumBlocks t) p) as (Hb & Ho & Hbo);
    [assumption | assumption |].
  destruct (probe_next BLOCK_ARRAY_SIZE (NumBlocks t) p) as [Hin Hout];
    [assumption | assumption | assumption |].
  rewrite InternalInsert_loop_S, Hs. unfold Block.Insert. rewrite Hr, Hsp.
  cbv zeta.
  rewrite (wrap_size_t_small (p mod BLOCK_ARRAY_SIZE + 1)) by lia.
  replace (p / BLOCK_ARRAY_SIZE * BLOCK_ARRAY_SIZE + (p mod BLOCK_ARRAY_SIZE + 1))
    with (p + 1) by lia.
  rewrite (wrap_size_t_small (p + 1)) by lia.
  assert ((p + 1 =? h) = false) as -> by (apply Z.eqb_neq; assumption).
  destruct (BLOCK_ARRAY_SIZE <=? p mod BLOCK_ARRAY_SIZE + 1) eqn:Hcase.
  - apply Z.leb_le in Hcase. destruct (Hout Hcase) as [-> ->]. reflexivity.
  - apply Z.leb_gt in Hcase. destruct (Hin Hcase) as [-> ->]. reflexivity.
Qed.

Lemma InternalInsert_loop_claim (fuel : nat) t (key : K) (value : V) (h b o : Z) s :
  fetch_slot t b o = Some s ->
  Block.readable_ s = false ->
  InternalInsert_loop comparator_ value_eqb BLOCK_ARRAY_SIZE (S fuel) t key value h b o
  = Done (store_slot t b o
            {| Block.occupied_ := true; Block.readable_ := true;
               Block.key_ := key; Block.value_ := value |}, true, false).
Proof.
  intros Hs Hr. rewrite InternalInsert_loop_S, Hs. unfold Block.Insert. rewrite Hr.
  reflexivity.
Qed.

Lemma InternalInsert_loop_duplicate (fuel : nat) t (key : K) (value : V) (h b o : Z) s :
  fetch_slot t b o = Some s ->
  Block.readable_ s = true ->
  same_pair comparator_ value_eqb s key value = true ->
  InternalInsert_loop comparator_ value_eqb BLOCK_ARRAY_SIZE (S fuel) t key value h b o
  = Done (t, false, false).
Proof.
  intros Hs Hr Hsp. rewrite InternalInsert_loop_S, Hs. unfold Block.Insert.
  rewrite Hr, Hsp. reflexivity.
Qed.

(** The comparator and [operator==] decide equality of keys and values. *)
Hypothesis comparator_sound : forall a b : K, comparator_ a b = 0 -> a = b.
Hypothesis value_eqb_sound : forall a b : V, value_eqb a b = true -> a = b.

Lemma same_pair_sound s (key : K) (value : V) :
  same_pair comparator_ value_eqb s key value = true ->
  (Block.key_ s, Block.value_ s) = (key, value).
Proof.
  unfold same_pair, Block.KeyAt, Block.ValueAt. intros H.
  apply andb_prop in H. destruct H as [Hk Hv].
  apply Z.eqb_eq in Hk.
  rewrite (comparator_sound _ _ Hk), (value_eqb_sound _ _ Hv). reflexivity.
Qed.

(** With a slot that is not readable [d] steps ahead in the probe
    sequence, the probe ends within [d + 1] turns: it claims a slot, or it
    meets the pair itself; it never reports the table full. *)
Lemma InternalInsert_loop_probe t (key : K) (value : V) (h : Z) (d : nat) :
  wf t -> 0 < NumBlocks t -> cap t < 2 ^ 64 -> 0 <= h < cap t ->
  forall (j : Z) (fuel : nat) s,
    0 <= j -> j + Z.of_nat d < cap t -> (d < fuel)%nat ->
    fetch_slot t (((h + j + Z.of_nat d) mod cap t) / BLOCK_ARRAY_SIZE)
                 (((h + j + Z.of_nat d) mod cap t) mod BLOCK_ARRAY_SIZE) = Some s ->
    Block.readable_ s = false ->
    exists t' ok,
      InternalInsert_loop comparator_ value_eqb BLOCK_ARRAY_SIZE fuel t key value h
        (((h + j) mod cap t) / BLOCK_ARRAY_SIZE) (((h + j) mod cap t) mod BLOCK_ARRAY_SIZE)
      = Done (t', ok, false) /\
      ((ok = true /\ wf t' /\ NumBlocks t' = NumBlocks t /\
        readable_pairs t' ≡ₚ (key, value) :: readable_pairs t)
       \/ (ok = false /\ t' = t /\ (key, value) ∈ readable_pairs t)).
Proof.
  intros Hwf HN Hcap Hh.
  induction d as [|d IH]; intros j fuel s Hj Hjd Hfuel Hs Hr;
    (destruct fuel as [|fuel]; [lia|]);
    pose proof (Z.mod_pos_bound (h + j) (cap t) ltac:(lia)) as Hp;
    destruct (probe_coordinates BLOCK_ARRAY_SIZE (NumBlocks t) ((h + j) mod cap t))
      as (Hb & Ho & _); try assumption;
    destruct (fetch_slot_in_range t _ _ Hwf Hb Ho) as [s0 Hs0];
    destruct (Block.readable_ s0) eqn:Hr0.
  - (* the target is the slot under the probe *)
    replace (h + j + Z.of_nat 0) with (h + j) in Hs by lia. congruence.
  - eexists _, true. split; [apply (InternalInsert_loop_claim _ _ _ _ _ _ _ s0); assumption|].
    left. split; [reflexivity|]. split; [apply well_formed_store_slot; assumption|].
    split; [apply NumBlocks_store_slot|].
    apply (readable_pairs_claim t _ _ s0); [assumption | assumption | reflexivity].
  - destruct (same_pair comparator_ value_eqb s0 key value) eqn:Hsp.
    + exists t, false. split; [apply (InternalInsert_loop_duplicate _ _ _ _ _ _ _ s0); assumption|].
      right. split; [reflexivity|]. split; [reflexivity|].
      rewrite <- (same_pair_sound _ _ _ Hsp).
      apply (readable_pairs_elem t _ _ s0 Hs0 Hr0).
    + rewrite (InternalInsert_loop_advance fuel t key value h ((h + j) mod cap t) s0);
        try assumption.
      2:{ apply probe_no_early_stop; lia. }
      rewrite Zplus_mod_idemp_l.
      replace (h + j + 1) with (h + (j + 1)) by lia.
      apply (IH (j + 1) fuel s); try lia.
      * replace (h + (j + 1) + Z.of_nat d) with (h + j + Z.of_nat (S d)) by lia. assumption.
      * assumption.
  - eexists _, true. split; [apply (InternalInsert_loop_claim _ _ _ _ _ _ _ s0); assumption|].
    left. split; [reflexivity|]. split; [apply well_formed_store_slot; assumption|].
    split; [apply NumBlocks_store_slot|].
    apply (readable_pairs_claim t _ _ s0); [assumption | assumption | reflexivity].
Qed.

Lemma InternalInsert_loop_fuel_mono (fuel : nat) :
  forall t (key : K) (value : V) (h b o : Z) r,
    InternalInsert_loop comparator_ value_eqb BLOCK_ARRAY_SIZE fuel t key value h b o = Done r ->
    forall fuel', (fuel <= fuel')%nat ->
    InternalInsert_loop comparator_ value_eqb BLOCK_ARRAY_SIZE fuel' t key value h b o = Done r.
Proof.
  induction fuel as [|fuel IH]; intros t key value h b o r Hrun fuel' Hle; [discriminate|].
  destruct fuel' as [|fuel']; [lia|].
  rewrite InternalInsert_loop_S in *.
  destruct (fetch_slot t b o) as [s|]; [|discriminate].
  destruct (Block.Insert key value s) as [s' inserted].
  destruct inserted; [assumption|].
  destruct (same_pair comparator_ value_eqb s key value); [assumption|].
  cbv zeta in *.
  destruct (wrap_size_t (b * BLOCK_ARRAY_SIZE + wrap_size_t (o + 1)) =? h); [assumption|].
  destruct (BLOCK_ARRAY_SIZE <=? wrap_size_t (o + 1)); (apply IH; [assumption | lia]).
Qed.

Lemma slot_of_key_range t (key : K) :
  0 < cap t < 2 ^ 64 ->
  0 <= slot_of_key hash_fn_ BLOCK_ARRAY_SIZE t key < cap t.
Proof.
  intros Hcap. unfold slot_of_key. fold (cap t).
  rewrite (wrap_size_t_small (cap t)) by lia.
  apply Z.mod_pos_bound. lia.
Qed.

(** [InternalInsert] on a table that has a slot which is not readable:
    it returns within one cycle, having stored the pair or found it
    stored already. *)
Lemma InternalInsert_free_slot t (key : K) (value : V) :
  wf t -> 0 < NumBlocks t -> cap t < 2 ^ 64 ->
  Z.of_nat (length (readable_pairs t)) < cap t ->
  exists t' ok,
    (forall fuel, (Z.to_nat (cap t) <= fuel)%nat ->
       InternalInsert comparator_ value_eqb hash_fn_ BLOCK_ARRAY_SIZE fuel t key value
       = Done (t', ok, false)) /\
    ((ok = true /\ wf t' /\ NumBlocks t' = NumBlocks t /\
      readable_pairs t' ≡ₚ (key, value) :: readable_pairs t)
     \/ (ok = false /\ t' = t /\ (key, value) ∈ readable_pairs t)).
Proof.
  intros Hwf HN Hcap Hfree.
  assert (Hcap0 : 0 < cap t) by (unfold capacity; nia).
  destruct (free_slot_exists t Hwf Hfree) as (b & o & s & Hb & Ho & Hs & Hr).
  set (h := slot_of_key hash_fn_ BLOCK_ARRAY_SIZE t key).
  pose proof (slot_of_key_range t key ltac:(lia)) as Hh. fold h in Hh.
  set (q := b * BLOCK_ARRAY_SIZE + o).
  assert (Hq : 0 <= q < cap t) by (unfold q, capacity; nia).
  pose proof (Z.mod_pos_bound (q - h) (cap t) Hcap0) as Hd.
  destruct (InternalInsert_loop_probe t key value h (Z.to_nat ((q - h) mod cap t))
              Hwf HN Hcap Hh 0 (S (Z.to_nat ((q - h) mod cap t))) s)
    as (t' & ok & Hrun & Hres); try lia.
  - rewrite Z2Nat.id by lia. rewrite Z.add_0_r. rewrite probe_reach by lia.
    replace (q / BLOCK_ARRAY_SIZE) with b
      by (apply (Z.div_unique q BLOCK_ARRAY_SIZE b o); unfold q; lia).
    replace (q mod BLOCK_ARRAY_SIZE) with o
      by (apply (Z.mod_unique q BLOCK_ARRAY_SIZE b o); unfold q; lia).
    assumption.
  - assumption.
  - exists t', ok. split; [|assumption].
    intros fuel Hfuel. unfold InternalInsert. fold (cap t). fold h.
    rewrite (wrap_size_t_small (cap t)) by lia.
    assert ((cap t =? 0) = false) as -> by (apply Z.eqb_neq; lia).
    assert ((BLOCK_ARRAY_SIZE =? 0) = false) as -> by (apply Z.eqb_neq; lia).
    rewrite Z.add_0_r in Hrun. rewrite (Z.mod_small h) in Hrun by lia.
    eapply InternalInsert_loop_fuel_mono; [exact Hrun | lia].
Qed.

(** *** Resize *)

Lemma insert_all_app (fuel : nat) (l1 l2 : list (K * V)) t :
  insert_all comparator_ value_eqb hash_fn_ BLOCK_ARRAY_SIZE fuel (l1 ++ l2) t
  = match insert_all comparator_ value_eqb hash_fn_ BLOCK_ARRAY_SIZE fuel l1 t with
    | Done t' => insert_all comparator_ value_eqb hash_fn_ BLOCK_ARRAY_SIZE fuel l2 t'
    | OutOfFuel => OutOfFuel
    | Undefined => Undefined
    end.
Proof.
  revert t. induction l1 as [|[k v] l1 IH]; intros t; [reflexivity|].
  simpl. destruct (InternalInsert _ _ _ _ _ _ _ _) as [r| |]; [apply IH | reflexivity | reflexivity].
Qed.

(** The inner loop of [Resize] inserts the readable pairs of the block
    page, in slot order. *)
Lemma move_slots_insert_all (fuel : nat) bucket (n : nat) :
  forall (k : nat) t,
    (k + n <= length bucket)%nat ->
    move_slots comparator_ value_eqb hash_fn_ BLOCK_ARRAY_SIZE fuel bucket (seq k n) t
    = insert_all comparator_ value_eqb hash_fn_ BLOCK_ARRAY_SIZE fuel
        (pair_of <$> live_slots (take n (drop k bucket))) t.
Proof.
  induction n as [|n IH]; intros k t Hlen; [reflexivity|].
  destruct (lookup_lt_is_Some_2 bucket k) as [s Hs]; [lia|].
  rewrite (drop_S _ _ _ Hs). cbn [seq take move_slots]. rewrite Hs.
  rewrite filter_cons. unfold Block.IsReadable.
  destruct (decide (Block.readable_ s = true)) as [Hr|Hr].
  - rewrite Hr. rewrite fmap_cons. cbn [insert_all].
    unfold Block.KeyAt, Block.ValueAt.
    destruct (InternalInsert _ _ _ _ _ _ _ _) as [r| |]; [|reflexivity|reflexivity].
    apply IH. lia.
  - destruct (Block.readable_ s); [congruence|]. apply IH. lia.
Qed.

Lemma move_blocks_insert_all (fuel : nat) (old : table K V) :
  wf old ->
  forall t,
    move_blocks comparator_ value_eqb hash_fn_ BLOCK_ARRAY_SIZE fuel old t
    = insert_all comparator_ value_eqb hash_fn_ BLOCK_ARRAY_SIZE fuel (readable_pairs old) t.
Proof.
  induction 1 as [|bucket old Hb Hwf IH]; intros t; [reflexivity|].
  rewrite readable_pairs_cons, insert_all_app. cbn [move_blocks].
  rewrite move_slots_insert_all by lia.
  rewrite drop_0, firstn_all2 by lia.
  destruct (insert_all _ _ _ _ _ _ _) as [t'| |]; [apply IH | reflexivity | reflexivity].
Qed.

(** Inserting pairwise distinct pairs, none of them stored yet, into a
    table with room for all of them stores every one. *)
Lemma insert_all_fresh (l : list (K * V)) :
  forall t,
    wf t -> 0 < NumBlocks t -> cap t < 2 ^ 64 ->
    NoDup l ->
    (forall x, x ∈ l -> x ∉ readable_pairs t) ->
    Z.of_nat (length (readable_pairs t)) + Z.of_nat (length l) <= cap t ->
    exists t',
      (forall fuel, (Z.to_nat (cap t) <= fuel)%nat ->
         insert_all comparator_ value_eqb hash_fn_ BLOCK_ARRAY_SIZE fuel l t = Done t') /\
      wf t' /\ NumBlocks t' = NumBlocks t /\
      readable_pairs t' ≡ₚ l ++ readable_pairs t.
Proof.
  induction l as [|[k v] l IH]; intros t Hwf HN Hcap Hnd Hfresh Hroom.
  - exists t. split; [reflexivity|]. split; [assumption|]. split; reflexivity.
  - apply NoDup_cons in Hnd. destruct Hnd as [Hkv Hnd].
    simpl length in Hroom.
    destruct (InternalInsert_free_slot t k v Hwf HN Hcap) as (t1 & ok & Hrun & Hres); [lia|].
    destruct Hres as [(-> & Hwf1 & HN1 & Hperm) | (-> & -> & Hin)].
    2:{ exfalso. apply (Hfresh (k, v)); [left | assumption]. }
    assert (Hcap1 : cap t1 = cap t) by (unfold capacity; rewrite HN1; reflexivity).
    destruct (IH t1) as (t' & Hrun' & Hwf' & HN' & Hperm'); try assumption.
    + lia.
    + lia.
    + intros x Hx Hx1. rewrite Hperm in Hx1. apply elem_of_cons in Hx1.
      destruct Hx1 as [-> | Hx1]; [apply Hkv; assumption|].
      apply (Hfresh x); [right; assumption | assumption].
    + rewrite (Permutation_length Hperm). simpl length. lia.
    + exists t'. split; [|split; [assumption|split; [lia|]]].
      * intros fuel Hfuel. cbn [insert_all]. rewrite (Hrun fuel Hfuel). cbn [fst].
        apply Hrun'. lia.
      * rewrite Hperm', Hperm. symmetry. apply Permutation_middle.
Qed.

Lemma readable_pairs_new (n : nat) :
  readable_pairs (new BLOCK_ARRAY_SIZE zero_key zero_value n) = [].
Proof.
  assert (Hb : pair_of <$> live_slots (empty_block BLOCK_ARRAY_SIZE zero_key zero_value) = []).
  { unfold empty_block. induction (Z.to_nat BLOCK_ARRAY_SIZE) as [|m IH]; [reflexivity|].
    simpl. rewrite filter_cons. simpl.
    destruct (decide (false = true)); [discriminate | exact IH]. }
  induction n as [|n IH]; [reflexivity|].
  unfold new. simpl. fold (new BLOCK_ARRAY_SIZE zero_key zero_value n).
  rewrite readable_pairs_cons, Hb, IH. reflexivity.
Qed.

Lemma well_formed_new (n : nat) :
  wf (new BLOCK_ARRAY_SIZE zero_key zero_value n).
Proof.
  unfold well_formed, new. apply Forall_replicate.
  unfold empty_block. rewrite length_replicate. lia.
Qed.

Lemma NumBlocks_new (n : nat) :
  NumBlocks (new BLOCK_ARRAY_SIZE zero_key zero_value n) = Z.of_nat n.
Proof. unfold NumBlocks, new. rewrite length_replicate. reflexivity. Qed.

(** [Resize(GetSize())], the call [Insert] makes: the new table has twice
    the block pages and, when no pair is stored twice, the same live
    pairs. *)
Lemma Resize_keeps_distinct_pairs t :
  wf t -> 0 < NumBlocks t -> 2 * cap t < 2 ^ 64 ->
  NoDup (readable_pairs t) ->
  exists t',
    (forall fuel, (Z.to_nat (2 * cap t) <= fuel)%nat ->
       Resize comparator_ value_eqb hash_fn_ BLOCK_ARRAY_SIZE zero_key zero_value
         fuel (GetSize BLOCK_ARRAY_SIZE t) t = Done t') /\
    wf t' /\ NumBlocks t' = 2 * NumBlocks t /\
    readable_pairs t' ≡ₚ readable_pairs t.
Proof.
  intros Hwf HN Hcap Hnd.
  assert (Hcap0 : 0 < cap t) by (unfold capacity; nia).
  assert (Hsize : wrap_size_t
                    (wrap_size_t (2 * GetSize BLOCK_ARRAY_SIZE t) / BLOCK_ARRAY_SIZE
                     + (if 0 <? wrap_size_t (2 * GetSize BLOCK_ARRAY_SIZE t) mod BLOCK_ARRAY_SIZE
                        then 1 else 0))
                  = 2 * NumBlocks t).
  { unfold GetSize. fold (cap t). rewrite (wrap_size_t_small (cap t)) by lia.
    rewrite (wrap_size_t_small (2 * cap t)) by lia.
    unfold capacity. rewrite Z.mul_assoc.
    rewrite Z.div_mul, Z.mod_mul by lia. simpl.
    rewrite wrap_size_t_small; [lia|]. unfold capacity in Hcap. nia. }
  set (t0 := new BLOCK_ARRAY_SIZE zero_key zero_value (Z.to_nat (2 * NumBlocks t))).
  assert (HN0 : NumBlocks t0 = 2 * NumBlocks t).
  { unfold t0. rewrite NumBlocks_new. lia. }
  assert (Hcap1 : cap t0 = 2 * cap t) by (unfold capacity; rewrite HN0; lia).
  pose proof (readable_pairs_length t Hwf) as Hlen.
  destruct (insert_all_fresh (readable_pairs t) t0) as (t' & Hrun & Hwf' & HN' & Hperm).
  - apply well_formed_new.
  - lia.
  - lia.
  - assumption.
  - intros x _. unfold t0. rewrite readable_pairs_new. apply not_elem_of_nil.
  - unfold t0 at 1. rewrite readable_pairs_new. simpl length. lia.
  - exists t'. split; [|split; [assumption|split; [lia|]]].
    + intros fuel Hfuel. unfold Resize.
      assert ((BLOCK_ARRAY_SIZE =? 0) = false) as -> by (apply Z.eqb_neq; lia).
      cbv zeta. rewrite Hsize. fold t0.
      rewrite move_blocks_insert_all by assumption.
      apply Hrun. lia.
    + rewrite Hperm. unfold t0. rewrite readable_pairs_new, app_nil_r. reflexivity.
Qed.

(** *** Probes that start at slot 0 of a table without a free slot *)

Lemma slot_of_table t (b o : Z) s (P : Block.slot K V -> Prop) :
  Forall (Forall P) t -> fetch_slot t b o = Some s -> P s.
Proof.
  intros Hall Hs.
  destruct (fetch_slot_lookup _ _ _ _ Hs) as (_ & _ & bucket & Hl & Hls).
  pose proof (proj1 (Forall_lookup _ _) Hall _ _ Hl) as Hb. simpl in Hb.
  exact (proj1 (Forall_lookup _ _) Hb _ _ Hls).
Qed.

(** With [hash_val = 0] the test [block_ind * BLOCK_ARRAY_SIZE + offset ==
    hash_val] cannot hold after [offset++]: if every slot is readable and
    none holds the pair, the insert probe goes round for ever. *)
Lemma InternalInsert_loop_cycles t (key : K) (value : V) :
  wf t -> 0 < NumBlocks t -> cap t < 2 ^ 64 ->
  Forall (Forall (fun s => Block.readable_ s = true /\
                           same_pair comparator_ value_eqb s key value = false)) t ->
  forall (fuel : nat) (p : Z),
    0 <= p < cap t ->
    InternalInsert_loop comparator_ value_eqb BLOCK_ARRAY_SIZE fuel t key value 0
      (p / BLOCK_ARRAY_SIZE) (p mod BLOCK_ARRAY_SIZE) = OutOfFuel.
Proof.
  intros Hwf HN Hcap Hall. induction fuel as [|fuel IH]; intros p Hp; [reflexivity|].
  destruct (probe_coordinates BLOCK_ARRAY_SIZE (NumBlocks t) p) as (Hb & Ho & _);
    try assumption.
  destruct (fetch_slot_in_range t _ _ Hwf Hb Ho) as [s Hs].
  destruct (slot_of_table _ _ _ _ _ Hall Hs) as [Hr Hsp].
  rewrite (InternalInsert_loop_advance fuel t key value 0 p s); try assumption; [|lia].
  apply IH. apply Z.mod_pos_bound. lia.
Qed.

Lemma GetValue_loop_S (fuel : nat) t (key : K) (hash_val block_ind offset : Z) (result : list V) :
  GetValue_loop comparator_ BLOCK_ARRAY_SIZE (S fuel) t key hash_val block_ind offset result =
  match fetch_slot t block_ind offset with
  | None => Undefined
  | Some s =>
    if Block.IsOccupied s then
      let result' :=
        if Block.IsReadable s && (comparator_ (Block.KeyAt s) key =? 0)
        then result ++ [Block.ValueAt s] else result in
      let offset' := wrap_size_t (offset + 1) in
      if wrap_size_t (block_ind * BLOCK_ARRAY_SIZE + offset') =? hash_val then
        Done result'
      else if BLOCK_ARRAY_SIZE <=? offset' then
        GetValue_loop comparator_ BLOCK_ARRAY_SIZE fuel t key hash_val
          ((block_ind + 1) mod NumBlocks t) 0 result'
      else
        GetValue_loop comparator_ BLOCK_ARRAY_SIZE fuel t key hash_val block_ind offset' result'
    else Done result
  end.
Proof. reflexivity. Qed.

Lemma GetValue_loop_cycles t (key : K) :
  wf t -> 0 < NumBlocks t -> cap t < 2 ^ 64 ->
  Forall (Forall (fun s => Block.occupied_ s = true)) t ->
  forall (fuel : nat) (p : Z) (result : list V),
    0 <= p < cap t ->
    GetValue_loop comparator_ BLOCK_ARRAY_SIZE fuel t key 0
      (p / BLOCK_ARRAY_SIZE) (p mod BLOCK_ARRAY_SIZE) result = OutOfFuel.
Proof.
  intros Hwf HN Hcap Hall. induction fuel as [|fuel IH]; intros p result Hp; [reflexivity|].
  unfold capacity in *.
  destruct (probe_coordinates BLOCK_ARRAY_SIZE (NumBlocks t) p) as (Hb & Ho & Hbo);
    try assumption.
  destruct (probe_next BLOCK_ARRAY_SIZE (NumBlocks t) p) as [Hin Hout]; try assumption.
  destruct (fetch_slot_in_range t _ _ Hwf Hb Ho) as [s Hs].
  pose proof (slot_of_table _ _ _ _ _ Hall Hs) as Hocc. simpl in Hocc.
  rewrite GetValue_loop_S, Hs. unfold Block.IsOccupied. rewrite Hocc. cbv zeta.
  rewrite (wrap_size_t_small (p mod BLOCK_ARRAY_SIZE + 1)) by lia.
  replace (p / BLOCK_ARRAY_SIZE * BLOCK_ARRAY_SIZE + (p mod BLOCK_ARRAY_SIZE + 1))
    with (p + 1) by lia.
  rewrite (wrap_size_t_small (p + 1)) by lia.
  assert ((p + 1 =? 0) = false) as -> by (apply Z.eqb_neq; lia).
  pose proof (Z.mod_pos_bound (p + 1) (NumBlocks t * BLOCK_ARRAY_SIZE) ltac:(lia)) as Hp'.
  destruct (BLOCK_ARRAY_SIZE <=? p mod BLOCK_ARRAY_SIZE + 1) eqn:Hcase.
  - apply Z.leb_le in Hcase. destruct (Hout Hcase) as [E1 E2].
    match goal with |- GetValue_loop _ _ _ _ _ _ _ _ ?r = _ =>
      pose proof (IH _ r Hp') as IH' end.
    rewrite E1, E2 in IH'. exact IH'.
  - apply Z.leb_gt in Hcase. destruct (Hin Hcase) as [E1 E2].
    match goal with |- GetValue_loop _ _ _ _ _ _ _ _ ?r = _ =>
      pose proof (IH _ r Hp') as IH' end.
    rewrite E1, E2 in IH'. exact IH'.
Qed.

Lemma Remove_loop_S (fuel : nat) t (key : K) (value : V) (hash_val block_ind offset : Z) :
  Remove_loop comparator_ value_eqb BLOCK_ARRAY_SIZE (S fuel) t key value
    hash_val block_ind offset =
  match fetch_slot t block_ind offset with
  | None => Undefined
  | Some s =>
    if Block.IsOccupied s then
      if same_pair comparator_ value_eqb s key value then
        if negb (Block.IsReadable s) then Done (t, false)
        else Done (store_slot t block_ind offset (Block.Remove s), true)
      else
        let offset' := wrap_size_t (offset + 1) in
        if wrap_size_t (block_ind * BLOCK_ARRAY_SIZE + offset') =? hash_val then
          Done (t, false)
        else if BLOCK_ARRAY_SIZE <=? offset' then
          Remove_loop comparator_ value_eqb BLOCK_ARRAY_SIZE fuel t key value
            hash_val ((block_ind + 1) mod NumBlocks t) 0
        else
          Remove_loop comparator_ value_eqb BLOCK_ARRAY_SIZE fuel t key value
            hash_val block_ind offset'
    else Done (t, false)
  end.
Proof. reflexivity. Qed.

Lemma Remove_loop_cycles t (key : K) (value : V) :
  wf t -> 0 < NumBlocks t -> cap t < 2 ^ 64 ->
  Forall (Forall (fun s => Block.occupied_ s = true /\
                           same_pair comparator_ value_eqb s key value = false)) t ->
  forall (fuel : nat) (p : Z),
    0 <= p < cap t ->
    Remove_loop comparator_ value_eqb BLOCK_ARRAY_SIZE fuel t key value 0
      (p / BLOCK_ARRAY_SIZE) (p mod BLOCK_ARRAY_SIZE) = OutOfFuel.
Proof.
  intros Hwf HN Hcap Hall. induction fuel as [|fuel IH]; intros p Hp; [reflexivity|].
  unfold capacity in *.
  destruct (probe_coordinates BLOCK_ARRAY_SIZE (NumBlocks t) p) as (Hb & Ho & Hbo);
    try assumption.
  destruct (probe_next BLOCK_ARRAY_SIZE (NumBlocks t) p) as [Hin Hout]; try assumption.
  destruct (fetch_slot_in_range t _ _ Hwf Hb Ho) as [s Hs].
  destruct (slot_of_table _ _ _ _ _ Hall Hs) as [Hocc Hsp].
  rewrite Remove_loop_S, Hs. unfold Block.IsOccupied. rewrite Hocc, Hsp. cbv zeta.
  rewrite (wrap_size_t_small (p mod BLOCK_ARRAY_SIZE + 1)) by lia.
  replace (p / BLOCK_ARRAY_SIZE * BLOCK_ARRAY_SIZE + (p mod BLOCK_ARRAY_SIZE + 1))
    with (p + 1) by lia.
  rewrite (wrap_size_t_small (p + 1)) by lia.
  assert ((p + 1 =? 0) = false) as -> by (apply Z.eqb_neq; lia).
  pose proof (Z.mod_pos_bound (p + 1) (NumBlocks t * BLOCK_ARRAY_SIZE) ltac:(lia)) as Hp'.
  destruct (BLOCK_ARRAY_SIZE <=? p mod BLOCK_ARRAY_SIZE + 1) eqn:Hcase.
  - apply Z.leb_le in Hcase. destruct (Hout Hcase) as [E1 E2].
    pose proof (IH _ Hp') as IH'. rewrite E1, E2 in IH'. exact IH'.
  - apply Z.leb_gt in Hcase. destruct (Hin Hcase) as [E1 E2].
    pose proof (IH _ Hp') as IH'. rewrite E1, E2 in IH'. exact IH'.
Qed.

(** The public operations on such a table, for a key whose slot is 0. *)
Lemma probes_from_slot_zero_diverge t (key : K) (value : V) :
  wf t -> 0 < NumBlocks t -> cap t < 2 ^ 64 ->
  slot_of_key hash_fn_ BLOCK_ARRAY_SIZE t key = 0 ->
  Forall (Forall (fun s => Block.occupied_ s = true /\ Block.readable_ s = true /\
                           same_pair comparator_ value_eqb s key value = false)) t ->
  forall fuel : nat,
    InternalInsert comparator_ value_eqb hash_fn_ BLOCK_ARRAY_SIZE fuel t key value = OutOfFuel /\
    Insert comparator_ value_eqb hash_fn_ BLOCK_ARRAY_SIZE zero_key zero_value fuel t key value
      = OutOfFuel /\
    GetValue comparator_ hash_fn_ BLOCK_ARRAY_SIZE fuel t key = OutOfFuel /\
    Remove comparator_ value_eqb hash_fn_ BLOCK_ARRAY_SIZE fuel t key value = OutOfFuel.
Proof.
  intros Hwf HN Hcap Hh Hall fuel.
  assert (Hcap0 : 0 < cap t) by (unfold capacity; nia).
  assert (Hguard : (wrap_size_t (NumBlocks t * BLOCK_ARRAY_SIZE) =? 0) = false).
  { fold (cap t). rewrite wrap_size_t_small by lia. apply Z.eqb_neq. lia. }
  assert (HB : (BLOCK_ARRAY_SIZE =? 0) = false) by (apply Z.eqb_neq; lia).
  assert (Hins : forall fuel : nat,
             InternalInsert comparator_ value_eqb hash_fn_ BLOCK_ARRAY_SIZE fuel t key value
             = OutOfFuel).
  { intros n. unfold InternalInsert. rewrite Hguard, HB, Hh.
    apply InternalInsert_loop_cycles; try assumption; [|lia].
    eapply Forall_impl; [exact Hall|]. intros bucket Hbk.
    eapply Forall_impl; [exact Hbk|]. intros s (_ & Hr & Hsp). split; assumption. }
  split; [apply Hins|]. split; [|split].
  - unfold Insert. destruct fuel as [|fuel]; [reflexivity|].
    cbn [Insert_loop]. rewrite Hins. reflexivity.
  - unfold GetValue. rewrite Hguard, HB, Hh.
    rewrite GetValue_loop_cycles; try assumption; [reflexivity| |lia].
    eapply Forall_impl; [exact Hall|]. intros bucket Hbk.
    eapply Forall_impl; [exact Hbk|]. intros s (Ho & _ & _). assumption.
  - unfold Remove. rewrite Hguard, HB, Hh.
    apply Remove_loop_cycles; try assumption; [|lia].
    eapply Forall_impl; [exact Hall|]. intros bucket Hbk.
    eapply Forall_impl; [exact Hbk|]. intros s (Ho & _ & Hsp). split; assumption.
Qed.

End Facts.

End HashFacts.

Module HashClaims.
Import Hash HashFacts Scenario.

Lemma IntComparator_sound (a b : Z) : IntComparator a b = 0 -> a = b.
Proof.
  unfold IntComparator.
  destruct (a <? b) eqn:Hab; [discriminate|].
  destruct (b <? a) eqn:Hba; [discriminate|].
  apply Z.ltb_ge in Hab, Hba. lia.
Qed.

Lemma Z_eqb_sound (a b : Z) : (a =? b) = true -> a = b.
Proof. apply Z.eqb_eq. Qed.

(** C4 (fails on the code): the probe loops stop after at most one full
    cycle, so [Insert] always terminates.  Scenario 6 of the spec: one
    block page of two slots, [hash(k) = k]; after [Insert(2, 20)] and
    [Insert(1, 10)] both slots are live.  Key 4 hashes to slot 0, and from
    slot 0 the loops of [InternalInsert], [GetValue] and [Remove] never
    exit, whatever the fuel: [Insert(4, 40)] neither returns nor reaches
    [Resize]. *)
Theorem probe_from_slot_zero_never_stops :
  int_Insert 2 8 (int_new 2 1) 2 20 = Done ([[live 2 20; fresh]], true) /\
  int_Insert 2 8 [[live 2 20; fresh]] 1 10 = Done (full2, true) /\
  forall fuel : nat,
    int_InternalInsert 2 fuel full2 4 40 = OutOfFuel /\
    int_Insert 2 fuel full2 4 40 = OutOfFuel /\
    int_GetValue 2 fuel full2 4 = OutOfFuel /\
    int_Remove 2 fuel full2 4 40 = OutOfFuel.
Proof.
  split; [vm_compute; reflexivity|].
  split; [vm_compute; reflexivity|].
  apply (probes_from_slot_zero_diverge IntComparator Z.eqb (fun k => k) 2 0 0).
  - lia.
  - repeat constructor.
  - reflexivity.
  - reflexivity.
  - reflexivity.
  - repeat constructor.
Qed.

(** C6 (fails on the code): when (k, v) is stored in a readable slot,
    [Insert(k, v)] returns false and leaves the table unchanged.  With
    (5, 50) live in slot 2 behind the tombstone of (1, 10) in slot 1,
    [Insert(5, 50)] claims the tombstone before it reaches slot 2: it
    returns true, and [GetValue(5)] then yields 50 twice. *)
Theorem Insert_stores_pair_twice :
  int_Insert 4 8 (int_new 4 1) 1 10 = Done ([[fresh; live 1 10; fresh; fresh]], true) /\
  int_Insert 4 8 [[fresh; live 1 10; fresh; fresh]] 5 50
    = Done ([[fresh; live 1 10; live 5 50; fresh]], true) /\
  int_Remove 4 8 [[fresh; live 1 10; live 5 50; fresh]] 1 10 = Done (behind_tombstone, true) /\
  fetch_slot behind_tombstone 0 2 = Some (live 5 50) /\
  int_GetValue 4 8 behind_tombstone 5 = Done (true, [50]) /\
  int_Insert 4 8 behind_tombstone 5 50 = Done (twice, true) /\
  int_GetValue 4 8 twice 5 = Done (true, [50; 50]).
Proof.
  repeat split; vm_compute; reflexivity.
Qed.

End HashClaims.

(** * Further properties of the clock replacer *)

Module ReplacerMore.
Import Replacer ReplacerFacts.

(** What a call of [Victim] that returns true has done, read off the
    loop: only reference bits of other entries change. *)
Lemma Victim_loop_chooses (fuel : nat) :
  forall r r' f,
    Z.of_nat (length (frames_ r)) < 2 ^ 31 ->
    Victim_loop fuel r = Done (r', Some f) ->
    0 <= f < Z.of_nat (length (frames_ r)) /\
    (exists m, frames_ r !! Z.to_nat f = Some m /\ pin_ m = false) /\
    frames_ r' !! Z.to_nat f = Some {| pin_ := true; ref_ := false |} /\
    (forall i : nat, i <> Z.to_nat f ->
       pin_ <$> frames_ r' !! i = pin_ <$> frames_ r !! i) /\
    length (frames_ r') = length (frames_ r) /\
    clock_size_ r' = wrap_size_t (clock_size_ r - 1).
Proof.
  induction fuel as [|fuel IH]; intros r r' f Hn Hrun; [discriminate|].
  rewrite Victim_loop_S in Hrun.
  destruct (0 <? clock_size_ r); [|discriminate].
  destruct (Z.of_nat (length (frames_ r)) =? 0) eqn:Hz; [discriminate|].
  apply Z.eqb_neq in Hz. cbv zeta in Hrun.
  pose proof (Z.mod_pos_bound (clock_hand_ r) (Z.of_nat (length (frames_ r))) ltac:(lia)) as Hh.
  set (hand := clock_hand_ r mod Z.of_nat (length (frames_ r))) in *.
  destruct (frames_ r !! Z.to_nat hand) as [m|] eqn:Hm; [|discriminate].
  destruct (pin_ m) eqn:Hp.
  - apply IH in Hrun; [|assumption]. exact Hrun.
  - destruct (ref_ m) eqn:Hr.
    + apply IH in Hrun; [|cbn [frames_]; rewrite length_insert; assumption].
      cbn [frames_ clock_size_] in Hrun. rewrite length_insert in Hrun.
      destruct Hrun as (Hf & (m1 & Hm1 & Hp1) & Hf' & Hothers & Hlen & Hcs).
      split; [assumption|]. split; [|split; [assumption|split; [|split; assumption]]].
      * destruct (decide (Z.to_nat hand = Z.to_nat f)) as [E|E].
        -- exists m. rewrite <- E. split; assumption.
        -- exists m1. rewrite list_lookup_insert_ne in Hm1 by assumption.
           split; assumption.
      * intros i Hi. rewrite (Hothers i Hi).
        destruct (decide (Z.to_nat hand = i)) as [E|E].
        -- subst i. rewrite list_lookup_insert_eq by (eapply lookup_lt_Some; eassumption).
           rewrite Hm. simpl. rewrite Hp. reflexivity.
        -- rewrite list_lookup_insert_ne by assumption. reflexivity.
    + inversion Hrun; subst r' f. clear Hrun. cbn [frames_ clock_size_].
      rewrite to_int32_small by lia.
      split; [assumption|]. split; [exists m; split; assumption|].
      split; [apply list_lookup_insert_eq; eapply lookup_lt_Some; eassumption|].
      split; [|split; [apply length_insert | reflexivity]].
      intros i Hi. rewrite list_lookup_insert_ne by congruence. reflexivity.
Qed.

(** X1: in a reachable replacer of fewer than 2^31 entries, a [Victim]
    call that returns true returns an in-range frame whose entry was
    unpinned before the call; afterwards that entry is pinned, no other
    entry has changed its pinned bit, and [Size] has dropped by exactly
    one. *)
Theorem Victim_returns_unpinned_frame (num_pages fuel : nat) (r r' : ClockReplacer) (f : Z) :
  Z.of_nat num_pages < 2 ^ 31 ->
  reachable num_pages r ->
  Victim_loop fuel r = Done (r', Some f) ->
  0 <= f < Z.of_nat num_pages /\
  (exists m, frames_ r !! Z.to_nat f = Some m /\ pin_ m = false) /\
  (exists m', frames_ r' !! Z.to_nat f = Some m' /\ pin_ m' = true) /\
  (forall i : nat, i <> Z.to_nat f ->
     pin_ <$> frames_ r' !! i = pin_ <$> frames_ r !! i) /\
  Size r' = Size r - 1.
Proof.
  intros Hn Hr Hrun.
  destruct (reachable_consistent num_pages r ltac:(lia) Hr) as [Hlen Hcs].
  destruct (Victim_loop_chooses fuel r r' f ltac:(lia) Hrun)
    as (Hf & Hm & Hf' & Hothers & _ & Hsize).
  split; [lia|]. split; [assumption|].
  split; [eexists; split; [exact Hf' | reflexivity]|].
  split; [assumption|].
  unfold Size. rewrite Hsize.
  destruct Hm as (m & Hm & Hp).
  pose proof (count_unpinned_lookup _ _ _ Hm Hp).
  pose proof (count_unpinned_le (frames_ r)).
  apply wrap_size_t_small. lia.
Qed.

Lemma Victim_returns_unpinned_frame_witness :
  0 <= 1 < Z.of_nat 3 /\
  (exists m, frames_ (Unpin 1 (new 3)) !! Z.to_nat 1 = Some m /\ pin_ m = false) /\
  (exists m', frames_ {| frames_ := [ {| pin_ := true; ref_ := false |};
                                      {| pin_ := true; ref_ := false |};
                                      {| pin_ := true; ref_ := false |} ];
                         clock_hand_ := 2; clock_size_ := 0 |} !! Z.to_nat 1 = Some m'
               /\ pin_ m' = true) /\
  (forall i : nat, i <> Z.to_nat 1 ->
     pin_ <$> frames_ {| frames_ := [ {| pin_ := true; ref_ := false |};
                                      {| pin_ := true; ref_ := false |};
                                      {| pin_ := true; ref_ := false |} ];
                         clock_hand_ := 2; clock_size_ := 0 |} !! i
     = pin_ <$> frames_ (Unpin 1 (new 3)) !! i) /\
  Size {| frames_ := [ {| pin_ := true; ref_ := false |};
                       {| pin_ := true; ref_ := false |};
                       {| pin_ := true; ref_ := false |} ];
          clock_hand_ := 2; clock_size_ := 0 |} = Size (Unpin 1 (new 3)) - 1.
Proof.
  apply (Victim_returns_unpinned_frame 3 7 (Unpin 1 (new 3))).
  - reflexivity.
  - apply reach_Unpin, reach_new.
  - vm_compute. reflexivity.
Defined.

(** The sweep towards an unpinned entry with a clear reference bit, [d]
    entries ahead of the hand, stops at the first such entry on the way. *)
Lemma Victim_loop_second_chance (d : nat) :
  forall fs hand cs m n,
    n = Z.of_nat (length fs) ->
    0 < n < 2 ^ 31 -> 0 < cs -> (Z.of_nat d < n) ->
    fs !! Z.to_nat ((hand mod n + Z.of_nat d) mod n) = Some m ->
    pin_ m = false -> ref_ m = false ->
    exists r' (e : nat) m',
      (e <= d)%nat /\
      Victim_loop (S d) {| frames_ := fs; clock_hand_ := hand; clock_size_ := cs |}
        = Done (r', Some ((hand mod n + Z.of_nat e) mod n)) /\
      fs !! Z.to_nat ((hand mod n + Z.of_nat e) mod n) = Some m' /\
      pin_ m' = false /\ ref_ m' = false.
Proof.
  induction d as [|d IH]; intros fs hand cs m n En Hn Hcs Hd Hm Hp Hr;
    pose proof (Z.mod_pos_bound hand n ltac:(lia)) as Hh.
  - replace (hand mod n + Z.of_nat 0) with (hand mod n) in * by lia.
    rewrite Z.mod_mod in * by lia.
    rewrite Victim_loop_S. cbn [frames_ clock_hand_ clock_size_]. rewrite <- En.
    assert ((0 <? cs) = true) as -> by (apply Z.ltb_lt; lia).
    assert ((n =? 0) = false) as -> by (apply Z.eqb_neq; lia).
    cbv zeta. rewrite Hm, Hp, Hr. rewrite to_int32_small by lia.
    eexists _, 0%nat, m. split; [lia|].
    replace (hand mod n + Z.of_nat 0) with (hand mod n) by lia.
    rewrite Z.mod_mod by lia.
    split; [reflexivity|]. split; [assumption|]. split; assumption.
  - assert (Hlook : is_Some (fs !! Z.to_nat (hand mod n))).
    { apply lookup_lt_is_Some. lia. }
    destruct Hlook as [m0 Hm0].
    rewrite Victim_loop_S. cbn [frames_ clock_hand_ clock_size_]. rewrite <- En.
    assert ((0 <? cs) = true) as -> by (apply Z.ltb_lt; lia).
    assert ((n =? 0) = false) as -> by (apply Z.eqb_neq; lia).
    cbv zeta. rewrite Hm0.
    rewrite wrap_size_t_small by lia.
    assert (Hshift : forall e : nat,
               ((hand mod n + 1) mod n + Z.of_nat e) mod n
               = (hand mod n + Z.of_nat (S e)) mod n).
    { intros e. rewrite clock_next by lia. f_equal. lia. }
    assert (Hne : forall e : nat, (e <= d)%nat ->
               Z.to_nat (hand mod n) <> Z.to_nat ((hand mod n + Z.of_nat (S e)) mod n)).
    { intros e He.
      pose proof (Z.mod_pos_bound (hand mod n + Z.of_nat (S e)) n ltac:(lia)) as Hb.
      intros Heq. apply (clock_ahead_ne n hand (Z.of_nat (S e))); lia. }
    destruct (pin_ m0) eqn:Hp0.
    + destruct (IH fs (hand mod n + 1) cs m n) as (r' & e & m' & He & Hrun & Hm' & Hp' & Hr');
        try lia; try assumption.
      { rewrite Hshift. assumption. }
      rewrite Hshift in Hrun, Hm'.
      exists r', (S e), m'. split; [lia|]. split; [assumption|].
      split; [assumption|]. split; assumption.
    + destruct (ref_ m0) eqn:Hr0.
      * destruct (IH (<[Z.to_nat (hand mod n) := {| pin_ := false; ref_ := false |}]> fs)
                    (hand mod n + 1) cs m n)
          as (r' & e & m' & He & Hrun & Hm' & Hp' & Hr');
          rewrite ?length_insert; try lia; try assumption.
        { rewrite Hshift. rewrite list_lookup_insert_ne by (apply Hne; lia). assumption. }
        rewrite Hshift in Hrun, Hm'.
        rewrite list_lookup_insert_ne in Hm' by (apply Hne; lia).
        exists r', (S e), m'. split; [lia|]. split; [assumption|].
        split; [assumption|]. split; assumption.
      * rewrite to_int32_small by lia.
        eexists _, 0%nat, m0. split; [lia|].
        replace (hand mod n + Z.of_nat 0) with (hand mod n) by lia.
        rewrite Z.mod_mod by lia.
        split; [reflexivity|]. split; [assumption|]. split; assumption.
Qed.

(** X2 (second chance): in a reachable replacer that has an unpinned
    entry whose reference bit is clear, [Victim] returns true with a frame
    whose entry was unpinned with its reference bit clear before the call:
    an entry whose reference bit is set is not chosen. *)
Theorem Victim_spares_referenced_frames (num_pages : nat) (r : ClockReplacer)
    (i : nat) (m : Meta) :
  Z.of_nat num_pages < 2 ^ 31 ->
  reachable num_pages r ->
  frames_ r !! i = Some m -> pin_ m = false -> ref_ m = false ->
  exists r' f m',
    Victim r = Done (r', Some f) /\
    frames_ r !! Z.to_nat f = Some m' /\ pin_ m' = false /\ ref_ m' = false.
Proof.
  intros Hn Hr Hi Hp Href.
  destruct (reachable_consistent num_pages r ltac:(lia) Hr) as [Hlen Hcs].
  pose proof (lookup_lt_Some _ _ _ Hi) as Hilt.
  pose proof (count_unpinned_lookup _ _ _ Hi Hp) as Hpos.
  destruct r as [fs h cs]. unfold Victim, Victim_fuel.
  cbn [frames_ clock_hand_ clock_size_] in *.
  remember (Z.of_nat (length fs)) as len eqn:El.
  pose proof (Z.mod_pos_bound (Z.of_nat i - h mod len) len ltac:(lia)) as Hd.
  destruct (Victim_loop_second_chance
              (Z.to_nat ((Z.of_nat i - h mod len) mod len)) fs h cs m len)
    as (r' & e & m' & He & Hrun & Hm' & Hp' & Hr'); try lia; try assumption.
  - rewrite Z2Nat.id by lia. rewrite clock_reach by lia. rewrite Nat2Z.id. assumption.
  - exists r', ((h mod len + Z.of_nat e) mod len), m'.
    split; [|split; [assumption | split; assumption]].
    eapply Victim_loop_fuel_mono; [exact Hrun | lia].
Qed.

Lemma Victim_spares_referenced_frames_witness :
  exists r' f m',
    Victim {| frames_ := [ {| pin_ := false; ref_ := true |};
                           {| pin_ := false; ref_ := false |};
                           {| pin_ := true; ref_ := false |} ];
              clock_hand_ := 1; clock_size_ := 2 |}
      = Done (r', Some f) /\
    frames_ {| frames_ := [ {| pin_ := false; ref_ := true |};
                            {| pin_ := false; ref_ := false |};
                            {| pin_ := true; ref_ := false |} ];
               clock_hand_ := 1; clock_size_ := 2 |} !! Z.to_nat f = Some m' /\
    pin_ m' = false /\ ref_ m' = false.
Proof.
  apply (Victim_spares_referenced_frames 3 _ 1 {| pin_ := false; ref_ := false |}).
  - reflexivity.
  - apply (reach_Unpin 3
             {| frames_ := [ {| pin_ := true; ref_ := false |};
                             {| pin_ := false; ref_ := false |};
                             {| pin_ := true; ref_ := false |} ];
                clock_hand_ := 1; clock_size_ := 1 |} 0).
    apply (reach_Victim 3 (Unpin 1 (Unpin 0 (new 3))) 7 _ (Some 0)).
    + apply reach_Unpin, reach_Unpin, reach_new.
    + vm_compute. reflexivity.
  - reflexivity.
  - reflexivity.
  - reflexivity.
Defined.

(** X3: [Pin] and [Unpin] ignore a frame id outside [0, frames_.size()):
    a negative [int32_t] id becomes a huge [size_t] under the cast and
    fails the range test like an id that is too large. *)
Theorem Pin_Unpin_ignore_out_of_range (r : ClockReplacer) (f : Z) :
  - 2 ^ 31 <= f < 2 ^ 31 ->
  Z.of_nat (length (frames_ r)) < 2 ^ 63 ->
  f < 0 \/ Z.of_nat (length (frames_ r)) <= f ->
  Pin f r = r /\ Unpin f r = r.
Proof.
  intros Hf Hn Hout.
  assert (Hcast : (Z.of_nat (length (frames_ r)) <=? wrap_size_t f) = true).
  { apply Z.leb_le. unfold wrap_size_t. destruct Hout as [Hneg|Hbig].
    - replace f with ((f + 2 ^ 64) + (-1) * 2 ^ 64) by lia.
      rewrite Z.mod_add by lia. rewrite Z.mod_small; lia.
    - rewrite Z.mod_small; lia. }
  unfold Pin, Unpin. rewrite Hcast. split; reflexivity.
Qed.

Lemma Pin_Unpin_ignore_out_of_range_witness :
  Pin (-1) (Unpin 0 (new 2)) = Unpin 0 (new 2) /\
  Unpin (-1) (Unpin 0 (new 2)) = Unpin 0 (new 2).
Proof.
  apply (Pin_Unpin_ignore_out_of_range (Unpin 0 (new 2)) (-1)).
  - split; [discriminate | reflexivity].
  - reflexivity.
  - left. reflexivity.
Defined.

(** X4: [Pin] and [Unpin] are idempotent: a second call with the same
    frame id changes nothing, the counter included. *)
Theorem Pin_Unpin_idempotent (r : ClockReplacer) (f : Z) :
  Pin f (Pin f r) = Pin f r /\ Unpin f (Unpin f r) = Unpin f r.
Proof.
  split.
  - assert (Hcases : Pin f r = r \/
              exists m,
                (Z.of_nat (length (frames_ r)) <=? wrap_size_t f) = false /\
                frames_ r !! Z.to_nat f = Some m /\
                Pin f r = {| frames_ := <[Z.to_nat f := {| pin_ := true; ref_ := ref_ m |}]> (frames_ r);
                             clock_hand_ := clock_hand_ r;
                             clock_size_ := wrap_size_t (clock_size_ r - 1) |}).
    { unfold Pin.
      destruct (Z.of_nat (length (frames_ r)) <=? wrap_size_t f) eqn:Hrange; [left; reflexivity|].
      destruct (frames_ r !! Z.to_nat f) as [m|] eqn:Hm; [|left; reflexivity].
      destruct (pin_ m); cbn [negb]; [left; reflexivity|].
      right. exists m. split; [reflexivity|]. split; reflexivity. }
    destruct Hcases as [H | (m & Hrange & Hm & H)].
    + rewrite !H. reflexivity.
    + rewrite H. unfold Pin. cbn [frames_]. rewrite length_insert, Hrange.
      rewrite list_lookup_insert_eq by (eapply lookup_lt_Some; eassumption).
      reflexivity.
  - assert (Hcases : Unpin f r = r \/
              exists m,
                (Z.of_nat (length (frames_ r)) <=? wrap_size_t f) = false /\
                frames_ r !! Z.to_nat f = Some m /\
                Unpin f r = {| frames_ := <[Z.to_nat f := {| pin_ := false; ref_ := true |}]> (frames_ r);
                               clock_hand_ := clock_hand_ r;
                               clock_size_ := if pin_ m then wrap_size_t (clock_size_ r + 1)
                                              else clock_size_ r |}).
    { unfold Unpin.
      destruct (Z.of_nat (length (frames_ r)) <=? wrap_size_t f) eqn:Hrange; [left; reflexivity|].
      destruct (frames_ r !! Z.to_nat f) as [m|] eqn:Hm; [|left; reflexivity].
      right. exists m. split; [reflexivity|]. split; reflexivity. }
    destruct Hcases as [H | (m & Hrange & Hm & H)].
    + rewrite !H. reflexivity.
    + rewrite H. unfold Unpin. cbn [frames_ clock_hand_ clock_size_].
      rewrite length_insert, Hrange.
      rewrite list_lookup_insert_eq by (eapply lookup_lt_Some; eassumption).
      cbn [pin_]. rewrite list_insert_insert_eq. reflexivity.
Qed.

(** X5: in a reachable replacer the counter stays within [0, num_pages]
    and moves by exactly one without wrapping: [Unpin] of an in-range
    frame adds 1 if the entry was pinned, [Pin] subtracts 1 if it was
    unpinned, and otherwise they leave [Size] alone. *)
Theorem Size_moves_by_one (num_pages : nat) (r : ClockReplacer) (f : Z) (m : Meta) :
  Z.of_nat num_pages < 2 ^ 64 ->
  reachable num_pages r ->
  0 <= f ->
  frames_ r !! Z.to_nat f = Some m ->
  0 <= Size r <= Z.of_nat num_pages /\
  Size (Unpin f r) = Size r + b2z (pin_ m) /\
  Size (Pin f r) = Size r - b2z (negb (pin_ m)).
Proof.
  intros Hn Hr Hf Hm.
  destruct (reachable_consistent num_pages r Hn Hr) as [Hlen Hcs].
  pose proof (count_unpinned_le (frames_ r)) as Hle.
  pose proof (lookup_lt_Some _ _ _ Hm) as Hlt.
  assert (Hrange : (Z.of_nat (length (frames_ r)) <=? wrap_size_t f) = false).
  { apply Z.leb_gt. rewrite wrap_size_t_small; lia. }
  split; [unfold Size; lia|].
  pose proof (count_unpinned_insert _ _ m {| pin_ := false; ref_ := true |} Hm) as Hu.
  pose proof (count_unpinned_le (<[Z.to_nat f := {| pin_ := false; ref_ := true |}]> (frames_ r)))
    as Hule.
  rewrite length_insert in Hule.
  unfold Size, Unpin, Pin. rewrite Hrange, Hm. unfold unpinned in Hu. cbn [pin_ negb b2z] in Hu.
  destruct (pin_ m) eqn:Hp; cbn [negb b2z clock_size_] in *.
  - split; [|lia]. rewrite wrap_size_t_small; lia.
  - split; [lia|].
    pose proof (count_unpinned_lookup _ _ _ Hm Hp).
    rewrite wrap_size_t_small; lia.
Qed.

Lemma Size_moves_by_one_witness :
  0 <= Size (Unpin 0 (new 2)) <= Z.of_nat 2 /\
  Size (Unpin 1 (Unpin 0 (new 2))) = Size (Unpin 0 (new 2)) + b2z true /\
  Size (Pin 1 (Unpin 0 (new 2))) = Size (Unpin 0 (new 2)) - b2z (negb true).
Proof.
  apply (Size_moves_by_one 2 (Unpin 0 (new 2)) 1 {| pin_ := true; ref_ := false |}).
  - reflexivity.
  - apply reach_Unpin, reach_new.
  - discriminate.
  - reflexivity.
Defined.

End ReplacerMore.

(** * Further properties of the buffer pool *)

Module PoolMore.
Import Pool PoolFacts Client.

Lemma page_at_in_pool (b : BufferPoolManager) (f : Z) :
  length (pages_ b) = pool_size_ b -> in_pool b f -> is_Some (page_at f b).
Proof.
  unfold in_pool, page_at. intros Hlen Hf.
  assert ((f <? 0) = false) as -> by (apply Z.ltb_ge; lia).
  apply lookup_lt_is_Some_2. lia.
Qed.

Lemma page_at_pin_count (b : BufferPoolManager) (f : Z) (page : Page) :
  Forall (fun page => 0 <= pin_count_ page) (pages_ b) ->
  page_at f b = Some page -> 0 <= pin_count_ page.
Proof.
  unfold page_at. destruct (f <? 0); [discriminate|]. intros Hall Hp.
  exact (proj1 (Forall_lookup _ _) Hall _ _ Hp).
Qed.

Lemma safe_set_page (b : BufferPoolManager) (f : Z) (page : Page) :
  safe b -> 0 <= pin_count_ page -> safe (set_page f page b).
Proof.
  intros (Hlen & Hrep & Hpt & Hfl & Hpin) Hp.
  unfold safe, set_page, in_pool in *. cbn.
  rewrite length_insert.
  split; [exact Hlen|]. split; [exact Hrep|]. split; [exact Hpt|]. split; [exact Hfl|].
  apply Forall_insert; assumption.
Qed.

Lemma safe_with_replacer (b : BufferPoolManager) (r : Replacer.ClockReplacer) :
  safe b -> Replacer.consistent (pool_size_ b) r -> safe (with_replacer r b).
Proof.
  intros (Hlen & _ & Hpt & Hfl & Hpin) Hr. unfold safe, in_pool in *. cbn.
  split; [exact Hlen|]. split; [exact Hr|]. split; [exact Hpt|]. split; assumption.
Qed.

Lemma safe_with_disk (b : BufferPoolManager) (d : Disk.DiskManager) :
  safe b -> safe (with_disk d b).
Proof. intros H. exact H. Qed.

Lemma safe_insert_mapping (b : BufferPoolManager) (page_id f : Z) :
  safe b -> in_pool b f -> safe (with_page_table (<[page_id := f]> (page_table_ b)) b).
Proof.
  intros (Hlen & Hrep & Hpt & Hfl & Hpin) Hf. unfold safe, in_pool in *. cbn.
  split; [exact Hlen|]. split; [exact Hrep|]. split; [|split; assumption].
  intros p g H.
  destruct (decide (page_id = p)) as [->|Hne].
  - rewrite lookup_insert_eq in H. inversion H; subst. exact Hf.
  - rewrite lookup_insert_ne in H by assumption. exact (Hpt _ _ H).
Qed.

Lemma safe_delete_mapping (b : BufferPoolManager) (page_id : Z) :
  safe b -> safe (with_page_table (delete page_id (page_table_ b)) b).
Proof.
  intros (Hlen & Hrep & Hpt & Hfl & Hpin). unfold safe, in_pool in *. cbn.
  split; [exact Hlen|]. split; [exact Hrep|]. split; [|split; assumption].
  intros p g H. apply lookup_delete_Some in H. destruct H as [_ H]. exact (Hpt _ _ H).
Qed.

Lemma safe_new (pool_size : nat) (disk : Disk.DiskManager) :
  Z.of_nat pool_size < 2 ^ 31 -> safe (Pool.new pool_size disk).
Proof.
  intros Hn. unfold safe, in_pool. cbn.
  split; [apply length_replicate|].
  split; [apply ReplacerFacts.consistent_new|].
  split; [intros page_id frame_id H; rewrite lookup_empty in H; discriminate|].
  split.
  - apply Forall_fmap, Forall_forall. intros i Hi.
    apply elem_of_seq in Hi. simpl. rewrite to_int32_small; lia.
  - apply Forall_replicate. simpl. lia.
Qed.

(** [Victim] on the replacer of a safe pool returns, with a frame of the
    pool if any. *)
Lemma Victim_safe (b : BufferPoolManager) :
  safe b -> Z.of_nat (pool_size_ b) < 2 ^ 31 ->
  exists r out,
    Replacer.Victim (replacer_ b) = Done (r, out) /\
    Replacer.consistent (pool_size_ b) r /\
    (forall f, out = Some f -> in_pool b f).
Proof.
  intros (Hlen & Hrep & _) Hn.
  destruct (ReplacerFacts.Victim_loop_terminates (pool_size_ b) (replacer_ b)
              ltac:(lia) Hrep) as [[r out] Hrun].
  specialize (Hrun (Replacer.Victim_fuel (replacer_ b)) ltac:(lia)).
  exists r, out. split; [exact Hrun|].
  split.
  - apply (ReplacerFacts.consistent_Victim_loop (pool_size_ b) _ ltac:(lia)
             (replacer_ b) r out Hrep Hrun).
  - intros f ->. destruct Hrep as [Hl _].
    assert (Hb : Z.of_nat (length (Replacer.frames_ (replacer_ b))) < 2 ^ 31) by lia.
    destruct (ReplacerMore.Victim_loop_chooses _ _ _ _ Hb Hrun) as (Hf & _).
    unfold in_pool. lia.
Qed.

Lemma take_frame_safe (b : BufferPoolManager) :
  safe b -> Z.of_nat (pool_size_ b) < 2 ^ 31 ->
  exists b1 out,
    take_frame b = Done (b1, out) /\
    safe b1 /\ pool_size_ b1 = pool_size_ b /\
    (forall f, out = Some f -> in_pool b f).
Proof.
  intros Hsafe Hn. unfold take_frame.
  destruct (free_list_ b) as [|f rest] eqn:Hfl.
  - destruct (Victim_safe b Hsafe Hn) as (r & out & Hrun & Hr & Hout).
    rewrite Hrun. destruct out as [f|].
    + pose proof (Hout f eq_refl) as Hf.
      pose proof (safe_with_replacer b r Hsafe Hr) as Hsafe1.
      destruct (page_at_in_pool (with_replacer r b) f) as [page Hpage];
        [apply Hsafe | exact Hf |].
      rewrite Hpage. eexists _, (Some f). split; [reflexivity|].
      unfold evict.
      destruct (is_dirty_ page); (split; [|split; [reflexivity | assumption]]);
        (apply safe_set_page; [|simpl; lia]); [apply safe_with_disk|]; assumption.
    + exists (with_replacer r b), None. split; [reflexivity|].
      split; [apply safe_with_replacer; assumption|]. split; [reflexivity | discriminate].
  - destruct Hsafe as (Hlen & Hrep & Hpt & Hall & Hpin).
    rewrite Hfl in Hall. apply Forall_cons in Hall. destruct Hall as [Hf Hrest].
    eexists _, (Some f). split; [reflexivity|].
    split; [|split; [reflexivity|intros f' [= <-]; exact Hf]].
    unfold safe, in_pool in *. cbn.
    split; [exact Hlen|]. split; [|split; [exact Hpt|split; assumption]].
    apply ReplacerFacts.consistent_Unpin; [lia | assumption].
Qed.

Lemma FetchPageImpl_safe (page_id : Z) (b : BufferPoolManager) :
  safe b -> Z.of_nat (pool_size_ b) < 2 ^ 31 ->
  exists b' out,
    FetchPageImpl page_id b = Done (b', out) /\ safe b' /\ pool_size_ b' = pool_size_ b.
Proof.
  intros Hsafe Hn. unfold FetchPageImpl.
  destruct (page_table_ b !! page_id) as [f|] eqn:Hpt.
  - pose proof (proj1 (proj2 (proj2 Hsafe)) _ _ Hpt) as Hf.
    destruct (page_at_in_pool b f (proj1 Hsafe) Hf) as [page Hpage]. rewrite Hpage.
    pose proof (page_at_pin_count b f page (proj2 (proj2 (proj2 (proj2 Hsafe)))) Hpage).
    eexists _, _. split; [reflexivity|]. split; [|reflexivity].
    apply safe_with_replacer.
    + apply safe_set_page; [assumption | simpl; lia].
    + apply ReplacerFacts.consistent_Pin; [cbn; lia | apply Hsafe].
  - destruct (take_frame_safe b Hsafe Hn) as (b1 & out & Hrun & Hsafe1 & Hsize & Hout).
    rewrite Hrun. destruct out as [f|].
    2:{ exists b1, None. split; [reflexivity|]. split; assumption. }
    assert (Hf : in_pool b1 f) by (unfold in_pool; rewrite Hsize; apply Hout; reflexivity).
    destruct (page_at_in_pool b1 f (proj1 Hsafe1) Hf) as [page Hpage]. rewrite Hpage.
    pose proof (page_at_pin_count b1 f page (proj2 (proj2 (proj2 (proj2 Hsafe1)))) Hpage).
    unfold Disk.read. cbv iota beta zeta.
    eexists _, _. split; [reflexivity|]. split; [|exact Hsize].
    apply safe_insert_mapping; [|exact Hf].
    apply safe_with_replacer.
    + apply safe_set_page; [apply safe_with_disk; assumption | simpl; lia].
    + apply ReplacerFacts.consistent_Pin; [cbn; lia | apply Hsafe1].
Qed.

Lemma NewPageImpl_safe (b : BufferPoolManager) :
  safe b -> Z.of_nat (pool_size_ b) < 2 ^ 31 ->
  exists b' out,
    NewPageImpl b = Done (b', out) /\ safe b' /\ pool_size_ b' = pool_size_ b.
Proof.
  intros Hsafe Hn. unfold NewPageImpl.
  destruct (take_frame_safe b Hsafe Hn) as (b1 & out & Hrun & Hsafe1 & Hsize & Hout).
  rewrite Hrun. destruct out as [f|].
  2:{ exists b1, None. split; [reflexivity|]. split; assumption. }
  assert (Hf : in_pool b1 f) by (unfold in_pool; rewrite Hsize; apply Hout; reflexivity).
  destruct (page_at_in_pool b1 f (proj1 Hsafe1) Hf) as [page Hpage]. rewrite Hpage.
  pose proof (page_at_pin_count b1 f page (proj2 (proj2 (proj2 (proj2 Hsafe1)))) Hpage).
  unfold Disk.allocate. cbv iota beta zeta.
  eexists _, _. split; [reflexivity|]. split; [|exact Hsize].
  apply safe_with_replacer.
  - apply safe_set_page; [|simpl; lia].
    apply (safe_insert_mapping (with_disk _ b1)); [apply safe_with_disk; assumption | exact Hf].
  - apply ReplacerFacts.consistent_Pin; [cbn; lia | apply Hsafe1].
Qed.

Lemma UnpinPageImpl_safe (page_id : Z) (is_dirty : bool) (b : BufferPoolManager) :
  safe b -> Z.of_nat (pool_size_ b) < 2 ^ 31 ->
  exists b' out,
    UnpinPageImpl page_id is_dirty b = Done (b', out) /\ safe b' /\
    pool_size_ b' = pool_size_ b.
Proof.
  intros Hsafe Hn. unfold UnpinPageImpl.
  destruct (page_table_ b !! page_id) as [f|] eqn:Hpt.
  2:{ exists b, false. split; [reflexivity|]. split; [assumption | reflexivity]. }
  pose proof (proj1 (proj2 (proj2 Hsafe)) _ _ Hpt) as Hf.
  destruct (page_at_in_pool b f (proj1 Hsafe) Hf) as [page Hpage]. rewrite Hpage.
  destruct (0 <? pin_count_ page) eqn:Hpos.
  2:{ exists b, true. split; [reflexivity|]. split; [assumption | reflexivity]. }
  apply Z.ltb_lt in Hpos.
  destruct (pin_count_ page - 1 =? 0).
  - eexists _, _. split; [reflexivity|]. split; [|reflexivity].
    apply safe_with_replacer.
    + apply safe_set_page; [assumption | simpl; lia].
    + apply ReplacerFacts.consistent_Unpin; [cbn; lia | apply Hsafe].
  - eexists _, _. split; [reflexivity|]. split; [|reflexivity].
    apply safe_set_page; [assumption | simpl; lia].
Qed.

Lemma FlushPageImpl_safe (page_id : Z) (b : BufferPoolManager) :
  safe b ->
  exists b' out,
    FlushPageImpl page_id b = Done (b', out) /\ safe b' /\ pool_size_ b' = pool_size_ b.
Proof.
  intros Hsafe. unfold FlushPageImpl.
  destruct (page_table_ b !! page_id) as [f|] eqn:Hpt.
  2:{ exists b, false. split; [reflexivity|]. split; [assumption | reflexivity]. }
  pose proof (proj1 (proj2 (proj2 Hsafe)) _ _ Hpt) as Hf.
  destruct (page_at_in_pool b f (proj1 Hsafe) Hf) as [page Hpage]. rewrite Hpage.
  pose proof (page_at_pin_count b f page (proj2 (proj2 (proj2 (proj2 Hsafe)))) Hpage).
  destruct (is_dirty_ page).
  - eexists _, _. split; [reflexivity|]. split; [|reflexivity].
    apply safe_set_page; [apply safe_with_disk; assumption | simpl; lia].
  - exists b, true. split; [reflexivity|]. split; [assumption | reflexivity].
Qed.

Lemma DeletePageImpl_safe (page_id : Z) (b : BufferPoolManager) :
  safe b ->
  exists b' out,
    DeletePageImpl page_id b = Done (b', out) /\ safe b' /\ pool_size_ b' = pool_size_ b.
Proof.
  intros Hsafe. unfold DeletePageImpl.
  destruct (page_table_ b !! page_id) as [f|] eqn:Hpt.
  2:{ exists b, true. split; [reflexivity|]. split; [assumption | reflexivity]. }
  pose proof (proj1 (proj2 (proj2 Hsafe)) _ _ Hpt) as Hf.
  destruct (page_at_in_pool b f (proj1 Hsafe) Hf) as [page Hpage]. rewrite Hpage.
  destruct (0 <? pin_count_ page).
  - exists b, false. split; [reflexivity|]. split; [assumption | reflexivity].
  - eexists _, _. split; [reflexivity|]. split; [|reflexivity].
    apply safe_set_page; [|simpl; lia].
    apply (safe_with_disk (with_page_table _ b)). apply safe_delete_mapping. assumption.
Qed.

Lemma flush_frame_safe (b : BufferPoolManager) (i : nat) :
  safe b -> safe (flush_frame b i) /\ pool_size_ (flush_frame b i) = pool_size_ b.
Proof.
  intros Hsafe. unfold flush_frame.
  destruct (pages_ b !! i) as [page|] eqn:Hpage; [|split; [assumption | reflexivity]].
  destruct (negb (page_id_ page =? INVALID_PAGE_ID) && is_dirty_ page);
    [|split; [assumption | reflexivity]].
  split; [|reflexivity].
  destruct Hsafe as (Hlen & Hrep & Hpt & Hfl & Hpin).
  pose proof (proj1 (Forall_lookup _ _) Hpin _ _ Hpage) as Hp. simpl in Hp.
  unfold safe, in_pool in *. cbn. rewrite length_insert.
  split; [exact Hlen|]. split; [exact Hrep|]. split; [exact Hpt|]. split; [exact Hfl|].
  apply Forall_insert; [assumption | simpl; lia].
Qed.

Lemma FlushAllPagesImpl_safe (b : BufferPoolManager) :
  safe b -> safe (FlushAllPagesImpl b) /\ pool_size_ (FlushAllPagesImpl b) = pool_size_ b.
Proof.
  unfold FlushAllPagesImpl. generalize (seq 0 (pool_size_ b)). intros l. revert b.
  induction l as [|i l IH]; intros b Hsafe; [split; [assumption | reflexivity]|].
  simpl. destruct (flush_frame_safe b i Hsafe) as [Hsafe1 Hsize].
  destruct (IH _ Hsafe1) as [Hsafe2 Hsize2]. split; [assumption | congruence].
Qed.

Lemma run_safe (c : call) (b : BufferPoolManager) :
  safe b -> Z.of_nat (pool_size_ b) < 2 ^ 31 ->
  exists b', run c b = Done b' /\ safe b' /\ pool_size_ b' = pool_size_ b.
Proof.
  intros Hsafe Hn. destruct c as [p|p d|p| |p|]; unfold run, then_, bind.
  - destruct (FetchPageImpl_safe p b Hsafe Hn) as (b' & out & -> & H). exists b'. split; [reflexivity | exact H].
  - destruct (UnpinPageImpl_safe p d b Hsafe Hn) as (b' & out & -> & H). exists b'. split; [reflexivity | exact H].
  - destruct (FlushPageImpl_safe p b Hsafe) as (b' & out & -> & H). exists b'. split; [reflexivity | exact H].
  - destruct (NewPageImpl_safe b Hsafe Hn) as (b' & out & -> & H). exists b'. split; [reflexivity | exact H].
  - destruct (DeletePageImpl_safe p b Hsafe) as (b' & out & -> & H). exists b'. split; [reflexivity | exact H].
  - exists (FlushAllPagesImpl b). split; [reflexivity | apply FlushAllPagesImpl_safe; assumption].
Qed.

(** X6: on a pool of fewer than 2^31 frames, after any sequence of public
    calls, every public call returns: no frame index leaves the array, and
    the victim search ends.  Along the way the pool keeps [pool_size_]
    frames, a replacer whose counter is right, frame ids of the page table
    and the free list inside the pool, and pin counts that are not
    negative. *)
Theorem every_call_returns (pool_size : nat) (disk : Disk.DiskManager)
    (b : BufferPoolManager) :
  Z.of_nat pool_size < 2 ^ 31 ->
  reachable pool_size disk b ->
  safe b /\ pool_size_ b = pool_size /\
  forall c : call, exists b', run c b = Done b'.
Proof.
  intros Hn Hr.
  assert (H : safe b /\ pool_size_ b = pool_size).
  { induction Hr as [|b c b' Hr [IH1 IH2] Hrun].
    - split; [apply safe_new; assumption | reflexivity].
    - destruct (run_safe c b IH1 ltac:(lia)) as (b'' & Hrun' & Hsafe & Hsize).
      rewrite Hrun in Hrun'. inversion Hrun'; subst b''. split; [assumption | lia]. }
  destruct H as [Hsafe Hsize]. split; [assumption|]. split; [assumption|].
  intros c. destruct (run_safe c b Hsafe ltac:(lia)) as (b' & Hrun & _).
  exists b'. exact Hrun.
Qed.

Lemma every_call_returns_witness :
  safe Scenario.resident1 /\ pool_size_ Scenario.resident1 = 1%nat /\
  forall c : call, exists b', run c Scenario.resident1 = Done b'.
Proof.
  apply (every_call_returns 1 Disk.new Scenario.resident1).
  - reflexivity.
  - apply (reach_run 1 Disk.new Scenario.pool1 (FetchPage 0)).
    + apply reach_new.
    + vm_compute. reflexivity.
Defined.

Lemma safe_pool1 : safe Scenario.pool1.
Proof. apply safe_new. reflexivity. Qed.

Lemma safe_resident1 : safe Scenario.resident1.
Proof.
  destruct (run_safe (FetchPage 0) Scenario.pool1 safe_pool1 eq_refl) as (b' & Hrun & Hsafe & _).
  assert (H : run (FetchPage 0) Scenario.pool1 = Done Scenario.resident1)
    by (vm_compute; reflexivity).
  rewrite H in Hrun. inversion Hrun; subst b'. exact Hsafe.
Qed.

(** X7: on a safe pool [DeletePage] returns false exactly when the page is
    resident with a pin count greater than 0, and then changes nothing;
    when it returns true the page is no longer in the page table. *)
Theorem DeletePage_refuses_only_pinned (b : BufferPoolManager) (page_id : Z) :
  safe b ->
  exists b' out,
    DeletePageImpl page_id b = Done (b', out) /\
    (out = false <->
     exists f page, page_table_ b !! page_id = Some f /\ page_at f b = Some page /\
                    0 < pin_count_ page) /\
    (out = false -> b' = b) /\
    (out = true -> page_table_ b' !! page_id = None).
Proof.
  intros Hsafe. unfold DeletePageImpl.
  destruct (page_table_ b !! page_id) as [f|] eqn:Hpt.
  - pose proof (proj1 (proj2 (proj2 Hsafe)) _ _ Hpt) as Hf.
    destruct (page_at_in_pool b f (proj1 Hsafe) Hf) as [page Hpage]. rewrite Hpage.
    destruct (0 <? pin_count_ page) eqn:Hpos.
    + apply Z.ltb_lt in Hpos. exists b, false. split; [reflexivity|].
      split; [|split; [reflexivity | discriminate]].
      split; [intros _; exists f, page; repeat split; assumption | reflexivity].
    + apply Z.ltb_ge in Hpos. eexists _, true. split; [reflexivity|].
      split; [|split; [discriminate|]].
      * split; [discriminate|]. intros (f' & page' & Hf' & Hpage' & Hp').
        inversion Hf'; subst f'. rewrite Hpage in Hpage'. inversion Hpage'; subst page'. lia.
      * intros _. cbn. apply lookup_delete_eq.
  - exists b, true. split; [reflexivity|].
    split; [|split; [discriminate | intros _; assumption]].
    split; [discriminate|]. intros (f' & page' & Hf' & _). discriminate.
Qed.

Lemma DeletePage_refuses_only_pinned_witness :
  exists b' out,
    DeletePageImpl 0 Scenario.resident1 = Done (b', out) /\
    (out = false <->
     exists f page, page_table_ Scenario.resident1 !! 0 = Some f /\
                    page_at f Scenario.resident1 = Some page /\
                    0 < pin_count_ page) /\
    (out = false -> b' = Scenario.resident1) /\
    (out = true -> page_table_ b' !! 0 = None).
Proof.
  apply (DeletePage_refuses_only_pinned Scenario.resident1 0). exact safe_resident1.
Defined.

(** X8: on a safe pool [FlushPage] returns true exactly when the page is
    resident.  A resident dirty page has its image written to the disk
    manager under the requested page id and its dirty flag cleared, the
    image, page id and pin count staying as they were; a clean or absent
    page leaves pool and disk untouched. *)
Theorem FlushPage_writes_dirty_page (b : BufferPoolManager) (page_id : Z) :
  safe b ->
  exists b' out,
    FlushPageImpl page_id b = Done (b', out) /\
    (out = true <-> is_Some (page_table_ b !! page_id)) /\
    (forall f page,
       page_table_ b !! page_id = Some f -> page_at f b = Some page ->
       page_at f b' = Some {| data_ := data_ page; page_id_ := page_id_ page;
                              pin_count_ := pin_count_ page; is_dirty_ := false |} /\
       (is_dirty_ page = true ->
        Disk.stored (disk_manager_ b') !! page_id = Some (data_ page) /\
        Disk.calls (disk_manager_ b')
        = Disk.calls (disk_manager_ b) ++ [Disk.WritePage page_id (data_ page)]) /\
       (is_dirty_ page = false -> b' = b)) /\
    (page_table_ b !! page_id = None -> b' = b).
Proof.
  intros Hsafe. unfold FlushPageImpl.
  destruct (page_table_ b !! page_id) as [f|] eqn:Hpt.
  - pose proof (proj1 (proj2 (proj2 Hsafe)) _ _ Hpt) as Hf.
    destruct (page_at_in_pool b f (proj1 Hsafe) Hf) as [page Hpage]. rewrite Hpage.
    destruct (is_dirty_ page) eqn:Hd.
    + eexists _, true. split; [reflexivity|].
      split; [split; [eauto | reflexivity]|]. split; [|discriminate].
      intros f' page' [= <-] Hpage'. rewrite Hpage in Hpage'. inversion Hpage'; subst page'.
      split; [apply (page_at_set_page f _ page); exact Hpage|].
      split; [|congruence]. intros _. cbn. split; [apply lookup_insert_eq | reflexivity].
    + exists b, true. split; [reflexivity|].
      split; [split; [eauto | reflexivity]|]. split; [|discriminate].
      intros f' page' [= <-] Hpage'. rewrite Hpage in Hpage'. inversion Hpage'; subst page'.
      split; [|split; [congruence | reflexivity]].
      rewrite Hpage. destruct page; simpl in *. subst. reflexivity.
  - exists b, false. split; [reflexivity|].
    split; [split; [discriminate | intros [x Hx]; discriminate]|].
    split; [intros f page Hf; discriminate | reflexivity].
Qed.

Lemma FlushPage_writes_dirty_page_witness :
  exists b' out,
    FlushPageImpl 0 Scenario.resident1 = Done (b', out) /\
    (out = true <-> is_Some (page_table_ Scenario.resident1 !! 0)) /\
    (forall f page,
       page_table_ Scenario.resident1 !! 0 = Some f ->
       page_at f Scenario.resident1 = Some page ->
       page_at f b' = Some {| data_ := data_ page; page_id_ := page_id_ page;
                              pin_count_ := pin_count_ page; is_dirty_ := false |} /\
       (is_dirty_ page = true ->
        Disk.stored (disk_manager_ b') !! 0 = Some (data_ page) /\
        Disk.calls (disk_manager_ b')
        = Disk.calls (disk_manager_ Scenario.resident1) ++ [Disk.WritePage 0 (data_ page)]) /\
       (is_dirty_ page = false -> b' = Scenario.resident1)) /\
    (page_table_ Scenario.resident1 !! 0 = None -> b' = Scenario.resident1).
Proof.
  apply (FlushPage_writes_dirty_page Scenario.resident1 0). exact safe_resident1.
Defined.

Lemma flush_frames_upto (k : nat) (b : BufferPoolManager) :
  (k <= length (pages_ b))%nat ->
  page_table_ (foldl flush_frame b (seq 0 k)) = page_table_ b /\
  replacer_ (foldl flush_frame b (seq 0 k)) = replacer_ b /\
  free_list_ (foldl flush_frame b (seq 0 k)) = free_list_ b /\
  forall (i : nat) page,
    pages_ b !! i = Some page ->
    pages_ (foldl flush_frame b (seq 0 k)) !! i
    = Some {| data_ := data_ page; page_id_ := page_id_ page;
              pin_count_ := pin_count_ page;
              is_dirty_ := if (i <? k)%nat
                           then is_dirty_ page && (page_id_ page =? INVALID_PAGE_ID)
                           else is_dirty_ page |}.
Proof.
  induction k as [|k IH]; intros Hk.
  - simpl. repeat split. intros i page Hi. rewrite Hi. destruct page; reflexivity.
  - destruct (IH ltac:(lia)) as (Hpt & Hrep & Hfl & Hpages).
    rewrite seq_S, foldl_app. cbn [foldl Nat.add].
    set (bk := foldl flush_frame b (seq 0 k)) in *.
    destruct (lookup_lt_is_Some_2 (pages_ b) k ltac:(lia)) as [pk Hpk].
    pose proof (Hpages k pk Hpk) as Hk'. rewrite Nat.ltb_irrefl in Hk'.
    unfold flush_frame. rewrite Hk'. cbn [page_id_ is_dirty_ data_ pin_count_].
    destruct (negb (page_id_ pk =? INVALID_PAGE_ID) && is_dirty_ pk) eqn:Hcond.
    + cbn [page_table_ replacer_ free_list_ pages_ with_pages with_disk].
      split; [exact Hpt|]. split; [exact Hrep|]. split; [exact Hfl|].
      intros i page Hi. destruct (decide (i = k)) as [->|Hne].
      * rewrite list_lookup_insert_eq by (eapply lookup_lt_Some; exact Hk').
        rewrite Hpk in Hi. inversion Hi; subst page.
        assert ((k <? S k)%nat = true) as -> by (apply Nat.ltb_lt; lia).
        apply andb_prop in Hcond. destruct Hcond as [Hv Hd].
        apply negb_true_iff in Hv. rewrite Hv, andb_false_r. reflexivity.
      * rewrite list_lookup_insert_ne by congruence. rewrite (Hpages i page Hi).
        destruct (i <? k)%nat eqn:E1; destruct (i <? S k)%nat eqn:E2; try reflexivity;
          [apply Nat.ltb_lt in E1; apply Nat.ltb_ge in E2; lia
          |apply Nat.ltb_ge in E1; apply Nat.ltb_lt in E2; lia].
    + split; [exact Hpt|]. split; [exact Hrep|]. split; [exact Hfl|].
      intros i page Hi. destruct (decide (i = k)) as [->|Hne].
      * rewrite Hk'. rewrite Hpk in Hi. inversion Hi; subst page.
        assert ((k <? S k)%nat = true) as -> by (apply Nat.ltb_lt; lia).
        f_equal. f_equal.
        destruct (is_dirty_ pk); [|reflexivity].
        rewrite andb_true_r in Hcond. apply negb_false_iff in Hcond. rewrite Hcond. reflexivity.
      * rewrite (Hpages i page Hi).
        destruct (i <? k)%nat eqn:E1; destruct (i <? S k)%nat eqn:E2; try reflexivity;
          [apply Nat.ltb_lt in E1; apply Nat.ltb_ge in E2; lia
          |apply Nat.ltb_ge in E1; apply Nat.ltb_lt in E2; lia].
Qed.

(** X9: [FlushAllPages] on a pool of [pool_size_] frames leaves every
    frame with its image, page id and pin count, and clears the dirty flag
    of every frame whose page id is not INVALID_PAGE_ID (a dirty frame
    without a page stays dirty); page table, replacer and free list are
    untouched. *)
Theorem FlushAllPages_cleans_valid_frames (b : BufferPoolManager) :
  length (pages_ b) = pool_size_ b ->
  page_table_ (FlushAllPagesImpl b) = page_table_ b /\
  replacer_ (FlushAllPagesImpl b) = replacer_ b /\
  free_list_ (FlushAllPagesImpl b) = free_list_ b /\
  forall (i : nat) page,
    pages_ b !! i = Some page ->
    pages_ (FlushAllPagesImpl b) !! i
    = Some {| data_ := data_ page; page_id_ := page_id_ page;
              pin_count_ := pin_count_ page;
              is_dirty_ := is_dirty_ page && (page_id_ page =? INVALID_PAGE_ID) |}.
Proof.
  intros Hlen. unfold FlushAllPagesImpl.
  destruct (flush_frames_upto (pool_size_ b) b ltac:(lia)) as (Hpt & Hrep & Hfl & Hpages).
  split; [exact Hpt|]. split; [exact Hrep|]. split; [exact Hfl|].
  intros i page Hi. rewrite (Hpages i page Hi).
  pose proof (lookup_lt_Some _ _ _ Hi).
  assert ((i <? pool_size_ b)%nat = true) as -> by (apply Nat.ltb_lt; lia).
  reflexivity.
Qed.

Lemma FlushAllPages_cleans_valid_frames_witness :
  page_table_ (FlushAllPagesImpl Scenario.resident1) = page_table_ Scenario.resident1 /\
  replacer_ (FlushAllPagesImpl Scenario.resident1) = replacer_ Scenario.resident1 /\
  free_list_ (FlushAllPagesImpl Scenario.resident1) = free_list_ Scenario.resident1 /\
  forall (i : nat) page,
    pages_ Scenario.resident1 !! i = Some page ->
    pages_ (FlushAllPagesImpl Scenario.resident1) !! i
    = Some {| data_ := data_ page; page_id_ := page_id_ page;
              pin_count_ := pin_count_ page;
              is_dirty_ := is_dirty_ page && (page_id_ page =? INVALID_PAGE_ID) |}.
Proof.
  apply (FlushAllPages_cleans_valid_frames Scenario.resident1). reflexivity.
Defined.

(** X10: when [FetchPage] or [NewPage] takes a dirty victim, the victim's
    image is written to the disk manager under the victim's page id
    before anything else is asked of the disk (the read of the fetched
    page, the allocation of the new one), and the frame is handed out
    clean with pin count 1. *)
Theorem dirty_victim_is_written_back (b : BufferPoolManager) (page_id f : Z)
    (r : Replacer.ClockReplacer) (page : Page) :
  free_list_ b = [] ->
  Replacer.Victim (replacer_ b) = Done (r, Some f) ->
  page_at f b = Some page ->
  is_dirty_ page = true ->
  (page_table_ b !! page_id = None ->
   exists b',
     FetchPageImpl page_id b = Done (b', Some f) /\
     Disk.calls (disk_manager_ b')
     = Disk.calls (disk_manager_ b)
         ++ [Disk.WritePage (page_id_ page) (data_ page); Disk.ReadPage page_id] /\
     (exists bytes,
        page_at f b' = Some {| data_ := bytes; page_id_ := page_id;
                               pin_count_ := 1; is_dirty_ := false |})) /\
  (exists b' new_id,
     NewPageImpl b = Done (b', Some (new_id, f)) /\
     Disk.calls (disk_manager_ b')
     = Disk.calls (disk_manager_ b)
         ++ [Disk.WritePage (page_id_ page) (data_ page); Disk.AllocatePage new_id] /\
     page_at f b' = Some {| data_ := Disk.zero_image; page_id_ := new_id;
                            pin_count_ := 1; is_dirty_ := false |}).
Proof.
  intros Hfl Hvictim Hpage Hdirty.
  assert (Htake : take_frame b = Done (evict f page (with_replacer r b), Some f)).
  { unfold take_frame. rewrite Hfl, Hvictim. rewrite page_at_with_replacer, Hpage. reflexivity. }
  assert (Hev : page_at f (evict f page (with_replacer r b))
                = Some {| data_ := Disk.zero_image; page_id_ := page_id_ page;
                          pin_count_ := 0; is_dirty_ := false |}).
  { unfold evict. rewrite Hdirty. apply (page_at_set_page f _ page). exact Hpage. }
  split.
  - intros Hpt. unfold FetchPageImpl. rewrite Hpt, Htake, Hev.
    unfold Disk.read. cbv iota beta zeta.
    eexists. split; [reflexivity|]. split.
    + unfold evict. rewrite Hdirty. cbn. rewrite <- app_assoc. reflexivity.
    + eexists. cbn [page_at with_page_table with_replacer pages_].
      apply (page_at_set_page f _ {| data_ := Disk.zero_image; page_id_ := page_id_ page;
                                     pin_count_ := 0; is_dirty_ := false |}).
      exact Hev.
  - unfold NewPageImpl. rewrite Htake, Hev.
    unfold Disk.allocate. cbv iota beta zeta.
    eexists _, _. split; [reflexivity|]. split.
    + unfold evict. rewrite Hdirty. cbn. rewrite <- app_assoc. reflexivity.
    + rewrite page_at_with_replacer.
      apply (page_at_set_page f _ {| data_ := Disk.zero_image; page_id_ := page_id_ page;
                                     pin_count_ := 0; is_dirty_ := false |}).
      exact Hev.
Qed.

Lemma dirty_victim_is_written_back_witness :
  then_ (then_ (Done Scenario.pool1) (FetchPageImpl 0)) (UnpinPageImpl 0 true)
  = Done Scenario.dirty1 /\
  (page_table_ Scenario.dirty1 !! 1 = None ->
   exists b',
     FetchPageImpl 1 Scenario.dirty1 = Done (b', Some 0) /\
     Disk.calls (disk_manager_ b')
     = Disk.calls (disk_manager_ Scenario.dirty1)
         ++ [Disk.WritePage (page_id_ Scenario.dirty_page0) (data_ Scenario.dirty_page0);
             Disk.ReadPage 1] /\
     (exists bytes,
        page_at 0 b' = Some {| data_ := bytes; page_id_ := 1;
                               pin_count_ := 1; is_dirty_ := false |})) /\
  (exists b' new_id,
     NewPageImpl Scenario.dirty1 = Done (b', Some (new_id, 0)) /\
     Disk.calls (disk_manager_ b')
     = Disk.calls (disk_manager_ Scenario.dirty1)
         ++ [Disk.WritePage (page_id_ Scenario.dirty_page0) (data_ Scenario.dirty_page0);
             Disk.AllocatePage new_id] /\
     page_at 0 b' = Some {| data_ := Disk.zero_image; page_id_ := new_id;
                            pin_count_ := 1; is_dirty_ := false |}).
Proof.
  split; [vm_compute; reflexivity|].
  apply (dirty_victim_is_written_back Scenario.dirty1 1 0 Scenario.chosen0 Scenario.dirty_page0).
  - reflexivity.
  - vm_compute. reflexivity.
  - reflexivity.
  - reflexivity.
Defined.

Lemma Victim_loop_none (fuel : nat) :
  forall r r', Replacer.Victim_loop fuel r = Done (r', None) ->
               Replacer.clock_size_ r <= 0 /\ r' = r.
Proof.
  induction fuel as [|fuel IH]; intros r r' Hrun; [discriminate|].
  rewrite ReplacerFacts.Victim_loop_S in Hrun.
  destruct (0 <? Replacer.clock_size_ r) eqn:Hpos.
  2:{ apply Z.ltb_ge in Hpos. inversion Hrun; subst. split; [lia | reflexivity]. }
  apply Z.ltb_lt in Hpos.
  destruct (Z.of_nat (length (Replacer.frames_ r)) =? 0); [discriminate|].
  cbv zeta in Hrun.
  destruct (Replacer.frames_ r !! _) as [m|]; [|discriminate].
  destruct (Replacer.pin_ m).
  - apply IH in Hrun. cbn in Hrun. lia.
  - destruct (Replacer.ref_ m); [|discriminate].
    apply IH in Hrun. cbn in Hrun. lia.
Qed.

(** X11: on a safe pool of fewer than 2^31 frames, [FetchPage] of a page
    that is not resident and [NewPage] return null exactly when the free
    list is empty and the replacer's [Size] is 0; the pool is then left as
    it was (no page id is allocated). *)
Theorem null_only_when_no_frame (b : BufferPoolManager) (page_id : Z) :
  safe b -> Z.of_nat (pool_size_ b) < 2 ^ 31 ->
  page_table_ b !! page_id = None ->
  (exists b' out,
     FetchPageImpl page_id b = Done (b', out) /\
     (out = None <-> free_list_ b = [] /\ Replacer.Size (replacer_ b) = 0) /\
     (out = None -> b' = b)) /\
  (exists b' out,
     NewPageImpl b = Done (b', out) /\
     (out = None <-> free_list_ b = [] /\ Replacer.Size (replacer_ b) = 0) /\
     (out = None -> b' = b)).
Proof.
  intros Hsafe Hn Hpt.
  assert (Htake : exists b1 out,
             take_frame b = Done (b1, out) /\
             (out = None <-> free_list_ b = [] /\ Replacer.Size (replacer_ b) = 0) /\
             (out = None -> b1 = b) /\
             (forall f, out = Some f -> is_Some (page_at f b1))).
  { destruct (take_frame_safe b Hsafe Hn) as (b1 & out & Hrun & Hsafe1 & Hsize & Hout).
    exists b1, out. split; [exact Hrun|].
    assert (Hpage : forall f, out = Some f -> is_Some (page_at f b1)).
    { intros f Hf. apply page_at_in_pool; [apply Hsafe1|].
      unfold in_pool. rewrite Hsize. apply (Hout f Hf). }
    unfold take_frame in Hrun.
    destruct (free_list_ b) as [|f rest] eqn:Hfl.
    - destruct (Replacer.Victim (replacer_ b)) as [[r [f|]]| |] eqn:Hv; try discriminate.
      + destruct (page_at f (with_replacer r b)); [|discriminate].
        inversion Hrun; subst.
        split; [|split; [discriminate | assumption]].
        split; [discriminate|]. intros [_ Hz].
        destruct Hsafe as (_ & Hrep & _).
        destruct (ReplacerFacts.consistent_Victim_loop (pool_size_ b) _ ltac:(lia)
                    _ _ _ Hrep Hv) as [_ Hiff].
        destruct Hrep as [_ Hcs]. unfold Replacer.Size in Hz.
        assert (Hc : Replacer.count_unpinned (Replacer.frames_ (replacer_ b)) = 0%nat) by lia.
        apply Hiff in Hc. discriminate.
      + inversion Hrun; subst.
        destruct (Victim_loop_none _ _ _ Hv) as [Hle ->].
        split; [|split; [intros _; destruct b; reflexivity | assumption]].
        split; [|reflexivity]. intros _. split; [reflexivity|].
        destruct Hsafe as (_ & [_ Hcs] & _). unfold Replacer.Size. lia.
    - inversion Hrun; subst.
      split; [|split; [discriminate | assumption]].
      split; [discriminate | intros [H _]; discriminate]. }
  destruct Htake as (b1 & out & Hrun & Hiff & Hsame & Hpage).
  split.
  - unfold FetchPageImpl. rewrite Hpt, Hrun. destruct out as [f|].
    + destruct (Hpage f eq_refl) as [page ->].
      unfold Disk.read. cbv iota beta zeta.
      eexists _, (Some f). split; [reflexivity|].
      split; [|discriminate]. split; [discriminate|]. intros H. apply Hiff in H. discriminate.
    + exists b1, None. split; [reflexivity|]. split; [|assumption].
      split; [intros _; apply Hiff; reflexivity | reflexivity].
  - unfold NewPageImpl. rewrite Hrun. destruct out as [f|].
    + destruct (Hpage f eq_refl) as [page ->].
      unfold Disk.allocate. cbv iota beta zeta.
      eexists _, (Some _). split; [reflexivity|].
      split; [|discriminate]. split; [discriminate|]. intros H. apply Hiff in H. discriminate.
    + exists b1, None. split; [reflexivity|].
      split; [|intros _; apply Hsame; reflexivity].
      split; [intros _; apply Hiff; reflexivity | reflexivity].
Qed.

Lemma null_only_when_no_frame_witness :
  (exists b' out,
     FetchPageImpl 1 Scenario.resident1 = Done (b', out) /\
     (out = None <-> free_list_ Scenario.resident1 = [] /\
                     Replacer.Size (replacer_ Scenario.resident1) = 0) /\
     (out = None -> b' = Scenario.resident1)) /\
  (exists b' out,
     NewPageImpl Scenario.resident1 = Done (b', out) /\
     (out = None <-> free_list_ Scenario.resident1 = [] /\
                     Replacer.Size (replacer_ Scenario.resident1) = 0) /\
     (out = None -> b' = Scenario.resident1)).
Proof.
  apply (null_only_when_no_frame Scenario.resident1 1).
  - exact safe_resident1.
  - reflexivity.
  - reflexivity.
Defined.

(** X12: for a resident page whose pin count is greater than 0 and whose
    frame is pinned in the replacer, [FetchPage] followed by
    [UnpinPage(page_id, false)] returns the same frame, then true, and
    puts the pool back exactly as it was. *)
Theorem FetchPage_UnpinPage_round_trip (b : BufferPoolManager) (page_id f : Z)
    (page : Page) (m : Replacer.Meta) :
  page_table_ b !! page_id = Some f ->
  page_at f b = Some page ->
  0 < pin_count_ page ->
  Replacer.frames_ (replacer_ b) !! Z.to_nat f = Some m ->
  Replacer.pin_ m = true ->
  exists b1,
    FetchPageImpl page_id b = Done (b1, Some f) /\
    pin_count_ <$> page_at f b1 = Some (pin_count_ page + 1) /\
    UnpinPageImpl page_id false b1 = Done (b, true).
Proof.
  intros Hpt Hpage Hpos Hm Hpin.
  assert (HPin : Replacer.Pin f (replacer_ b) = replacer_ b).
  { unfold Replacer.Pin. destruct (_ <=? _); [reflexivity|]. rewrite Hm, Hpin. reflexivity. }
  unfold FetchPageImpl. rewrite Hpt, Hpage.
  eexists. split; [reflexivity|].
  set (page1 := {| data_ := data_ page; page_id_ := page_id_ page;
                   pin_count_ := pin_count_ page + 1; is_dirty_ := is_dirty_ page |}).
  assert (Hpage1 : page_at f (with_replacer (Replacer.Pin f (replacer_ (set_page f page1 b)))
                                (set_page f page1 b)) = Some page1).
  { rewrite page_at_with_replacer. apply (page_at_set_page f _ page). exact Hpage. }
  split; [rewrite Hpage1; reflexivity|].
  unfold UnpinPageImpl. cbn [page_table_ with_replacer set_page with_pages].
  rewrite Hpt. rewrite Hpage1. cbn [pin_count_ page1 data_ page_id_ is_dirty_].
  assert ((0 <? pin_count_ page + 1) = true) as -> by (apply Z.ltb_lt; lia).
  assert ((pin_count_ page + 1 - 1 =? 0) = false) as -> by (apply Z.eqb_neq; lia).
  f_equal. f_equal.
  unfold set_page, with_pages, with_replacer. cbn.
  rewrite HPin. rewrite list_insert_insert_eq.
  replace (pin_count_ page + 1 - 1) with (pin_count_ page) by lia.
  rewrite orb_false_r.
  unfold page_at in Hpage. destruct (f <? 0); [discriminate|].
  assert (Heta : {| data_ := data_ page; page_id_ := page_id_ page;
                    pin_count_ := pin_count_ page; is_dirty_ := is_dirty_ page |} = page)
    by (destruct page; reflexivity).
  rewrite Heta. rewrite (list_insert_id _ _ _ Hpage).
  destruct b; reflexivity.
Qed.

Lemma FetchPage_UnpinPage_round_trip_witness :
  exists b1,
    FetchPageImpl 0 Scenario.resident1 = Done (b1, Some 0) /\
    pin_count_ <$> page_at 0 b1 = Some (pin_count_ Scenario.page0 + 1) /\
    UnpinPageImpl 0 false b1 = Done (Scenario.resident1, true).
Proof.
  apply (FetchPage_UnpinPage_round_trip Scenario.resident1 0 0 Scenario.page0
           {| Replacer.pin_ := true; Replacer.ref_ := true |}).
  - reflexivity.
  - reflexivity.
  - reflexivity.
  - reflexivity.
  - reflexivity.
Defined.

(** *** What a successful FetchPage or NewPage changes *)

Lemma page_at_nonneg (f : Z) (b : BufferPoolManager) (page : Page) :
  page_at f b = Some page -> 0 <= f.
Proof.
  unfold page_at. destruct (f <? 0) eqn:Hf; [discriminate|].
  intros _. apply Z.ltb_ge in Hf. exact Hf.
Qed.

Lemma page_at_set_page_other (f g : Z) (p : Page) (b : BufferPoolManager) :
  0 <= f -> g <> f -> page_at g (set_page f p b) = page_at g b.
Proof.
  intros Hf Hne. unfold page_at, set_page. cbn [pages_ with_pages].
  destruct (g <? 0) eqn:Hg; [reflexivity|]. apply Z.ltb_ge in Hg.
  apply list_lookup_insert_ne. lia.
Qed.

Lemma take_frame_effect (b b1 : BufferPoolManager) (f : Z) :
  safe b ->
  take_frame b = Done (b1, Some f) ->
  page_table_ b1 = page_table_ b /\
  (forall g, g <> f -> page_at g b1 = page_at g b) /\
  (exists page, page_at f b1 = Some page /\ 0 <= pin_count_ page).
Proof.
  intros (Hlen & _ & _ & Hfree & Hpins) Hrun. unfold take_frame in Hrun.
  destruct (free_list_ b) as [|f0 rest] eqn:Hfl.
  2:{ inversion Hrun; subst. split; [reflexivity|]. split; [reflexivity|].
      inversion Hfree as [|? ? Hin _]; subst.
      destruct (page_at_in_pool b f Hlen Hin) as [page Hpage].
      exists page. split; [exact Hpage|].
      apply (page_at_pin_count b f page Hpins Hpage). }
  destruct (Replacer.Victim (replacer_ b)) as [[r [f0|]]| |]; try discriminate.
  destruct (page_at f0 (with_replacer r b)) as [page|] eqn:Hpage; [|discriminate].
  inversion Hrun; subst. clear Hrun.
  pose proof (page_at_nonneg _ _ _ Hpage) as Hf.
  unfold evict.
  destruct (is_dirty_ page).
  - split; [reflexivity|]. split.
    + intros g Hg. rewrite page_at_set_page_other by assumption. reflexivity.
    + eexists. split; [apply (PoolFacts.page_at_set_page f _ page); exact Hpage|].
      cbn [pin_count_]. lia.
  - split; [reflexivity|]. split.
    + intros g Hg. rewrite page_at_set_page_other by assumption. reflexivity.
    + eexists. split; [apply (PoolFacts.page_at_set_page f _ page); exact Hpage|].
      cbn [pin_count_]. lia.
Qed.

(** X21: on a safe pool, a [FetchPage] or [NewPage] that returns a frame
    changes that frame and no other, maps the page (the one asked for,
    the one just allocated) to it and leaves every other page-table entry
    as it was.  The frame comes back with a pin count greater than 0,
    and, unless [FetchPage] found the page in the page table, holding the
    page id. *)
Theorem returned_frame_is_the_only_change (b b' : BufferPoolManager) (page_id f : Z) :
  safe b ->
  FetchPageImpl page_id b = Done (b', Some f) \/
  NewPageImpl b = Done (b', Some (page_id, f)) ->
  page_table_ b' !! page_id = Some f /\
  (forall p, p <> page_id -> page_table_ b' !! p = page_table_ b !! p) /\
  (forall g, g <> f -> page_at g b' = page_at g b) /\
  exists page,
    page_at f b' = Some page /\ 0 < pin_count_ page /\
    (page_table_ b !! page_id = None -> page_id_ page = page_id).
Proof.
  intros Hsafe [Hrun|Hrun].
  - unfold FetchPageImpl in Hrun.
    destruct (page_table_ b !! page_id) as [f0|] eqn:Hpt.
    + destruct (page_at f0 b) as [page|] eqn:Hpage; [|discriminate].
      inversion Hrun; subst. clear Hrun.
      pose proof (page_at_nonneg _ _ _ Hpage) as Hf.
      split; [exact Hpt|]. split; [reflexivity|]. split.
      * intros g Hg. rewrite PoolFacts.page_at_with_replacer.
        apply page_at_set_page_other; assumption.
      * eexists. split.
        { rewrite PoolFacts.page_at_with_replacer.
          apply (PoolFacts.page_at_set_page f _ page). exact Hpage. }
        cbn [pin_count_]. split; [|discriminate].
        destruct Hsafe as (_ & _ & _ & _ & Hpins).
        pose proof (page_at_pin_count b f page Hpins Hpage). lia.
    + destruct (take_frame b) as [[b1 [f0|]]| |] eqn:Htake; try discriminate.
      destruct (take_frame_effect b b1 f0 Hsafe Htake) as (Hpt1 & Hother & page & Hpage & Hpin).
      rewrite Hpage in Hrun.
      destruct (Disk.read page_id (disk_manager_ b1)) as [d bytes].
      inversion Hrun; subst. clear Hrun.
      pose proof (page_at_nonneg _ _ _ Hpage) as Hf.
      cbn [page_table_ with_page_table with_replacer set_page with_pages with_disk].
      split; [apply lookup_insert_eq|]. split.
      * intros p Hp. rewrite lookup_insert_ne by congruence. rewrite Hpt1. reflexivity.
      * split.
        { intros g Hg. rewrite <- (Hother g Hg).
          unfold page_at. cbn [pages_]. destruct (g <? 0) eqn:Hg0; [reflexivity|].
          apply Z.ltb_ge in Hg0. apply list_lookup_insert_ne. lia. }
        eexists. split.
        { unfold page_at in *. cbn [pages_]. destruct (f <? 0); [discriminate|].
          apply list_lookup_insert_eq. eapply lookup_lt_Some. exact Hpage. }
        cbn [pin_count_ page_id_]. split; [lia | reflexivity].
  - unfold NewPageImpl in Hrun.
    destruct (take_frame b) as [[b1 [f0|]]| |] eqn:Htake; try discriminate.
    destruct (take_frame_effect b b1 f0 Hsafe Htake) as (Hpt1 & Hother & page & Hpage & Hpin).
    rewrite Hpage in Hrun.
    destruct (Disk.allocate (disk_manager_ b1)) as [d new_id].
    inversion Hrun; subst. clear Hrun.
    pose proof (page_at_nonneg _ _ _ Hpage) as Hf.
    cbn [page_table_ with_page_table with_replacer set_page with_pages with_disk].
    split; [apply lookup_insert_eq|]. split.
    + intros p Hp. rewrite lookup_insert_ne by congruence. rewrite Hpt1. reflexivity.
    + split.
      { intros g Hg. rewrite <- (Hother g Hg).
        unfold page_at. cbn [pages_]. destruct (g <? 0) eqn:Hg0; [reflexivity|].
        apply Z.ltb_ge in Hg0. apply list_lookup_insert_ne. lia. }
      eexists. split.
      { unfold page_at in *. cbn [pages_]. destruct (f <? 0); [discriminate|].
        apply list_lookup_insert_eq. eapply lookup_lt_Some. exact Hpage. }
      cbn [pin_count_ page_id_]. split; [lia | reflexivity].
Qed.

Lemma returned_frame_is_the_only_change_witness :
  page_table_ Scenario.resident1 !! 0 = Some 0 /\
  (forall p, p <> 0 -> page_table_ Scenario.resident1 !! p = page_table_ Scenario.pool1 !! p) /\
  (forall g, g <> 0 -> page_at g Scenario.resident1 = page_at g Scenario.pool1) /\
  exists page,
    page_at 0 Scenario.resident1 = Some page /\ 0 < pin_count_ page /\
    (page_table_ Scenario.pool1 !! 0 = None -> page_id_ page = 0).
Proof.
  apply (returned_frame_is_the_only_change Scenario.pool1 Scenario.resident1 0 0).
  - exact safe_pool1.
  - left. reflexivity.
Defined.

End PoolMore.

(** * Further properties of the hash table *)

Module HashMore.
Import Hash HashFacts.

Section More.
Context {K V : Type}.
Variable comparator_ : K -> K -> Z.
Variable value_eqb : V -> V -> bool.
Variable hash_fn_ : K -> Z.
Variable BLOCK_ARRAY_SIZE : Z.
Variable zero_key : K.
Variable zero_value : V.
Hypothesis BLOCK_ARRAY_SIZE_pos : 0 < BLOCK_ARRAY_SIZE.
Hypothesis comparator_sound : forall a b : K, comparator_ a b = 0 -> a = b.
Hypothesis value_eqb_sound : forall a b : V, value_eqb a b = true -> a = b.

Local Abbreviation wf := (well_formed BLOCK_ARRAY_SIZE).
Local Abbreviation cap := (capacity BLOCK_ARRAY_SIZE).
Local Abbreviation pair_of := (fun s : Block.slot K V => (Block.key_ s, Block.value_ s)).
Local Abbreviation live_slots := (filter (fun s : Block.slot K V => Block.readable_ s = true)).

Implicit Types (t : table K V) (bucket : block K V) (s : Block.slot K V).

(** *** GetValue returns stored values only *)

Lemma GetValue_loop_sound (fuel : nat) :
  forall t (key : K) (h b o : Z) (acc res : list V),
    GetValue_loop comparator_ BLOCK_ARRAY_SIZE fuel t key h b o acc = Done res ->
    forall v, v ∈ res -> v ∈ acc \/ (key, v) ∈ readable_pairs t.
Proof.
  induction fuel as [|fuel IH]; intros t key h b o acc res Hrun v Hv; [discriminate|].
  rewrite GetValue_loop_S in Hrun.
  destruct (fetch_slot t b o) as [s|] eqn:Hs; [|discriminate].
  destruct (Block.IsOccupied s).
  2:{ inversion Hrun; subst. left. assumption. }
  cbv zeta in Hrun.
  set (acc' := if Block.IsReadable s && (comparator_ (Block.KeyAt s) key =? 0)
               then acc ++ [Block.ValueAt s] else acc) in *.
  assert (Hacc : forall w, w ∈ acc' -> w ∈ acc \/ (key, w) ∈ readable_pairs t).
  { intros w Hw. unfold acc' in Hw.
    destruct (Block.IsReadable s && (comparator_ (Block.KeyAt s) key =? 0)) eqn:Hc;
      [|left; assumption].
    apply elem_of_app in Hw. destruct Hw as [Hw|Hw]; [left; assumption|].
    apply list_elem_of_singleton in Hw. subst w. right.
    apply andb_prop in Hc. destruct Hc as [Hr Hk]. apply Z.eqb_eq in Hk.
    unfold Block.IsReadable, Block.KeyAt, Block.ValueAt in *.
    rewrite <- (comparator_sound _ _ Hk).
    apply (readable_pairs_elem t b o s Hs Hr). }
  destruct (wrap_size_t (b * BLOCK_ARRAY_SIZE + wrap_size_t (o + 1)) =? h).
  { inversion Hrun; subst. apply Hacc. assumption. }
  destruct (BLOCK_ARRAY_SIZE <=? wrap_size_t (o + 1));
    (destruct (IH _ _ _ _ _ _ _ Hrun v Hv) as [Hin|Hin]; [apply Hacc; assumption | right; assumption]).
Qed.

(** X13: [GetValue] never reports a value that is not stored: every value
    it returns sits with the key in a readable slot, and the flag it
    returns says whether any value was found. *)
Theorem GetValue_returns_stored_values (fuel : nat) t (key : K) (found : bool) (res : list V) :
  GetValue comparator_ hash_fn_ BLOCK_ARRAY_SIZE fuel t key = Done (found, res) ->
  (found = true <-> res <> []) /\
  forall v, v ∈ res -> (key, v) ∈ readable_pairs t.
Proof.
  unfold GetValue. intros Hrun.
  destruct (wrap_size_t (NumBlocks t * BLOCK_ARRAY_SIZE) =? 0); [discriminate|].
  destruct (BLOCK_ARRAY_SIZE =? 0); [discriminate|].
  destruct (GetValue_loop _ _ _ _ _ _ _ _ _) as [r| |] eqn:Hloop; try discriminate.
  inversion Hrun; subst found res. split.
  - destruct r; simpl; split; congruence.
  - intros v Hv. destruct (GetValue_loop_sound _ _ _ _ _ _ _ _ Hloop v Hv) as [Hin|Hin];
      [|assumption].
    apply elem_of_nil in Hin. contradiction.
Qed.

(** *** Insert returning false *)

Lemma InternalInsert_loop_false (fuel : nat) :
  forall t (key : K) (value : V) (h b o : Z) t' (signalled : bool),
    InternalInsert_loop comparator_ value_eqb BLOCK_ARRAY_SIZE fuel t key value h b o
      = Done (t', false, signalled) ->
    t' = t /\ (signalled = false -> (key, value) ∈ readable_pairs t).
Proof.
  induction fuel as [|fuel IH]; intros t key value h b o t' sg Hrun; [discriminate|].
  rewrite InternalInsert_loop_S in Hrun.
  destruct (fetch_slot t b o) as [s|] eqn:Hs; [|discriminate].
  unfold Block.Insert in Hrun.
  destruct (Block.readable_ s) eqn:Hr; [|discriminate].
  destruct (same_pair comparator_ value_eqb s key value) eqn:Hsp.
  { inversion Hrun; subst. split; [reflexivity|]. intros _.
    rewrite <- (same_pair_sound comparator_ value_eqb comparator_sound value_eqb_sound _ _ _ Hsp).
    eapply readable_pairs_elem; eassumption. }
  cbv zeta in Hrun.
  destruct (wrap_size_t (b * BLOCK_ARRAY_SIZE + wrap_size_t (o + 1)) =? h).
  { inversion Hrun; subst. split; [reflexivity | discriminate]. }
  destruct (BLOCK_ARRAY_SIZE <=? wrap_size_t (o + 1)); apply (IH _ _ _ _ _ _ _ _ Hrun).
Qed.

Lemma Insert_loop_once_full (fuel inner : nat) :
  forall t (key : K) (value : V) t' (ok : bool),
    Insert_loop comparator_ value_eqb hash_fn_ BLOCK_ARRAY_SIZE zero_key zero_value
      fuel inner t key value true = Done (t', ok) ->
    ok = true.
Proof.
  induction fuel as [|fuel IH]; intros t key value t' ok Hrun; [discriminate|].
  cbn [Insert_loop] in Hrun.
  destruct (InternalInsert _ _ _ _ _ _ _ _) as [[[t1 [|]] sg]| |]; try discriminate.
  - inversion Hrun. reflexivity.
  - cbn [orb] in Hrun.
    destruct (Resize _ _ _ _ _ _ _ _ _) as [t2| |]; try discriminate.
    apply (IH _ _ _ _ _ Hrun).
Qed.

(** X14: [Insert] returns false only for a pair that is already stored in
    a readable slot, and then the table is left as it was. *)
Theorem Insert_false_means_stored (fuel : nat) t (key : K) (value : V) t' :
  Insert comparator_ value_eqb hash_fn_ BLOCK_ARRAY_SIZE zero_key zero_value
    fuel t key value = Done (t', false) ->
  t' = t /\ (key, value) ∈ readable_pairs t.
Proof.
  unfold Insert. destruct fuel as [|fuel]; [discriminate|].
  cbn [Insert_loop]. intros Hrun.
  destruct (InternalInsert _ _ _ _ _ _ _ _) as [[[t1 [|]] sg]| |] eqn:Hins; try discriminate.
  cbn [orb] in Hrun. destruct sg.
  - destruct (Resize _ _ _ _ _ _ _ _ _) as [t2| |]; try discriminate.
    apply Insert_loop_once_full in Hrun. discriminate.
  - inversion Hrun; subst t1. unfold InternalInsert in Hins.
    destruct (wrap_size_t (NumBlocks t * BLOCK_ARRAY_SIZE) =? 0); [discriminate|].
    destruct (BLOCK_ARRAY_SIZE =? 0); [discriminate|].
    destruct (InternalInsert_loop_false _ _ _ _ _ _ _ _ _ Hins) as [Heq Hin].
    split; [exact Heq | apply Hin; reflexivity].
Qed.

(** *** Remove *)

Lemma live_slots_remove bucket (i : nat) s :
  bucket !! i = Some s ->
  Block.readable_ s = true ->
  pair_of <$> live_slots bucket
  ≡ₚ pair_of s :: (pair_of <$> live_slots (<[i := Block.Remove s]> bucket)).
Proof.
  revert i. induction bucket as [|x bucket IH]; intros i Hi Hs; [discriminate|].
  destruct i as [|i]; simpl in Hi.
  - inversion Hi; subst x. simpl. rewrite !filter_cons. simpl.
    destruct (decide (Block.readable_ s = true)); [|congruence].
    destruct (decide (false = true)); [discriminate|]. reflexivity.
  - simpl. rewrite !filter_cons.
    destruct (decide (Block.readable_ x = true)).
    + rewrite !fmap_cons. rewrite (IH i Hi Hs). apply perm_swap.
    + apply (IH i Hi Hs).
Qed.

Lemma readable_pairs_remove t (b o : Z) s :
  fetch_slot t b o = Some s ->
  Block.readable_ s = true ->
  readable_pairs t ≡ₚ pair_of s :: readable_pairs (store_slot t b o (Block.Remove s)).
Proof.
  intros Hf Hs.
  destruct (fetch_slot_lookup _ _ _ _ Hf) as (_ & _ & bucket & Hl & Hls).
  unfold store_slot. rewrite Hl.
  generalize dependent (Z.to_nat b). clear Hf.
  induction t as [|x t IH]; intros n Hl; [discriminate|].
  destruct n as [|n]; simpl in Hl.
  - inversion Hl; subst x. simpl. rewrite !readable_pairs_cons.
    rewrite (live_slots_remove _ _ _ Hls Hs). reflexivity.
  - simpl. rewrite !readable_pairs_cons. rewrite (IH n Hl).
    symmetry. apply Permutation_middle.
Qed.

Lemma Remove_loop_effect (fuel : nat) :
  forall t (key : K) (value : V) (h b o : Z) t' (removed : bool),
    Remove_loop comparator_ value_eqb BLOCK_ARRAY_SIZE fuel t key value h b o
      = Done (t', removed) ->
    NumBlocks t' = NumBlocks t /\
    (removed = false -> t' = t) /\
    (removed = true -> readable_pairs t ≡ₚ (key, value) :: readable_pairs t').
Proof.
  induction fuel as [|fuel IH]; intros t key value h b o t' removed Hrun; [discriminate|].
  rewrite Remove_loop_S in Hrun.
  destruct (fetch_slot t b o) as [s|] eqn:Hs; [|discriminate].
  destruct (Block.IsOccupied s).
  2:{ inversion Hrun; subst. split; [reflexivity|]. split; [reflexivity | discriminate]. }
  destruct (same_pair comparator_ value_eqb s key value) eqn:Hsp.
  { unfold Block.IsReadable in Hrun. destruct (Block.readable_ s) eqn:Hr; cbn [negb] in Hrun.
    - inversion Hrun; subst t' removed. split; [apply NumBlocks_store_slot|].
      split; [discriminate|]. intros _.
      rewrite <- (same_pair_sound comparator_ value_eqb comparator_sound value_eqb_sound
                    _ _ _ Hsp).
      apply (readable_pairs_remove _ _ _ _ Hs Hr).
    - inversion Hrun; subst. split; [reflexivity|]. split; [reflexivity | discriminate]. }
  cbv zeta in Hrun.
  destruct (wrap_size_t (b * BLOCK_ARRAY_SIZE + wrap_size_t (o + 1)) =? h).
  { inversion Hrun; subst. split; [reflexivity|]. split; [reflexivity | discriminate]. }
  destruct (BLOCK_ARRAY_SIZE <=? wrap_size_t (o + 1)); apply (IH _ _ _ _ _ _ _ _ Hrun).
Qed.

(** On the list of blocks: a [Remove] that returns true takes exactly one
    copy of the pair out of the live contents (the slot becomes a
    tombstone); a [Remove] that returns false leaves the blocks as they
    were.  The number of blocks never changes. *)
Lemma Remove_takes_one_pair (fuel : nat) t (key : K) (value : V) t' (removed : bool) :
  Remove comparator_ value_eqb hash_fn_ BLOCK_ARRAY_SIZE fuel t key value
    = Done (t', removed) ->
  NumBlocks t' = NumBlocks t /\
  (removed = false -> t' = t) /\
  (removed = true -> readable_pairs t ≡ₚ (key, value) :: readable_pairs t').
Proof.
  unfold Remove. intros Hrun.
  destruct (wrap_size_t (NumBlocks t * BLOCK_ARRAY_SIZE) =? 0); [discriminate|].
  destruct (BLOCK_ARRAY_SIZE =? 0); [discriminate|].
  apply (Remove_loop_effect _ _ _ _ _ _ _ _ _ Hrun).
Qed.

(** *** Resize on any table *)

Lemma insert_all_any (l : list (K * V)) :
  forall t,
    wf t -> 0 < NumBlocks t -> cap t < 2 ^ 64 ->
    Z.of_nat (length (readable_pairs t)) + Z.of_nat (length l) <= cap t ->
    exists t',
      (forall fuel, (Z.to_nat (cap t) <= fuel)%nat ->
         insert_all comparator_ value_eqb hash_fn_ BLOCK_ARRAY_SIZE fuel l t = Done t') /\
      wf t' /\ NumBlocks t' = NumBlocks t /\
      (forall x, x ∈ readable_pairs t' <-> x ∈ l \/ x ∈ readable_pairs t) /\
      Z.of_nat (length (readable_pairs t'))
      <= Z.of_nat (length (readable_pairs t)) + Z.of_nat (length l).
Proof.
  induction l as [|[k v] l IH]; intros t Hwf HN Hcap Hroom.
  - exists t. split; [reflexivity|]. split; [assumption|]. split; [reflexivity|].
    split; [|simpl; lia]. intros x. split; [right; assumption|].
    intros [H|H]; [apply elem_of_nil in H; contradiction | assumption].
  - simpl length in Hroom.
    destruct (InternalInsert_free_slot comparator_ value_eqb hash_fn_ BLOCK_ARRAY_SIZE
                BLOCK_ARRAY_SIZE_pos comparator_sound value_eqb_sound t k v Hwf HN Hcap)
      as (t1 & ok & Hrun & Hres); [lia|].
    assert (H1 : wf t1 /\ NumBlocks t1 = NumBlocks t /\
                 (forall x, x ∈ readable_pairs t1 <-> x = (k, v) \/ x ∈ readable_pairs t) /\
                 Z.of_nat (length (readable_pairs t1))
                 <= Z.of_nat (length (readable_pairs t)) + 1).
    { destruct Hres as [(_ & Hwf1 & HN1 & Hperm) | (_ & -> & Hin)].
      - split; [assumption|]. split; [assumption|]. split.
        + intros x. rewrite Hperm. apply elem_of_cons.
        + rewrite (Permutation_length Hperm). simpl length. lia.
      - split; [assumption|]. split; [reflexivity|]. split; [|lia].
        intros x. split; [right; assumption|]. intros [->|H]; assumption. }
    destruct H1 as (Hwf1 & HN1 & Hmem1 & Hlen1).
    assert (Hcap1 : cap t1 = cap t) by (unfold capacity; rewrite HN1; reflexivity).
    destruct (IH t1) as (t' & Hrun' & Hwf' & HN' & Hmem' & Hlen'); try assumption; try lia.
    exists t'. split; [|split; [assumption|split; [lia|split; [|simpl length; lia]]]].
    + intros fuel Hfuel. cbn [insert_all]. rewrite (Hrun fuel Hfuel). cbn [fst].
      apply Hrun'. lia.
    + intros x. rewrite Hmem', Hmem1, elem_of_cons. tauto.
Qed.

Lemma Resize_is_insert_all (fuel : nat) t :
  wf t -> 0 < NumBlocks t -> 2 * cap t < 2 ^ 64 ->
  Resize comparator_ value_eqb hash_fn_ BLOCK_ARRAY_SIZE zero_key zero_value
    fuel (GetSize BLOCK_ARRAY_SIZE t) t
  = insert_all comparator_ value_eqb hash_fn_ BLOCK_ARRAY_SIZE fuel (readable_pairs t)
      (new BLOCK_ARRAY_SIZE zero_key zero_value (Z.to_nat (2 * NumBlocks t))).
Proof.
  intros Hwf HN Hcap.
  assert (Hcap0 : 0 < cap t) by (unfold capacity; nia).
  unfold Resize.
  assert ((BLOCK_ARRAY_SIZE =? 0) = false) as -> by (apply Z.eqb_neq; lia).
  cbv zeta. unfold GetSize. fold (cap t).
  rewrite (wrap_size_t_small (cap t)) by lia.
  rewrite (wrap_size_t_small (2 * cap t)) by lia.
  unfold capacity at 1 2. rewrite Z.mul_assoc.
  rewrite Z.div_mul, Z.mod_mul by lia. cbn [Z.ltb Z.compare].
  rewrite Z.add_0_r.
  rewrite wrap_size_t_small by (unfold capacity in Hcap; nia).
  apply (move_blocks_insert_all comparator_ value_eqb hash_fn_ BLOCK_ARRAY_SIZE
           BLOCK_ARRAY_SIZE_pos). assumption.
Qed.

(** On the list of blocks: [Resize(GetSize())] on any table (pairs stored
    twice included) returns a table of twice as many blocks that holds
    the same set of live pairs, and no more live slots than before. *)
Lemma Resize_keeps_the_set_of_pairs t :
  wf t -> 0 < NumBlocks t -> 2 * cap t < 2 ^ 64 ->
  exists t',
    (forall fuel, (Z.to_nat (2 * cap t) <= fuel)%nat ->
       Resize comparator_ value_eqb hash_fn_ BLOCK_ARRAY_SIZE zero_key zero_value
         fuel (GetSize BLOCK_ARRAY_SIZE t) t = Done t') /\
    wf t' /\ NumBlocks t' = 2 * NumBlocks t /\
    (forall x, x ∈ readable_pairs t' <-> x ∈ readable_pairs t) /\
    (length (readable_pairs t') <= length (readable_pairs t))%nat.
Proof.
  intros Hwf HN Hcap.
  set (t0 := new BLOCK_ARRAY_SIZE zero_key zero_value (Z.to_nat (2 * NumBlocks t))).
  assert (HN0 : NumBlocks t0 = 2 * NumBlocks t).
  { unfold t0. rewrite (NumBlocks_new BLOCK_ARRAY_SIZE). lia. }
  assert (Hcap1 : cap t0 = 2 * cap t) by (unfold capacity; rewrite HN0; lia).
  assert (Hrp0 : readable_pairs t0 = []) by apply readable_pairs_new.
  pose proof (readable_pairs_length BLOCK_ARRAY_SIZE BLOCK_ARRAY_SIZE_pos t Hwf) as Hlen.
  assert (Hcap0 : 0 < cap t) by (unfold capacity; nia).
  destruct (insert_all_any (readable_pairs t) t0)
    as (t' & Hrun & Hwf' & HN' & Hmem & Hlen').
  - apply well_formed_new. assumption.
  - lia.
  - lia.
  - rewrite Hrp0. simpl length. lia.
  - exists t'. split; [|split; [assumption|split; [lia|split]]].
    + intros fuel Hfuel. rewrite Resize_is_insert_all by assumption. apply Hrun. lia.
    + intros x. rewrite Hmem, Hrp0. split; [|left; assumption].
      intros [H|H]; [assumption | apply elem_of_nil in H; contradiction].
    + rewrite Hrp0 in Hlen'. simpl length in Hlen'. lia.
Qed.

(** *** Insert into a table without a free slot *)

Lemma Insert_loop_S (fuel inner : nat) t (key : K) (value : V) (full : bool) :
  Insert_loop comparator_ value_eqb hash_fn_ BLOCK_ARRAY_SIZE zero_key zero_value
    (S fuel) inner t key value full =
  match InternalInsert comparator_ value_eqb hash_fn_ BLOCK_ARRAY_SIZE inner t key value with
  | Done (t', true, _) => Done (t', true)
  | Done (t', false, signalled) =>
    if full || signalled then
      match Resize comparator_ value_eqb hash_fn_ BLOCK_ARRAY_SIZE zero_key zero_value
              inner (GetSize BLOCK_ARRAY_SIZE t') t' with
      | Done t'' =>
        Insert_loop comparator_ value_eqb hash_fn_ BLOCK_ARRAY_SIZE zero_key zero_value
          fuel inner t'' key value true
      | OutOfFuel => OutOfFuel
      | Undefined => Undefined
      end
    else Done (t', false)
  | OutOfFuel => OutOfFuel
  | Undefined => Undefined
  end.
Proof. reflexivity. Qed.

Lemma InternalInsert_loop_stop (fuel : nat) t (key : K) (value : V) (h p : Z) s :
  0 < NumBlocks t -> cap t < 2 ^ 64 -> 0 <= p < cap t ->
  fetch_slot t (p / BLOCK_ARRAY_SIZE) (p mod BLOCK_ARRAY_SIZE) = Some s ->
  Block.readable_ s = true ->
  same_pair comparator_ value_eqb s key value = false ->
  p + 1 = h ->
  InternalInsert_loop comparator_ value_eqb BLOCK_ARRAY_SIZE (S fuel) t key value h
    (p / BLOCK_ARRAY_SIZE) (p mod BLOCK_ARRAY_SIZE)
  = Done (t, false, true).
Proof.
  intros HN Hcap Hp Hs Hr Hsp Heq. unfold capacity in *.
  destruct (probe_coordinates BLOCK_ARRAY_SIZE (NumBlocks t) p) as (Hb & Ho & Hbo);
    [assumption | assumption |].
  rewrite InternalInsert_loop_S, Hs. unfold Block.Insert. rewrite Hr, Hsp.
  cbv zeta.
  rewrite (wrap_size_t_small (p mod BLOCK_ARRAY_SIZE + 1)) by lia.
  replace (p / BLOCK_ARRAY_SIZE * BLOCK_ARRAY_SIZE + (p mod BLOCK_ARRAY_SIZE + 1))
    with (p + 1) by lia.
  rewrite (wrap_size_t_small (p + 1)) by lia.
  assert ((p + 1 =? h) = true) as -> by (apply Z.eqb_eq; assumption).
  reflexivity.
Qed.

(** Started anywhere but at slot 0, the probe over a table whose slots
    are all readable and hold other pairs comes back to its start after
    one cycle and reports the table full. *)
Lemma InternalInsert_loop_full_cycle t (key : K) (value : V) (h : Z) (n : nat) :
  wf t -> 0 < NumBlocks t -> cap t < 2 ^ 64 ->
  Forall (Forall (fun s => Block.readable_ s = true /\
                           same_pair comparator_ value_eqb s key value = false)) t ->
  0 < h < cap t ->
  forall (j : Z) (fuel : nat),
    0 <= j -> j + Z.of_nat n = cap t - 1 -> (n < fuel)%nat ->
    InternalInsert_loop comparator_ value_eqb BLOCK_ARRAY_SIZE fuel t key value h
      (((h + j) mod cap t) / BLOCK_ARRAY_SIZE) (((h + j) mod cap t) mod BLOCK_ARRAY_SIZE)
    = Done (t, false, true).
Proof.
  intros Hwf HN Hcap Hall Hh.
  induction n as [|n IH]; intros j fuel Hj Hjn Hfuel;
    (destruct fuel as [|fuel]; [lia|]);
    pose proof (Z.mod_pos_bound (h + j) (cap t) ltac:(lia)) as Hp;
    destruct (probe_coordinates BLOCK_ARRAY_SIZE (NumBlocks t) ((h + j) mod cap t))
      as (Hb & Ho & _); try assumption;
    destruct (fetch_slot_in_range BLOCK_ARRAY_SIZE BLOCK_ARRAY_SIZE_pos t _ _ Hwf Hb Ho)
      as [s Hs];
    destruct (slot_of_table _ _ _ _ _ Hall Hs) as [Hr Hsp].
  - apply (InternalInsert_loop_stop fuel t key value h _ s); try assumption.
    replace (h + j) with ((h - 1) + 1 * cap t) by lia.
    rewrite Z.mod_add by lia. rewrite Z.mod_small; lia.
  - rewrite (InternalInsert_loop_advance comparator_ value_eqb BLOCK_ARRAY_SIZE
               BLOCK_ARRAY_SIZE_pos fuel t key value h ((h + j) mod cap t) s);
      try assumption.
    2:{ apply probe_no_early_stop; lia. }
    rewrite Zplus_mod_idemp_l.
    replace (h + j + 1) with (h + (j + 1)) by lia.
    apply IH; lia.
Qed.

Lemma readable_pairs_member t bucket s :
  bucket ∈ t -> s ∈ bucket -> Block.readable_ s = true ->
  pair_of s ∈ readable_pairs t.
Proof.
  intros Hb Hs Hr.
  apply list_elem_of_lookup in Hb. destruct Hb as [i Hi].
  apply list_elem_of_lookup in Hs. destruct Hs as [j Hj].
  apply (readable_pairs_elem t (Z.of_nat i) (Z.of_nat j) s); [|assumption].
  unfold fetch_slot.
  assert ((Z.of_nat i <? 0) = false) as -> by (apply Z.ltb_ge; lia).
  assert ((Z.of_nat j <? 0) = false) as -> by (apply Z.ltb_ge; lia).
  cbn [orb]. rewrite !Nat2Z.id, Hi. exact Hj.
Qed.

(** On the list of blocks: on a table whose slots are all readable, for
    a pair that is not stored and a key whose slot is not slot 0,
    [InternalInsert] signals full, [Resize(GetSize())] doubles the
    blocks, and [InternalInsert] on the new table stores the pair; the
    set of live pairs is then the old one plus the new pair. *)
Lemma Insert_into_full_table_steps t (key : K) (value : V) :
  wf t -> 0 < NumBlocks t -> 2 * cap t < 2 ^ 64 ->
  Forall (Forall (fun s => Block.readable_ s = true)) t ->
  (key, value) ∉ readable_pairs t ->
  slot_of_key hash_fn_ BLOCK_ARRAY_SIZE t key <> 0 ->
  exists t2 t',
    (forall fuel, (Z.to_nat (cap t) <= fuel)%nat ->
       InternalInsert comparator_ value_eqb hash_fn_ BLOCK_ARRAY_SIZE fuel t key value
       = Done (t, false, true)) /\
    (forall fuel, (Z.to_nat (2 * cap t) <= fuel)%nat ->
       Resize comparator_ value_eqb hash_fn_ BLOCK_ARRAY_SIZE zero_key zero_value
         fuel (GetSize BLOCK_ARRAY_SIZE t) t = Done t2) /\
    NumBlocks t2 = 2 * NumBlocks t /\
    (forall fuel, (Z.to_nat (2 * cap t) <= fuel)%nat ->
       InternalInsert comparator_ value_eqb hash_fn_ BLOCK_ARRAY_SIZE fuel t2 key value
       = Done (t', true, false)) /\
    NumBlocks t' = 2 * NumBlocks t /\
    (forall x, x ∈ readable_pairs t' <-> x = (key, value) \/ x ∈ readable_pairs t).
Proof.
  intros Hwf HN Hcap Hfull Hnew Hslot.
  assert (Hcap0 : 0 < cap t) by (unfold capacity; nia).
  pose proof (slot_of_key_range hash_fn_ BLOCK_ARRAY_SIZE t key ltac:(lia)) as Hh.
  set (h := slot_of_key hash_fn_ BLOCK_ARRAY_SIZE t key) in *.
  assert (Hall : Forall (Forall (fun s => Block.readable_ s = true /\
                   same_pair comparator_ value_eqb s key value = false)) t).
  { apply Forall_forall. intros bucket Hbucket.
    apply Forall_forall. intros s Hs.
    pose proof (proj1 (Forall_forall _ _) (proj1 (Forall_forall _ _) Hfull _ Hbucket) _ Hs) as Hr.
    simpl in Hr. split; [assumption|].
    destruct (same_pair comparator_ value_eqb s key value) eqn:Hsp; [|reflexivity].
    exfalso. apply Hnew.
    rewrite <- (same_pair_sound comparator_ value_eqb comparator_sound value_eqb_sound _ _ _ Hsp).
    apply (readable_pairs_member t bucket s); assumption. }
  assert (Hfirst : forall fuel, (Z.to_nat (cap t) <= fuel)%nat ->
            InternalInsert comparator_ value_eqb hash_fn_ BLOCK_ARRAY_SIZE fuel t key value
            = Done (t, false, true)).
  { intros fuel Hfuel. unfold InternalInsert. fold (cap t). fold h.
    rewrite (wrap_size_t_small (cap t)) by lia.
    assert ((cap t =? 0) = false) as -> by (apply Z.eqb_neq; lia).
    assert ((BLOCK_ARRAY_SIZE =? 0) = false) as -> by (apply Z.eqb_neq; lia).
    pose proof (InternalInsert_loop_full_cycle t key value h (Z.to_nat (cap t - 1))
                  Hwf HN ltac:(lia) Hall ltac:(lia) 0 fuel ltac:(lia) ltac:(lia) ltac:(lia))
      as Hcycle.
    rewrite Z.add_0_r in Hcycle. rewrite (Z.mod_small h) in Hcycle by lia. exact Hcycle. }
  destruct (Resize_keeps_the_set_of_pairs t Hwf HN Hcap)
    as (t2 & Hresize & Hwf2 & HN2 & Hmem2 & Hlen2).
  assert (Hcap2 : cap t2 = 2 * cap t) by (unfold capacity; rewrite HN2; lia).
  pose proof (readable_pairs_length BLOCK_ARRAY_SIZE BLOCK_ARRAY_SIZE_pos t Hwf) as Hlen.
  destruct (InternalInsert_free_slot comparator_ value_eqb hash_fn_ BLOCK_ARRAY_SIZE
              BLOCK_ARRAY_SIZE_pos comparator_sound value_eqb_sound t2 key value
              Hwf2 ltac:(lia) ltac:(lia) ltac:(lia))
    as (t' & ok & Hrun & [(-> & Hwf' & HN' & Hperm) | (_ & _ & Hin)]).
  2:{ exfalso. apply Hnew. apply Hmem2. assumption. }
  exists t2, t'. split; [exact Hfirst|]. split; [exact Hresize|]. split; [assumption|].
  split; [|split; [lia|]].
  - intros fuel Hfuel. apply Hrun. lia.
  - intros x. rewrite Hperm, elem_of_cons, Hmem2. reflexivity.
Qed.

(** *** A freshly constructed table *)

(** X19: on a freshly constructed table (at least one block page),
    [GetValue] finds nothing and returns false, [Remove] returns false
    and leaves the table as it is, whatever the key. *)
Theorem fresh_table_holds_nothing (num_buckets fuel : nat) (key : K) (value : V) :
  (0 < num_buckets)%nat ->
  Z.of_nat num_buckets * BLOCK_ARRAY_SIZE < 2 ^ 64 ->
  readable_pairs (new BLOCK_ARRAY_SIZE zero_key zero_value num_buckets) = [] /\
  GetValue comparator_ hash_fn_ BLOCK_ARRAY_SIZE (S fuel)
    (new BLOCK_ARRAY_SIZE zero_key zero_value num_buckets) key = Done (false, []) /\
  Remove comparator_ value_eqb hash_fn_ BLOCK_ARRAY_SIZE (S fuel)
    (new BLOCK_ARRAY_SIZE zero_key zero_value num_buckets) key value
  = Done (new BLOCK_ARRAY_SIZE zero_key zero_value num_buckets, false).
Proof.
  intros Hn Hcap.
  set (t := new BLOCK_ARRAY_SIZE zero_key zero_value num_buckets).
  assert (HN : NumBlocks t = Z.of_nat num_buckets) by apply NumBlocks_new.
  assert (Hwf : wf t) by (apply well_formed_new; assumption).
  assert (Hcap' : 0 < cap t < 2 ^ 64) by (unfold capacity; rewrite HN; nia).
  pose proof (slot_of_key_range hash_fn_ BLOCK_ARRAY_SIZE t key Hcap') as Hh.
  set (h := slot_of_key hash_fn_ BLOCK_ARRAY_SIZE t key) in *.
  destruct (probe_coordinates BLOCK_ARRAY_SIZE (NumBlocks t) h) as (Hb & Ho & _);
    [assumption | exact Hh |].
  destruct (fetch_slot_in_range BLOCK_ARRAY_SIZE BLOCK_ARRAY_SIZE_pos t _ _ Hwf Hb Ho)
    as [s Hs].
  assert (Hempty : Block.occupied_ s = false).
  { apply (slot_of_table t _ _ s (fun s => Block.occupied_ s = false) ltac:(unfold t, new, empty_block; apply Forall_replicate, Forall_replicate; reflexivity) Hs). }
  assert (Hguard : (wrap_size_t (NumBlocks t * BLOCK_ARRAY_SIZE) =? 0) = false).
  { fold (cap t). rewrite wrap_size_t_small by lia. apply Z.eqb_neq. lia. }
  assert (HB : (BLOCK_ARRAY_SIZE =? 0) = false) by (apply Z.eqb_neq; lia).
  split; [apply readable_pairs_new|]. split.
  - unfold GetValue. rewrite Hguard, HB. fold h.
    rewrite GetValue_loop_S, Hs. unfold Block.IsOccupied. rewrite Hempty. reflexivity.
  - unfold Remove. rewrite Hguard, HB. fold h.
    rewrite Remove_loop_S, Hs. unfold Block.IsOccupied. rewrite Hempty. reflexivity.
Qed.

(** *** Insert, then GetValue *)

Hypothesis comparator_refl : forall a : K, comparator_ a a = 0.

Lemma fetch_slot_store_eq t (b o : Z) s s' :
  fetch_slot t b o = Some s -> fetch_slot (store_slot t b o s') b o = Some s'.
Proof.
  intros Hf. destruct (fetch_slot_lookup _ _ _ _ Hf) as (Hb & Ho & bucket & Hl & Hls).
  unfold fetch_slot, store_slot. rewrite Hl.
  assert ((b <? 0) = false) as -> by (apply Z.ltb_ge; lia).
  assert ((o <? 0) = false) as -> by (apply Z.ltb_ge; lia). cbn [orb].
  rewrite list_lookup_insert_eq by (eapply lookup_lt_Some; exact Hl).
  apply list_lookup_insert_eq. eapply lookup_lt_Some; exact Hls.
Qed.

Lemma fetch_slot_store_ne t (b o b' o' : Z) s' :
  0 <= b -> 0 <= o -> (b', o') <> (b, o) ->
  fetch_slot (store_slot t b o s') b' o' = fetch_slot t b' o'.
Proof.
  intros Hb Ho Hne. unfold fetch_slot, store_slot.
  destruct ((b' <? 0) || (o' <? 0)) eqn:Hneg; [reflexivity|].
  apply orb_false_elim in Hneg. destruct Hneg as [Hb' Ho'].
  apply Z.ltb_ge in Hb', Ho'.
  destruct (t !! Z.to_nat b) as [bucket|] eqn:Hl; [|reflexivity].
  destruct (decide (Z.to_nat b = Z.to_nat b')) as [E|E].
  - rewrite <- E. rewrite list_lookup_insert_eq by (eapply lookup_lt_Some; exact Hl).
    rewrite Hl. apply list_lookup_insert_ne.
    intros E'. apply Hne. f_equal; lia.
  - rewrite list_lookup_insert_ne by assumption. reflexivity.
Qed.

Lemma probe_positions_differ (C h i e : Z) :
  0 < C -> 0 <= i < e -> e < C -> (h + i) mod C <> (h + e) mod C.
Proof.
  intros HC Hi He Heq.
  apply (ReplacerFacts.clock_ahead_ne C (h + i) (e - i)); [lia | lia |].
  rewrite Zplus_mod_idemp_l. replace (h + i + (e - i)) with (h + e) by lia.
  symmetry. exact Heq.
Qed.

Lemma coordinates_differ (p q : Z) :
  p <> q ->
  (p / BLOCK_ARRAY_SIZE, p mod BLOCK_ARRAY_SIZE)
  <> (q / BLOCK_ARRAY_SIZE, q mod BLOCK_ARRAY_SIZE).
Proof.
  intros Hne Heq. inversion Heq as [[Hd Hm]]. apply Hne.
  rewrite (Z.div_mod p BLOCK_ARRAY_SIZE), (Z.div_mod q BLOCK_ARRAY_SIZE) by lia.
  rewrite Hd, Hm. reflexivity.
Qed.

(** Where the insert probe ends: at the first slot of the probe sequence
    that is not readable or holds the pair; every slot before it is
    readable, and afterwards the slot holds the pair, occupied and
    readable; no other slot changes. *)
Lemma InternalInsert_loop_lands t (key : K) (value : V) (h : Z) (d : nat) :
  wf t -> 0 < NumBlocks t -> cap t < 2 ^ 64 -> 0 <= h < cap t ->
  Forall (Forall (fun s => Block.readable_ s = true -> Block.occupied_ s = true)) t ->
  forall (j : Z) (fuel : nat) s,
    0 <= j -> j + Z.of_nat d < cap t -> (d < fuel)%nat ->
    fetch_slot t (((h + j + Z.of_nat d) mod cap t) / BLOCK_ARRAY_SIZE)
                 (((h + j + Z.of_nat d) mod cap t) mod BLOCK_ARRAY_SIZE) = Some s ->
    Block.readable_ s = false ->
    exists (e : nat) t' ok s',
      (e <= d)%nat /\
      InternalInsert_loop comparator_ value_eqb BLOCK_ARRAY_SIZE fuel t key value h
        (((h + j) mod cap t) / BLOCK_ARRAY_SIZE) (((h + j) mod cap t) mod BLOCK_ARRAY_SIZE)
      = Done (t', ok, false) /\
      (forall i : nat, (i < e)%nat ->
         exists si,
           fetch_slot t (((h + j + Z.of_nat i) mod cap t) / BLOCK_ARRAY_SIZE)
                        (((h + j + Z.of_nat i) mod cap t) mod BLOCK_ARRAY_SIZE) = Some si /\
           Block.readable_ si = true) /\
      fetch_slot t' (((h + j + Z.of_nat e) mod cap t) / BLOCK_ARRAY_SIZE)
                    (((h + j + Z.of_nat e) mod cap t) mod BLOCK_ARRAY_SIZE) = Some s' /\
      Block.occupied_ s' = true /\ Block.readable_ s' = true /\
      comparator_ (Block.key_ s') key = 0 /\ Block.value_ s' = value /\
      (forall b o,
         (b, o) <> (((h + j + Z.of_nat e) mod cap t) / BLOCK_ARRAY_SIZE,
                    ((h + j + Z.of_nat e) mod cap t) mod BLOCK_ARRAY_SIZE) ->
         fetch_slot t' b o = fetch_slot t b o) /\
      wf t' /\ NumBlocks t' = NumBlocks t.
Proof.
  intros Hwf HN Hcap Hh Hok.
  assert (Hclaim : forall (j : Z) (fuel : nat) s0,
    0 <= j ->
    fetch_slot t (((h + j) mod cap t) / BLOCK_ARRAY_SIZE)
                 (((h + j) mod cap t) mod BLOCK_ARRAY_SIZE) = Some s0 ->
    Block.readable_ s0 = false ->
    exists t' ok s',
      InternalInsert_loop comparator_ value_eqb BLOCK_ARRAY_SIZE (S fuel) t key value h
        (((h + j) mod cap t) / BLOCK_ARRAY_SIZE) (((h + j) mod cap t) mod BLOCK_ARRAY_SIZE)
      = Done (t', ok, false) /\
      fetch_slot t' (((h + j) mod cap t) / BLOCK_ARRAY_SIZE)
                    (((h + j) mod cap t) mod BLOCK_ARRAY_SIZE) = Some s' /\
      Block.occupied_ s' = true /\ Block.readable_ s' = true /\
      comparator_ (Block.key_ s') key = 0 /\ Block.value_ s' = value /\
      (forall b o,
         (b, o) <> (((h + j) mod cap t) / BLOCK_ARRAY_SIZE,
                    ((h + j) mod cap t) mod BLOCK_ARRAY_SIZE) ->
         fetch_slot t' b o = fetch_slot t b o) /\
      wf t' /\ NumBlocks t' = NumBlocks t).
  { intros j fuel s0 Hj Hs0 Hr0.
    pose proof (Z.mod_pos_bound (h + j) (cap t) ltac:(lia)) as Hp.
    destruct (probe_coordinates BLOCK_ARRAY_SIZE (NumBlocks t) ((h + j) mod cap t))
      as (Hb & Ho & _); try assumption.
    eexists _, true, _.
    split; [apply (InternalInsert_loop_claim comparator_ value_eqb BLOCK_ARRAY_SIZE
                     fuel t key value h _ _ s0 Hs0 Hr0)|].
    split; [apply (fetch_slot_store_eq t _ _ s0); exact Hs0|].
    cbn [Block.occupied_ Block.readable_ Block.key_ Block.value_].
    split; [reflexivity|]. split; [reflexivity|]. split; [apply comparator_refl|].
    split; [reflexivity|].
    split; [intros b o Hne; apply fetch_slot_store_ne; [lia | lia | exact Hne]|].
    split; [apply well_formed_store_slot; assumption | apply NumBlocks_store_slot]. }
  assert (Hzero : forall j : Z, h + j + Z.of_nat 0 = h + j) by (intros; lia).
  induction d as [|d IH]; intros j fuel s Hj Hjd Hfuel Hs Hr;
    (destruct fuel as [|fuel]; [lia|]);
    pose proof (Z.mod_pos_bound (h + j) (cap t) ltac:(lia)) as Hp;
    destruct (probe_coordinates BLOCK_ARRAY_SIZE (NumBlocks t) ((h + j) mod cap t))
      as (Hb & Ho & _); try assumption;
    destruct (fetch_slot_in_range BLOCK_ARRAY_SIZE BLOCK_ARRAY_SIZE_pos t _ _ Hwf Hb Ho)
      as [s0 Hs0];
    destruct (Block.readable_ s0) eqn:Hr0.
  - rewrite Hzero in Hs. congruence.
  - destruct (Hclaim j fuel s0 Hj Hs0 Hr0) as (t' & ok & s' & Hrun & Hrest).
    exists 0%nat, t', ok, s'. rewrite Hzero.
    split; [lia|]. split; [exact Hrun|]. split; [intros i Hi; lia | exact Hrest].
  - destruct (same_pair comparator_ value_eqb s0 key value) eqn:Hsp.
    + exists 0%nat, t, false, s0. rewrite Hzero. split; [lia|].
      split; [apply (InternalInsert_loop_duplicate comparator_ value_eqb BLOCK_ARRAY_SIZE
                       fuel t key value h _ _ s0 Hs0 Hr0 Hsp)|].
      split; [intros i Hi; lia|].
      split; [exact Hs0|].
      unfold same_pair, Block.KeyAt, Block.ValueAt in Hsp.
      apply andb_prop in Hsp. destruct Hsp as [Hk Hv]. apply Z.eqb_eq in Hk.
      split; [apply (slot_of_table t _ _ s0 _ Hok Hs0); exact Hr0|].
      split; [exact Hr0|]. split; [exact Hk|].
      split; [apply value_eqb_sound; exact Hv|].
      split; [reflexivity|]. split; [exact Hwf | reflexivity].
    + rewrite (InternalInsert_loop_advance comparator_ value_eqb BLOCK_ARRAY_SIZE
                 BLOCK_ARRAY_SIZE_pos fuel t key value h ((h + j) mod cap t) s0);
        try assumption.
      2:{ apply probe_no_early_stop; lia. }
      rewrite Zplus_mod_idemp_l.
      replace (h + j + 1) with (h + (j + 1)) by lia.
      assert (Htarget : fetch_slot t
                (((h + (j + 1) + Z.of_nat d) mod cap t) / BLOCK_ARRAY_SIZE)
                (((h + (j + 1) + Z.of_nat d) mod cap t) mod BLOCK_ARRAY_SIZE) = Some s).
      { replace (h + (j + 1) + Z.of_nat d) with (h + j + Z.of_nat (S d)) by lia. assumption. }
      destruct (IH (j + 1) fuel s ltac:(lia) ltac:(lia) ltac:(lia) Htarget Hr)
        as (e & t' & ok & s' & He & Hrun & Hchain & Hrest).
      exists (S e), t', ok, s'. split; [lia|]. split; [exact Hrun|].
      replace (h + j + Z.of_nat (S e)) with (h + (j + 1) + Z.of_nat e) by lia.
      split; [|exact Hrest].
      intros i Hi. destruct i as [|i].
      * exists s0. rewrite Hzero. split; assumption.
      * destruct (Hchain i ltac:(lia)) as (si & Hsi & Hri).
        exists si. replace (h + j + Z.of_nat (S i)) with (h + (j + 1) + Z.of_nat i) by lia.
        split; assumption.
  - destruct (Hclaim j fuel s0 Hj Hs0 Hr0) as (t' & ok & s' & Hrun & Hrest).
    exists 0%nat, t', ok, s'. rewrite Hzero.
    split; [lia|]. split; [exact Hrun|]. split; [intros i Hi; lia | exact Hrest].
Qed.

(** One turn of the lookup probe over an occupied slot. *)
Lemma GetValue_loop_step (fuel : nat) t (key : K) (h p : Z) (acc : list V) s :
  0 < NumBlocks t -> cap t < 2 ^ 64 -> 0 <= p < cap t ->
  fetch_slot t (p / BLOCK_ARRAY_SIZE) (p mod BLOCK_ARRAY_SIZE) = Some s ->
  Block.occupied_ s = true ->
  GetValue_loop comparator_ BLOCK_ARRAY_SIZE (S fuel) t key h
    (p / BLOCK_ARRAY_SIZE) (p mod BLOCK_ARRAY_SIZE) acc
  = if p + 1 =? h then
      Done (if Block.readable_ s && (comparator_ (Block.key_ s) key =? 0)
            then acc ++ [Block.value_ s] else acc)
    else
      GetValue_loop comparator_ BLOCK_ARRAY_SIZE fuel t key h
        (((p + 1) mod cap t) / BLOCK_ARRAY_SIZE) (((p + 1) mod cap t) mod BLOCK_ARRAY_SIZE)
        (if Block.readable_ s && (comparator_ (Block.key_ s) key =? 0)
         then acc ++ [Block.value_ s] else acc).
Proof.
  intros HN Hcap Hp Hs Hocc. unfold capacity in *.
  destruct (probe_coordinates BLOCK_ARRAY_SIZE (NumBlocks t) p) as (Hb & Ho & Hbo);
    [assumption | assumption |].
  destruct (probe_next BLOCK_ARRAY_SIZE (NumBlocks t) p) as [Hin Hout];
    [assumption | assumption | assumption |].
  rewrite GetValue_loop_S, Hs.
  unfold Block.IsOccupied, Block.IsReadable, Block.KeyAt, Block.ValueAt. rewrite Hocc.
  cbv zeta.
  rewrite (wrap_size_t_small (p mod BLOCK_ARRAY_SIZE + 1)) by lia.
  replace (p / BLOCK_ARRAY_SIZE * BLOCK_ARRAY_SIZE + (p mod BLOCK_ARRAY_SIZE + 1))
    with (p + 1) by lia.
  rewrite (wrap_size_t_small (p + 1)) by lia.
  destruct (p + 1 =? h); [reflexivity|].
  destruct (BLOCK_ARRAY_SIZE <=? p mod BLOCK_ARRAY_SIZE + 1) eqn:Hcase.
  - apply Z.leb_le in Hcase. destruct (Hout Hcase) as [E1 E2]. rewrite E1, E2. reflexivity.
  - apply Z.leb_gt in Hcase. destruct (Hin Hcase) as [E1 E2]. rewrite E1, E2. reflexivity.
Qed.

Lemma GetValue_loop_keeps (fuel : nat) :
  forall t (key : K) (h b o : Z) (acc res : list V),
    GetValue_loop comparator_ BLOCK_ARRAY_SIZE fuel t key h b o acc = Done res ->
    forall v, v ∈ acc -> v ∈ res.
Proof.
  induction fuel as [|fuel IH]; intros t key h b o acc res Hrun v Hv; [discriminate|].
  rewrite GetValue_loop_S in Hrun.
  destruct (fetch_slot t b o) as [s|]; [|discriminate].
  destruct (Block.IsOccupied s).
  2:{ inversion Hrun; subst. assumption. }
  cbv zeta in Hrun.
  assert (Hacc : v ∈ (if Block.IsReadable s && (comparator_ (Block.KeyAt s) key =? 0)
                      then acc ++ [Block.ValueAt s] else acc)).
  { destruct (_ && _); [apply elem_of_app; left|]; assumption. }
  destruct (wrap_size_t (b * BLOCK_ARRAY_SIZE + wrap_size_t (o + 1)) =? h).
  { inversion Hrun; subst. assumption. }
  destruct (BLOCK_ARRAY_SIZE <=? wrap_size_t (o + 1)); apply (IH _ _ _ _ _ _ _ Hrun v Hacc).
Qed.

Lemma GetValue_loop_fuel_mono (fuel : nat) :
  forall t (key : K) (h b o : Z) (acc res : list V),
    GetValue_loop comparator_ BLOCK_ARRAY_SIZE fuel t key h b o acc = Done res ->
    forall fuel', (fuel <= fuel')%nat ->
    GetValue_loop comparator_ BLOCK_ARRAY_SIZE fuel' t key h b o acc = Done res.
Proof.
  induction fuel as [|fuel IH]; intros t key h b o acc res Hrun fuel' Hle; [discriminate|].
  destruct fuel' as [|fuel']; [lia|].
  rewrite GetValue_loop_S in *.
  destruct (fetch_slot t b o) as [s|]; [|discriminate].
  destruct (Block.IsOccupied s); [|assumption].
  cbv zeta in *.
  destruct (wrap_size_t (b * BLOCK_ARRAY_SIZE + wrap_size_t (o + 1)) =? h); [assumption|].
  destruct (BLOCK_ARRAY_SIZE <=? wrap_size_t (o + 1)); (apply IH; [assumption | lia]).
Qed.

(** With a slot that was never written [e] steps ahead, the lookup probe
    returns within [e + 1] turns. *)
Lemma GetValue_loop_terminates t (key : K) (h : Z) (e : nat) :
  wf t -> 0 < NumBlocks t -> cap t < 2 ^ 64 ->
  forall (p : Z) (acc : list V) s,
    0 <= p < cap t ->
    fetch_slot t (((p + Z.of_nat e) mod cap t) / BLOCK_ARRAY_SIZE)
                 (((p + Z.of_nat e) mod cap t) mod BLOCK_ARRAY_SIZE) = Some s ->
    Block.occupied_ s = false ->
    exists res,
      GetValue_loop comparator_ BLOCK_ARRAY_SIZE (S e) t key h
        (p / BLOCK_ARRAY_SIZE) (p mod BLOCK_ARRAY_SIZE) acc = Done res.
Proof.
  intros Hwf HN Hcap.
  induction e as [|e IH]; intros p acc s Hp Hs Hocc.
  - rewrite Z.add_0_r, Z.mod_small in Hs by lia.
    rewrite GetValue_loop_S, Hs. unfold Block.IsOccupied. rewrite Hocc.
    eexists. reflexivity.
  - destruct (probe_coordinates BLOCK_ARRAY_SIZE (NumBlocks t) p) as (Hb & Ho & _);
      try assumption.
    destruct (fetch_slot_in_range BLOCK_ARRAY_SIZE BLOCK_ARRAY_SIZE_pos t _ _ Hwf Hb Ho)
      as [s0 Hs0].
    destruct (Block.occupied_ s0) eqn:Hocc0.
    + rewrite (GetValue_loop_step (S e) t key h p acc s0 HN Hcap Hp Hs0 Hocc0).
      destruct (p + 1 =? h); [eexists; reflexivity|].
      apply (IH _ _ s); [apply Z.mod_pos_bound; lia | | assumption].
      rewrite Zplus_mod_idemp_l.
      replace (p + 1 + Z.of_nat e) with (p + Z.of_nat (S e)) by lia. assumption.
    + rewrite GetValue_loop_S, Hs0. unfold Block.IsOccupied. rewrite Hocc0.
      eexists. reflexivity.
Qed.

(** A lookup that walks over occupied slots up to a readable slot holding
    the key reports that slot's value. *)
Lemma GetValue_loop_finds t (key : K) (value : V) (h : Z) (d : nat) s :
  wf t -> 0 < NumBlocks t -> cap t < 2 ^ 64 -> 0 <= h < cap t ->
  Z.of_nat d < cap t ->
  (forall i : nat, (i <= d)%nat ->
     exists si,
       fetch_slot t (((h + Z.of_nat i) mod cap t) / BLOCK_ARRAY_SIZE)
                    (((h + Z.of_nat i) mod cap t) mod BLOCK_ARRAY_SIZE) = Some si /\
       Block.occupied_ si = true) ->
  fetch_slot t (((h + Z.of_nat d) mod cap t) / BLOCK_ARRAY_SIZE)
               (((h + Z.of_nat d) mod cap t) mod BLOCK_ARRAY_SIZE) = Some s ->
  Block.readable_ s = true -> comparator_ (Block.key_ s) key = 0 ->
  Block.value_ s = value ->
  forall (fuel j : nat) (acc res : list V),
    (j <= d)%nat ->
    GetValue_loop comparator_ BLOCK_ARRAY_SIZE fuel t key h
      (((h + Z.of_nat j) mod cap t) / BLOCK_ARRAY_SIZE)
      (((h + Z.of_nat j) mod cap t) mod BLOCK_ARRAY_SIZE) acc = Done res ->
    value ∈ res.
Proof.
  intros Hwf HN Hcap Hh Hd Hchain Hs Hr Hk Hv.
  induction fuel as [|fuel IH]; intros j acc res Hj Hrun; [discriminate|].
  destruct (Hchain j Hj) as (sj & Hsj & Hoccj).
  pose proof (Z.mod_pos_bound (h + Z.of_nat j) (cap t) ltac:(lia)) as Hp.
  rewrite (GetValue_loop_step fuel t key h _ acc sj HN Hcap Hp Hsj Hoccj) in Hrun.
  destruct (decide (j = d)) as [->|Hne].
  - rewrite Hs in Hsj. inversion Hsj; subst sj.
    rewrite Hr, Hk in Hrun. cbn [andb Z.eqb] in Hrun.
    assert (Hin : value ∈ acc ++ [Block.value_ s]).
    { apply elem_of_app. right. rewrite Hv. apply list_elem_of_singleton. reflexivity. }
    destruct (_ =? h).
    + inversion Hrun; subst. exact Hin.
    + apply (GetValue_loop_keeps _ _ _ _ _ _ _ _ Hrun _ Hin).
  - assert (Hstop : ((h + Z.of_nat j) mod cap t + 1 =? h) = false).
    { apply Z.eqb_neq. apply probe_no_early_stop; lia. }
    rewrite Hstop in Hrun. rewrite Zplus_mod_idemp_l in Hrun.
    replace (h + Z.of_nat j + 1) with (h + Z.of_nat (S j)) in Hrun by lia.
    apply (IH (S j) _ res ltac:(lia) Hrun).
Qed.

(** On the list of blocks: on a table in which every readable slot is
    occupied and at least two slots were never written,
    [InternalInsert(key, value)] returns without signalling full, and
    [GetValue(key)] on the table it leaves returns true with [value]
    among the values found. *)
Lemma InternalInsert_then_GetValue t (key : K) (value : V) (q1 q2 : Z) s1 s2 (fuel : nat) :
  wf t -> 0 < NumBlocks t -> cap t < 2 ^ 64 ->
  Forall (Forall (fun s => Block.readable_ s = true -> Block.occupied_ s = true)) t ->
  0 <= q1 < cap t -> 0 <= q2 < cap t -> q1 <> q2 ->
  fetch_slot t (q1 / BLOCK_ARRAY_SIZE) (q1 mod BLOCK_ARRAY_SIZE) = Some s1 ->
  Block.occupied_ s1 = false ->
  fetch_slot t (q2 / BLOCK_ARRAY_SIZE) (q2 mod BLOCK_ARRAY_SIZE) = Some s2 ->
  Block.occupied_ s2 = false ->
  (Z.to_nat (cap t) < fuel)%nat ->
  exists t' (ok : bool) (res : list V),
    InternalInsert comparator_ value_eqb hash_fn_ BLOCK_ARRAY_SIZE fuel t key value
      = Done (t', ok, false) /\
    NumBlocks t' = NumBlocks t /\
    GetValue comparator_ hash_fn_ BLOCK_ARRAY_SIZE fuel t' key = Done (true, res) /\
    value ∈ res.
Proof.
  intros Hwf HN Hcap Hok Hq1 Hq2 Hne Hs1 Hocc1 Hs2 Hocc2 Hfuel.
  assert (Hcap' : 0 < cap t < 2 ^ 64) by (unfold capacity in *; nia).
  pose proof (slot_of_key_range hash_fn_ BLOCK_ARRAY_SIZE t key Hcap') as Hh.
  set (h := slot_of_key hash_fn_ BLOCK_ARRAY_SIZE t key) in *.
  assert (Hback : forall q, 0 <= q < cap t ->
            (h + Z.of_nat (Z.to_nat ((q - h) mod cap t))) mod cap t = q
            /\ Z.of_nat (Z.to_nat ((q - h) mod cap t)) < cap t).
  { intros q Hq. pose proof (Z.mod_pos_bound (q - h) (cap t) ltac:(lia)) as Hb.
    rewrite Z2Nat.id by lia. split; [|lia].
    rewrite Zplus_mod_idemp_r. replace (h + (q - h)) with q by lia.
    apply Z.mod_small. assumption. }
  assert (Hr1 : Block.readable_ s1 = false).
  { pose proof (slot_of_table t _ _ s1 _ Hok Hs1) as H. cbv beta in H.
    destruct (Block.readable_ s1); [|reflexivity]. rewrite H in Hocc1 by reflexivity.
    discriminate. }
  destruct (Hback q1 Hq1) as [Hd1 Hd1'].
  set (d := Z.to_nat ((q1 - h) mod cap t)) in *.
  destruct (InternalInsert_loop_lands t key value h d Hwf HN Hcap Hh Hok 0 fuel s1)
    as (e & t' & ok & s' & He & Hrun & Hchain & Hs' & Hocc' & Hr' & Hk' & Hv' & Hrest & Hwf' & HN');
    [lia | lia | lia | rewrite Z.add_0_r, Hd1; exact Hs1 | exact Hr1 |].
  rewrite Z.add_0_r in Hrun, Hs', Hrest. rewrite (Z.mod_small h) in Hrun by lia.
  assert (Hguard : (wrap_size_t (NumBlocks t * BLOCK_ARRAY_SIZE) =? 0) = false).
  { fold (cap t). rewrite wrap_size_t_small by lia. apply Z.eqb_neq. lia. }
  assert (HB : (BLOCK_ARRAY_SIZE =? 0) = false) by (apply Z.eqb_neq; lia).
  exists t', ok.
  assert (Hins : InternalInsert comparator_ value_eqb hash_fn_ BLOCK_ARRAY_SIZE
                   fuel t key value = Done (t', ok, false)).
  { unfold InternalInsert. rewrite Hguard, HB. cbv zeta. fold h. exact Hrun. }
  assert (Hh' : slot_of_key hash_fn_ BLOCK_ARRAY_SIZE t' key = h).
  { unfold h, slot_of_key. rewrite HN'. reflexivity. }
  assert (Hcapt : cap t' = cap t) by (unfold capacity; rewrite HN'; reflexivity).
  (* a slot that was never written is still there after the insert *)
  assert (Hfree : exists q sq, 0 <= q < cap t /\
            fetch_slot t' (q / BLOCK_ARRAY_SIZE) (q mod BLOCK_ARRAY_SIZE) = Some sq /\
            Block.occupied_ sq = false).
  { destruct (decide (q1 = (h + Z.of_nat e) mod cap t)) as [E|E].
    - exists q2, s2. split; [assumption|]. split; [|assumption].
      rewrite Hrest; [assumption|]. apply coordinates_differ. congruence.
    - exists q1, s1. split; [assumption|]. split; [|assumption].
      rewrite Hrest; [assumption|]. apply coordinates_differ. assumption. }
  destruct Hfree as (q & sq & Hq & Hsq & Hoccq).
  destruct (Hback q Hq) as [Hdq Hdq'].
  set (dq := Z.to_nat ((q - h) mod cap t)) in *.
  destruct (GetValue_loop_terminates t' key h dq Hwf' ltac:(lia) ltac:(lia) h [] sq)
    as [res Hget]; [lia | rewrite Hcapt, Hdq; exact Hsq | exact Hoccq |].
  apply GetValue_loop_fuel_mono with (fuel' := fuel) in Hget; [|lia].
  exists res.
  assert (Hin : value ∈ res).
  { apply (GetValue_loop_finds t' key value h e s' Hwf' ltac:(lia) ltac:(lia) ltac:(lia))
      with (fuel := fuel) (j := O) (acc := []).
    - rewrite Hcapt. lia.
    - intros i Hi. rewrite Hcapt.
      destruct (decide (i = e)) as [->|Hie]; [exists s'; split; assumption|].
      destruct (Hchain i ltac:(lia)) as (si & Hsi & Hri).
      rewrite Z.add_0_r in Hsi.
      exists si. split.
      + rewrite Hrest; [assumption|]. apply coordinates_differ.
        apply probe_positions_differ; lia.
      + apply (slot_of_table t _ _ si _ Hok Hsi). assumption.
    - rewrite Hcapt. assumption.
    - assumption.
    - assumption.
    - assumption.
    - lia.
    - rewrite Hcapt, Z.add_0_r, (Z.mod_small h) by lia. exact Hget. }
  split; [exact Hins|]. split; [exact HN'|]. split; [|exact Hin].
  unfold GetValue. rewrite HN', Hguard, HB. cbv zeta.
  rewrite Hh'. rewrite Hget.
  destruct res as [|v0 res0]; [apply elem_of_nil in Hin; contradiction|]. reflexivity.
Qed.

End More.

(** *** The properties at the [int] instance of the scenarios *)

Lemma IntComparator_zero_eq (a b : Z) : IntComparator a b = 0 -> a = b.
Proof.
  unfold IntComparator.
  destruct (a <? b) eqn:Hab; [discriminate|].
  destruct (b <? a) eqn:Hba; [discriminate|].
  apply Z.ltb_ge in Hab, Hba. lia.
Qed.

Lemma IntComparator_refl (a : Z) : IntComparator a a = 0.
Proof. unfold IntComparator. rewrite Z.ltb_irrefl. reflexivity. Qed.

Lemma Z_eqb_true_eq (a b : Z) : (a =? b) = true -> a = b.
Proof. apply Z.eqb_eq. Qed.

Lemma GetValue_returns_stored_values_witness :
  (true = true <-> [50; 50] <> []) /\
  forall v : Z, v ∈ [50; 50] -> (5, v) ∈ readable_pairs Scenario.twice.
Proof.
  apply (GetValue_returns_stored_values IntComparator (fun k => k) 4 IntComparator_zero_eq
           8 Scenario.twice 5 true [50; 50]).
  reflexivity.
Defined.

Lemma Insert_false_means_stored_witness :
  [[Scenario.fresh; Scenario.live 1 10; Scenario.fresh; Scenario.fresh]]
  = [[Scenario.fresh; Scenario.live 1 10; Scenario.fresh; Scenario.fresh]] /\
  (1, 10) ∈ readable_pairs [[Scenario.fresh; Scenario.live 1 10; Scenario.fresh; Scenario.fresh]].
Proof.
  apply (Insert_false_means_stored IntComparator Z.eqb (fun k => k) 4 0 0
           IntComparator_zero_eq Z_eqb_true_eq 8
           [[Scenario.fresh; Scenario.live 1 10; Scenario.fresh; Scenario.fresh]] 1 10).
  reflexivity.
Defined.

Lemma fresh_table_holds_nothing_witness :
  readable_pairs (new 4 0 0 1) = [] /\
  GetValue IntComparator (fun k => k) 4 1 (new 4 0 0 1) 7 = Done (false, []) /\
  Remove IntComparator Z.eqb (fun k => k) 4 1 (new 4 0 0 1) 7 70 = Done (new 4 0 0 1, false).
Proof.
  apply (fresh_table_holds_nothing IntComparator Z.eqb (fun k => k) 4 0 0).
  - reflexivity.
  - lia.
  - reflexivity.
Defined.

End HashMore.

(** * The hash table on the buffer pool *)

(** ** The page layouts *)

Module LayoutFacts.
Import Layout.

Lemma byte_of_to (z : Z) : Z.of_N (Byte.to_N (byte_of z)) = z mod 256.
Proof.
  unfold byte_of.
  pose proof (Z.mod_pos_bound z 256 ltac:(lia)) as Hb.
  destruct (Byte.of_N (Z.to_N (z mod 256))) as [x|] eqn:Hx.
  - apply Byte.to_of_N in Hx. simpl. rewrite Hx. lia.
  - apply Byte.of_N_None_iff in Hx. lia.
Qed.

Lemma byte_at_range (img : list Byte.byte) (pos : Z) : 0 <= byte_at img pos < 256.
Proof.
  unfold byte_at. destruct (pos <? 0); [lia|].
  destruct (img !! Z.to_nat pos) as [x|]; [|lia].
  pose proof (Byte.to_N_bounded x). lia.
Qed.

Lemma byte_at_zero (pos : Z) : byte_at Disk.zero_image pos = 0.
Proof.
  unfold byte_at. destruct (pos <? 0); [reflexivity|].
  match goal with |- context [match ?e with _ => _ end] => destruct e as [x|] eqn:Hx end;
    [|reflexivity].
  apply lookup_replicate in Hx. destruct Hx as [-> _]. reflexivity.
Qed.

Lemma length_set_byte (pos z : Z) (img : list Byte.byte) :
  length (set_byte pos z img) = length img.
Proof. unfold set_byte. destruct (pos <? 0); [reflexivity | apply length_insert]. Qed.

Lemma byte_at_set_byte_eq (pos z : Z) (img : list Byte.byte) :
  0 <= pos < Z.of_nat (length img) ->
  byte_at (set_byte pos z img) pos = z mod 256.
Proof.
  intros Hpos. unfold byte_at, set_byte.
  assert ((pos <? 0) = false) as -> by (apply Z.ltb_ge; lia).
  rewrite list_lookup_insert_eq by lia. apply byte_of_to.
Qed.

Lemma byte_at_set_byte_ne (pos pos' z : Z) (img : list Byte.byte) :
  pos' <> pos -> byte_at (set_byte pos z img) pos' = byte_at img pos'.
Proof.
  intros Hne. unfold byte_at, set_byte.
  destruct (pos' <? 0) eqn:Hp'; [reflexivity|].
  destruct (pos <? 0) eqn:Hp; [reflexivity|].
  apply Z.ltb_ge in Hp, Hp'.
  rewrite list_lookup_insert_ne by lia. reflexivity.
Qed.

Lemma length_set_32 (pos z : Z) (img : list Byte.byte) :
  length (set_32 pos z img) = length img.
Proof. unfold set_32. rewrite !length_set_byte. reflexivity. Qed.

Lemma byte_at_set_32_ne (pos pos' z : Z) (img : list Byte.byte) :
  pos' < pos \/ pos + 3 < pos' ->
  byte_at (set_32 pos z img) pos' = byte_at img pos'.
Proof.
  intros Hne. unfold set_32. rewrite !byte_at_set_byte_ne by lia. reflexivity.
Qed.

Lemma bytes_recombine (z : Z) :
  z mod 256 + 2 ^ 8 * ((z / 2 ^ 8) mod 256)
  + 2 ^ 16 * ((z / 2 ^ 16) mod 256) + 2 ^ 24 * ((z / 2 ^ 24) mod 256)
  = z mod 2 ^ 32.
Proof.
  replace (2 ^ 32) with (256 * (256 * (256 * 256))) by reflexivity.
  rewrite (Z.rem_mul_r z 256 (256 * (256 * 256))) by lia.
  rewrite (Z.rem_mul_r (z / 256) 256 (256 * 256)) by lia.
  rewrite (Z.rem_mul_r (z / 256 / 256) 256 256) by lia.
  rewrite !Z.div_div by lia.
  change (2 ^ 8) with 256. change (2 ^ 16) with (256 * 256).
  change (2 ^ 24) with (256 * 256 * 256). lia.
Qed.

Lemma get_u32_set_32_eq (pos z : Z) (img : list Byte.byte) :
  0 <= pos -> pos + 3 < Z.of_nat (length img) ->
  get_u32 (set_32 pos z img) pos = z mod 2 ^ 32.
Proof.
  intros Hpos Hlen. unfold get_u32, set_32.
  rewrite (byte_at_set_byte_eq (pos + 3)) by (rewrite !length_set_byte; lia).
  rewrite (byte_at_set_byte_ne (pos + 3) (pos + 2)) by lia.
  rewrite (byte_at_set_byte_eq (pos + 2)) by (rewrite !length_set_byte; lia).
  rewrite (byte_at_set_byte_ne (pos + 3) (pos + 1)) by lia.
  rewrite (byte_at_set_byte_ne (pos + 2) (pos + 1)) by lia.
  rewrite (byte_at_set_byte_eq (pos + 1)) by (rewrite !length_set_byte; lia).
  rewrite (byte_at_set_byte_ne (pos + 3) pos) by lia.
  rewrite (byte_at_set_byte_ne (pos + 2) pos) by lia.
  rewrite (byte_at_set_byte_ne (pos + 1) pos) by lia.
  rewrite (byte_at_set_byte_eq pos) by lia.
  apply bytes_recombine.
Qed.

Lemma get_u32_set_32_ne (pos pos' z : Z) (img : list Byte.byte) :
  pos' + 3 < pos \/ pos + 3 < pos' ->
  get_u32 (set_32 pos z img) pos' = get_u32 img pos'.
Proof.
  intros Hne. unfold get_u32. rewrite !byte_at_set_32_ne by lia. reflexivity.
Qed.

Lemma get_u32_range (img : list Byte.byte) (pos : Z) : 0 <= get_u32 img pos < 2 ^ 32.
Proof.
  unfold get_u32.
  pose proof (byte_at_range img pos). pose proof (byte_at_range img (pos + 1)).
  pose proof (byte_at_range img (pos + 2)). pose proof (byte_at_range img (pos + 3)).
  change (2 ^ 8) with 256. change (2 ^ 16) with 65536. change (2 ^ 24) with 16777216.
  change (2 ^ 32) with 4294967296. lia.
Qed.

Lemma get_u32_zero (pos : Z) : get_u32 Disk.zero_image pos = 0.
Proof. unfold get_u32. rewrite !byte_at_zero. reflexivity. Qed.

Lemma to_int32_range (z : Z) : int32 (to_int32 z).
Proof.
  unfold int32, to_int32.
  pose proof (Z.mod_pos_bound (z + 2 ^ 31) (2 ^ 32) ltac:(lia)). lia.
Qed.

Lemma to_int32_mod (z : Z) : int32 z -> to_int32 (z mod 2 ^ 32) = z.
Proof.
  unfold int32, to_int32. intros Hz.
  rewrite Zplus_mod_idemp_l. rewrite Z.mod_small by lia. lia.
Qed.

Lemma get_i32_set_32_eq (pos z : Z) (img : list Byte.byte) :
  0 <= pos -> pos + 3 < Z.of_nat (length img) -> int32 z ->
  get_i32 (set_32 pos z img) pos = z.
Proof.
  intros Hpos Hlen Hz. unfold get_i32. rewrite get_u32_set_32_eq by assumption.
  apply to_int32_mod. assumption.
Qed.

Lemma get_i32_set_32_ne (pos pos' z : Z) (img : list Byte.byte) :
  pos' + 3 < pos \/ pos + 3 < pos' ->
  get_i32 (set_32 pos z img) pos' = get_i32 img pos'.
Proof. intros Hne. unfold get_i32. rewrite get_u32_set_32_ne by assumption. reflexivity. Qed.

Lemma length_set_bit (base i : Z) (v : bool) (img : list Byte.byte) :
  length (set_bit base i v img) = length img.
Proof. unfold set_bit. apply length_set_byte. Qed.

Lemma byte_at_set_bit_ne (base i pos' : Z) (v : bool) (img : list Byte.byte) :
  pos' <> base + i / 8 -> byte_at (set_bit base i v img) pos' = byte_at img pos'.
Proof. intros Hne. unfold set_bit. apply byte_at_set_byte_ne. assumption. Qed.

Lemma testbit_mod_256 (z k : Z) : 0 <= k < 8 -> Z.testbit (z mod 256) k = Z.testbit z k.
Proof.
  intros Hk. change 256 with (2 ^ 8). apply Z.mod_pow2_bits_low. lia.
Qed.

Lemma get_bit_set_bit_eq (base i : Z) (v : bool) (img : list Byte.byte) :
  0 <= i -> 0 <= base -> base + i / 8 < Z.of_nat (length img) ->
  get_bit (set_bit base i v img) base i = v.
Proof.
  intros Hi Hbase Hlen. unfold get_bit, set_bit.
  assert (0 <= i / 8) by (apply Z.div_pos; lia).
  pose proof (Z.mod_pos_bound i 8 ltac:(lia)) as Hk.
  rewrite byte_at_set_byte_eq by lia.
  rewrite testbit_mod_256 by lia.
  destruct v; [apply Z.setbit_eq | apply Z.clearbit_eq]; lia.
Qed.

Lemma get_bit_set_bit_ne (base i i' : Z) (v : bool) (img : list Byte.byte) :
  0 <= i -> 0 <= i' -> 0 <= base -> base + i / 8 < Z.of_nat (length img) ->
  i' <> i ->
  get_bit (set_bit base i v img) base i' = get_bit img base i'.
Proof.
  intros Hi Hi' Hbase Hlen Hne. unfold get_bit.
  destruct (Z.eq_dec (i' / 8) (i / 8)) as [E|E].
  - rewrite E. unfold set_bit.
    assert (0 <= i / 8) by (apply Z.div_pos; lia).
    pose proof (Z.mod_pos_bound i 8 ltac:(lia)) as Hk.
    pose proof (Z.mod_pos_bound i' 8 ltac:(lia)) as Hk'.
    rewrite byte_at_set_byte_eq by lia.
    rewrite testbit_mod_256 by lia.
    assert (i mod 8 <> i' mod 8).
    { intros Em. apply Hne.
      rewrite (Z.div_mod i 8), (Z.div_mod i' 8) by lia. rewrite E, Em. reflexivity. }
    destruct v; [apply Z.setbit_neq | apply Z.clearbit_neq]; lia.
  - rewrite byte_at_set_bit_ne by lia. reflexivity.
Qed.

Lemma get_bit_zero (base i : Z) : get_bit Disk.zero_image base i = false.
Proof. unfold get_bit. rewrite byte_at_zero. apply Z.testbit_0_l. Qed.

Lemma bitmap_bound (N o : Z) : 0 < N -> 0 <= o < N -> 0 <= o / 8 < bitmap_bytes N.
Proof.
  intros HN Ho. unfold bitmap_bytes. split; [apply Z.div_pos; lia|].
  apply Z.div_lt_upper_bound; [lia|].
  pose proof (Z.div_mod (N + 7) 8 ltac:(lia)).
  pose proof (Z.mod_pos_bound (N + 7) 8 ltac:(lia)). lia.
Qed.

Theorem IntLayout_lawful (N : Z) : block_fits N -> lawful N 0 0 (IntLayout N).
Proof.
  intros [HN Hfit]. unfold values_at in Hfit.
  assert (HM : 0 < bitmap_bytes N).
  { pose proof (bitmap_bound N 0 HN ltac:(lia)). lia. }
  split; cbn [slot_at put_slot NumBlocks GetSize GetBlockPageId SetSize SetPageId
              AddBlockPageId key_fits value_fits max_blocks IntLayout].
  - intros o Ho. unfold get_i32. rewrite !get_bit_zero, !get_u32_zero. reflexivity.
  - intros img o [occ rd k v] Hlen Ho Hk Hv. cbn [Block.occupied_ Block.readable_ Block.key_ Block.value_] in *.
    pose proof (bitmap_bound N o HN Ho) as Hb.
    unfold keys_at, values_at.
    f_equal.
    + unfold get_bit at 1. rewrite !byte_at_set_32_ne by lia.
      rewrite byte_at_set_bit_ne by lia.
      fold (get_bit (set_bit 0 o occ img) 0 o).
      apply get_bit_set_bit_eq; lia.
    + unfold get_bit at 1. rewrite !byte_at_set_32_ne by lia.
      fold (get_bit (set_bit (bitmap_bytes N) o rd (set_bit 0 o occ img)) (bitmap_bytes N) o).
      apply get_bit_set_bit_eq; [lia | lia | rewrite length_set_bit; lia].
    + rewrite get_i32_set_32_ne by lia.
      apply get_i32_set_32_eq; [lia | rewrite !length_set_bit; lia | assumption].
    + apply get_i32_set_32_eq; [lia | rewrite length_set_32, !length_set_bit; lia | assumption].
  - intros img o o' [occ rd k v] Hlen Ho Ho' Hne. cbn [Block.occupied_ Block.readable_ Block.key_ Block.value_] in *.
    pose proof (bitmap_bound N o HN Ho) as Hb.
    pose proof (bitmap_bound N o' HN Ho') as Hb'.
    unfold keys_at, values_at.
    f_equal.
    + unfold get_bit at 1. rewrite !byte_at_set_32_ne by lia.
      rewrite byte_at_set_bit_ne by lia.
      fold (get_bit (set_bit 0 o occ img) 0 o').
      apply get_bit_set_bit_ne; lia.
    + unfold get_bit at 1. rewrite !byte_at_set_32_ne by lia.
      fold (get_bit (set_bit (bitmap_bytes N) o rd (set_bit 0 o occ img)) (bitmap_bytes N) o').
      rewrite get_bit_set_bit_ne; [| lia | lia | lia | rewrite length_set_bit; lia | lia].
      unfold get_bit. rewrite byte_at_set_bit_ne by lia. reflexivity.
    + rewrite !get_i32_set_32_ne by lia.
      unfold get_i32, get_u32. rewrite !byte_at_set_bit_ne by lia. reflexivity.
    + rewrite !get_i32_set_32_ne by lia.
      unfold get_i32, get_u32. rewrite !byte_at_set_bit_ne by lia. reflexivity.
  - intros img o s. rewrite !length_set_32, !length_set_bit. reflexivity.
  - intros img o. cbn [Block.key_ Block.value_]. split; apply to_int32_range.
  - apply get_u32_zero.
  - intros img. apply get_u32_range.
  - intros img n Hlen Hn.
    assert (Hmax : (Z.of_nat Disk.PAGE_SIZE - header_ids) / 4 = 1021) by reflexivity.
    rewrite Hmax in Hn.
    split; [|split].
    + rewrite get_u32_set_32_eq by lia. apply Z.mod_small. lia.
    + apply get_u32_set_32_ne. lia.
    + apply length_set_32.
  - intros img page_id Hlen. split; [|split].
    + apply get_u32_set_32_ne. lia.
    + apply get_u32_set_32_ne. lia.
    + apply length_set_32.
  - intros img page_id Hlen Hn Hp.
    assert (Hmax : (Z.of_nat Disk.PAGE_SIZE - header_ids) / 4 = 1021) by reflexivity.
    rewrite Hmax in Hn. unfold header_ids.
    pose proof (get_u32_range img 8) as Hr.
    assert (Hpage : Z.of_nat Disk.PAGE_SIZE = 4096) by reflexivity.
    split; [|split; [|split; [|split]]].
    + rewrite get_u32_set_32_eq by (rewrite ?length_set_32; lia).
      apply Z.mod_small. lia.
    + rewrite !get_u32_set_32_ne by lia. reflexivity.
    + rewrite get_i32_set_32_ne by lia.
      apply get_i32_set_32_eq; [lia | lia | assumption].
    + intros i Hi. rewrite !get_i32_set_32_ne by lia. reflexivity.
    + rewrite !length_set_32. reflexivity.
Qed.

End LayoutFacts.

(** ** Hosted tables: the pool-backed operations and the list of blocks *)

Module HostingFacts.
Import Pool Paged Hosting.

Lemma image_at_page (f : Z) (b : BufferPoolManager) (img : Disk.image) :
  image_at f b = Some img -> exists page, page_at f b = Some page /\ data_ page = img.
Proof.
  unfold image_at. destruct (page_at f b) as [page|]; [|discriminate].
  intros H. inversion H. exists page. split; reflexivity.
Qed.

Lemma GetData_image (f : Z) (b : BufferPoolManager) (img : Disk.image) :
  image_at f b = Some img -> GetData f b = Done img.
Proof.
  intros H. destruct (image_at_page _ _ _ H) as (page & Hp & <-).
  unfold GetData. rewrite Hp. reflexivity.
Qed.

Lemma image_at_set_page_eq (f : Z) (p : Page) (b : BufferPoolManager) :
  is_Some (image_at f b) -> image_at f (set_page f p b) = Some (data_ p).
Proof.
  intros [img H]. destruct (image_at_page _ _ _ H) as (page & Hp & _).
  unfold image_at. rewrite (PoolFacts.page_at_set_page f p page b Hp). reflexivity.
Qed.

Lemma image_at_set_page_ne (f g : Z) (p : Page) (b : BufferPoolManager) :
  is_Some (image_at f b) -> g <> f -> image_at g (set_page f p b) = image_at g b.
Proof.
  intros [img H] Hne. destruct (image_at_page _ _ _ H) as (page & Hp & _).
  unfold image_at. rewrite PoolMore.page_at_set_page_other;
    [reflexivity | eapply PoolMore.page_at_nonneg; exact Hp | assumption].
Qed.

Lemma image_at_set_page_same (f g : Z) (p page : Page) (b : BufferPoolManager) :
  page_at f b = Some page -> data_ p = data_ page ->
  image_at g (set_page f p b) = image_at g b.
Proof.
  intros Hp Hd. destruct (Z.eq_dec g f) as [->|Hne].
  - rewrite image_at_set_page_eq by (unfold image_at; rewrite Hp; eexists; reflexivity).
    unfold image_at. rewrite Hp, Hd. reflexivity.
  - apply image_at_set_page_ne; [|assumption].
    unfold image_at. rewrite Hp. eexists. reflexivity.
Qed.

Lemma same_content_refl (b : BufferPoolManager) : same_content b b.
Proof. repeat split. Qed.

Lemma same_content_trans (b1 b2 b3 : BufferPoolManager) :
  same_content b1 b2 -> same_content b2 b3 -> same_content b1 b3.
Proof.
  intros (Hpt & Him & Hfl & Hd) (Hpt' & Him' & Hfl' & Hd').
  split; [congruence|]. split; [intros g; rewrite Him'; apply Him|].
  split; congruence.
Qed.

Lemma same_content_touches (frames : list Z) (b b' : BufferPoolManager) :
  same_content b b' -> touches_only frames b b'.
Proof.
  intros (Hpt & Him & Hfl & Hd). split; [assumption|].
  split; [intros g _; apply Him|]. split; assumption.
Qed.

Lemma touches_only_trans (frames : list Z) (b1 b2 b3 : BufferPoolManager) :
  touches_only frames b1 b2 -> touches_only frames b2 b3 -> touches_only frames b1 b3.
Proof.
  intros (Hpt & Him & Hfl & Hd) (Hpt' & Him' & Hfl' & Hd').
  split; [congruence|]. split; [intros g Hg; rewrite Him' by assumption; apply Him; assumption|].
  split; congruence.
Qed.

(** A [FetchPage] that finds the page in the page table changes pin
    counts and the replacer only. *)
Lemma FetchPage_hit (page_id f : Z) (b : BufferPoolManager) :
  page_table_ b !! page_id = Some f -> is_Some (image_at f b) ->
  exists b', FetchPage page_id b = Done (b', f) /\ same_content b b'.
Proof.
  intros Hpt [img Him]. destruct (image_at_page _ _ _ Him) as (page & Hp & _).
  unfold FetchPage, FetchPageImpl. rewrite Hpt, Hp. cbn [bind].
  eexists. split; [reflexivity|].
  split; [reflexivity|]. split; [|split; reflexivity].
  intros g. change (image_at g (with_replacer ?r ?b0)) with (image_at g b0).
  apply (image_at_set_page_same f g _ page); [assumption | reflexivity].
Qed.

Lemma UnpinPage_content (page_id : Z) (is_dirty : bool) (b : BufferPoolManager) :
  (forall f, page_table_ b !! page_id = Some f -> is_Some (image_at f b)) ->
  exists b', UnpinPage page_id is_dirty b = Done b' /\ same_content b b'.
Proof.
  intros Hres. unfold UnpinPage, UnpinPageImpl.
  destruct (page_table_ b !! page_id) as [f|] eqn:Hpt.
  2:{ cbn [bind fst]. eexists. split; [reflexivity | apply same_content_refl]. }
  destruct (Hres f eq_refl) as [img Him].
  destruct (image_at_page _ _ _ Him) as (page & Hp & _). rewrite Hp.
  destruct (0 <? pin_count_ page).
  2:{ cbn [bind fst]. eexists. split; [reflexivity | apply same_content_refl]. }
  destruct (pin_count_ page - 1 =? 0); cbn [bind fst];
    (eexists; split; [reflexivity|]);
    (split; [reflexivity|]; split; [|split; reflexivity]);
    intros g; [change (image_at g (with_replacer ?r ?b0)) with (image_at g b0)|];
    apply (image_at_set_page_same f g _ page); try assumption; reflexivity.
Qed.

Lemma SetData_touches (f : Z) (img : Disk.image) (b : BufferPoolManager) :
  is_Some (image_at f b) ->
  image_at f (SetData f img b) = Some img /\
  page_table_ (SetData f img b) = page_table_ b /\
  (forall g, g <> f -> image_at g (SetData f img b) = image_at g b) /\
  free_list_ (SetData f img b) = free_list_ b /\
  disk_manager_ (SetData f img b) = disk_manager_ b.
Proof.
  intros Hsome. destruct Hsome as [old Him].
  destruct (image_at_page _ _ _ Him) as (page & Hp & _).
  unfold SetData. rewrite Hp.
  split; [apply image_at_set_page_eq; rewrite Him; eexists; reflexivity|].
  split; [reflexivity|]. split; [|split; reflexivity].
  intros g Hg. apply image_at_set_page_ne; [rewrite Him; eexists; reflexivity | assumption].
Qed.

(** [NewPage] with a frame in the free list: the frame gets the next
    page id; no image changes. *)
Lemma NewPage_free (b : BufferPoolManager) (f : Z) (rest : list Z) :
  free_list_ b = f :: rest -> is_Some (image_at f b) ->
  exists b',
    NewPageImpl b = Done (b', Some (Disk.next_page_id_ (disk_manager_ b), f)) /\
    page_table_ b' = <[Disk.next_page_id_ (disk_manager_ b) := f]> (page_table_ b) /\
    (forall g, image_at g b' = image_at g b) /\
    free_list_ b' = rest /\
    Disk.next_page_id_ (disk_manager_ b') = Disk.next_page_id_ (disk_manager_ b) + 1.
Proof.
  intros Hfl [img Him]. destruct (image_at_page _ _ _ Him) as (page & Hp & _).
  unfold NewPageImpl, take_frame. rewrite Hfl.
  change (page_at f (with_free_list rest (with_replacer ?r b))) with (page_at f b).
  rewrite Hp. cbn [Disk.allocate].
  eexists. split; [reflexivity|].
  split; [reflexivity|]. split; [|split; reflexivity].
  intros g.
  change (image_at g (with_replacer ?r ?b0)) with (image_at g b0).
  match goal with
  | |- image_at g (set_page f ?p ?b0) = _ =>
    change (image_at g b) with (image_at g b0);
    apply (image_at_set_page_same f g p page b0); [exact Hp | reflexivity]
  end.
Qed.

(** [DeletePage] of a page of the page table touches that entry and the
    page's frame, nothing else. *)
Lemma DeletePage_effect (page_id f : Z) (b : BufferPoolManager) :
  page_table_ b !! page_id = Some f -> is_Some (image_at f b) ->
  exists b',
    DeletePage page_id b = Done b' /\
    (forall p, p <> page_id -> page_table_ b' !! p = page_table_ b !! p) /\
    (forall g, g <> f -> image_at g b' = image_at g b) /\
    free_list_ b' = free_list_ b /\
    Disk.next_page_id_ (disk_manager_ b') = Disk.next_page_id_ (disk_manager_ b).
Proof.
  intros Hpt [img Him]. destruct (image_at_page _ _ _ Him) as (page & Hp & _).
  unfold DeletePage, DeletePageImpl. rewrite Hpt, Hp.
  destruct (0 <? pin_count_ page); cbn [bind fst].
  { exists b. repeat split; reflexivity. }
  eexists. split; [reflexivity|].
  split; [|split; [|split; reflexivity]].
  - intros p Hne. cbn [page_table_ set_page with_pages with_disk with_page_table].
    apply lookup_delete_ne. congruence.
  - intros g Hg. etransitivity; [apply image_at_set_page_ne; [|assumption] | reflexivity].
    change (image_at f (with_disk ?d (with_page_table ?pt b))) with (image_at f b).
    rewrite Him. eexists. reflexivity.
Qed.

Section Hosted.
Context {K V : Type}.
Variable comparator_ : K -> K -> Z.
Variable value_eqb : V -> V -> bool.
Variable hash_fn_ : K -> Z.
Variable BLOCK_ARRAY_SIZE : Z.
Variable L : Layout.PageLayout K V.
Variables (zero_key : K) (zero_value : V).
Hypothesis BLOCK_ARRAY_SIZE_pos : 0 < BLOCK_ARRAY_SIZE.
Hypothesis L_lawful : Layout.lawful BLOCK_ARRAY_SIZE zero_key zero_value L.

Local Abbreviation hosted := (hosted BLOCK_ARRAY_SIZE L).
Local Abbreviation block_of := (block_of BLOCK_ARRAY_SIZE L).
Local Abbreviation cap := (Hash.capacity BLOCK_ARRAY_SIZE).

Implicit Types (b : BufferPoolManager) (t : Hash.table K V) (frames : list Z).

Lemma length_block_of (img : Disk.image) :
  Z.of_nat (length (block_of img)) = BLOCK_ARRAY_SIZE.
Proof. unfold Hosting.block_of. rewrite length_fmap, length_seq. lia. Qed.

Lemma block_of_lookup (img : Disk.image) (o : Z) :
  0 <= o < BLOCK_ARRAY_SIZE ->
  block_of img !! Z.to_nat o = Some (Layout.slot_at L img o).
Proof.
  intros Ho. unfold Hosting.block_of. rewrite list_lookup_fmap.
  rewrite lookup_seq_lt by lia. cbn. rewrite Z2Nat.id by lia. reflexivity.
Qed.

Lemma block_of_put_slot (img : Disk.image) (o : Z) (s : Block.slot K V) :
  length img = Disk.PAGE_SIZE -> 0 <= o < BLOCK_ARRAY_SIZE ->
  Layout.key_fits L (Block.key_ s) -> Layout.value_fits L (Block.value_ s) ->
  block_of (Layout.put_slot L o s img) = <[Z.to_nat o := s]> (block_of img).
Proof.
  intros Hlen Ho Hk Hv. apply list_eq. intros i.
  destruct (decide (i < Z.to_nat BLOCK_ARRAY_SIZE)%nat) as [Hi|Hi].
  - replace i with (Z.to_nat (Z.of_nat i)) by lia.
    rewrite block_of_lookup by lia.
    destruct (decide (Z.of_nat i = o)) as [E|E].
    + rewrite E. rewrite list_lookup_insert_eq
        by (pose proof (length_block_of img); lia).
      rewrite (Layout.slot_at_put_eq _ _ _ _ L_lawful) by assumption. reflexivity.
    + rewrite list_lookup_insert_ne by lia.
      rewrite block_of_lookup by lia.
      rewrite (Layout.slot_at_put_ne _ _ _ _ L_lawful) by (assumption || lia). reflexivity.
  - rewrite !lookup_ge_None_2; [reflexivity | |].
    + rewrite length_insert. pose proof (length_block_of img). lia.
    + pose proof (length_block_of (Layout.put_slot L o s img)). lia.
Qed.

Lemma block_of_zero :
  block_of Disk.zero_image = Hash.empty_block BLOCK_ARRAY_SIZE zero_key zero_value.
Proof.
  apply list_eq. intros i. unfold Hash.empty_block.
  destruct (decide (i < Z.to_nat BLOCK_ARRAY_SIZE)%nat) as [Hi|Hi].
  - replace i with (Z.to_nat (Z.of_nat i)) at 1 by lia.
    rewrite block_of_lookup by lia.
    rewrite (Layout.slot_at_zero _ _ _ _ L_lawful) by lia.
    symmetry. apply lookup_replicate_2. assumption.
  - rewrite !lookup_ge_None_2; [reflexivity | |].
    + rewrite length_replicate. lia.
    + pose proof (length_block_of Disk.zero_image). lia.
Qed.

Lemma hosted_same_content b b' (hid fh : Z) frames t :
  hosted b hid fh frames t -> same_content b b' -> hosted b' hid fh frames t.
Proof.
  intros (Hh & (header & Him & HN & Hids) & Hlen & Hnd & Hblocks) (Hpt & Hsame & _ & _).
  split; [rewrite Hpt; assumption|]. split.
  { exists header. rewrite Hsame, Hpt. split; [assumption|]. split; assumption. }
  split; [assumption|]. split; [assumption|].
  intros i f Hf. destruct (Hblocks i f Hf) as (img & Hi & Hl & Ht).
  exists img. rewrite Hsame. split; [assumption|]. split; assumption.
Qed.

Lemma hosted_well_formed b (hid fh : Z) frames t :
  hosted b hid fh frames t -> Hash.well_formed BLOCK_ARRAY_SIZE t.
Proof.
  intros (_ & _ & Hlen & _ & Hblocks). apply Forall_lookup. intros i bucket Hi.
  destruct (lookup_lt_is_Some_2 frames i) as [f Hf];
    [rewrite Hlen; eapply lookup_lt_Some; exact Hi|].
  destruct (Hblocks i f Hf) as (img & _ & _ & Ht).
  rewrite Hi in Ht. inversion Ht. apply length_block_of.
Qed.

Lemma hosted_frame b (hid fh : Z) frames t (block_ind : Z) :
  hosted b hid fh frames t -> 0 <= block_ind < Z.of_nat (length t) ->
  exists fb img,
    frames !! Z.to_nat block_ind = Some fb /\
    image_at fb b = Some img /\ length img = Disk.PAGE_SIZE /\
    t !! Z.to_nat block_ind = Some (block_of img) /\ fb <> fh.
Proof.
  intros (_ & _ & Hlen & Hnd & Hblocks) Hbi.
  destruct (lookup_lt_is_Some_2 frames (Z.to_nat block_ind)) as [fb Hfb]; [lia|].
  destruct (Hblocks _ _ Hfb) as (img & Hi & Hl & Ht).
  exists fb, img. repeat (split; [assumption|]).
  apply NoDup_cons in Hnd. destruct Hnd as [Hnin _].
  intros ->. apply Hnin. eapply list_elem_of_lookup_2. exact Hfb.
Qed.

Lemma hosted_fetch_slot b (hid fh : Z) frames t (block_ind offset fb : Z)
    (img : Disk.image) :
  hosted b hid fh frames t ->
  frames !! Z.to_nat block_ind = Some fb -> image_at fb b = Some img ->
  0 <= block_ind -> 0 <= offset < BLOCK_ARRAY_SIZE ->
  Hash.fetch_slot t block_ind offset = Some (Layout.slot_at L img offset).
Proof.
  intros (_ & _ & _ & _ & Hblocks) Hfb Him Hbi Ho.
  destruct (Hblocks _ _ Hfb) as (img' & Hi & _ & Ht).
  rewrite Him in Hi. inversion Hi; subst img'.
  unfold Hash.fetch_slot.
  assert ((block_ind <? 0) = false) as -> by (apply Z.ltb_ge; lia).
  assert ((offset <? 0) = false) as -> by (apply Z.ltb_ge; lia).
  cbn [orb]. rewrite Ht. apply block_of_lookup. assumption.
Qed.

(** A slot written through the block page's pointer is a slot stored in
    the table. *)
Lemma hosted_store b (hid fh : Z) frames t (block_ind offset fb : Z)
    (img : Disk.image) (s : Block.slot K V) :
  hosted b hid fh frames t ->
  frames !! Z.to_nat block_ind = Some fb -> image_at fb b = Some img ->
  0 <= block_ind -> 0 <= offset < BLOCK_ARRAY_SIZE ->
  Layout.key_fits L (Block.key_ s) -> Layout.value_fits L (Block.value_ s) ->
  hosted (SetData fb (Layout.put_slot L offset s img) b) hid fh frames
    (Hash.store_slot t block_ind offset s) /\
  touches_only frames b (SetData fb (Layout.put_slot L offset s img) b).
Proof.
  intros Hhost Hfb Him Hbi Ho Hk Hv.
  pose proof Hhost as (Hh & (header & Hhim & HN & Hids) & Hlen & Hnd & Hblocks).
  destruct (SetData_touches fb (Layout.put_slot L offset s img) b)
    as (Hnew & Hpt & Hother & Hfl & Hd); [rewrite Him; eexists; reflexivity|].
  assert (Hfh : fb <> fh).
  { apply NoDup_cons in Hnd. destruct Hnd as [Hnin _].
    intros ->. apply Hnin. eapply list_elem_of_lookup_2. exact Hfb. }
  destruct (Hblocks _ _ Hfb) as (img' & Hi & Hl & Ht).
  rewrite Him in Hi. inversion Hi; subst img'. clear Hi.
  assert (Hst : Hash.store_slot t block_ind offset s
                = <[Z.to_nat block_ind := <[Z.to_nat offset := s]> (block_of img)]> t).
  { unfold Hash.store_slot. rewrite Ht. reflexivity. }
  split.
  - split; [rewrite Hpt; assumption|]. split.
    { exists header. rewrite Hpt, Hother by congruence.
      split; [assumption|]. split; [|assumption].
      rewrite Hst, length_insert. assumption. }
    split; [rewrite Hst, length_insert; assumption|]. split; [assumption|].
    intros i f Hf.
    destruct (decide (i = Z.to_nat block_ind)) as [->|Hne].
    + rewrite Hfb in Hf. inversion Hf; subst f.
      exists (Layout.put_slot L offset s img). split; [assumption|].
      split; [rewrite (Layout.put_slot_length _ _ _ _ L_lawful); assumption|].
      rewrite Hst. rewrite list_lookup_insert_eq by (eapply lookup_lt_Some; exact Ht).
      rewrite block_of_put_slot by assumption. reflexivity.
    + destruct (Hblocks _ _ Hf) as (img' & Hi & Hl' & Ht').
      exists img'. split.
      * rewrite Hother; [assumption|]. intros ->.
        apply NoDup_cons in Hnd. destruct Hnd as [_ Hnd].
        apply Hne. eapply NoDup_lookup; eassumption.
      * split; [assumption|]. rewrite Hst, list_lookup_insert_ne by congruence. assumption.
  - split; [assumption|]. split; [|split; assumption].
    intros g Hg. apply Hother. intros ->. apply Hg.
    eapply list_elem_of_lookup_2. exact Hfb.
Qed.


Lemma hosted_block_id b (hid fh : Z) frames t (block_ind : Z) :
  hosted b hid fh frames t -> 0 <= block_ind < Z.of_nat (length t) ->
  exists header fb,
    image_at fh b = Some header /\
    Layout.NumBlocks L header = Z.of_nat (length t) /\
    page_table_ b !! Layout.GetBlockPageId L header block_ind = Some fb /\
    frames !! Z.to_nat block_ind = Some fb /\
    is_Some (image_at fb b).
Proof.
  intros Hhost Hbi.
  destruct (hosted_frame _ _ _ _ _ _ Hhost Hbi) as (fb & img & Hfb & Him & _ & _ & _).
  destruct Hhost as (_ & (header & Hhim & HN & Hids) & _).
  exists header, fb. split; [assumption|]. split; [assumption|].
  split; [|split; [assumption | rewrite Him; eexists; reflexivity]].
  specialize (Hids _ _ Hfb). rewrite Z2Nat.id in Hids by lia. assumption.
Qed.

Lemma hosted_header b (hid fh : Z) frames t :
  hosted b hid fh frames t ->
  page_table_ b !! hid = Some fh /\ is_Some (image_at fh b).
Proof.
  intros (Hh & (header & Hhim & _) & _). split; [assumption|].
  rewrite Hhim. eexists. reflexivity.
Qed.

(** Unpinning the block page and the header page changes no content. *)
Lemma leave_hosted b (hid fh : Z) frames t (block_ind : Z) (is_dirty : bool) :
  hosted b hid fh frames t -> 0 <= block_ind < Z.of_nat (length t) ->
  exists b', leave L hid fh block_ind is_dirty b = Done b' /\ same_content b b'.
Proof.
  intros Hhost Hbi.
  destruct (hosted_block_id _ _ _ _ _ _ Hhost Hbi) as (header & fb & Hhim & _ & Hpt & _ & Hfb).
  destruct (hosted_header _ _ _ _ _ Hhost) as [Hh Hfh].
  unfold leave. rewrite (GetData_image _ _ _ Hhim). cbn [bind].
  destruct (UnpinPage_content (Layout.GetBlockPageId L header block_ind) is_dirty b)
    as (b1 & Hrun1 & Hsame1).
  { intros f Hf. rewrite Hpt in Hf. inversion Hf; subst. assumption. }
  rewrite Hrun1. cbn [bind].
  destruct (UnpinPage_content hid false b1) as (b2 & Hrun2 & Hsame2).
  { destruct Hsame1 as (Hpt1 & Him1 & _). intros f Hf. rewrite Hpt1, Hh in Hf.
    inversion Hf; subst. rewrite Him1. assumption. }
  exists b2. split; [assumption|]. eapply same_content_trans; eassumption.
Qed.

(** The [// next bucket] step lands in the frame of the next block. *)
Lemma next_bucket_hosted b (hid fh : Z) frames t (block_ind : Z) :
  hosted b hid fh frames t -> 0 <= block_ind < Z.of_nat (length t) ->
  exists b' fb',
    next_bucket L fh block_ind b
    = Done (b', (block_ind + 1) mod Z.of_nat (length t), fb') /\
    same_content b b' /\
    frames !! Z.to_nat ((block_ind + 1) mod Z.of_nat (length t)) = Some fb'.
Proof.
  intros Hhost Hbi.
  destruct (hosted_block_id _ _ _ _ _ _ Hhost Hbi) as (header & fb & Hhim & HN & Hpt & _ & Hfb).
  unfold next_bucket. rewrite (GetData_image _ _ _ Hhim). cbn [bind].
  destruct (UnpinPage_content (Layout.GetBlockPageId L header block_ind) false b)
    as (b1 & Hrun1 & Hsame1).
  { intros f Hf. rewrite Hpt in Hf. inversion Hf; subst. assumption. }
  rewrite Hrun1. cbn [bind].
  pose proof (hosted_same_content _ _ _ _ _ _ Hhost Hsame1) as Hhost1.
  assert (Hnext : 0 <= (block_ind + 1) mod Z.of_nat (length t) < Z.of_nat (length t))
    by (apply Z.mod_pos_bound; lia).
  destruct (hosted_block_id _ _ _ _ _ _ Hhost1 Hnext)
    as (header1 & fb' & Hhim1 & HN1 & Hpt1 & Hfr1 & Hfb1).
  rewrite (GetData_image _ _ _ Hhim1). cbn [bind]. rewrite HN1.
  assert ((Z.of_nat (length t) =? 0) = false) as -> by (apply Z.eqb_neq; lia).
  destruct (FetchPage_hit _ _ _ Hpt1 Hfb1) as (b2 & Hrun2 & Hsame2).
  rewrite Hrun2. cbn [bind].
  exists b2, fb'. split; [reflexivity|]. split; [|assumption].
  eapply same_content_trans; eassumption.
Qed.

(** Fetching the header and the first block page of the probe. *)
Lemma probe_start_hosted b (hid fh : Z) frames t (key : K) :
  hosted b hid fh frames t -> 0 < Z.of_nat (length t) -> cap t < 2 ^ 64 ->
  exists b' fb,
    probe_start hash_fn_ BLOCK_ARRAY_SIZE L hid key b
    = Done (b', fh, Hash.slot_of_key hash_fn_ BLOCK_ARRAY_SIZE t key, fb) /\
    same_content b b' /\
    frames !! Z.to_nat (Hash.slot_of_key hash_fn_ BLOCK_ARRAY_SIZE t key / BLOCK_ARRAY_SIZE)
    = Some fb.
Proof.
  intros Hhost HN Hcap.
  destruct (hosted_header _ _ _ _ _ Hhost) as [Hh Hfh].
  destruct (FetchPage_hit _ _ _ Hh Hfh) as (b1 & Hrun1 & Hsame1).
  unfold probe_start. rewrite Hrun1. cbn [bind].
  pose proof (hosted_same_content _ _ _ _ _ _ Hhost Hsame1) as Hhost1.
  assert (Hcap' : 0 < cap t < 2 ^ 64) by (unfold Hash.capacity, Hash.NumBlocks in *; nia).
  pose proof (HashFacts.slot_of_key_range hash_fn_ BLOCK_ARRAY_SIZE t key Hcap') as Hslot.
  set (h := Hash.slot_of_key hash_fn_ BLOCK_ARRAY_SIZE t key) in *.
  destruct (probe_coordinates BLOCK_ARRAY_SIZE (Hash.NumBlocks t) h) as (Hbi & _ & _);
    [assumption | exact Hslot |].
  unfold Hash.NumBlocks in Hbi.
  destruct (hosted_block_id _ _ _ _ _ _ Hhost1 Hbi) as (header & fb & Hhim & HNb & Hpt & Hfr & Hfb).
  rewrite (GetData_image _ _ _ Hhim). cbn [bind]. rewrite HNb.
  unfold Hash.capacity, Hash.NumBlocks in Hcap'.
  assert ((wrap_size_t (Z.of_nat (length t) * BLOCK_ARRAY_SIZE) =? 0) = false) as ->.
  { rewrite wrap_size_t_small by lia. apply Z.eqb_neq. lia. }
  assert ((BLOCK_ARRAY_SIZE =? 0) = false) as -> by (apply Z.eqb_neq; lia).
  change (wrap_size_t (hash_fn_ key) mod wrap_size_t (Z.of_nat (length t) * BLOCK_ARRAY_SIZE))
    with h.
  destruct (FetchPage_hit _ _ _ Hpt Hfb) as (b2 & Hrun2 & Hsame2).
  rewrite Hrun2. cbn [bind].
  exists b2, fb. split; [reflexivity|]. split; [|assumption].
  eapply same_content_trans; eassumption.
Qed.

(** *** The probe loops *)

Section Probe.
Variables (hid fh : Z) (frames : list Z).

Lemma InternalInsert_loop_refines (key : K) (value : V) (h : Z) (fuel : nat) :
  Layout.key_fits L key -> Layout.value_fits L value ->
  forall b t (block_ind offset fb : Z),
    hosted b hid fh frames t ->
    frames !! Z.to_nat block_ind = Some fb ->
    0 <= block_ind < Z.of_nat (length t) -> 0 <= offset < BLOCK_ARRAY_SIZE ->
    match Hash.InternalInsert_loop comparator_ value_eqb BLOCK_ARRAY_SIZE fuel t key value
            h block_ind offset with
    | Done (t', ok, signalled) =>
      exists b',
        InternalInsert_loop comparator_ value_eqb BLOCK_ARRAY_SIZE L fuel b hid fh fb
          key value h block_ind offset = Done (b', ok, signalled) /\
        hosted b' hid fh frames t' /\ touches_only frames b b'
    | OutOfFuel =>
      InternalInsert_loop comparator_ value_eqb BLOCK_ARRAY_SIZE L fuel b hid fh fb
        key value h block_ind offset = OutOfFuel
    | Undefined => False
    end.
Proof.
  intros Hk Hv.
  induction fuel as [|fuel IH]; intros b t block_ind offset fb Hhost Hfb Hbi Ho;
    [reflexivity|].
  destruct (hosted_frame _ _ _ _ _ _ Hhost Hbi) as (fb' & img & Hfb' & Him & Hlen & _ & _).
  rewrite Hfb in Hfb'. inversion Hfb'; subst fb'. clear Hfb'.
  rewrite HashFacts.InternalInsert_loop_S.
  rewrite (hosted_fetch_slot b hid fh frames t block_ind offset fb img Hhost Hfb Him)
    by lia.
  cbn [InternalInsert_loop]. rewrite (GetData_image _ _ _ Him). cbn [bind].
  unfold Block.Insert.
  destruct (Block.readable_ (Layout.slot_at L img offset)) eqn:Hr.
  2:{ (* the slot is claimed *)
    destruct (hosted_store b hid fh frames t block_ind offset fb img
                {| Block.occupied_ := true; Block.readable_ := true;
                   Block.key_ := key; Block.value_ := value |}
                Hhost Hfb Him) as [Hhost1 Htouch1]; [lia | lia | assumption | assumption |].
    assert (Hbi1 : 0 <= block_ind
                   < Z.of_nat (length (Hash.store_slot t block_ind offset
                        {| Block.occupied_ := true; Block.readable_ := true;
                           Block.key_ := key; Block.value_ := value |}))).
    { destruct Hhost1 as (_ & _ & Hl1 & _). destruct Hhost as (_ & _ & Hl & _).
      rewrite <- Hl1, Hl. assumption. }
    destruct (leave_hosted _ _ _ _ _ _ true Hhost1 Hbi1) as (b2 & Hrun2 & Hsame2).
    rewrite Hrun2. cbn [bind].
    exists b2. split; [reflexivity|]. split.
    - eapply hosted_same_content; eassumption.
    - eapply touches_only_trans; [eassumption | apply same_content_touches; assumption]. }
  destruct (Hash.same_pair comparator_ value_eqb (Layout.slot_at L img offset) key value).
  { destruct (leave_hosted _ _ _ _ _ _ false Hhost Hbi) as (b1 & Hrun1 & Hsame1).
    rewrite Hrun1. cbn [bind]. exists b1. split; [reflexivity|]. split.
    - eapply hosted_same_content; eassumption.
    - apply same_content_touches; assumption. }
  cbv zeta.
  destruct (wrap_size_t (block_ind * BLOCK_ARRAY_SIZE + wrap_size_t (offset + 1)) =? h).
  { destruct (leave_hosted _ _ _ _ _ _ false Hhost Hbi) as (b1 & Hrun1 & Hsame1).
    rewrite Hrun1. cbn [bind]. exists b1. split; [reflexivity|]. split.
    - eapply hosted_same_content; eassumption.
    - apply same_content_touches; assumption. }
  destruct (BLOCK_ARRAY_SIZE <=? wrap_size_t (offset + 1)) eqn:Hwrap.
  - destruct (next_bucket_hosted _ _ _ _ _ _ Hhost Hbi) as (b1 & fb1 & Hrun1 & Hsame1 & Hfb1).
    rewrite Hrun1. cbn [bind].
    pose proof (hosted_same_content _ _ _ _ _ _ Hhost Hsame1) as Hhost1.
    assert (Hnext : 0 <= (block_ind + 1) mod Z.of_nat (length t) < Z.of_nat (length t))
      by (apply Z.mod_pos_bound; lia).
    specialize (IH b1 t _ 0 fb1 Hhost1 Hfb1 Hnext ltac:(lia)).
    unfold Hash.NumBlocks.
    destruct (Hash.InternalInsert_loop _ _ _ _ _ _ _ _ _ _) as [[[t' ok] sg]| |];
      [|assumption|assumption].
    destruct IH as (b' & Hrun & Hhost' & Htouch').
    exists b'. split; [assumption|]. split; [assumption|].
    eapply touches_only_trans; [apply same_content_touches; eassumption | assumption].
  - apply Z.leb_gt in Hwrap.
    assert (Ho' : 0 <= wrap_size_t (offset + 1) < BLOCK_ARRAY_SIZE).
    { split; [|assumption]. unfold wrap_size_t. apply Z.mod_pos_bound. lia. }
    exact (IH b t block_ind _ fb Hhost Hfb Hbi Ho').
Qed.

Lemma GetValue_loop_refines (key : K) (h : Z) (fuel : nat) :
  forall b t (block_ind offset fb : Z) (result : list V),
    hosted b hid fh frames t ->
    frames !! Z.to_nat block_ind = Some fb ->
    0 <= block_ind < Z.of_nat (length t) -> 0 <= offset < BLOCK_ARRAY_SIZE ->
    match Hash.GetValue_loop comparator_ BLOCK_ARRAY_SIZE fuel t key h block_ind offset result with
    | Done result' =>
      exists b',
        GetValue_loop comparator_ BLOCK_ARRAY_SIZE L fuel b fh fb key h block_ind offset result
        = Done (b', result') /\
        same_content b b'
    | OutOfFuel =>
      GetValue_loop comparator_ BLOCK_ARRAY_SIZE L fuel b fh fb key h block_ind offset result
      = OutOfFuel
    | Undefined => False
    end.
Proof.
  induction fuel as [|fuel IH]; intros b t block_ind offset fb result Hhost Hfb Hbi Ho;
    [reflexivity|].
  destruct (hosted_frame _ _ _ _ _ _ Hhost Hbi) as (fb' & img & Hfb' & Him & Hlen & _ & _).
  rewrite Hfb in Hfb'. inversion Hfb'; subst fb'. clear Hfb'.
  rewrite HashFacts.GetValue_loop_S.
  rewrite (hosted_fetch_slot b hid fh frames t block_ind offset fb img Hhost Hfb Him)
    by lia.
  cbn [GetValue_loop]. rewrite (GetData_image _ _ _ Him). cbn [bind].
  destruct (Block.IsOccupied (Layout.slot_at L img offset)).
  2:{ exists b. split; [reflexivity | apply same_content_refl]. }
  cbv zeta.
  destruct (wrap_size_t (block_ind * BLOCK_ARRAY_SIZE + wrap_size_t (offset + 1)) =? h).
  { exists b. split; [reflexivity | apply same_content_refl]. }
  destruct (BLOCK_ARRAY_SIZE <=? wrap_size_t (offset + 1)) eqn:Hwrap.
  - destruct (next_bucket_hosted _ _ _ _ _ _ Hhost Hbi) as (b1 & fb1 & Hrun1 & Hsame1 & Hfb1).
    rewrite Hrun1. cbn [bind].
    pose proof (hosted_same_content _ _ _ _ _ _ Hhost Hsame1) as Hhost1.
    assert (Hnext : 0 <= (block_ind + 1) mod Z.of_nat (length t) < Z.of_nat (length t))
      by (apply Z.mod_pos_bound; lia).
    match goal with
    | |- context [Hash.GetValue_loop _ _ _ _ _ _ _ _ ?acc] =>
      specialize (IH b1 t _ 0 fb1 acc Hhost1 Hfb1 Hnext ltac:(lia))
    end.
    unfold Hash.NumBlocks.
    destruct (Hash.GetValue_loop _ _ _ _ _ _ _ _ _) as [res| |]; [|assumption|assumption].
    destruct IH as (b' & Hrun & Hsame').
    exists b'. split; [assumption|]. eapply same_content_trans; eassumption.
  - apply Z.leb_gt in Hwrap.
    assert (Ho' : 0 <= wrap_size_t (offset + 1) < BLOCK_ARRAY_SIZE).
    { split; [|assumption]. unfold wrap_size_t. apply Z.mod_pos_bound. lia. }
    exact (IH b t block_ind _ fb _ Hhost Hfb Hbi Ho').
Qed.

Lemma Remove_loop_refines (key : K) (value : V) (h : Z) (fuel : nat) :
  forall b t (block_ind offset fb : Z),
    hosted b hid fh frames t ->
    frames !! Z.to_nat block_ind = Some fb ->
    0 <= block_ind < Z.of_nat (length t) -> 0 <= offset < BLOCK_ARRAY_SIZE ->
    match Hash.Remove_loop comparator_ value_eqb BLOCK_ARRAY_SIZE fuel t key value
            h block_ind offset with
    | Done (t', removed) =>
      exists b',
        Remove_loop comparator_ value_eqb BLOCK_ARRAY_SIZE L fuel b hid fh fb
          key value h block_ind offset = Done (b', removed) /\
        hosted b' hid fh frames t' /\ touches_only frames b b'
    | OutOfFuel =>
      Remove_loop comparator_ value_eqb BLOCK_ARRAY_SIZE L fuel b hid fh fb
        key value h block_ind offset = OutOfFuel
    | Undefined => False
    end.
Proof.
  induction fuel as [|fuel IH]; intros b t block_ind offset fb Hhost Hfb Hbi Ho;
    [reflexivity|].
  destruct (hosted_frame _ _ _ _ _ _ Hhost Hbi) as (fb' & img & Hfb' & Him & Hlen & _ & _).
  rewrite Hfb in Hfb'. inversion Hfb'; subst fb'. clear Hfb'.
  rewrite HashFacts.Remove_loop_S.
  rewrite (hosted_fetch_slot b hid fh frames t block_ind offset fb img Hhost Hfb Him)
    by lia.
  cbn [Remove_loop]. rewrite (GetData_image _ _ _ Him). cbn [bind].
  assert (Hstay : exists b1, leave L hid fh block_ind false b = Done b1 /\
                             hosted b1 hid fh frames t /\ touches_only frames b b1).
  { destruct (leave_hosted _ _ _ _ _ _ false Hhost Hbi) as (b1 & Hrun1 & Hsame1).
    exists b1. split; [assumption|]. split.
    - eapply hosted_same_content; eassumption.
    - apply same_content_touches; assumption. }
  destruct (Block.IsOccupied (Layout.slot_at L img offset)).
  2:{ destruct Hstay as (b1 & -> & H1). cbn [bind]. exists b1. split; [reflexivity | exact H1]. }
  destruct (Hash.same_pair comparator_ value_eqb (Layout.slot_at L img offset) key value).
  { destruct (negb (Block.IsReadable (Layout.slot_at L img offset))).
    { destruct Hstay as (b1 & -> & H1). cbn [bind]. exists b1. split; [reflexivity | exact H1]. }
    destruct (Layout.slot_at_fits _ _ _ _ L_lawful img offset) as [Hkf Hvf].
    destruct (hosted_store b hid fh frames t block_ind offset fb img
                (Block.Remove (Layout.slot_at L img offset))
                Hhost Hfb Him) as [Hhost1 Htouch1]; [lia | lia | assumption | assumption |].
    assert (Hbi1 : 0 <= block_ind
                   < Z.of_nat (length (Hash.store_slot t block_ind offset
                        (Block.Remove (Layout.slot_at L img offset))))).
    { destruct Hhost1 as (_ & _ & Hl1 & _). destruct Hhost as (_ & _ & Hl & _).
      rewrite <- Hl1, Hl. assumption. }
    destruct (leave_hosted _ _ _ _ _ _ true Hhost1 Hbi1) as (b2 & Hrun2 & Hsame2).
    rewrite Hrun2. cbn [bind].
    exists b2. split; [reflexivity|]. split.
    - eapply hosted_same_content; eassumption.
    - eapply touches_only_trans; [eassumption | apply same_content_touches; assumption]. }
  cbv zeta.
  destruct (wrap_size_t (block_ind * BLOCK_ARRAY_SIZE + wrap_size_t (offset + 1)) =? h).
  { destruct Hstay as (b1 & -> & H1). cbn [bind]. exists b1. split; [reflexivity | exact H1]. }
  destruct (BLOCK_ARRAY_SIZE <=? wrap_size_t (offset + 1)) eqn:Hwrap.
  - destruct (next_bucket_hosted _ _ _ _ _ _ Hhost Hbi) as (b1 & fb1 & Hrun1 & Hsame1 & Hfb1).
    rewrite Hrun1. cbn [bind].
    pose proof (hosted_same_content _ _ _ _ _ _ Hhost Hsame1) as Hhost1.
    assert (Hnext : 0 <= (block_ind + 1) mod Z.of_nat (length t) < Z.of_nat (length t))
      by (apply Z.mod_pos_bound; lia).
    specialize (IH b1 t _ 0 fb1 Hhost1 Hfb1 Hnext ltac:(lia)).
    unfold Hash.NumBlocks.
    destruct (Hash.Remove_loop _ _ _ _ _ _ _ _ _ _) as [[t' ok]| |];
      [|assumption|assumption].
    destruct IH as (b' & Hrun & Hhost' & Htouch').
    exists b'. split; [assumption|]. split; [assumption|].
    eapply touches_only_trans; [apply same_content_touches; eassumption | assumption].
  - apply Z.leb_gt in Hwrap.
    assert (Ho' : 0 <= wrap_size_t (offset + 1) < BLOCK_ARRAY_SIZE).
    { split; [|assumption]. unfold wrap_size_t. apply Z.mod_pos_bound. lia. }
    exact (IH b t block_ind _ fb Hhost Hfb Hbi Ho').
Qed.

End Probe.


(** *** InternalInsert, GetValue, Remove and GetSize on a hosted table *)

Lemma start_in_range t (key : K) :
  0 < Z.of_nat (length t) -> cap t < 2 ^ 64 ->
  0 <= Hash.slot_of_key hash_fn_ BLOCK_ARRAY_SIZE t key / BLOCK_ARRAY_SIZE
    < Z.of_nat (length t) /\
  0 <= Hash.slot_of_key hash_fn_ BLOCK_ARRAY_SIZE t key mod BLOCK_ARRAY_SIZE
    < BLOCK_ARRAY_SIZE.
Proof.
  intros HN Hcap.
  assert (Hcap' : 0 < cap t < 2 ^ 64) by (unfold Hash.capacity, Hash.NumBlocks in *; nia).
  pose proof (HashFacts.slot_of_key_range hash_fn_ BLOCK_ARRAY_SIZE t key Hcap') as Hslot.
  destruct (probe_coordinates BLOCK_ARRAY_SIZE (Hash.NumBlocks t)
              (Hash.slot_of_key hash_fn_ BLOCK_ARRAY_SIZE t key)) as (Hbi & Ho & _);
    [assumption | exact Hslot |].
  split; assumption.
Qed.

Lemma list_guards t :
  0 < Z.of_nat (length t) -> cap t < 2 ^ 64 ->
  (wrap_size_t (Hash.NumBlocks t * BLOCK_ARRAY_SIZE) =? 0) = false /\
  (BLOCK_ARRAY_SIZE =? 0) = false.
Proof.
  intros HN Hcap. unfold Hash.capacity, Hash.NumBlocks in *. split.
  - rewrite wrap_size_t_small by nia. apply Z.eqb_neq. nia.
  - apply Z.eqb_neq. lia.
Qed.

Lemma InternalInsert_refines b (hid fh : Z) frames t (key : K) (value : V) (fuel : nat) :
  Layout.key_fits L key -> Layout.value_fits L value ->
  hosted b hid fh frames t -> 0 < Z.of_nat (length t) -> cap t < 2 ^ 64 ->
  match Hash.InternalInsert comparator_ value_eqb hash_fn_ BLOCK_ARRAY_SIZE fuel t key value with
  | Done (t', ok, signalled) =>
    exists b',
      InternalInsert comparator_ value_eqb hash_fn_ BLOCK_ARRAY_SIZE L fuel hid key value b
      = Done (b', ok, signalled) /\
      hosted b' hid fh frames t' /\ touches_only frames b b'
  | OutOfFuel =>
    InternalInsert comparator_ value_eqb hash_fn_ BLOCK_ARRAY_SIZE L fuel hid key value b
    = OutOfFuel
  | Undefined => False
  end.
Proof.
  intros Hk Hv Hhost HN Hcap.
  destruct (list_guards t HN Hcap) as [Hg1 Hg2].
  destruct (start_in_range t key HN Hcap) as [Hbi Ho].
  destruct (probe_start_hosted b hid fh frames t key Hhost HN Hcap)
    as (b1 & fb & Hrun1 & Hsame1 & Hfb).
  unfold Hash.InternalInsert, InternalInsert. rewrite Hg1, Hg2, Hrun1. cbn [bind]. cbv zeta.
  pose proof (hosted_same_content _ _ _ _ _ _ Hhost Hsame1) as Hhost1.
  pose proof (InternalInsert_loop_refines hid fh frames key value
                (Hash.slot_of_key hash_fn_ BLOCK_ARRAY_SIZE t key) fuel Hk Hv
                b1 t _ _ fb Hhost1 Hfb Hbi Ho) as Hloop.
  destruct (Hash.InternalInsert_loop _ _ _ _ _ _ _ _ _ _) as [[[t' ok] sg]| |];
    [|assumption|assumption].
  destruct Hloop as (b' & Hrun & Hhost' & Htouch').
  exists b'. split; [assumption|]. split; [assumption|].
  eapply touches_only_trans; [apply same_content_touches; eassumption | assumption].
Qed.

Lemma Remove_refines b (hid fh : Z) frames t (key : K) (value : V) (fuel : nat) :
  hosted b hid fh frames t -> 0 < Z.of_nat (length t) -> cap t < 2 ^ 64 ->
  match Hash.Remove comparator_ value_eqb hash_fn_ BLOCK_ARRAY_SIZE fuel t key value with
  | Done (t', removed) =>
    exists b',
      Remove comparator_ value_eqb hash_fn_ BLOCK_ARRAY_SIZE L fuel hid key value b
      = Done (b', removed) /\
      hosted b' hid fh frames t' /\ touches_only frames b b'
  | OutOfFuel =>
    Remove comparator_ value_eqb hash_fn_ BLOCK_ARRAY_SIZE L fuel hid key value b = OutOfFuel
  | Undefined => False
  end.
Proof.
  intros Hhost HN Hcap.
  destruct (list_guards t HN Hcap) as [Hg1 Hg2].
  destruct (start_in_range t key HN Hcap) as [Hbi Ho].
  destruct (probe_start_hosted b hid fh frames t key Hhost HN Hcap)
    as (b1 & fb & Hrun1 & Hsame1 & Hfb).
  unfold Hash.Remove, Remove. rewrite Hg1, Hg2, Hrun1. cbn [bind]. cbv zeta.
  pose proof (hosted_same_content _ _ _ _ _ _ Hhost Hsame1) as Hhost1.
  pose proof (Remove_loop_refines hid fh frames key value
                (Hash.slot_of_key hash_fn_ BLOCK_ARRAY_SIZE t key) fuel
                b1 t _ _ fb Hhost1 Hfb Hbi Ho) as Hloop.
  destruct (Hash.Remove_loop _ _ _ _ _ _ _ _ _ _) as [[t' ok]| |];
    [|assumption|assumption].
  destruct Hloop as (b' & Hrun & Hhost' & Htouch').
  exists b'. split; [assumption|]. split; [assumption|].
  eapply touches_only_trans; [apply same_content_touches; eassumption | assumption].
Qed.

Lemma GetValue_refines b (hid fh : Z) frames t (key : K) (fuel : nat) :
  hosted b hid fh frames t -> 0 < Z.of_nat (length t) -> cap t < 2 ^ 64 ->
  match Hash.GetValue comparator_ hash_fn_ BLOCK_ARRAY_SIZE fuel t key with
  | Done (found, result) =>
    exists b',
      GetValue comparator_ hash_fn_ BLOCK_ARRAY_SIZE L fuel hid key b
      = Done (b', found, result) /\
      same_content b b'
  | OutOfFuel =>
    GetValue comparator_ hash_fn_ BLOCK_ARRAY_SIZE L fuel hid key b = OutOfFuel
  | Undefined => False
  end.
Proof.
  intros Hhost HN Hcap.
  destruct (list_guards t HN Hcap) as [Hg1 Hg2].
  destruct (start_in_range t key HN Hcap) as [Hbi Ho].
  destruct (probe_start_hosted b hid fh frames t key Hhost HN Hcap)
    as (b1 & fb & Hrun1 & Hsame1 & Hfb).
  unfold Hash.GetValue, GetValue. rewrite Hg1, Hg2, Hrun1. cbn [bind]. cbv zeta.
  pose proof (hosted_same_content _ _ _ _ _ _ Hhost Hsame1) as Hhost1.
  pose proof (GetValue_loop_refines hid fh frames key
                (Hash.slot_of_key hash_fn_ BLOCK_ARRAY_SIZE t key) fuel
                b1 t _ _ fb [] Hhost1 Hfb Hbi Ho) as Hloop.
  destruct (Hash.GetValue_loop _ _ _ _ _ _ _ _ _) as [res| |];
    [|rewrite Hloop; reflexivity|assumption].
  destruct Hloop as (b' & Hrun & Hsame').
  rewrite Hrun. cbn [bind].
  exists b'. split; [reflexivity|]. eapply same_content_trans; eassumption.
Qed.

Lemma GetSize_hosted b (hid fh : Z) frames t :
  hosted b hid fh frames t ->
  exists b',
    GetSize BLOCK_ARRAY_SIZE L hid b = Done (b', Hash.GetSize BLOCK_ARRAY_SIZE t) /\
    same_content b b'.
Proof.
  intros Hhost.
  destruct (hosted_header _ _ _ _ _ Hhost) as [Hh Hfh].
  destruct (FetchPage_hit _ _ _ Hh Hfh) as (b1 & Hrun1 & Hsame1).
  unfold GetSize. rewrite Hrun1. cbn [bind].
  pose proof (hosted_same_content _ _ _ _ _ _ Hhost Hsame1) as Hhost1.
  pose proof Hhost1 as (_ & (header & Hhim & HN & _) & _).
  rewrite (GetData_image _ _ _ Hhim). cbn [bind].
  destruct (hosted_header _ _ _ _ _ Hhost1) as [Hh1 Hfh1].
  destruct (UnpinPage_content hid false b1) as (b2 & Hrun2 & Hsame2).
  { intros f Hf. rewrite Hh1 in Hf. inversion Hf; subst. assumption. }
  rewrite Hrun2. cbn [bind]. rewrite HN.
  exists b2. split; [reflexivity|]. eapply same_content_trans; eassumption.
Qed.

(** *** Resize: building the new table *)

(** A pool that keeps the page-table entries of the table's frames and
    the images of those frames hosts the same table. *)
Lemma hosted_agree b b' (hid fh : Z) frames t :
  hosted b hid fh frames t ->
  (forall p f, page_table_ b !! p = Some f -> f ∈ fh :: frames ->
     page_table_ b' !! p = Some f) ->
  (forall g, g ∈ fh :: frames -> image_at g b' = image_at g b) ->
  hosted b' hid fh frames t.
Proof.
  intros (Hh & (header & Him & HN & Hids) & Hlen & Hnd & Hblocks) Hpt Himg.
  split; [apply Hpt; [assumption | apply elem_of_cons; left; reflexivity]|].
  split.
  { exists header. rewrite Himg by (apply elem_of_cons; left; reflexivity).
    split; [assumption|]. split; [assumption|].
    intros i f Hf. apply Hpt; [apply Hids; assumption|].
    apply elem_of_cons. right. eapply list_elem_of_lookup_2. exact Hf. }
  split; [assumption|]. split; [assumption|].
  intros i f Hf. destruct (Hblocks i f Hf) as (img & Hi & Hl & Ht).
  exists img. rewrite Himg; [split; [assumption|]; split; assumption|].
  apply elem_of_cons. right. eapply list_elem_of_lookup_2. exact Hf.
Qed.

Lemma fresh_ids_lt b (p f : Z) :
  fresh_ids b -> page_table_ b !! p = Some f ->
  p < Disk.next_page_id_ (disk_manager_ b).
Proof.
  intros [_ Hfresh] Hp.
  destruct (Z_lt_le_dec p (Disk.next_page_id_ (disk_manager_ b))) as [|Hge]; [assumption|].
  rewrite (Hfresh p Hge) in Hp. discriminate.
Qed.

Local Abbreviation empty_block := (Hash.empty_block BLOCK_ARRAY_SIZE zero_key zero_value).

(** One more block page for the table under construction: [NewPage]
    takes the frame [f] from the free list, the header records the page
    id, the page is unpinned. *)
Lemma add_block_step b (new_hid fnh : Z) (nh : Disk.image) (k : nat)
    (frames : list Z) (f : Z) (tail : list Z) (size : Z) :
  hosted b new_hid fnh frames (replicate k empty_block) ->
  image_at fnh b = Some nh -> length nh = Disk.PAGE_SIZE ->
  Layout.GetSize L nh = size -> Z.of_nat k < size <= Layout.max_blocks L ->
  free_list_ b = f :: tail ->
  f ∉ fnh :: frames -> image_at f b = Some Disk.zero_image ->
  fresh_ids b -> Disk.next_page_id_ (disk_manager_ b) < 2 ^ 31 ->
  exists b' nh',
    (forall fuel,
       add_blocks L (S fuel) fnh b = add_blocks L fuel fnh b') /\
    hosted b' new_hid fnh (frames ++ [f]) (replicate (S k) empty_block) /\
    image_at fnh b' = Some nh' /\ length nh' = Disk.PAGE_SIZE /\
    Layout.GetSize L nh' = size /\
    free_list_ b' = tail /\
    (forall g, g <> fnh -> image_at g b' = image_at g b) /\
    (forall p g, page_table_ b !! p = Some g -> page_table_ b' !! p = Some g) /\
    fresh_ids b' /\
    Disk.next_page_id_ (disk_manager_ b') = Disk.next_page_id_ (disk_manager_ b) + 1.
Proof.
  intros Hhost Hnh Hlen Hsize Hk Hfl Hf Hzero Hids Hnext.
  pose proof Hhost as (Hh & (header & Him & HN & Hbids) & Hfr & Hnd & Hblocks).
  rewrite Hnh in Him. inversion Him; subst header. clear Him.
  rewrite length_replicate in HN, Hfr.
  set (next := Disk.next_page_id_ (disk_manager_ b)) in *.
  assert (Hf_fnh : f <> fnh).
  { intros ->. apply Hf. apply elem_of_cons. left. reflexivity. }
  destruct (NewPage_free b f tail Hfl) as (b1 & Hrun1 & Hpt1 & Him1 & Hfl1 & Hnext1);
    [rewrite Hzero; eexists; reflexivity|].
  fold next in Hrun1, Hpt1, Hnext1.
  assert (Hinv : (next =? INVALID_PAGE_ID) = false).
  { apply Z.eqb_neq. destruct Hids as [H0 _]. fold next in H0. unfold INVALID_PAGE_ID. lia. }
  destruct (Layout.AddBlockPageId_spec _ _ _ _ L_lawful nh next Hlen)
    as (HaN & HaS & Ha_new & Ha_old & Ha_len).
  { lia. }
  { destruct Hids as [H0 _]. fold next in H0. unfold Layout.int32. lia. }
  set (nh' := Layout.AddBlockPageId L next nh) in *.
  destruct (SetData_touches fnh nh' b1) as (Hs_new & Hs_pt & Hs_other & Hs_fl & Hs_d);
    [rewrite Him1, Hnh; eexists; reflexivity|].
  set (b2 := SetData fnh nh' b1) in *.
  destruct (UnpinPage_content next false b2) as (b3 & Hrun3 & Hpt3 & Him3 & Hfl3 & Hd3).
  { intros g Hg. rewrite Hs_pt, Hpt1, lookup_insert_eq in Hg. inversion Hg; subst g.
    rewrite Hs_other, Him1, Hzero by assumption. eexists. reflexivity. }
  assert (Hfresh_p : forall p g, page_table_ b !! p = Some g -> p <> next).
  { intros p g Hp. pose proof (fresh_ids_lt b p g Hids Hp). fold next in H. lia. }
  assert (Hkeep : forall p g, page_table_ b !! p = Some g -> page_table_ b3 !! p = Some g).
  { intros p g Hp. rewrite Hpt3, Hs_pt, Hpt1.
    rewrite lookup_insert_ne by (apply not_eq_sym; eapply Hfresh_p; exact Hp). assumption. }
  assert (Himg : forall g, g <> fnh -> image_at g b3 = image_at g b).
  { intros g Hg. rewrite Him3, Hs_other, Him1 by assumption. reflexivity. }
  exists b3, nh'. split.
  { intros fuel. cbn [add_blocks].
    rewrite (GetData_image _ _ _ Hnh). cbn [bind].
    rewrite HN, Hsize.
    assert ((Z.of_nat k <? size) = true) as -> by (apply Z.ltb_lt; lia).
    rewrite Hrun1. cbn [bind]. rewrite Hinv.
    rewrite (GetData_image fnh b1 nh) by (rewrite Him1; assumption). cbn [bind].
    fold nh'. fold b2. rewrite Hrun3. cbn [bind]. reflexivity. }
  split.
  { split; [apply Hkeep; assumption|]. split.
    { exists nh'. rewrite Him3. split; [assumption|].
      split; [rewrite HaN, HN, length_replicate; lia|].
      intros i g Hg.
      destruct (decide (i < length frames)%nat) as [Hi|Hi].
      - rewrite lookup_app_l in Hg by assumption.
        rewrite Ha_old by lia. apply Hkeep. apply Hbids. assumption.
      - assert (i = length frames).
        { apply lookup_lt_Some in Hg. rewrite length_app in Hg. simpl in Hg. lia. }
        subst i. rewrite lookup_app_r, Nat.sub_diag in Hg by lia.
        inversion Hg; subst g. rewrite Hfr, <- HN. rewrite Ha_new.
        rewrite Hpt3, Hs_pt, Hpt1. apply lookup_insert_eq. }
    split; [rewrite length_app, !length_replicate; simpl; lia|].
    split.
    { apply NoDup_cons in Hnd. destruct Hnd as [Hfnh Hnd].
      apply NoDup_cons. split.
      - intros Hin. apply elem_of_app in Hin. destruct Hin as [Hin|Hin]; [contradiction|].
        apply list_elem_of_singleton in Hin. congruence.
      - apply NoDup_app. split; [assumption|]. split; [|apply NoDup_singleton].
        intros g Hg Hg'. apply list_elem_of_singleton in Hg'. subst g.
        apply Hf. apply elem_of_cons. right. assumption. }
    intros i g Hg.
    destruct (decide (i < length frames)%nat) as [Hi|Hi].
    - rewrite lookup_app_l in Hg by assumption.
      destruct (Hblocks i g Hg) as (img & Hi1 & Hl1 & Ht1).
      exists img. split.
      + rewrite Himg; [assumption|]. intros ->.
        apply NoDup_cons in Hnd. destruct Hnd as [Hfnh _]. apply Hfnh.
        eapply list_elem_of_lookup_2. exact Hg.
      + split; [assumption|].
        apply lookup_replicate in Ht1. destruct Ht1 as [<- _].
        apply lookup_replicate_2. lia.
    - assert (i = length frames).
      { apply lookup_lt_Some in Hg. rewrite length_app in Hg. simpl in Hg. lia. }
      subst i. rewrite lookup_app_r, Nat.sub_diag in Hg by lia.
      inversion Hg; subst g.
      exists Disk.zero_image. split; [rewrite Himg; assumption|].
      split; [apply length_replicate|].
      rewrite block_of_zero. apply lookup_replicate_2. lia. }
  split; [rewrite Him3; assumption|]. split; [rewrite Ha_len; assumption|].
  split; [rewrite HaS; assumption|].
  split; [rewrite Hfl3, Hs_fl; assumption|].
  split; [assumption|]. split; [assumption|].
  split.
  { destruct Hids as [H0 Hnone]. unfold fresh_ids. rewrite Hd3, Hs_d, Hnext1.
    split; [fold next in H0; lia|].
    intros p Hp. rewrite Hpt3, Hs_pt, Hpt1.
    rewrite lookup_insert_ne by lia. apply Hnone. fold next. lia. }
  rewrite Hd3, Hs_d. assumption.
Qed.

(** The loop that allocates the block pages of a table, with the frames
    [todo] at the head of the free list: it returns, the table is hosted
    with all its blocks empty, and the rest of the pool is as before. *)
Lemma add_blocks_builds (new_hid fnh : Z) (size : Z) (rest : list Z) :
  size <= Layout.max_blocks L ->
  forall (todo done : list Z) b (nh : Disk.image) (fuel : nat),
    hosted b new_hid fnh done (replicate (length done) empty_block) ->
    image_at fnh b = Some nh -> length nh = Disk.PAGE_SIZE ->
    Layout.GetSize L nh = size ->
    Z.of_nat (length done + length todo) = size ->
    free_list_ b = todo ++ rest ->
    NoDup todo ->
    (forall g, g ∈ todo -> (g ∉ fnh :: done) /\ image_at g b = Some Disk.zero_image) ->
    fresh_ids b ->
    Disk.next_page_id_ (disk_manager_ b) + Z.of_nat (length todo) <= 2 ^ 31 ->
    (length todo < fuel)%nat ->
    exists b',
      add_blocks L fuel fnh b = Done b' /\
      hosted b' new_hid fnh (done ++ todo)
        (Hash.new BLOCK_ARRAY_SIZE zero_key zero_value (length (done ++ todo))) /\
      free_list_ b' = rest /\
      (forall g, g <> fnh -> image_at g b' = image_at g b) /\
      (forall p g, page_table_ b !! p = Some g -> page_table_ b' !! p = Some g) /\
      fresh_ids b' /\
      Disk.next_page_id_ (disk_manager_ b')
      = Disk.next_page_id_ (disk_manager_ b) + Z.of_nat (length todo).
Proof.
  intros Hmax.
  induction todo as [|f todo IH];
    intros done b nh fuel Hnew Hnh Hlen Hsize Hcount Hfl Hnd Htodo Hids Hnext Hfuel.
  - destruct fuel as [|fuel]; [simpl in Hfuel; lia|].
    exists b. cbn [add_blocks]. rewrite (GetData_image _ _ _ Hnh). cbn [bind].
    pose proof Hnew as (_ & (header & Him & HN & _) & _).
    rewrite Hnh in Him. inversion Him; subst header.
    rewrite length_replicate in HN. rewrite HN, Hsize.
    simpl in Hcount. rewrite Nat.add_0_r in Hcount.
    assert ((Z.of_nat (length done) <? size) = false) as -> by (apply Z.ltb_ge; lia).
    rewrite app_nil_r. split; [reflexivity|]. split; [exact Hnew|].
    split; [assumption|]. split; [reflexivity|]. split; [intros p g Hp; exact Hp|].
    split; [assumption|]. simpl. lia.
  - destruct fuel as [|fuel]; [simpl in Hfuel; lia|].
    simpl in Hfuel, Hcount, Hnext.
    destruct (Htodo f ltac:(apply elem_of_cons; left; reflexivity)) as [Hf Hzero].
    destruct (add_block_step b new_hid fnh nh (length done) done f (todo ++ rest) size
                Hnew Hnh Hlen Hsize ltac:(lia) Hfl Hf Hzero Hids ltac:(lia))
      as (b1 & nh1 & Hstep & Hnew1 & Hnh1 & Hlen1 & Hsize1 & Hfl1 & Himg1 & Hkeep1 & Hids1 & Hnext1).
    apply NoDup_cons in Hnd. destruct Hnd as [Hf_todo Hnd].
    destruct (IH (done ++ [f]) b1 nh1 fuel)
      as (b' & Hrun & Hnew' & Hfl' & Himg' & Hkeep' & Hids' & Hnext').
    + rewrite length_app. simpl. rewrite Nat.add_1_r. exact Hnew1.
    + assumption.
    + assumption.
    + assumption.
    + rewrite length_app. simpl. lia.
    + assumption.
    + assumption.
    + intros g Hg. destruct (Htodo g ltac:(apply elem_of_cons; right; assumption)) as [Hg1 Hg2].
      split.
      * intros Hin. apply elem_of_cons in Hin. destruct Hin as [->|Hin].
        { apply Hg1. apply elem_of_cons. left. reflexivity. }
        apply elem_of_app in Hin. destruct Hin as [Hin|Hin].
        { apply Hg1. apply elem_of_cons. right. assumption. }
        apply list_elem_of_singleton in Hin. subst g. contradiction.
      * rewrite Himg1; [assumption|]. intros ->.
        apply Hg1. apply elem_of_cons. left. reflexivity.
    + assumption.
    + lia.
    + lia.
    + exists b'. rewrite Hstep. split; [assumption|].
      rewrite <- app_assoc in Hnew'. simpl in Hnew'. split; [assumption|].
      split; [assumption|]. split.
      { intros g Hg. rewrite Himg' by assumption. apply Himg1. assumption. }
      split; [intros p g Hp; apply Hkeep', Hkeep1; assumption|].
      split; [assumption|]. simpl. lia.
Qed.

(** *** Resize: moving the pairs *)

Section Moving.
Variables (hid foh : Z) (old_frames : list Z) (oh : Disk.image) (t : Hash.table K V).
Variables (new_hid fnh : Z) (new_frames : list Z).
Hypothesis old_length : length old_frames = length t.
Hypothesis old_blocks : Layout.NumBlocks L oh = Z.of_nat (length t).
Hypothesis old_distinct : NoDup (foh :: old_frames).
Hypothesis old_new_apart : forall g, g ∈ foh :: old_frames -> g ∉ fnh :: new_frames.
Hypothesis new_blocks : (0 < length new_frames)%nat.
Hypothesis new_capacity : Z.of_nat (length new_frames) * BLOCK_ARRAY_SIZE < 2 ^ 64.

Local Abbreviation moving := (moving BLOCK_ARRAY_SIZE L).

Lemma old_frame_not_new (j : nat) (f : Z) :
  old_frames !! j = Some f -> f ∉ fnh :: new_frames.
Proof.
  intros Hf. apply old_new_apart. apply elem_of_cons. right.
  eapply list_elem_of_lookup_2. exact Hf.
Qed.

Lemma moving_touches b b' (i : nat) new_t new_t' :
  moving b hid foh old_frames oh t i new_hid fnh new_frames new_t ->
  hosted b' new_hid fnh new_frames new_t' ->
  touches_only new_frames b b' ->
  moving b' hid foh old_frames oh t i new_hid fnh new_frames new_t'.
Proof.
  intros (_ & Hoh & Hhid & Hblocks) Hnew' (Hpt & Himg & _ & _).
  assert (Hout : forall g, g ∈ foh :: old_frames -> image_at g b' = image_at g b).
  { intros g Hg. apply Himg. intros Hin. apply (old_new_apart g Hg).
    apply elem_of_cons. right. assumption. }
  split; [assumption|].
  split; [rewrite Hout by (apply elem_of_cons; left; reflexivity); assumption|].
  split; [rewrite Hpt; assumption|].
  intros j f Hj Hf. destruct (Hblocks j f Hj Hf) as (Hp & img & Him & Ht).
  split; [rewrite Hpt; assumption|].
  exists img. split; [|assumption].
  rewrite Hout; [assumption|]. apply elem_of_cons. right.
  eapply list_elem_of_lookup_2. exact Hf.
Qed.

Lemma moving_same_content b b' (i : nat) new_t :
  moving b hid foh old_frames oh t i new_hid fnh new_frames new_t ->
  same_content b b' ->
  moving b' hid foh old_frames oh t i new_hid fnh new_frames new_t.
Proof.
  intros Hmov Hsame. apply (moving_touches b b' i new_t new_t Hmov).
  - destruct Hmov as (Hnew & _). eapply hosted_same_content; eassumption.
  - apply same_content_touches. assumption.
Qed.

Lemma moving_new_size b (i : nat) new_t :
  moving b hid foh old_frames oh t i new_hid fnh new_frames new_t ->
  0 < Z.of_nat (length new_t) /\ cap new_t < 2 ^ 64.
Proof.
  intros ((_ & _ & Hlen & _) & _). unfold Hash.capacity, Hash.NumBlocks.
  rewrite <- Hlen. split; [lia | assumption].
Qed.

(** The inner loop of [Resize] over one old block page. *)
Lemma move_slots_runs (fuel i : nat) (fb : Z) (bucket : Hash.block K V) :
  old_frames !! i = Some fb -> t !! i = Some bucket ->
  forall (offsets : list nat) b new_t new_t',
    Forall (fun offset : nat => Z.of_nat offset < BLOCK_ARRAY_SIZE) offsets ->
    moving b hid foh old_frames oh t i new_hid fnh new_frames new_t ->
    Hash.move_slots comparator_ value_eqb hash_fn_ BLOCK_ARRAY_SIZE fuel bucket offsets new_t
    = Done new_t' ->
    exists b',
      move_slots comparator_ value_eqb hash_fn_ BLOCK_ARRAY_SIZE L fuel fb new_hid offsets b
      = Done b' /\
      moving b' hid foh old_frames oh t i new_hid fnh new_frames new_t'.
Proof.
  intros Hfb Hbucket.
  induction offsets as [|offset offsets IH]; intros b new_t new_t' Hoff Hmov Hrun.
  - inversion Hrun; subst. exists b. split; [reflexivity | assumption].
  - apply Forall_cons in Hoff. destruct Hoff as [Ho Hoff].
    pose proof Hmov as (Hnew & _ & _ & Hblocks).
    destruct (Hblocks i fb (le_n i) Hfb) as (_ & img & Him & Ht).
    rewrite Hbucket in Ht. inversion Ht; subst bucket. clear Ht.
    cbn [Hash.move_slots] in Hrun.
    replace offset with (Z.to_nat (Z.of_nat offset)) in Hrun at 1 by lia.
    rewrite block_of_lookup in Hrun by lia.
    cbn [move_slots]. rewrite (GetData_image _ _ _ Him). cbn [bind].
    destruct (Block.IsReadable (Layout.slot_at L img (Z.of_nat offset))).
    2:{ apply (IH b new_t new_t' Hoff Hmov Hrun). }
    destruct (moving_new_size _ _ _ Hmov) as [HN Hcap].
    destruct (Layout.slot_at_fits _ _ _ _ L_lawful img (Z.of_nat offset)) as [Hkf Hvf].
    pose proof (InternalInsert_refines b new_hid fnh new_frames new_t
                  (Block.KeyAt (Layout.slot_at L img (Z.of_nat offset)))
                  (Block.ValueAt (Layout.slot_at L img (Z.of_nat offset)))
                  fuel Hkf Hvf Hnew HN Hcap) as Href.
    destruct (Hash.InternalInsert _ _ _ _ _ _ _ _) as [[[t1 ok] sg]| |]; try discriminate.
    destruct Href as (b1 & Hrun1 & Hnew1 & Htouch1).
    rewrite Hrun1. cbn [bind fst].
    apply (IH b1 t1 new_t' Hoff); [|exact Hrun].
    apply (moving_touches b b1 i new_t t1 Hmov Hnew1 Htouch1).
Qed.

(** After [DeletePage] of old block page [i] the blocks behind it can
    still be read. *)
Lemma moving_delete b (i : nat) (fb : Z) new_t :
  moving b hid foh old_frames oh t i new_hid fnh new_frames new_t ->
  old_frames !! i = Some fb ->
  exists b',
    DeletePage (Layout.GetBlockPageId L oh (Z.of_nat i)) b = Done b' /\
    moving b' hid foh old_frames oh t (S i) new_hid fnh new_frames new_t.
Proof.
  intros (Hnew & Hoh & Hhid & Hblocks) Hfb.
  destruct (Hblocks i fb (le_n i) Hfb) as (Hp & img & Him & _).
  destruct (DeletePage_effect _ _ b Hp) as (b' & Hrun & Hpt & Himg & _ & _);
    [rewrite Him; eexists; reflexivity|].
  exists b'. split; [assumption|].
  pose proof (old_frame_not_new i fb Hfb) as Hfb_new.
  assert (Hfb_foh : fb <> foh).
  { apply NoDup_cons in old_distinct. destruct old_distinct as [Hnin _].
    intros ->. apply Hnin. eapply list_elem_of_lookup_2. exact Hfb. }
  split.
  { apply (hosted_agree b b'); [assumption | |].
    - intros p g Hpg Hg. rewrite Hpt; [assumption|].
      intros ->. rewrite Hp in Hpg. inversion Hpg; subst g. contradiction.
    - intros g Hg. apply Himg. intros ->. contradiction. }
  split; [rewrite Himg by congruence; assumption|].
  split.
  { rewrite Hpt; [assumption|]. intros E. rewrite E, Hp in Hhid.
    inversion Hhid. contradiction. }
  intros j f Hj Hf. destruct (Hblocks j f ltac:(lia) Hf) as (Hpj & imgj & Himj & Htj).
  assert (Hne : f <> fb).
  { intros ->. apply NoDup_cons in old_distinct. destruct old_distinct as [_ Hnd].
    pose proof (NoDup_lookup _ _ _ _ Hnd Hf Hfb). lia. }
  split.
  - rewrite Hpt; [assumption|]. intros E. rewrite E, Hp in Hpj.
    inversion Hpj. congruence.
  - exists imgj. split; [|assumption]. rewrite Himg by assumption. assumption.
Qed.

(** The outer loop of [Resize] over the old block pages. *)
Lemma move_blocks_runs (inner : nat) :
  forall (n i : nat) (fuel : nat) b new_t new_t',
    (i + n)%nat = length t -> (n < fuel)%nat ->
    moving b hid foh old_frames oh t i new_hid fnh new_frames new_t ->
    Hash.move_blocks comparator_ value_eqb hash_fn_ BLOCK_ARRAY_SIZE inner (drop i t) new_t
    = Done new_t' ->
    exists b',
      move_blocks comparator_ value_eqb hash_fn_ BLOCK_ARRAY_SIZE L fuel inner
        foh new_hid (Z.of_nat i) b = Done b' /\
      moving b' hid foh old_frames oh t (length t) new_hid fnh new_frames new_t'.
Proof.
  induction n as [|n IH]; intros i fuel b new_t new_t' Hin Hfuel Hmov Hrun.
  - destruct fuel as [|fuel]; [lia|].
    assert (i = length t) by lia. subst i.
    rewrite drop_all in Hrun. inversion Hrun; subst new_t'.
    exists b. split; [|assumption].
    cbn [move_blocks]. destruct Hmov as (_ & Hoh & _).
    rewrite (GetData_image _ _ _ Hoh). cbn [bind]. rewrite old_blocks.
    rewrite Z.ltb_irrefl. reflexivity.
  - destruct fuel as [|fuel]; [lia|].
    destruct (lookup_lt_is_Some_2 t i) as [bucket Hbucket]; [lia|].
    destruct (lookup_lt_is_Some_2 old_frames i) as [fb Hfb]; [lia|].
    rewrite (drop_S _ _ _ Hbucket) in Hrun. cbn [Hash.move_blocks] in Hrun.
    destruct (Hash.move_slots _ _ _ _ _ _ _ _) as [t1| |] eqn:Hslots; try discriminate.
    pose proof Hmov as (_ & Hoh & _ & Hblocks).
    destruct (Hblocks i fb (le_n i) Hfb) as (Hp & img & Him & _).
    cbn [move_blocks]. rewrite (GetData_image _ _ _ Hoh). cbn [bind]. rewrite old_blocks.
    assert ((Z.of_nat i <? Z.of_nat (length t)) = true) as -> by (apply Z.ltb_lt; lia).
    destruct (FetchPage_hit _ _ b Hp) as (b1 & Hrun1 & Hsame1);
      [rewrite Him; eexists; reflexivity|].
    rewrite Hrun1. cbn [bind].
    pose proof (moving_same_content _ _ _ _ Hmov Hsame1) as Hmov1.
    destruct (move_slots_runs inner i fb bucket Hfb Hbucket
                (seq 0 (Z.to_nat BLOCK_ARRAY_SIZE)) b1 new_t t1) as (b2 & Hrun2 & Hmov2).
    { apply Forall_forall. intros o Ho. apply elem_of_seq in Ho. lia. }
    { assumption. }
    { assumption. }
    rewrite Hrun2. cbn [bind].
    pose proof Hmov2 as (_ & _ & _ & Hblocks2).
    destruct (Hblocks2 i fb (le_n i) Hfb) as (Hp2 & img2 & Him2 & _).
    destruct (UnpinPage_content (Layout.GetBlockPageId L oh (Z.of_nat i)) false b2)
      as (b3 & Hrun3 & Hsame3).
    { intros g Hg. rewrite Hp2 in Hg. inversion Hg; subst g.
      rewrite Him2. eexists. reflexivity. }
    rewrite Hrun3. cbn [bind].
    pose proof (moving_same_content _ _ _ _ Hmov2 Hsame3) as Hmov3.
    destruct (moving_delete b3 i fb t1 Hmov3 Hfb) as (b4 & Hrun4 & Hmov4).
    rewrite Hrun4. cbn [bind].
    replace (Z.of_nat i + 1) with (Z.of_nat (S i)) by lia.
    apply (IH (S i) fuel b4 t1 new_t'); [lia | lia | assumption | assumption].
Qed.

End Moving.

(** *** Resize on a hosted table with room in the free list *)

Lemma Resize_size t :
  0 < Z.of_nat (length t) -> 2 * cap t < 2 ^ 64 ->
  wrap_size_t
    (wrap_size_t (2 * Hash.GetSize BLOCK_ARRAY_SIZE t) / BLOCK_ARRAY_SIZE
     + (if 0 <? wrap_size_t (2 * Hash.GetSize BLOCK_ARRAY_SIZE t) mod BLOCK_ARRAY_SIZE
        then 1 else 0))
  = 2 * Z.of_nat (length t).
Proof.
  intros HN Hcap. unfold Hash.GetSize, Hash.capacity, Hash.NumBlocks in *.
  rewrite (wrap_size_t_small (Z.of_nat (length t) * BLOCK_ARRAY_SIZE)) by nia.
  rewrite (wrap_size_t_small (2 * (Z.of_nat (length t) * BLOCK_ARRAY_SIZE))) by nia.
  rewrite Z.mul_assoc. rewrite Z.div_mul, Z.mod_mul by lia. cbn [Z.ltb Z.compare].
  rewrite Z.add_0_r. apply wrap_size_t_small. nia.
Qed.

Lemma fresh_same_content b b' (used : list Z) :
  same_content b b' -> fresh_frames b used -> fresh_ids b ->
  fresh_frames b' used /\ fresh_ids b'.
Proof.
  intros (Hpt & Him & Hfl & Hd) [Hnd Hfree] [H0 Hnone]. split.
  - split; [rewrite Hfl; assumption|].
    intros f Hf. rewrite Hfl in Hf. rewrite Him. apply Hfree. assumption.
  - unfold fresh_ids. rewrite Hd, Hpt. split; assumption.
Qed.

(** The header page and the block pages of a table of [size] blocks,
    taken from a free list with room for them. *)
Lemma allocate_builds b (size : Z) (fuel : nat) (used : list Z) :
  fresh_frames b used -> fresh_ids b ->
  0 <= size <= Layout.max_blocks L ->
  size + 1 <= Z.of_nat (length (free_list_ b)) ->
  Disk.next_page_id_ (disk_manager_ b) + (size + 1) <= 2 ^ 31 ->
  (Z.to_nat size < fuel)%nat ->
  exists b' fnh todo rest,
    allocate L fuel size b = Done (b', Disk.next_page_id_ (disk_manager_ b), fnh) /\
    free_list_ b = fnh :: todo ++ rest /\ Z.of_nat (length todo) = size /\
    hosted b' (Disk.next_page_id_ (disk_manager_ b)) fnh todo
      (Hash.new BLOCK_ARRAY_SIZE zero_key zero_value (length todo)) /\
    free_list_ b' = rest /\
    (forall g, g <> fnh -> image_at g b' = image_at g b) /\
    (forall p g, page_table_ b !! p = Some g -> page_table_ b' !! p = Some g) /\
    fresh_ids b' /\
    Disk.next_page_id_ (disk_manager_ b') = Disk.next_page_id_ (disk_manager_ b) + size + 1.
Proof.
  intros [Hfl_nd Hfl] Hids Hsize Hroom Hnext Hfuel.
  set (next := Disk.next_page_id_ (disk_manager_ b)) in *.
  destruct (free_list_ b) as [|fnh fl] eqn:Hfree; [simpl in Hroom; lia|].
  simpl in Hroom.
  set (n := Z.to_nat size).
  set (todo := take n fl). set (rest := drop n fl).
  assert (Htodo_len : length todo = n) by (unfold todo; rewrite length_take; lia).
  pose proof (take_drop n fl) as Hsplit. fold todo rest in Hsplit.
  apply NoDup_cons in Hfl_nd. destruct Hfl_nd as [Hfnh_fl Hfl_nd].
  assert (Htodo_in : forall g, g ∈ todo -> g ∈ fl).
  { intros g Hg. rewrite <- Hsplit. apply elem_of_app. left. assumption. }
  destruct (Hfl fnh ltac:(apply elem_of_cons; left; reflexivity)) as [_ Hfnh_zero].
  destruct (NewPage_free b fnh fl Hfree) as (b2 & Hrun2 & Hpt2 & Him2 & Hfl2 & Hnext2);
    [rewrite Hfnh_zero; eexists; reflexivity|].
  fold next in Hrun2, Hpt2, Hnext2.
  assert (Hinv : (next =? INVALID_PAGE_ID) = false).
  { apply Z.eqb_neq. destruct Hids as [H0 _]. fold next in H0. unfold INVALID_PAGE_ID. lia. }
  assert (Hzero_len : length Disk.zero_image = Disk.PAGE_SIZE) by apply length_replicate.
  destruct (Layout.SetSize_spec _ _ _ _ L_lawful Disk.zero_image size Hzero_len Hsize)
    as (Hs1 & Hs2 & Hs3).
  set (nh1 := Layout.SetSize L size Disk.zero_image) in *.
  destruct (Layout.SetPageId_spec _ _ _ _ L_lawful nh1 next) as (Hp1 & Hp2 & Hp3);
    [rewrite Hs3; assumption|].
  set (nh := Layout.SetPageId L next nh1) in *.
  assert (Hz2 : image_at fnh b2 = Some Disk.zero_image) by (rewrite Him2; assumption).
  destruct (SetData_touches fnh nh1 b2) as (Ha_new & Ha_pt & Ha_other & Ha_fl & Ha_d);
    [rewrite Hz2; eexists; reflexivity|].
  set (b3 := SetData fnh nh1 b2) in *.
  destruct (SetData_touches fnh nh b3) as (Hb_new & Hb_pt & Hb_other & Hb_fl & Hb_d);
    [rewrite Ha_new; eexists; reflexivity|].
  set (b4 := SetData fnh nh b3) in *.
  assert (Himg4 : forall g, g <> fnh -> image_at g b4 = image_at g b).
  { intros g Hg. rewrite Hb_other, Ha_other, Him2 by assumption. reflexivity. }
  assert (Hpt4 : page_table_ b4 = <[next := fnh]> (page_table_ b)).
  { rewrite Hb_pt, Ha_pt, Hpt2. reflexivity. }
  assert (Hkeep4 : forall p g, page_table_ b !! p = Some g -> page_table_ b4 !! p = Some g).
  { intros p g Hp. rewrite Hpt4. rewrite lookup_insert_ne; [assumption|].
    pose proof (fresh_ids_lt b p g Hids Hp). fold next in H. lia. }
  destruct (add_blocks_builds next fnh size rest ltac:(lia)
              todo [] b4 nh fuel)
    as (b5 & Hrun5 & Hnew5 & Hfl5 & Himg5 & Hkeep5 & Hids5 & Hnext5).
  { split; [rewrite Hpt4; apply lookup_insert_eq|]. split.
    { exists nh. split; [assumption|].
      split; [rewrite Hp2, Hs2; apply (Layout.NumBlocks_zero _ _ _ _ L_lawful)|].
      intros i g Hg. discriminate. }
    split; [reflexivity|]. split; [apply NoDup_singleton|].
    intros i g Hg. discriminate. }
  { assumption. }
  { rewrite Hp3, Hs3. assumption. }
  { rewrite Hp1. assumption. }
  { simpl. rewrite Htodo_len. lia. }
  { rewrite Hb_fl, Ha_fl, Hfl2. symmetry. assumption. }
  { rewrite <- Hsplit in Hfl_nd. apply NoDup_app in Hfl_nd. apply Hfl_nd. }
  { intros g Hg. pose proof (Htodo_in g Hg) as Hgfl.
    assert (g <> fnh) by (intros ->; contradiction).
    split.
    - intros Hin. apply elem_of_cons in Hin. destruct Hin as [Hin|Hin]; [contradiction|].
      apply elem_of_nil in Hin. assumption.
    - rewrite Himg4 by assumption.
      apply (Hfl g). apply elem_of_cons. right. assumption. }
  { destruct Hids as [H0 Hnone]. unfold fresh_ids. rewrite Hb_d, Ha_d, Hnext2.
    fold next in H0. split; [lia|].
    intros p Hp. rewrite Hpt4, lookup_insert_ne by lia. apply Hnone. fold next. lia. }
  { rewrite Hb_d, Ha_d, Hnext2, Htodo_len. lia. }
  { rewrite Htodo_len. lia. }
  simpl app in Hnew5.
  exists b5, fnh, todo, rest. split.
  { unfold allocate. destruct fuel as [|fuel0]; [lia|].
    cbn [NewPage_until_valid]. rewrite Hrun2. cbn [bind]. rewrite Hinv. cbn [bind].
    rewrite (GetData_image _ _ _ Hz2). cbn [bind]. fold nh1. fold b3.
    rewrite (GetData_image _ _ _ Ha_new). cbn [bind]. fold nh. fold b4.
    rewrite Hrun5. cbn [bind]. reflexivity. }
  split; [rewrite Hsplit; reflexivity|]. split; [lia|]. split; [assumption|].
  split; [assumption|]. split.
  { intros g Hg. rewrite Himg5 by assumption. apply Himg4. assumption. }
  split; [intros p g Hp; apply Hkeep5, Hkeep4; assumption|].
  split; [assumption|].
  rewrite Hnext5, Hb_d, Ha_d, Hnext2, Htodo_len. lia.
Qed.

Theorem Resize_refines b (hid : Z) t t' (fuel : nat) :
  hosts_with_room BLOCK_ARRAY_SIZE L b hid t (2 * Z.of_nat (length t) + 1) ->
  0 < Z.of_nat (length t) -> 2 * cap t < 2 ^ 64 ->
  2 * Z.of_nat (length t) <= Layout.max_blocks L ->
  (2 * length t < fuel)%nat ->
  Hash.Resize comparator_ value_eqb hash_fn_ BLOCK_ARRAY_SIZE zero_key zero_value
    fuel (Hash.GetSize BLOCK_ARRAY_SIZE t) t = Done t' ->
  exists b',
    Resize comparator_ value_eqb hash_fn_ BLOCK_ARRAY_SIZE L fuel
      (Hash.GetSize BLOCK_ARRAY_SIZE t) hid b
    = Done (b', Disk.next_page_id_ (disk_manager_ b)) /\
    hosts BLOCK_ARRAY_SIZE L b' (Disk.next_page_id_ (disk_manager_ b)) t'.
Proof.
  intros (foh & old_frames & Hold & Hfresh & Hids & Hroom & Hnext) HN Hcap Hmax Hfuel Hrun.
  set (next := Disk.next_page_id_ (disk_manager_ b)) in *.
  set (N := length t) in *.
  (* the list-level run *)
  unfold Hash.Resize in Hrun.
  assert (HB : (BLOCK_ARRAY_SIZE =? 0) = false) by (apply Z.eqb_neq; lia).
  rewrite HB in Hrun. cbv zeta in Hrun. rewrite (Resize_size t HN Hcap) in Hrun.
  fold N in Hrun.
  (* fetch the original header *)
  destruct (hosted_header _ _ _ _ _ Hold) as [Hh Hfoh].
  destruct (FetchPage_hit _ _ _ Hh Hfoh) as (b1 & Hrun1 & Hsame1).
  destruct (fresh_same_content b b1 _ Hsame1 Hfresh Hids) as [Hfresh1 Hids1].
  pose proof (hosted_same_content _ _ _ _ _ _ Hold Hsame1) as Hold1.
  destruct Hsame1 as (Hpt1 & Him1 & Hfl1 & Hd1).
  (* the new table *)
  destruct (allocate_builds b1 (2 * Z.of_nat N) fuel (foh :: old_frames) Hfresh1 Hids1)
    as (b5 & fnh & todo & rest & Hrun5 & Hfl_split & Htodo_len & Hnew5 & _ & Himg5 & Hkeep5 & _ & _).
  { lia. }
  { rewrite Hfl1. lia. }
  { rewrite Hd1. fold next. lia. }
  { lia. }
  rewrite Hd1 in Hrun5, Hnew5. fold next in Hrun5, Hnew5.
  assert (Htodo_len' : length todo = (2 * N)%nat) by lia.
  rewrite Htodo_len' in Hnew5.
  destruct Hfresh1 as [_ Hfl].
  assert (Hfnh_old : fnh ∉ foh :: old_frames).
  { apply (Hfl fnh). rewrite Hfl_split. apply elem_of_cons. left. reflexivity. }
  assert (Hold5 : hosted b5 hid foh old_frames t).
  { apply (hosted_agree b1 b5); [assumption | |].
    - intros p g Hp _. apply Hkeep5. assumption.
    - intros g Hg. apply Himg5. intros ->. contradiction. }
  (* the pairs are moved *)
  pose proof Hold5 as (Hh5 & (oh & Hoh5 & HNoh & Hoids5) & Hlen_old & Hnd_old & Hblocks5).
  assert (Hapart : forall g, g ∈ foh :: old_frames -> g ∉ fnh :: todo).
  { intros g Hg Hin. apply elem_of_cons in Hin. destruct Hin as [->|Hin]; [contradiction|].
    destruct (Hfl g) as [Hno _]; [|contradiction].
    rewrite Hfl_split. apply elem_of_cons. right. apply elem_of_app. left. assumption. }
  assert (Hmov5 : moving BLOCK_ARRAY_SIZE L b5 hid foh old_frames oh t 0 next fnh todo
                    (Hash.new BLOCK_ARRAY_SIZE zero_key zero_value (2 * N))).
  { split; [assumption|]. split; [assumption|]. split; [assumption|].
    intros j f _ Hf. split; [apply Hoids5; assumption|].
    destruct (Hblocks5 j f Hf) as (img & Hi & _ & Ht). exists img. split; assumption. }
  replace (Z.to_nat (2 * Z.of_nat N)) with (2 * N)%nat in Hrun by lia.
  destruct (move_blocks_runs hid foh old_frames oh t next fnh todo
              Hlen_old HNoh Hnd_old Hapart ltac:(lia)
              ltac:(rewrite Htodo_len'; unfold Hash.capacity, Hash.NumBlocks in Hcap; fold N in Hcap; nia)
              fuel N 0%nat fuel b5 _ t' ltac:(reflexivity) ltac:(lia) Hmov5 Hrun)
    as (b6 & Hrun6 & Hmov6).
  change (Z.of_nat 0) with 0 in Hrun6.
  (* the original header page is given up *)
  destruct Hmov6 as (Hnew6 & Hoh6 & Hhid6 & _).
  destruct (UnpinPage_content hid false b6) as (b7 & Hrun7 & Hsame7).
  { intros g Hg. rewrite Hhid6 in Hg. inversion Hg; subst g. rewrite Hoh6. eexists. reflexivity. }
  pose proof (hosted_same_content _ _ _ _ _ _ Hnew6 Hsame7) as Hnew7.
  destruct Hsame7 as (Hpt7 & Him7 & _ & _).
  destruct (DeletePage_effect hid foh b7) as (b8 & Hrun8 & Hpt8 & Himg8 & _ & _);
    [rewrite Hpt7; assumption | rewrite Him7, Hoh6; eexists; reflexivity |].
  assert (Hfoh_new : foh ∉ fnh :: todo).
  { apply Hapart. apply elem_of_cons. left. reflexivity. }
  assert (Hnew8 : hosted b8 next fnh todo t').
  { apply (hosted_agree b7 b8); [assumption | |].
    - intros p g Hp Hg. rewrite Hpt8; [assumption|].
      intros ->. rewrite Hpt7, Hhid6 in Hp. inversion Hp; subst g. contradiction.
    - intros g Hg. apply Himg8. intros ->. contradiction. }
  destruct (hosted_header _ _ _ _ _ Hnew8) as [Hh8 Hfnh8].
  destruct (UnpinPage_content next false b8) as (b9 & Hrun9 & Hsame9).
  { intros g Hg. rewrite Hh8 in Hg. inversion Hg; subst g. assumption. }
  exists b9. split.
  - unfold Resize. rewrite HB. cbv zeta. rewrite Hrun1. cbn [bind].
    rewrite (Resize_size t HN Hcap). fold N.
    rewrite Hrun5. cbn [bind]. rewrite Hrun6. cbn [bind].
    rewrite Hrun7. cbn [bind]. rewrite Hrun8. cbn [bind]. rewrite Hrun9. cbn [bind].
    reflexivity.
  - exists fnh, todo. eapply hosted_same_content; eassumption.
Qed.

End Hosted.
End HostingFacts.

(** ** The hash table on a pool with room *)

Module PagedFacts.
Import Pool Paged Hosting HostingFacts.

Lemma Pool_new_page_at (pool_size : nat) (disk : Disk.DiskManager) (i : nat) :
  (i < pool_size)%nat ->
  page_at (Z.of_nat i) (Pool.new pool_size disk) = Some new_Page.
Proof.
  intros Hi. unfold page_at.
  assert ((Z.of_nat i <? 0) = false) as -> by (apply Z.ltb_ge; lia).
  rewrite Nat2Z.id. cbn [pages_ Pool.new]. apply lookup_replicate_2. assumption.
Qed.

(** A pool fresh from its constructor, over a disk that has handed out
    no page id yet: every frame is in the free list, zeroed. *)
Lemma Pool_new_fresh (pool_size : nat) :
  Z.of_nat pool_size <= 2 ^ 31 ->
  fresh_frames (Pool.new pool_size Disk.new) [] /\
  fresh_ids (Pool.new pool_size Disk.new) /\
  length (free_list_ (Pool.new pool_size Disk.new)) = pool_size.
Proof.
  intros Hsize.
  assert (Hfl : free_list_ (Pool.new pool_size Disk.new)
                = (fun i : nat => Z.of_nat i) <$> seq 0 pool_size).
  { cbn [free_list_ Pool.new]. apply list_eq. intros i. rewrite !list_lookup_fmap.
    destruct (seq 0 pool_size !! i) as [x|] eqn:Hx; [|reflexivity].
    apply lookup_seq in Hx. destruct Hx as [-> Hi]. cbn [fmap option_fmap option_map].
    f_equal. apply to_int32_small. lia. }
  split; [|split].
  - split.
    + rewrite Hfl. apply NoDup_fmap_2; [intros x y; lia | apply NoDup_seq].
    + intros f Hf. rewrite Hfl in Hf. apply list_elem_of_fmap in Hf.
      destruct Hf as (i & -> & Hi). apply elem_of_seq in Hi.
      split; [apply not_elem_of_nil|].
      unfold image_at. rewrite Pool_new_page_at by lia. reflexivity.
  - split; [cbn; lia|]. intros page_id _. cbn. apply lookup_empty.
  - rewrite Hfl, length_fmap, length_seq. reflexivity.
Qed.

Section Facts.
Context {K V : Type}.
Variable comparator_ : K -> K -> Z.
Variable value_eqb : V -> V -> bool.
Variable hash_fn_ : K -> Z.
Variable BLOCK_ARRAY_SIZE : Z.
Variable L : Layout.PageLayout K V.
Variables (zero_key : K) (zero_value : V).
Hypothesis BLOCK_ARRAY_SIZE_pos : 0 < BLOCK_ARRAY_SIZE.
Hypothesis L_lawful : Layout.lawful BLOCK_ARRAY_SIZE zero_key zero_value L.

Local Abbreviation hosted := (hosted BLOCK_ARRAY_SIZE L).
Local Abbreviation hosts := (hosts BLOCK_ARRAY_SIZE L).
Local Abbreviation hosts_with_room := (hosts_with_room BLOCK_ARRAY_SIZE L).
Local Abbreviation cap := (Hash.capacity BLOCK_ARRAY_SIZE).

(** The table a pool hosts is the one read out of it. *)
Lemma hosts_contents b (hid : Z) t :
  hosts b hid t -> contents BLOCK_ARRAY_SIZE L b hid = Some t.
Proof.
  intros (fh & frames & Hh & (header & Him & HN & Hids) & Hlen & Hnd & Hblocks).
  unfold contents. rewrite Hh. cbn [mbind option_bind]. rewrite Him. cbn [mbind option_bind].
  apply mapM_Some. apply Forall2_same_length_lookup_2.
  { rewrite length_seq, HN. lia. }
  intros i x bucket Hx Hb. apply lookup_seq in Hx. destruct Hx as [-> Hi]. cbn [Nat.add].
  destruct (lookup_lt_is_Some_2 frames i) as [f Hf].
  { rewrite Hlen. apply lookup_lt_Some in Hb. assumption. }
  rewrite (Hids i f Hf). cbn [mbind option_bind].
  destruct (Hblocks i f Hf) as (img & Hi' & _ & Ht).
  rewrite Hi'. cbn [fmap option_fmap option_map]. rewrite Ht in Hb. exact Hb.
Qed.

Lemma hosts_functional b (hid : Z) t t' : hosts b hid t -> hosts b hid t' -> t = t'.
Proof.
  intros H H'. apply hosts_contents in H, H'. rewrite H in H'. inversion H'. reflexivity.
Qed.

Lemma room_touches b b' (fh : Z) frames (n : Z) :
  touches_only frames b b' ->
  fresh_frames b (fh :: frames) -> fresh_ids b ->
  n <= Z.of_nat (length (free_list_ b)) ->
  Disk.next_page_id_ (disk_manager_ b) + n <= 2 ^ 31 ->
  fresh_frames b' (fh :: frames) /\ fresh_ids b' /\
  n <= Z.of_nat (length (free_list_ b')) /\
  Disk.next_page_id_ (disk_manager_ b') + n <= 2 ^ 31.
Proof.
  intros (Hpt & Him & Hfl & Hd) [Hnd Hfree] [H0 Hnone] Hn Hnext.
  split; [|split; [|split]].
  - split; [rewrite Hfl; assumption|].
    intros f Hf. rewrite Hfl in Hf. destruct (Hfree f Hf) as [Hno Hz].
    split; [assumption|]. rewrite Him; [assumption|].
    intros Hin. apply Hno. apply elem_of_cons. right. assumption.
  - unfold fresh_ids. rewrite Hd, Hpt. split; assumption.
  - rewrite Hfl. assumption.
  - rewrite Hd. assumption.
Qed.

Lemma room_same_content b b' (hid : Z) t (n : Z) :
  same_content b b' -> hosts_with_room b hid t n -> hosts_with_room b' hid t n.
Proof.
  intros Hsame (fh & frames & Hh & Hfresh & Hids & Hn & Hnext).
  exists fh, frames. split; [eapply hosted_same_content; eassumption|].
  apply (room_touches b b' fh frames n); try assumption.
  apply same_content_touches. assumption.
Qed.

Lemma room_hosts b (hid : Z) t (n : Z) : hosts_with_room b hid t n -> hosts b hid t.
Proof. intros (fh & frames & Hh & _). exists fh, frames. assumption. Qed.

(** [Resize(GetSize())] on a hosted table with room is [Resize] on the
    list of its blocks. *)
Lemma GetSize_Resize_hosted b (hid : Z) (t t' : Hash.table K V) (fuel : nat) :
  hosts_with_room b hid t (2 * Hash.NumBlocks t + 1) ->
  0 < Hash.NumBlocks t -> 2 * cap t < 2 ^ 64 ->
  2 * Hash.NumBlocks t <= Layout.max_blocks L ->
  (2 * length t < fuel)%nat ->
  Hash.Resize comparator_ value_eqb hash_fn_ BLOCK_ARRAY_SIZE zero_key zero_value
    fuel (Hash.GetSize BLOCK_ARRAY_SIZE t) t = Done t' ->
  exists b1 b2,
    Paged.GetSize BLOCK_ARRAY_SIZE L hid b = Done (b1, Hash.GetSize BLOCK_ARRAY_SIZE t) /\
    Paged.Resize comparator_ value_eqb hash_fn_ BLOCK_ARRAY_SIZE L fuel
      (Hash.GetSize BLOCK_ARRAY_SIZE t) hid b1
    = Done (b2, Disk.next_page_id_ (disk_manager_ b)) /\
    hosts b2 (Disk.next_page_id_ (disk_manager_ b)) t'.
Proof.
  intros Hroom HN Hcap Hmax Hfuel Hlist.
  pose proof Hroom as (fh & frames & Hh & _).
  destruct (GetSize_hosted BLOCK_ARRAY_SIZE L b hid fh frames t Hh) as (b1 & Hrun1 & Hsame1).
  pose proof (room_same_content b b1 hid t _ Hsame1 Hroom) as Hroom1.
  destruct (Resize_refines comparator_ value_eqb hash_fn_ BLOCK_ARRAY_SIZE L
              zero_key zero_value BLOCK_ARRAY_SIZE_pos L_lawful
              b1 hid t t' fuel Hroom1 HN Hcap Hmax Hfuel Hlist) as (b2 & Hrun2 & Hh2).
  destruct Hsame1 as (_ & _ & _ & Hd). rewrite Hd in Hrun2, Hh2.
  exists b1, b2. split; [assumption|]. split; assumption.
Qed.

Lemma fuel_for_blocks (t : Hash.table K V) (fuel : nat) :
  (Z.to_nat (2 * cap t) < fuel)%nat -> (2 * length t < fuel)%nat.
Proof. unfold Hash.capacity, Hash.NumBlocks. nia. Qed.

End Facts.
End PagedFacts.

(** ** The scenario states *)

Module PagedScenarioFacts.
Import Pool Paged Hosting HostingFacts PagedFacts PagedScenario.

Lemma block_fits_2 : Layout.block_fits 2.
Proof. split; [lia|]. vm_compute. discriminate. Qed.

Lemma block_fits_4 : Layout.block_fits 4.
Proof. split; [lia|]. vm_compute. discriminate. Qed.

Ltac by_decide :=
  match goal with |- ?P => apply (@bool_decide_unpack P _); vm_compute; exact I end.

(** A scenario state of one block page on the pool of eight frames: the
    header page is page 0 in frame 0, the block page is page 1 in frame
    1, and frames 2 to 7 are in the free list. *)
Ltac one_block_hosted st :=
  exists 0, [1];
  assert (Hfl : free_list_ (pool_of st) = [2; 3; 4; 5; 6; 7]) by (vm_compute; reflexivity);
  assert (Hpt : page_table_ (pool_of st) = <[0 := 0]> (<[1 := 1]> ∅))
    by (vm_compute; reflexivity);
  assert (Hn : Disk.next_page_id_ (disk_manager_ (pool_of st)) = 2)
    by (vm_compute; reflexivity);
  split; [|split; [|split; [|split]]];
  [ split; [vm_compute; reflexivity|]; split;
    [ eexists; split; [vm_compute; reflexivity|]; split; [vm_compute; reflexivity|];
      let i := fresh "i" in let f := fresh "f" in let Hf := fresh "Hf" in
      intros i f Hf; destruct i as [|i]; [|discriminate Hf];
      inversion Hf; subst; vm_compute; reflexivity
    | split; [reflexivity|]; split; [by_decide|];
      let i := fresh "i" in let f := fresh "f" in let Hf := fresh "Hf" in
      intros i f Hf; destruct i as [|i]; [|discriminate Hf];
      inversion Hf; subst; eexists; split; [vm_compute; reflexivity|];
      split; vm_compute; reflexivity ]
  | split; [rewrite Hfl; by_decide|];
    let f := fresh "f" in let Hf := fresh "Hf" in
    intros f Hf; rewrite Hfl in Hf;
    repeat (apply elem_of_cons in Hf; destruct Hf as [->|Hf]);
    try (split; [by_decide | vm_compute; reflexivity]);
    apply elem_of_nil in Hf; contradiction
  | split; [rewrite Hn; lia|];
    let p := fresh "p" in let Hp := fresh "Hp" in
    intros p Hp; rewrite Hn in Hp; rewrite Hpt;
    rewrite !lookup_insert_ne by lia; apply lookup_empty
  | rewrite Hfl; cbn; lia
  | rewrite Hn; lia ].

Lemma full2_hosted :
  hosts_with_room 2 (Layout.IntLayout 2) (pool_of full2) (header_of full2) Scenario.full2 3.
Proof. one_block_hosted full2. Qed.

Lemma one_pair_hosted :
  hosts_with_room 4 (Layout.IntLayout 4) (pool_of one_pair) (header_of one_pair)
    [[Scenario.fresh; Scenario.live 1 10; Scenario.fresh; Scenario.fresh]] 3.
Proof. one_block_hosted one_pair. Qed.

Lemma twice_hosted :
  hosts_with_room 4 (Layout.IntLayout 4) (pool_of twice) (header_of twice) Scenario.twice 3.
Proof. one_block_hosted twice. Qed.

End PagedScenarioFacts.

(** ** Resize on the pool *)

Module PagedClaims.
Import Pool Paged Hosting HostingFacts PagedFacts PagedScenario.

Section Claims.
Context {K V : Type}.
Variable comparator_ : K -> K -> Z.
Variable value_eqb : V -> V -> bool.
Variable hash_fn_ : K -> Z.
Variable BLOCK_ARRAY_SIZE : Z.
Variable L : Layout.PageLayout K V.
Variables (zero_key : K) (zero_value : V).
Hypothesis BLOCK_ARRAY_SIZE_pos : 0 < BLOCK_ARRAY_SIZE.
Hypothesis L_lawful : Layout.lawful BLOCK_ARRAY_SIZE zero_key zero_value L.
Hypothesis comparator_sound : forall a b : K, comparator_ a b = 0 -> a = b.
Hypothesis value_eqb_sound : forall a b : V, value_eqb a b = true -> a = b.

Local Abbreviation hosts := (hosts BLOCK_ARRAY_SIZE L).
Local Abbreviation hosts_with_room := (hosts_with_room BLOCK_ARRAY_SIZE L).
Local Abbreviation cap := (Hash.capacity BLOCK_ARRAY_SIZE).

Implicit Types (b : BufferPoolManager) (t : Hash.table K V).


End Claims.



End PagedClaims.

(** ** Further properties of the hash table on the pool *)

Module PagedMore.
Import Pool Paged Hosting HostingFacts PagedFacts PagedScenario.

Section More.
Context {K V : Type}.
Variable comparator_ : K -> K -> Z.
Variable value_eqb : V -> V -> bool.
Variable hash_fn_ : K -> Z.
Variable BLOCK_ARRAY_SIZE : Z.
Variable L : Layout.PageLayout K V.
Variables (zero_key : K) (zero_value : V).
Hypothesis BLOCK_ARRAY_SIZE_pos : 0 < BLOCK_ARRAY_SIZE.
Hypothesis L_lawful : Layout.lawful BLOCK_ARRAY_SIZE zero_key zero_value L.
Hypothesis comparator_sound : forall a b : K, comparator_ a b = 0 -> a = b.
Hypothesis value_eqb_sound : forall a b : V, value_eqb a b = true -> a = b.

Local Abbreviation hosts := (hosts BLOCK_ARRAY_SIZE L).
Local Abbreviation hosts_with_room := (hosts_with_room BLOCK_ARRAY_SIZE L).
Local Abbreviation cap := (Hash.capacity BLOCK_ARRAY_SIZE).

Implicit Types (b : BufferPoolManager) (t : Hash.table K V).


(** X15: [Remove] on a table the pool hosts (each page of the table in
    the page table, in a frame of its own): the pool hosts a table
    afterwards, under the same header page, with as many block pages;
    when [Remove] returns false it is the same table, and when it returns
    true exactly one copy of the pair has left the readable slots. *)
Theorem paged_Remove_takes_one_pair b (hid : Z) t (key : K) (value : V) (fuel : nat)
    b' (removed : bool) :
  hosts b hid t -> 0 < Hash.NumBlocks t -> cap t < 2 ^ 64 ->
  Paged.Remove comparator_ value_eqb hash_fn_ BLOCK_ARRAY_SIZE L fuel hid key value b
    = Done (b', removed) ->
  exists t',
    hosts b' hid t' /\
    Hash.NumBlocks t' = Hash.NumBlocks t /\
    (removed = false -> t' = t) /\
    (removed = true -> Hash.readable_pairs t ≡ₚ (key, value) :: Hash.readable_pairs t').
Proof.
  intros (fh & frames & Hh) HN Hcap Hrun.
  pose proof (Remove_refines comparator_ value_eqb hash_fn_ BLOCK_ARRAY_SIZE L
                zero_key zero_value BLOCK_ARRAY_SIZE_pos L_lawful
                b hid fh frames t key value fuel Hh HN Hcap) as Href.
  destruct (Hash.Remove comparator_ value_eqb hash_fn_ BLOCK_ARRAY_SIZE fuel t key value)
    as [[t' r]| |] eqn:Hlist.
  - destruct Href as (b'' & Hrun' & Hh' & _).
    rewrite Hrun' in Hrun. inversion Hrun; subst b'' r.
    exists t'. split; [exists fh, frames; assumption|].
    apply (HashMore.Remove_takes_one_pair comparator_ value_eqb hash_fn_ BLOCK_ARRAY_SIZE
             comparator_sound value_eqb_sound fuel t key value t' removed Hlist).
  - rewrite Href in Hrun. discriminate.
  - contradiction.
Qed.

(** X16: [Insert] of a pair that is not stored, into a table the pool
    hosts and that has a slot which is not readable: it returns true
    without resizing, the header page stays, and the pool hosts a table of
    as many block pages whose live contents are the old ones and the new
    pair. *)
Theorem paged_Insert_adds_new_pair b (hid : Z) t (key : K) (value : V) (fuel : nat) :
  hosts b hid t ->
  Layout.key_fits L key -> Layout.value_fits L value ->
  0 < Hash.NumBlocks t -> cap t < 2 ^ 64 ->
  Z.of_nat (length (Hash.readable_pairs t)) < cap t ->
  (key, value) ∉ Hash.readable_pairs t ->
  (Z.to_nat (cap t) <= fuel)%nat ->
  exists b' t',
    Paged.Insert comparator_ value_eqb hash_fn_ BLOCK_ARRAY_SIZE L fuel hid key value b
      = Done (b', hid, true) /\
    hosts b' hid t' /\
    Hash.NumBlocks t' = Hash.NumBlocks t /\
    Hash.readable_pairs t' ≡ₚ (key, value) :: Hash.readable_pairs t.
Proof.
  intros (fh & frames & Hh) Hk Hv HN Hcap Hfree Hnew Hfuel.
  pose proof (hosted_well_formed BLOCK_ARRAY_SIZE L BLOCK_ARRAY_SIZE_pos _ _ _ _ _ Hh) as Hwf.
  destruct (HashFacts.InternalInsert_free_slot comparator_ value_eqb hash_fn_ BLOCK_ARRAY_SIZE
              BLOCK_ARRAY_SIZE_pos comparator_sound value_eqb_sound t key value
              Hwf HN Hcap Hfree)
    as (t' & ok & Hlist & [(-> & _ & HN' & Hperm) | (_ & _ & Hin)]); [|contradiction].
  pose proof (InternalInsert_refines comparator_ value_eqb hash_fn_ BLOCK_ARRAY_SIZE L
                zero_key zero_value BLOCK_ARRAY_SIZE_pos L_lawful
                b hid fh frames t key value fuel Hk Hv Hh HN Hcap) as Href.
  rewrite (Hlist fuel Hfuel) in Href. destruct Href as (b' & Hrun & Hh' & _).
  exists b', t'. split.
  { unfold Insert. destruct fuel as [|fuel0].
    - unfold Hash.capacity in *. lia.
    - cbn [Insert_loop]. rewrite Hrun. reflexivity. }
  split; [exists fh, frames; assumption|]. split; assumption.
Qed.



(** X20 (insert, then look up): on a hosted table in which every
    readable slot is occupied and at least two slots were never written,
    [Insert(key, value)] returns without resizing, and [GetValue(key)]
    then returns true with [value] among the values found. *)
Theorem paged_Insert_then_GetValue b (hid : Z) t (key : K) (value : V) (q1 q2 : Z)
    (s1 s2 : Block.slot K V) (fuel : nat) :
  (forall a : K, comparator_ a a = 0) ->
  hosts b hid t ->
  Layout.key_fits L key -> Layout.value_fits L value ->
  0 < Hash.NumBlocks t -> cap t < 2 ^ 64 ->
  Forall (Forall (fun s => Block.readable_ s = true -> Block.occupied_ s = true)) t ->
  0 <= q1 < cap t -> 0 <= q2 < cap t -> q1 <> q2 ->
  Hash.fetch_slot t (q1 / BLOCK_ARRAY_SIZE) (q1 mod BLOCK_ARRAY_SIZE) = Some s1 ->
  Block.occupied_ s1 = false ->
  Hash.fetch_slot t (q2 / BLOCK_ARRAY_SIZE) (q2 mod BLOCK_ARRAY_SIZE) = Some s2 ->
  Block.occupied_ s2 = false ->
  (Z.to_nat (cap t) < fuel)%nat ->
  exists b1 (ok : bool) b2 (res : list V),
    Paged.Insert comparator_ value_eqb hash_fn_ BLOCK_ARRAY_SIZE L fuel hid key value b
      = Done (b1, hid, ok) /\
    Paged.GetValue comparator_ hash_fn_ BLOCK_ARRAY_SIZE L fuel hid key b1
      = Done (b2, true, res) /\
    value ∈ res.
Proof.
  intros Hrefl (fh & frames & Hh) Hk Hv HN Hcap Hok Hq1 Hq2 Hne Hs1 Hocc1 Hs2 Hocc2 Hfuel.
  pose proof (hosted_well_formed BLOCK_ARRAY_SIZE L BLOCK_ARRAY_SIZE_pos _ _ _ _ _ Hh) as Hwf.
  destruct (HashMore.InternalInsert_then_GetValue comparator_ value_eqb hash_fn_
              BLOCK_ARRAY_SIZE BLOCK_ARRAY_SIZE_pos value_eqb_sound Hrefl
              t key value q1 q2 s1 s2 fuel Hwf HN Hcap Hok Hq1 Hq2 Hne Hs1 Hocc1 Hs2 Hocc2 Hfuel)
    as (t' & ok & res & Hlist1 & HN' & Hlist2 & Hin).
  pose proof (InternalInsert_refines comparator_ value_eqb hash_fn_ BLOCK_ARRAY_SIZE L
                zero_key zero_value BLOCK_ARRAY_SIZE_pos L_lawful
                b hid fh frames t key value fuel Hk Hv Hh HN Hcap) as Href1.
  rewrite Hlist1 in Href1. destruct Href1 as (b1 & Hrun1 & Hh1 & _).
  assert (Hcap' : cap t' < 2 ^ 64).
  { unfold Hash.capacity in *. rewrite HN'. assumption. }
  pose proof (GetValue_refines comparator_ hash_fn_ BLOCK_ARRAY_SIZE L
                BLOCK_ARRAY_SIZE_pos
                b1 hid fh frames t' key fuel Hh1
                ltac:(unfold Hash.NumBlocks in *; lia) Hcap') as Href2.
  rewrite Hlist2 in Href2. destruct Href2 as (b2 & Hrun2 & _).
  exists b1, ok, b2, res. split.
  { unfold Insert. destruct fuel as [|fuel0]; [lia|].
    cbn [Insert_loop]. rewrite Hrun1. cbn [bind]. destruct ok; reflexivity. }
  split; assumption.
Qed.

(** X25: the calls that allocate no page keep the room.  On a hosted
    table with [n] zeroed frames in the free list, when [InternalInsert],
    [Remove] or [GetValue] returns, the pool hosts a table under the same
    header page (for [GetValue] the same table) and the free list still
    holds its [n] zeroed frames. *)
Theorem probes_keep_the_room b (hid : Z) t (n : Z) (key : K) (value : V) (fuel : nat) :
  hosts_with_room b hid t n ->
  Layout.key_fits L key -> Layout.value_fits L value ->
  0 < Hash.NumBlocks t -> cap t < 2 ^ 64 ->
  (forall b' ok signalled,
     Paged.InternalInsert comparator_ value_eqb hash_fn_ BLOCK_ARRAY_SIZE L fuel hid key value b
       = Done (b', ok, signalled) ->
     exists t', hosts_with_room b' hid t' n /\ Hash.NumBlocks t' = Hash.NumBlocks t) /\
  (forall b' removed,
     Paged.Remove comparator_ value_eqb hash_fn_ BLOCK_ARRAY_SIZE L fuel hid key value b
       = Done (b', removed) ->
     exists t', hosts_with_room b' hid t' n /\ Hash.NumBlocks t' = Hash.NumBlocks t) /\
  (forall b' found result,
     Paged.GetValue comparator_ hash_fn_ BLOCK_ARRAY_SIZE L fuel hid key b
       = Done (b', found, result) ->
     hosts_with_room b' hid t n).
Proof.
  intros (fh & frames & Hh & Hfresh & Hids & Hn & Hnext) Hk Hv HN Hcap.
  split; [|split].
  - intros b' ok signalled Hrun.
    pose proof (InternalInsert_refines comparator_ value_eqb hash_fn_ BLOCK_ARRAY_SIZE L
                  zero_key zero_value BLOCK_ARRAY_SIZE_pos L_lawful
                  b hid fh frames t key value fuel Hk Hv Hh HN Hcap) as Href.
    destruct (Hash.InternalInsert comparator_ value_eqb hash_fn_ BLOCK_ARRAY_SIZE fuel t key value)
      as [[[t' ok'] signalled']| |] eqn:Hlist.
    + destruct Href as (b'' & Hrun' & Hh' & Htouch).
      rewrite Hrun' in Hrun. inversion Hrun; subst b'' ok' signalled'.
      exists t'. split.
      * exists fh, frames. split; [assumption|].
        apply (room_touches b b' fh frames n Htouch); assumption.
      * pose proof Hh as (_ & _ & Hlen & _). pose proof Hh' as (_ & _ & Hlen' & _).
        unfold Hash.NumBlocks. rewrite <- Hlen, <- Hlen'. reflexivity.
    + rewrite Href in Hrun. discriminate.
    + contradiction.
  - intros b' removed Hrun.
    pose proof (Remove_refines comparator_ value_eqb hash_fn_ BLOCK_ARRAY_SIZE L
                  zero_key zero_value BLOCK_ARRAY_SIZE_pos L_lawful
                  b hid fh frames t key value fuel Hh HN Hcap) as Href.
    destruct (Hash.Remove comparator_ value_eqb hash_fn_ BLOCK_ARRAY_SIZE fuel t key value)
      as [[t' r]| |] eqn:Hlist.
    + destruct Href as (b'' & Hrun' & Hh' & Htouch).
      rewrite Hrun' in Hrun. inversion Hrun; subst b'' r.
      exists t'. split.
      * exists fh, frames. split; [assumption|].
        apply (room_touches b b' fh frames n Htouch); assumption.
      * pose proof Hh as (_ & _ & Hlen & _). pose proof Hh' as (_ & _ & Hlen' & _).
        unfold Hash.NumBlocks. rewrite <- Hlen, <- Hlen'. reflexivity.
    + rewrite Href in Hrun. discriminate.
    + contradiction.
  - intros b' found result Hrun.
    pose proof (GetValue_refines comparator_ hash_fn_ BLOCK_ARRAY_SIZE L
                  BLOCK_ARRAY_SIZE_pos b hid fh frames t key fuel Hh HN Hcap) as Href.
    destruct (Hash.GetValue comparator_ hash_fn_ BLOCK_ARRAY_SIZE fuel t key)
      as [[found' result']| |] eqn:Hlist.
    + destruct Href as (b'' & Hrun' & Hsame).
      rewrite Hrun' in Hrun. inversion Hrun; subst b'' found' result'.
      apply (room_same_content BLOCK_ARRAY_SIZE L b b' hid t n Hsame).
      exists fh, frames. repeat (split; [assumption|]). assumption.
    + rewrite Href in Hrun. discriminate.
    + contradiction.
Qed.

End More.

(** *** The properties at the scenario states *)


Lemma paged_Remove_takes_one_pair_witness :
  exists t',
    Hosting.hosts 2 (Layout.IntLayout 2) (pool_of (int_Remove 2 4 full2 1 10))
      (header_of full2) t' /\
    Hash.NumBlocks t' = Hash.NumBlocks Scenario.full2 /\
    (true = false -> t' = Scenario.full2) /\
    (true = true -> Hash.readable_pairs Scenario.full2 ≡ₚ (1, 10) :: Hash.readable_pairs t').
Proof.
  apply (paged_Remove_takes_one_pair Hash.IntComparator Z.eqb (fun k => k) 2
           (Layout.IntLayout 2) 0 0) with (b := pool_of full2) (fuel := 4%nat).
  - lia.
  - exact (LayoutFacts.IntLayout_lawful 2 PagedScenarioFacts.block_fits_2).
  - exact HashMore.IntComparator_zero_eq.
  - exact HashMore.Z_eqb_true_eq.
  - exact (room_hosts 2 (Layout.IntLayout 2) _ _ _ _ PagedScenarioFacts.full2_hosted).
  - reflexivity.
  - reflexivity.
  - vm_compute. reflexivity.
Defined.

Lemma paged_Insert_adds_new_pair_witness :
  exists b' t',
    Paged.Insert Hash.IntComparator Z.eqb (fun k => k) 4 (Layout.IntLayout 4) 4
      (header_of one_pair) 5 50 (pool_of one_pair)
      = Done (b', header_of one_pair, true) /\
    Hosting.hosts 4 (Layout.IntLayout 4) b' (header_of one_pair) t' /\
    Hash.NumBlocks t'
      = Hash.NumBlocks [[Scenario.fresh; Scenario.live 1 10; Scenario.fresh; Scenario.fresh]] /\
    Hash.readable_pairs t'
      ≡ₚ (5, 50) :: Hash.readable_pairs
                      [[Scenario.fresh; Scenario.live 1 10; Scenario.fresh; Scenario.fresh]].
Proof.
  apply (paged_Insert_adds_new_pair Hash.IntComparator Z.eqb (fun k => k) 4
           (Layout.IntLayout 4) 0 0).
  - lia.
  - exact (LayoutFacts.IntLayout_lawful 4 PagedScenarioFacts.block_fits_4).
  - exact HashMore.IntComparator_zero_eq.
  - exact HashMore.Z_eqb_true_eq.
  - exact (room_hosts 4 (Layout.IntLayout 4) _ _ _ _ PagedScenarioFacts.one_pair_hosted).
  - vm_compute. split; [discriminate | reflexivity].
  - vm_compute. split; [discriminate | reflexivity].
  - reflexivity.
  - reflexivity.
  - reflexivity.
  - vm_compute. intros Hin. apply list_elem_of_singleton in Hin. discriminate Hin.
  - vm_compute. lia.
Defined.



Lemma paged_Insert_then_GetValue_witness :
  exists b1 (ok : bool) b2 (res : list Z),
    Paged.Insert Hash.IntComparator Z.eqb (fun k => k) 4 (Layout.IntLayout 4) 5
      (header_of one_pair) 5 50 (pool_of one_pair)
      = Done (b1, header_of one_pair, ok) /\
    Paged.GetValue Hash.IntComparator (fun k => k) 4 (Layout.IntLayout 4) 5
      (header_of one_pair) 5 b1
      = Done (b2, true, res) /\
    50 ∈ res.
Proof.
  apply (paged_Insert_then_GetValue Hash.IntComparator Z.eqb (fun k => k) 4
           (Layout.IntLayout 4) 0 0) with
    (t := [[Scenario.fresh; Scenario.live 1 10; Scenario.fresh; Scenario.fresh]])
    (q1 := 0) (q2 := 3) (s1 := Scenario.fresh) (s2 := Scenario.fresh).
  - lia.
  - exact (LayoutFacts.IntLayout_lawful 4 PagedScenarioFacts.block_fits_4).
  - exact HashMore.Z_eqb_true_eq.
  - exact HashMore.IntComparator_refl.
  - exact (room_hosts 4 (Layout.IntLayout 4) _ _ _ _ PagedScenarioFacts.one_pair_hosted).
  - vm_compute. split; [discriminate | reflexivity].
  - vm_compute. split; [discriminate | reflexivity].
  - reflexivity.
  - reflexivity.
  - constructor; [|constructor].
    repeat (constructor; [intros H; first [reflexivity | discriminate H]|]). constructor.
  - vm_compute. split; [discriminate | reflexivity].
  - vm_compute. split; [discriminate | reflexivity].
  - lia.
  - reflexivity.
  - reflexivity.
  - reflexivity.
  - reflexivity.
  - vm_compute. lia.
Defined.

Lemma probes_keep_the_room_witness :
  (forall b' ok signalled,
     Paged.InternalInsert Hash.IntComparator Z.eqb (fun k => k) 2 (Layout.IntLayout 2) 4
       (header_of full2) 1 10 (pool_of full2) = Done (b', ok, signalled) ->
     exists t', Hosting.hosts_with_room 2 (Layout.IntLayout 2) b' (header_of full2) t' 3 /\
                Hash.NumBlocks t' = Hash.NumBlocks Scenario.full2) /\
  (forall b' removed,
     Paged.Remove Hash.IntComparator Z.eqb (fun k => k) 2 (Layout.IntLayout 2) 4
       (header_of full2) 1 10 (pool_of full2) = Done (b', removed) ->
     exists t', Hosting.hosts_with_room 2 (Layout.IntLayout 2) b' (header_of full2) t' 3 /\
                Hash.NumBlocks t' = Hash.NumBlocks Scenario.full2) /\
  (forall b' found result,
     Paged.GetValue Hash.IntComparator (fun k => k) 2 (Layout.IntLayout 2) 4
       (header_of full2) 1 (pool_of full2) = Done (b', found, result) ->
     Hosting.hosts_with_room 2 (Layout.IntLayout 2) b' (header_of full2) Scenario.full2 3).
Proof.
  apply (probes_keep_the_room Hash.IntComparator Z.eqb (fun k => k) 2
           (Layout.IntLayout 2) 0 0).
  - lia.
  - exact (LayoutFacts.IntLayout_lawful 2 PagedScenarioFacts.block_fits_2).
  - exact PagedScenarioFacts.full2_hosted.
  - vm_compute. split; [discriminate | reflexivity].
  - vm_compute. split; [discriminate | reflexivity].
  - reflexivity.
  - reflexivity.
Defined.

(** *** Pools without room *)

(** X23: the constructor with two block pages on a pool of two frames
    returns with both block page ids mapped to one frame (the second
    [NewPage] evicts the first block page and keeps its page-table
    entry).  After [Insert(1, 11); Insert(0, 10)] with block pages of two
    slots, [GetValue(1)] returns 11 twice, once from each block page id. *)
Lemma two_frame_pool_shares_a_frame :
  (let st := int_new 2 2 2 in
   page_table_ (pool_of st) !! 1 = Some 1 /\ page_table_ (pool_of st) !! 2 = Some 1) /\
  int_GetValue 2 8 crowded 1 = Done (true, [11; 11]).
Proof.
  split; [split; vm_compute; reflexivity|].
  vm_compute; reflexivity.
Qed.

(** X24: scenario 6 of the spec on a pool of four frames: the table is
    hosted, its two pairs are distinct, but the free list holds two
    frames where [Resize] takes three; the third [NewPage] evicts the
    old block page, and after [Resize(GetSize())] the table of two block
    pages holds no pair. *)
Lemma Resize_on_four_frames_loses_pairs :
  let st := int_Insert 2 4 (int_Insert 2 4 (int_new 2 4 1) 2 20) 1 10 in
  int_contents 2 st = Some Scenario.full2 /\
  free_list_ (pool_of st) = [2; 3] /\
  exists t',
    int_contents 2 (int_Resize 2 8 st) = Some t' /\
    Hash.NumBlocks t' = 2 /\
    Hash.readable_pairs t' = [] /\
    int_GetValue 2 8 (int_Resize 2 8 st) 2 = Done (false, []) /\
    int_GetValue 2 8 (int_Resize 2 8 st) 1 = Done (false, []).
Proof.
  cbv zeta.
  split; [vm_compute; reflexivity|].
  split; [vm_compute; reflexivity|].
  eexists. split; [vm_compute; reflexivity|].
  split; [vm_compute; reflexivity|].
  split; [vm_compute; reflexivity|].
  split; vm_compute; reflexivity.
Qed.

End PagedMore.
